(* ===== verification/_CoqProject ===== *)
-Q . S2P
Prelude.v
GoStrings.v
GoPath.v
GoURL.v
GitRef.v
State.v
Bus.v
Sched.v
Base64.v
Crypto.v
Masking.v
Metrics.v
Db.v
Effects.v
Git.v
Docker.v
Stacks.v
Sync.v
Footprint.v
Applying.v
Pull.v
Locking.v
Outcome.v
Secrets.v
Http.v
EventStream.v
Streams.v
Session.v
Server.v
Settings.v
System.v
Queue.v
Dedup.v
Invariants.v
Token.v
Boot.v
Startup.v
Responses.v
Registration.v
Round.v
