(* ===== verification/Prelude.v ===== *)
(** * stackd: a verification development

    stackd is a GitOps daemon written in Go.  It keeps clones of a set of git
    repositories up to date and runs [docker compose up] for every directory of a
    clone that holds a compose file, when a pull brought a new commit or on request.
    An HTTP server shows the state, streams logs and activity, opens a web shell,
    and changes the settings, which live in a SQLite or Postgres database.

    ** How the program is modelled

    A function without side effects is a Rocq function on the same data: strings
    are byte strings, integers are [Z] with their wrap-around written out
    ([wrap64]), times are nanoseconds since Go's zero time, [(value, error)] pairs
    are [result]s.  A function that does I/O is a [prog] (Effects.v): a tree of calls to
    the outside world ([Ask]: clock, environment, files, processes, database
    verdicts, Docker API, and the lines it logs), each with an arbitrary answer, and
    of atomic steps on the memory the goroutines share ([Mem]: the store, the
    backoffs, the schedule, the repository mutexes, the metrics, the Docker client,
    the database, the queue of sync requests, the token, the applies under way).
    One atomic step is one critical section of the source; a step that has no result
    blocks.

    A program is run against an [Oracle] ([run]), which answers the calls and lets
    other goroutines change the memory between any two steps; observed at any point
    of a run that need not end ([pending]) and where it blocks ([blocked]); or
    interleaved with any number of others ([preachable]).  [wp] is a rely/guarantee logic that is sound for all three
    ([wp_run], [wp_pending], [par_safe]); [shaped] says which calls and steps a program
    can make at all; [psim] relates programs an observer cannot tell apart.

    ** The files, and the code they model

    - Prelude.v: results, byte strings, tactics.  GoStrings.v, GoPath.v, GoURL.v,
      Base64.v: what the source uses of the packages strings, strconv,
      path/filepath, net/url and encoding/base64.
    - GitRef.v: internal/git/git.go, validation and redaction.  Git.v: its commands, and
      internal/execpg, the settings of child processes.
    - State.v, Bus.v: internal/state/state.go, the store and the activity bus.
    - Sched.v: main.go, backoff and due times, and where a clone lies on disk.
    - Crypto.v: internal/crypto/crypto.go.  AES-GCM is the interface [AEAD] with its laws
      [AEADLaws], HKDF a parameter.
    - Masking.v: main.go and internal/docker/client.go, what is hidden from output.
    - Metrics.v: internal/metrics/metrics.go.
    - Db.v: internal/db, the tables, every statement, placeholders, migrations.
    - Docker.v: internal/docker, the client and its holder.
    - Stacks.v: main.go, discovering and applying the stacks of a clone.
    - Sync.v: main.go, one synchronisation ([syncRepoFromDB]), the apply callback, a round,
      a turn of the main loop, the startup scan.
    - Http.v: internal/server/server.go, routes, authentication, origin check, rate
      limiter, event framing, status report.  EventStream.v, Streams.v: the log and
      activity streams, with the parser of event streams and the JSON decoder they
      are compared with.  Session.v: the web shell.  Server.v: the handlers that act on
      the running daemon.  Settings.v: internal/server/settings_handlers.go.
    - Boot.v: [db.Open] and [main] up to its loop.
    - System.v: the main goroutine and API requests together.

    The remaining files hold proofs: Footprint.v (which calls and steps each function can
    make), Applying.v, Pull.v, Outcome.v, Round.v, Locking.v, Secrets.v, Queue.v, Dedup.v,
    Invariants.v, Token.v, Startup.v, Responses.v, Registration.v.

    ** What the theorems show

    - One sync, in full (Git, Pull, Applying, Outcome).  Its trace is determined by the
      answers in it: the credentials of the pull, its git commands up to the first
      that fails ([pull_trace]), the reading of the commit, and the scan if the
      commit is new ([sync_trace]).  The end of the trace ([SyncEnd]) determines the
      store, backoff, schedule and metrics afterwards ([after]).  A scan applies exactly
      the stack directories.
    - One turn of the main loop (Round): which of the listed repositories a round
      synchronises, by the readings of the clock in its trace, and which the loop
      synchronises on request, each decided by its own entries in the store, the
      backoffs and the schedule.
    - Concurrency (System, Dedup, Bus, Queue, Session): git runs in a clone only under its
      lock; no deadlock; a stack is applied by one request at a time; the bus never
      panics and delivers, in order, exactly what was published while there was room
      ([offered] records it); a sync request is answered by the handler's own steps
      ([own_steps]), and an accepted one is served; a web shell copies faithfully and
      comes to an end.  There, a write to the terminal or to the WebSocket is a step
      of the environment, for no deadline is set and it may never return.
    - Security (Secrets, Http, Token, Responses, Startup, GitRef, Masking): decrypted keys are
      removed, and only ever written to a private directory; what secrets are cannot
      be told from command lines, logs, state or API responses; the API is closed
      without the token, and the token is never empty; URLs and paths are confined;
      credentials are redacted, and the text around them is kept.
    - Data (Db, Invariants, Registration, State, Crypto): repositories stay valid whatever the
      requests; what each writing request stores and answers, error by error;
      round trips of rows and of encryption; opening the database leaks no
      connection and loses no data.
    - Arithmetic and text (Sched, Metrics, Masking, EventStream): backoff and its overflow,
      spacing of requests, escaping, and round trips through JSON and event streams.

    ** Bounds and fuel

    The main loop of the source is [for {}]; [main_loop] takes the number of its turns,
    and the theorems hold for every number.  [drainLoop] takes the number of receives; the
    channel holds 16 names ([trigger_cap]), so 16 receives empty what was there when
    the loop woke up ([sync_queue]).  Other recursions are structural, or have fuel that
    their lemmas show to be enough ([digits_go] in GoStrings.v).

    ** What is assumed

    The interfaces [AEAD] and [AEADLaws] (decryption undoes encryption, with witnesses for a
    concrete cipher), that [crypto/rand] gives as many bytes as asked for ([rand_ok]), and
    where a theorem says so, what other goroutines leave alone meanwhile.  The parsing
    of IP literals, of SSH keys and of JSON request bodies are arguments.

    ** Not modelled

    - The user interface, a TypeScript application; internal/ui embeds its files.
    - The HTTP listener, signal handling and the slog handlers: calls to the standard
      library.  What is logged is modelled ([Log], with its level, message and fields),
      except by the listener, by the encoder of the status report and by a web shell.
    - Timeouts of contexts appear as errors of the calls they limit, not as time.
    - [injectPAT] of internal/git is used by tests only; on other systems than Unix
      internal/execpg sets no process group.
    - The interleaving theorems let requests arrive before the startup scan has ended,
      although the server starts after it: more interleavings than there are. *)
From stdpp Require Export base list strings gmap sets.
From Stdlib Require Export ZArith Lia.
From Stdlib Require Import Ascii.

#[global] Open Scope Z_scope.

(** ** Tactics *)

Ltac inverts H := inversion H; subst; clear H.

(** Split every conjunction of the goal and every conjunction, existential and
    equality of the context. *)
Ltac crush := repeat (destruct_and? || destruct_or? || simplify_eq/= || case_match || split); eauto.

(** Case analysis on the boolean tests of a handler, one at a time. *)
Ltac case_bool :=
  match goal with
  | |- context [if ?b then _ else _] =>
      lazymatch type of b with
      | bool => let E := fresh "E" in destruct b eqn:E
      end
  end.

Tactic Notation "case_bool" "in" hyp(H) :=
  match type of H with
  | context [if ?b then _ else _] =>
      lazymatch type of b with
      | bool => let E := fresh "E" in destruct b eqn:E
      end
  end.

Create HintDb stackd.

#[global] Arguments String.eqb : simpl never.
#[global] Arguments Ascii.eqb : simpl never.

(** ** Results: Go's (value, error) pairs *)

(** An error value: its text, and whether [errors.Is(err, sql.ErrNoRows)]. *)
Record GoError := mkErr { err_text : string; err_norows : bool }.

#[export] Instance GoError_eq_dec : EqDecision GoError.
Proof. solve_decision. Defined.

Inductive result (A : Type) : Type :=
| Ok (a : A)
| Err (e : GoError).
Arguments Ok {A} a.
Arguments Err {A} e.

Definition is_ok {A} (r : result A) : bool := match r with Ok _ => true | Err _ => false end.

(** [fmt.Errorf("pfx: %w", err)]. *)
Definition wrap (pfx : string) (e : GoError) : GoError :=
  {| err_text := pfx +:+ err_text e; err_norows := err_norows e |}.
(** [fmt.Errorf] without a wrapped error. *)
Definition errorf (s : string) : GoError := {| err_text := s; err_norows := false |}.

#[export] Instance result_ret : MRet result := fun A => @Ok A.
#[export] Instance result_bind : MBind result :=
  fun A B f r => match r with Ok a => f a | Err e => Err e end.

(** ** Byte strings: Go's [string] is a sequence of bytes, Rocq's [string] too *)

Lemma str_app_nil_r s : (s +:+ "")%string = s.
Proof. induction s as [|c s IH]; [done|]. simpl. unfold String.app in *. simpl. by rewrite IH. Qed.

Lemma str_app_cons c s t : (String c s +:+ t)%string = String c (s +:+ t).
Proof. done. Qed.
Lemma str_app_nil_l s : ("" +:+ s)%string = s.
Proof. done. Qed.
Lemma str_app_assoc s t u : ((s +:+ t) +:+ u)%string = (s +:+ (t +:+ u))%string.
Proof.
  induction s as [|c s IH]; [done|].
  by rewrite !str_app_cons, IH.
Qed.
Lemma str_length_app s t : String.length (s +:+ t) = (String.length s + String.length t)%nat.
Proof.
  induction s as [|c s IH]; [done|].
  rewrite str_app_cons; simpl. lia.
Qed.
Lemma str_app_inv_l s t u : (s +:+ t)%string = (s +:+ u)%string -> t = u.
Proof. apply (inj (String.app s)). Qed.
Lemma str_app_eq_nil s t : (s +:+ t)%string = "" -> s = "" /\ t = "".
Proof. destruct s; [done|]. rewrite str_app_cons. done. Qed.

Create Rewrite HintDb strings.
#[export] Hint Rewrite str_app_nil_r str_app_cons str_app_nil_l str_app_assoc str_length_app : strings.

Lemma andb_True_iff (a b : bool) : a && b = true <-> a = true /\ b = true.
Proof. by rewrite andb_true_iff. Qed.

(** Turn boolean hypotheses and goals into propositions. *)
Ltac bool_prop :=
  repeat (rewrite ?andb_true_iff, ?orb_true_iff, ?andb_false_iff, ?orb_false_iff,
    ?negb_true_iff, ?negb_false_iff, ?Z.leb_le, ?Z.ltb_lt, ?Z.leb_gt, ?Z.ltb_ge,
    ?Z.eqb_eq, ?Z.eqb_neq, ?String.eqb_eq, ?String.eqb_neq, ?Ascii.eqb_eq, ?Ascii.eqb_neq in *).
