(* ===== verification/GoStrings.v ===== *)
(** * Go's [strings], [strconv] and [fmt] functions, as far as the source uses them

    A Go [string] is a sequence of bytes; it is modelled by Rocq's [string],
    whose characters are the 256 byte values.  Everything here is executable. *)
From S2P Require Import Prelude.
From Stdlib Require Import Ascii.

(** ** Bytes *)

Definition byte_val (c : ascii) : Z := Z.of_N (N_of_ascii c).
Definition in_range (lo hi : Z) (c : ascii) : bool :=
  (lo <=? byte_val c) && (byte_val c <=? hi).
Definition is_digit (c : ascii) : bool := in_range 48 57 c.
Definition is_upper (c : ascii) : bool := in_range 65 90 c.
Definition is_lower (c : ascii) : bool := in_range 97 122 c.
Definition is_alnum (c : ascii) : bool := is_digit c || is_upper c || is_lower c.
(** [\s] of RE2: tab, newline, form feed, carriage return, space. *)
Definition is_re_space (c : ascii) : bool :=
  let v := byte_val c in (v =? 9) || (v =? 10) || (v =? 12) || (v =? 13) || (v =? 32).
(** The ASCII white space of [unicode.IsSpace]. *)
Definition is_ascii_space (c : ascii) : bool :=
  let v := byte_val c in (9 <=? v) && (v <=? 13) || (v =? 32).

Definition nl : ascii := "010"%char.
Definition dquote : ascii := "034"%char.
Definition backslash : ascii := "092"%char.
Definition str1 (c : ascii) : string := String c "".
Definition NL : string := str1 nl.

Fixpoint str_forallb (p : ascii -> bool) (s : string) : bool :=
  match s with "" => true | String c s => p c && str_forallb p s end.
Fixpoint str_existsb (p : ascii -> bool) (s : string) : bool :=
  match s with "" => false | String c s => p c || str_existsb p s end.
Fixpoint str_filter (p : ascii -> bool) (s : string) : string :=
  match s with
  | "" => ""
  | String c s => if p c then String c (str_filter p s) else str_filter p s
  end.
Fixpoint str_map (f : ascii -> ascii) (s : string) : string :=
  match s with "" => "" | String c s => String (f c) (str_map f s) end.
(** The longest prefix whose bytes satisfy [p], and the rest. *)
Fixpoint span (p : ascii -> bool) (s : string) : string * string :=
  match s with
  | "" => ("", "")
  | String c t => if p c then let '(a, b) := span p t in (String c a, b) else ("", s)
  end.
Definition len (s : string) : Z := Z.of_nat (String.length s).

(** ** package strings *)

Fixpoint has_prefix (s p : string) {struct p} : bool :=
  match p, s with
  | "", _ => true
  | String a p, String b s => Ascii.eqb a b && has_prefix s p
  | _, _ => false
  end.
Fixpoint has_suffix (s p : string) : bool :=
  String.eqb s p || match s with "" => false | String _ s => has_suffix s p end.
Fixpoint contains (s sub : string) : bool :=
  has_prefix s sub || match s with "" => false | String _ s => contains s sub end.
Fixpoint drop (n : nat) (s : string) : string :=
  match n, s with
  | O, _ => s
  | S n, String _ s => drop n s
  | S _, "" => ""
  end.
Fixpoint take (n : nat) (s : string) : string :=
  match n, s with S n, String c s => String c (take n s) | _, _ => "" end.
Definition trim_prefix (s p : string) : string :=
  if has_prefix s p then drop (String.length p) s else s.

(** [strings.Cut(s, sep)]: before, after, found. *)
Fixpoint cut (s sep : string) : string * string * bool :=
  if has_prefix s sep then ("", drop (String.length sep) s, true)
  else match s with
       | "" => ("", "", false)
       | String c t =>
           let '(a, b, f) := cut t sep in
           if f then (String c a, b, true) else (s, "", false)
       end.
(** [strings.Index(s, sub)], [None] for -1. *)
Fixpoint index (s sub : string) : option nat :=
  if has_prefix s sub then Some O
  else match s with "" => None | String _ t => S <$> index t sub end.

(** [strings.Split(s, sep)] for a one-byte separator: never the empty list. *)
Fixpoint split (c : ascii) (s : string) : list string :=
  match s with
  | "" => [""]
  | String a t =>
      if Ascii.eqb a c then "" :: split c t
      else match split c t with
           | [] => [String a ""]
           | w :: ws => String a w :: ws
           end
  end.
Fixpoint join (sep : string) (l : list string) : string :=
  match l with
  | [] => ""
  | [w] => w
  | w :: ws => w +:+ sep +:+ join sep ws
  end.

Fixpoint trim_left_byte (c : ascii) (s : string) : string :=
  match s with
  | String a t => if Ascii.eqb a c then trim_left_byte c t else s
  | "" => ""
  end.
(** [strings.TrimRight(s, c)] for a one-byte cutset. *)
Definition trim_right_byte (c : ascii) (s : string) : string :=
  String.rev (trim_left_byte c (String.rev s)).

(** The multi-byte runes of [unicode.IsSpace], as UTF-8: U+0085, U+00A0, U+1680,
    U+2000-U+200A, U+2028, U+2029, U+202F, U+205F, U+3000.  A lead byte cannot be
    a continuation byte, so matching bytes agrees with decoding runes. *)
Definition is_space2 (a b : ascii) : bool :=
  (byte_val a =? 194) && ((byte_val b =? 133) || (byte_val b =? 160)).
Definition is_space3 (a b c : ascii) : bool :=
  let '(x, y, z) := (byte_val a, byte_val b, byte_val c) in
  (x =? 225) && (y =? 154) && (z =? 128)
  || (x =? 226) && (y =? 128)
     && ((128 <=? z) && (z <=? 138) || (z =? 168) || (z =? 169) || (z =? 175))
  || (x =? 226) && (y =? 129) && (z =? 159)
  || (x =? 227) && (y =? 128) && (z =? 128).

Fixpoint trim_left_space (s : string) : string :=
  match s with
  | "" => ""
  | String a t =>
      if is_ascii_space a then trim_left_space t
      else match t with
           | String b u =>
               if is_space2 a b then trim_left_space u
               else match u with
                    | String c v => if is_space3 a b c then trim_left_space v else s
                    | "" => s
                    end
           | "" => s
           end
  end.
(** The same on a reversed string, whose runes are read back to front. *)
Fixpoint trim_left_space_rev (s : string) : string :=
  match s with
  | "" => ""
  | String a t =>
      if is_ascii_space a then trim_left_space_rev t
      else match t with
           | String b u =>
               if is_space2 b a then trim_left_space_rev u
               else match u with
                    | String c v => if is_space3 c b a then trim_left_space_rev v else s
                    | "" => s
                    end
           | "" => s
           end
  end.
Definition trim_right_space (s : string) : string :=
  String.rev (trim_left_space_rev (String.rev s)).
(** [strings.TrimSpace]. *)
Definition trim_space (s : string) : string := trim_right_space (trim_left_space s).

(** [strings.ToUpper] and [strings.ToLower].  ASCII letters are mapped, and so
    are the non-ASCII runes whose image is an ASCII letter (U+0131 and U+017F
    upwards, U+0130 and U+212A downwards).  The other runes map to non-ASCII
    runes and are left alone: every use in the source goes on to look at ASCII
    characters only. *)
Definition upper_byte (c : ascii) : ascii :=
  if is_lower c then ascii_of_N (N_of_ascii c - 32) else c.
Definition lower_byte (c : ascii) : ascii :=
  if is_upper c then ascii_of_N (N_of_ascii c + 32) else c.
Fixpoint to_upper (s : string) : string :=
  match s with
  | "" => ""
  | String a t =>
      match t with
      | String b u =>
          if (byte_val a =? 196) && (byte_val b =? 177) then String "I" (to_upper u)
          else if (byte_val a =? 197) && (byte_val b =? 191) then String "S" (to_upper u)
          else String (upper_byte a) (to_upper t)
      | "" => String (upper_byte a) ""
      end
  end.
Fixpoint to_lower (s : string) : string :=
  match s with
  | "" => ""
  | String a t =>
      match t with
      | String b u =>
          if (byte_val a =? 196) && (byte_val b =? 176) then String "i" (to_lower u)
          else match u with
               | String c v =>
                   if (byte_val a =? 226) && (byte_val b =? 132) && (byte_val c =? 170)
                   then String "k" (to_lower v)
                   else String (lower_byte a) (to_lower t)
               | "" => String (lower_byte a) (to_lower t)
               end
      | "" => String (lower_byte a) ""
      end
  end.

(** ** package strconv *)

Definition digit_val (c : ascii) : option Z :=
  if is_digit c then Some (byte_val c - 48) else None.
Fixpoint parse_digits (acc : Z) (s : string) : option Z :=
  match s with
  | "" => Some acc
  | String c s => d ← digit_val c; parse_digits (10 * acc + d) s
  end.
Definition int64_min : Z := - 2 ^ 63.
Definition int64_max : Z := 2 ^ 63 - 1.
Definition in_int64 (z : Z) : bool := (int64_min <=? z) && (z <=? int64_max).
(** [strconv.Atoi]: an optional sign, at least one digit, within [int]. *)
Definition parse_unsigned (s : string) : option Z :=
  match s with "" => None | _ => parse_digits 0 s end.
Definition Atoi (s : string) : option Z :=
  let r := match s with
           | String "+" t => parse_unsigned t
           | String "-" t => Z.opp <$> parse_unsigned t
           | _ => parse_unsigned s
           end in
  match r with Some z => if in_int64 z then Some z else None | None => None end.

Definition digit_char (d : Z) : ascii := ascii_of_N (Z.to_N (48 + d)).
(** Decimal digits, least significant first in the accumulator's order. *)
Fixpoint digits_go (fuel : nat) (z : Z) (acc : string) : string :=
  match fuel with
  | O => acc
  | S fuel =>
      let acc := String (digit_char (z mod 10)) acc in
      if z <? 10 then acc else digits_go fuel (z / 10) acc
  end.
Definition digits_of (z : Z) : string := digits_go (S (Z.to_nat (Z.log2 z))) z "".
(** [strconv.Itoa] and the [%d] verb. *)
Definition Itoa (z : Z) : string :=
  if z <? 0 then String "-" (digits_of (- z)) else digits_of z.

(** ** Machine integers: [int], [int64] and [time.Duration] wrap around *)

Definition wrap64 (z : Z) : Z := (z + 2 ^ 63) mod 2 ^ 64 - 2 ^ 63.

(** ** The [%q] verb.  Non-ASCII runes are taken to be printable. *)
Definition hex_digit (d : Z) : ascii :=
  if d <? 10 then ascii_of_N (Z.to_N (48 + d)) else ascii_of_N (Z.to_N (87 + d)).
Definition quote_byte (c : ascii) : string :=
  let v := byte_val c in
  if Ascii.eqb c dquote || Ascii.eqb c backslash then String backslash (str1 c)
  else if v =? 7 then String backslash "a"
  else if v =? 8 then String backslash "b"
  else if v =? 12 then String backslash "f"
  else if v =? 10 then String backslash "n"
  else if v =? 13 then String backslash "r"
  else if v =? 9 then String backslash "t"
  else if v =? 11 then String backslash "v"
  else if (v <? 32) || (v =? 127)
  then String backslash (String "x" (String (hex_digit (v / 16)) (str1 (hex_digit (v mod 16)))))
  else str1 c.
Fixpoint quote_body (s : string) : string :=
  match s with "" => "" | String c s => quote_byte c +:+ quote_body s end.
Definition quote (s : string) : string := String dquote (quote_body s) +:+ str1 dquote.

(** ** Lemmas *)

Lemma str_forallb_app p s t :
  str_forallb p (s +:+ t) = str_forallb p s && str_forallb p t.
Proof.
  induction s as [|c s IH]; [done|].
  autorewrite with strings; simpl. by rewrite IH, andb_assoc.
Qed.
Lemma str_existsb_app p s t :
  str_existsb p (s +:+ t) = str_existsb p s || str_existsb p t.
Proof.
  induction s as [|c s IH]; [done|].
  autorewrite with strings; simpl. by rewrite IH, orb_assoc.
Qed.
Lemma str_existsb_forallb p s : str_existsb p s = negb (str_forallb (negb ∘ p) s).
Proof. induction s as [|c s IH]; [done|]; simpl. rewrite IH. by destruct (p c). Qed.
Lemma str_forallb_impl (p q : ascii -> bool) s :
  (forall c, p c = true -> q c = true) -> str_forallb p s = true -> str_forallb q s = true.
Proof.
  intros H. induction s as [|c s IH]; [done|]; simpl.
  rewrite !andb_true_iff. naive_solver.
Qed.
Lemma str_filter_forallb p s : str_forallb p (str_filter p s) = true.
Proof. induction s as [|c s IH]; [done|]; simpl. destruct (p c) eqn:E; simpl; [by rewrite E|done]. Qed.
Lemma str_filter_id p s : str_forallb p s = true -> str_filter p s = s.
Proof.
  induction s as [|c s IH]; [done|]; simpl.
  intros [-> H]%andb_true_iff. by rewrite IH.
Qed.

Lemma span_app p s : let '(a, b) := span p s in s = (a +:+ b)%string.
Proof.
  induction s as [|c s IH]; [done|]; simpl.
  destruct (p c); [|done]. destruct (span p s) as [a b]. by rewrite str_app_cons, <- IH.
Qed.
Lemma span_forallb p s : str_forallb p (span p s).1 = true.
Proof.
  induction s as [|c s IH]; [done|]; simpl.
  destruct (p c) eqn:E; [|done]. destruct (span p s) as [a b]. simpl in *. by rewrite E.
Qed.
Lemma span_stop p s c r : (span p s).2 = String c r -> p c = false.
Proof.
  induction s as [|d s IH]; simpl; [done|].
  destruct (p d) eqn:E; [|by intros [= -> ->]].
  destruct (span p s) as [a b]; simpl in *. auto.
Qed.
(** [span] of a run followed by a byte outside the class returns that run. *)
Lemma span_run p a c r :
  str_forallb p a = true -> p c = false -> span p (a +:+ String c r) = (a, String c r).
Proof.
  induction a as [|d a IH]; intros Ha Hc.
  { autorewrite with strings; simpl. by rewrite Hc. }
  autorewrite with strings; simpl in *. apply andb_true_iff in Ha as [-> Ha].
  by rewrite IH.
Qed.
Lemma span_all p a : str_forallb p a = true -> span p a = (a, "").
Proof.
  induction a as [|d a IH]; intros Ha; [done|]; simpl in *.
  apply andb_true_iff in Ha as [-> Ha]. by rewrite IH.
Qed.

Lemma has_prefix_iff s p : has_prefix s p = true <-> exists r, s = (p +:+ r)%string.
Proof.
  revert s. induction p as [|a p IH]; intros s; simpl.
  { split; [by exists s|]. intros _. by destruct s. }
  destruct s as [|b s].
  { split; [done|]. intros [r Hr]. done. }
  simpl. rewrite andb_true_iff, Ascii.eqb_eq, IH. split.
  - intros [-> [r ->]]. by exists r.
  - intros [r Hr]. autorewrite with strings in Hr. simplify_eq. split; [done|by exists r].
Qed.
Lemma has_prefix_app p r : has_prefix (p +:+ r) p = true.
Proof. apply has_prefix_iff. by exists r. Qed.
Lemma has_suffix_app s p : has_suffix (s +:+ p) p = true.
Proof.
  induction s as [|c s IH]; simpl; [|by rewrite IH, orb_true_r].
  rewrite str_app_nil_l. destruct p; [done|]. cbn [has_suffix]. by rewrite String.eqb_refl.
Qed.
Lemma drop_app p r : drop (String.length p) (p +:+ r) = r.
Proof. induction p as [|c p IH]; [done|]. autorewrite with strings. apply IH. Qed.
Lemma trim_prefix_app p r : trim_prefix (p +:+ r) p = r.
Proof. unfold trim_prefix. by rewrite has_prefix_app, drop_app. Qed.

Lemma contains_iff s sub : contains s sub = true <-> exists a b, s = (a +:+ sub +:+ b)%string.
Proof.
  induction s as [|c s IH]; simpl; rewrite orb_true_iff, has_prefix_iff.
  - split.
    + intros [[r ->]|]; [|done]. by exists "", r.
    + intros (a & b & Hab). left. symmetry in Hab.
      apply str_app_eq_nil in Hab as [-> Hab]. by exists b.
  - rewrite IH. split.
    + intros [[r ->]|(a & b & ->)]; [by exists "", r|by exists (String c a), b].
    + intros (a & b & Hab). destruct a as [|d a].
      * left. by exists b.
      * right. autorewrite with strings in Hab. simplify_eq. by exists a, b.
Qed.
Lemma contains_app_l s t sub : contains s sub = true -> contains (s +:+ t) sub = true.
Proof.
  rewrite !contains_iff. intros (a & b & ->). exists a, (b +:+ t)%string.
  by autorewrite with strings.
Qed.

Lemma cut_spec s sep a f b :
  cut s sep = (a, f, b) ->
  (b = false /\ a = s /\ f = "") \/ (b = true /\ s = (a +:+ sep +:+ f)%string).
Proof.
  revert a f b. induction s as [|c s IH]; intros a f b; cbn [cut].
  - destruct (has_prefix "" sep) eqn:E.
    + apply has_prefix_iff in E as [r Hr]. intros [= <- <- <-]. right. split; [done|].
      symmetry in Hr. apply str_app_eq_nil in Hr as [-> ->]. done.
    + intros [= <- <- <-]. by left.
  - destruct (has_prefix (String c s) sep) eqn:E.
    + apply has_prefix_iff in E as [r Hr]. intros [= <- <- <-]. right. split; [done|].
      by rewrite Hr, drop_app.
    + destruct (cut s sep) as [[a' f'] b'] eqn:Hc. destruct b'; intros [= <- <- <-]; [|by left].
      right. split; [done|]. destruct (IH _ _ _ eq_refl) as [(? & _)|(_ & ->)]; [done|].
      by rewrite str_app_cons.
Qed.

(** *** Split and join *)
Lemma split_nonempty c s : split c s <> [].
Proof. destruct s as [|a s]; simpl; [done|]. destruct (Ascii.eqb a c), (split c s); done. Qed.
Lemma join_split c s : join (str1 c) (split c s) = s.
Proof.
  induction s as [|a s IH]; [done|]; simpl.
  pose proof (split_nonempty c s). destruct (Ascii.eqb a c) eqn:E.
  - apply Ascii.eqb_eq in E as ->. rewrite <- IH at 2. destruct (split c s); [done|].
    reflexivity.
  - rewrite <- IH at 2. destruct (split c s) as [|w ws]; [done|].
    destruct ws; [done|]. reflexivity.
Qed.
Lemma split_no_sep c s w : w ∈ split c s -> str_forallb (fun a => negb (Ascii.eqb a c)) w = true.
Proof.
  revert w. induction s as [|a s IH]; simpl; intros w.
  { rewrite list_elem_of_singleton. by intros ->. }
  destruct (Ascii.eqb a c) eqn:E.
  - rewrite elem_of_cons. intros [->|H]; [done|auto].
  - destruct (split c s) as [|v vs].
    { rewrite list_elem_of_singleton. intros ->. simpl. by rewrite E. }
    rewrite elem_of_cons. intros [->|H].
    + simpl. rewrite E. simpl. apply IH. left.
    + apply IH. by right.
Qed.
Lemma split_no_sep_id c s :
  str_forallb (fun a => negb (Ascii.eqb a c)) s = true -> split c s = [s].
Proof.
  induction s as [|a s IH]; [done|]; simpl.
  intros [Ha Hs]%andb_true_iff. apply negb_true_iff in Ha. by rewrite Ha, IH.
Qed.
Lemma split_app_sep c s t :
  split c (s +:+ String c t) = split c s ++ split c t.
Proof.
  induction s as [|a s IH].
  { autorewrite with strings; simpl. by rewrite Ascii.eqb_refl. }
  autorewrite with strings; simpl. destruct (Ascii.eqb a c); [by rewrite IH|].
  rewrite IH. pose proof (split_nonempty c s). by destruct (split c s).
Qed.
Lemma split_join c l :
  l <> [] -> Forall (fun w => str_forallb (fun a => negb (Ascii.eqb a c)) w = true) l ->
  split c (join (str1 c) l) = l.
Proof.
  intros _Hl Hl. induction Hl as [|w l Hw Hl IH]; [done|].
  destruct l as [|v l]; [by apply split_no_sep_id|].
  simpl join. change (str1 c) with (String c "") at 1. rewrite str_app_cons, str_app_nil_l.
  rewrite split_app_sep, split_no_sep_id by done. simpl. f_equal. by apply IH.
Qed.

(** *** [Atoi] undoes [Itoa] *)
Lemma digit_char_val d : 0 <= d < 10 -> digit_val (digit_char d) = Some d.
Proof.
  intros H. assert (d ∈ [0;1;2;3;4;5;6;7;8;9]) as Hin.
  { rewrite !elem_of_cons. lia. }
  clear H. repeat (apply elem_of_cons in Hin as [->|Hin]; [reflexivity|]). by apply elem_of_nil in Hin.
Qed.
Lemma digit_char_is_digit d : 0 <= d < 10 -> is_digit (digit_char d) = true.
Proof. intros H. apply digit_char_val in H. unfold digit_val in H. by case_match. Qed.

Lemma digits_go_parse fuel z acc :
  0 <= z < 2 ^ Z.of_nat fuel ->
  parse_digits 0 (digits_go fuel z acc) = parse_digits z acc.
Proof.
  revert z acc. induction fuel as [|fuel IH]; intros z acc Hz.
  { change (2 ^ Z.of_nat 0) with 1 in Hz. by replace z with 0 by lia. }
  pose proof (Z.mod_pos_bound z 10). cbn [digits_go].
  destruct (z <? 10) eqn:E; bool_prop.
  - cbn [parse_digits]. rewrite digit_char_val by lia. cbn. f_equal.
    rewrite Z.mod_small by lia. lia.
  - rewrite Nat2Z.inj_succ, Z.pow_succ_r in Hz by lia.
    rewrite IH.
    + cbn [parse_digits]. rewrite digit_char_val by lia. cbn. f_equal.
      pose proof (Z.div_mod z 10). lia.
    + split; [apply Z.div_pos; lia|]. apply Z.div_lt_upper_bound; lia.
Qed.
Lemma digits_go_digits fuel z acc :
  0 <= z -> str_forallb is_digit acc = true ->
  str_forallb is_digit (digits_go fuel z acc) = true.
Proof.
  revert z acc. induction fuel as [|fuel IH]; intros z acc Hz Hacc; [done|]. cbn [digits_go].
  assert (str_forallb is_digit (String (digit_char (z mod 10)) acc) = true) as Hd.
  { simpl. rewrite digit_char_is_digit; [done|]. by apply Z.mod_pos_bound. }
  case_bool; [done|]. apply IH; [|done]. by apply Z.div_pos.
Qed.
Lemma digits_go_cons fuel z acc : acc <> "" -> digits_go fuel z acc <> "".
Proof.
  revert z acc. induction fuel as [|fuel IH]; intros z acc Hacc; [done|].
  cbn [digits_go]. case_bool; [done|]. by apply IH.
Qed.
Lemma digits_of_nonempty z : digits_of z <> "".
Proof. unfold digits_of. cbn [digits_go]. case_bool; [done|]. by apply digits_go_cons. Qed.
Lemma digits_of_digits z : 0 <= z -> str_forallb is_digit (digits_of z) = true.
Proof. intros. by apply digits_go_digits. Qed.
Lemma digits_of_parse z : 0 <= z -> parse_unsigned (digits_of z) = Some z.
Proof.
  intros Hz. unfold parse_unsigned. pose proof (digits_of_nonempty z).
  destruct (digits_of z) as [|c s] eqn:E; [done|]. rewrite <- E.
  unfold digits_of. rewrite digits_go_parse; [done|].
  destruct (decide (z = 0)) as [->|]; [done|].
  pose proof (Z.log2_spec z). pose proof (Z.log2_nonneg z).
  rewrite Nat2Z.inj_succ, Z2Nat.id by lia. lia.
Qed.
Lemma parse_unsigned_sign z :
  0 <= z ->
  match digits_of z with String c _ => c <> "+"%char /\ c <> "-"%char | _ => True end.
Proof.
  intros Hz. pose proof (digits_of_digits z Hz) as H.
  destruct (digits_of z) as [|c s]; [done|]. simpl in H. apply andb_true_iff in H as [H _].
  split; by intros ->.
Qed.
Lemma Atoi_Itoa z : in_int64 z = true -> Atoi (Itoa z) = Some z.
Proof.
  intros Hz. unfold Itoa. destruct (z <? 0) eqn:E; bool_prop.
  - unfold Atoi. rewrite digits_of_parse by lia. simpl. by rewrite Z.opp_involutive, Hz.
  - pose proof (parse_unsigned_sign z ltac:(lia)) as Hs.
    pose proof (digits_of_parse z ltac:(lia)) as Hp. unfold Atoi.
    destruct (digits_of z) as [|c s]; [done|]. destruct Hs.
    destruct c as [[] [] [] [] [] [] [] []]; try done; by rewrite Hp, Hz.
Qed.
Lemma Itoa_nonempty z : Itoa z <> "".
Proof. unfold Itoa. case_bool; [done|]. apply digits_of_nonempty. Qed.

Lemma wrap64_small z : in_int64 z = true -> wrap64 z = z.
Proof.
  unfold in_int64, wrap64, int64_min, int64_max. intros H. bool_prop.
  rewrite Z.mod_small; lia.
Qed.

Lemma index_byte a c r :
  str_forallb (fun d => negb (Ascii.eqb d c)) a = true ->
  index (a +:+ String c r) (str1 c) = Some (String.length a).
Proof.
  assert (forall d s, has_prefix (String d s) (str1 c) = Ascii.eqb c d) as Hp.
  { intros d s. simpl. destruct s; by rewrite andb_true_r. }
  induction a as [|d a IH]; intros H.
  - cbn [index]. autorewrite with strings. cbn [index]. by rewrite Hp, Ascii.eqb_refl.
  - autorewrite with strings. cbn [index]. rewrite Hp. simpl in H.
    apply andb_true_iff in H as [Hd H]. apply negb_true_iff in Hd.
    rewrite Ascii.eqb_sym, Hd, IH by done. done.
Qed.
Lemma take_app a r : take (String.length a) (a +:+ r) = a.
Proof. induction a as [|d a IH]; [by destruct r|]. autorewrite with strings. cbn. by rewrite IH. Qed.

(** Trimming keeps a suffix of the text. *)
Lemma trim_left_space_suffix s : exists a, s = (a +:+ trim_left_space s)%string.
Proof.
  remember (String.length s) as n eqn:Hn. revert s Hn.
  induction n as [n IH] using (well_founded_induction Nat.lt_wf_0). intros s ->.
  assert (forall p t, (String.length t < String.length s)%nat -> s = (p +:+ t)%string ->
    trim_left_space s = trim_left_space t -> exists x, s = (x +:+ trim_left_space s)%string) as Hrec.
  { intros p t Hlt Hs Ht. destruct (IH _ Hlt t eq_refl) as [x Hx]. exists (p +:+ x)%string.
    rewrite Ht, Hs, Hx at 1. by autorewrite with strings. }
  destruct s as [|a t]; [by exists ""|].
  destruct (is_ascii_space a) eqn:E1.
  { apply (Hrec (str1 a) t); [simpl; lia|done|]. cbn [trim_left_space]. by rewrite E1. }
  destruct t as [|b u]; [exists ""; cbn [trim_left_space]; by rewrite E1|].
  destruct (is_space2 a b) eqn:E2.
  { apply (Hrec (String a (str1 b)) u); [simpl; lia|done|]. cbn [trim_left_space]. by rewrite E1, E2. }
  destruct u as [|c v]; [exists ""; cbn [trim_left_space]; by rewrite E1, E2|].
  destruct (is_space3 a b c) eqn:E3.
  { apply (Hrec (String a (String b (str1 c))) v); [simpl; lia|done|].
    cbn [trim_left_space]. by rewrite E1, E2, E3. }
  exists "". cbn [trim_left_space]. by rewrite E1, E2, E3.
Qed.
Lemma trim_left_space_rev_suffix s : exists a, s = (a +:+ trim_left_space_rev s)%string.
Proof.
  remember (String.length s) as n eqn:Hn. revert s Hn.
  induction n as [n IH] using (well_founded_induction Nat.lt_wf_0). intros s ->.
  assert (forall p t, (String.length t < String.length s)%nat -> s = (p +:+ t)%string ->
    trim_left_space_rev s = trim_left_space_rev t -> exists x, s = (x +:+ trim_left_space_rev s)%string) as Hrec.
  { intros p t Hlt Hs Ht. destruct (IH _ Hlt t eq_refl) as [x Hx]. exists (p +:+ x)%string.
    rewrite Ht, Hs, Hx at 1. by autorewrite with strings. }
  destruct s as [|a t]; [by exists ""|].
  destruct (is_ascii_space a) eqn:E1.
  { apply (Hrec (str1 a) t); [simpl; lia|done|]. cbn [trim_left_space_rev]. by rewrite E1. }
  destruct t as [|b u]; [exists ""; cbn [trim_left_space_rev]; by rewrite E1|].
  destruct (is_space2 b a) eqn:E2.
  { apply (Hrec (String a (str1 b)) u); [simpl; lia|done|]. cbn [trim_left_space_rev]. by rewrite E1, E2. }
  destruct u as [|c v]; [exists ""; cbn [trim_left_space_rev]; by rewrite E1, E2|].
  destruct (is_space3 c b a) eqn:E3.
  { apply (Hrec (String a (String b (str1 c))) v); [simpl; lia|done|].
    cbn [trim_left_space_rev]. by rewrite E1, E2, E3. }
  exists "". cbn [trim_left_space_rev]. by rewrite E1, E2, E3.
Qed.

(** *** Reversal *)
Lemma rev_app_app s t u : String.rev_app s (t +:+ u) = (String.rev_app s t +:+ u)%string.
Proof.
  revert t. induction s as [|c s IH]; intros t; [done|]. simpl.
  change (String c (t +:+ u)) with (String c t +:+ u)%string. apply IH.
Qed.

Lemma rev_involutive_str s : String.rev (String.rev s) = s.
Proof.
  unfold String.rev. assert (forall t u, String.rev_app (String.rev_app s t) u = String.rev_app t (s +:+ u)) as H.
  { induction s as [|c s IH]; intros t u; [done|]. simpl. rewrite IH. done. }
  rewrite H. simpl. apply str_app_nil_r.
Qed.
Lemma rev_app_str s t : String.rev (s +:+ t) = (String.rev t +:+ String.rev s)%string.
Proof.
  unfold String.rev. revert t. enough (forall t u, String.rev_app (s +:+ t) u
    = (String.rev_app t "" +:+ String.rev_app s u)%string) by eauto.
  induction s as [|c s IH]; intros t u.
  - autorewrite with strings. simpl. change u with ("" +:+ u)%string at 1. by rewrite rev_app_app.
  - autorewrite with strings. simpl. apply IH.
Qed.
Lemma rev_cons_str c s : String.rev (String c s) = (String.rev s +:+ str1 c)%string.
Proof. change (String c s) with (str1 c +:+ s)%string. by rewrite rev_app_str. Qed.

Lemma str_rev_forallb p s : str_forallb p (String.rev s) = str_forallb p s.
Proof.
  induction s as [|c s IH]; [done|]. rewrite rev_cons_str, str_forallb_app, IH. simpl.
  rewrite andb_true_r. apply andb_comm.
Qed.
Lemma trim_space_forallb p s : str_forallb p s = true -> str_forallb p (trim_space s) = true.
Proof.
  intros H. unfold trim_space, trim_right_space. rewrite str_rev_forallb.
  destruct (trim_left_space_suffix s) as [a Ha]. rewrite Ha, str_forallb_app in H.
  apply andb_true_iff in H as [_ H]. set (u := trim_left_space s) in *. clearbody u.
  rewrite <- str_rev_forallb in H. destruct (trim_left_space_rev_suffix (String.rev u)) as [b Hb].
  rewrite Hb, str_forallb_app in H. by apply andb_true_iff in H as [_ H].
Qed.
