(* ===== verification/GoPath.v ===== *)
(** * Go's [path/filepath] on Unix: [Clean], [Join], [Rel]

    The functions are written on the list of path components; [clean_step] is
    one turn of the loop of [filepath.Clean]. *)
From S2P Require Import Prelude GoStrings.
From Stdlib Require Import Ascii.

Definition slash : ascii := "/"%char.
Definition rooted (p : string) : bool := has_prefix p "/".

(** [acc] holds the components kept so far, the last one first. *)
Definition clean_step (r : bool) (acc : list string) (c : string) : list string :=
  if String.eqb c "" || String.eqb c "." then acc
  else if String.eqb c ".." then
    match acc with
    | [] => if r then [] else [".."]
    | x :: rest => if String.eqb x ".." then ".." :: acc else rest
    end
  else c :: acc.
Definition clean_comps (r : bool) (cs : list string) : list string :=
  rev (foldl (clean_step r) [] cs).
Definition comps (p : string) : list string := clean_comps (rooted p) (split slash p).
(** The path with the given components. *)
Definition render (r : bool) (cs : list string) : string :=
  if r then String slash (join "/" cs)
  else match cs with [] => "." | _ => join "/" cs end.
Definition Clean (p : string) : string := render (rooted p) (comps p).

Fixpoint drop_empty (l : list string) : list string :=
  match l with "" :: l => drop_empty l | _ => l end.
Definition Join (elem : list string) : string :=
  match drop_empty elem with [] => "" | l => Clean (join "/" l) end.

Definition rel_comps (p : string) : list string :=
  if String.eqb p "" then [] else if String.eqb p "/" then [""] else split slash p.
Fixpoint strip_common (b t : list string) : list string * list string :=
  match b, t with
  | x :: b', y :: t' => if String.eqb x y then strip_common b' t' else (b, t)
  | _, _ => (b, t)
  end.
Definition Rel (basepath targpath : string) : result string :=
  let base := Clean basepath in
  let targ := Clean targpath in
  let failed := Err (errorf ("Rel: can't make " +:+ targpath +:+ " relative to " +:+ basepath)) in
  if String.eqb targ base then Ok "."
  else
    let base := if String.eqb base "." then "" else base in
    if negb (Bool.eqb (rooted base) (rooted targ)) then failed
    else
      let '(b, t) := strip_common (rel_comps base) (rel_comps targ) in
      match b, t with
      | ".." :: _, _ :: _ => failed
      | _, _ => Ok (join "/" (replicate (length b) ".." ++ t))
      end.

(** ** Lemmas *)

Definition no_slash (s : string) : bool := str_forallb (fun a => negb (Ascii.eqb a slash)) s.
(** A component that [Clean] keeps as it is. *)
Definition plain (c : string) : bool :=
  no_slash c && negb (String.eqb c "") && negb (String.eqb c ".") && negb (String.eqb c "..").

(** What [foldl clean_step] maintains: proper components, then (last in the list,
    first in the path) only [..]s, and none in a rooted path. *)
Fixpoint normal (r : bool) (acc : list string) : bool :=
  match acc with
  | [] => true
  | c :: acc =>
      if String.eqb c ".." then negb r && forallb (String.eqb "..") acc
      else plain c && normal r acc
  end.

Lemma forallb_dots_normal r acc : r = false -> forallb (String.eqb "..") acc = true -> normal r acc = true.
Proof.
  intros ->. induction acc as [|c acc IH]; [done|]. simpl.
  intros [Hc Hacc]%andb_true_iff. apply String.eqb_eq in Hc as <-. by rewrite Hacc.
Qed.

Lemma clean_step_normal r acc c :
  no_slash c = true -> normal r acc = true -> normal r (clean_step r acc c) = true.
Proof.
  intros Hc Hacc. unfold clean_step.
  destruct (String.eqb c "") eqn:E1; [done|]. destruct (String.eqb c ".") eqn:E2; [done|]. simpl.
  destruct (String.eqb c "..") eqn:E3.
  - destruct acc as [|x acc]; [by destruct r|]. simpl in Hacc.
    destruct (String.eqb x "..") eqn:Ex.
    + apply String.eqb_eq in Ex as ->. simpl. by rewrite Hacc.
    + by apply andb_true_iff in Hacc as [_ ?].
  - simpl. rewrite E3, Hacc. unfold plain. by rewrite Hc, E1, E2, E3.
Qed.

Lemma foldl_clean_normal r cs acc :
  Forall (fun c => no_slash c = true) cs -> normal r acc = true ->
  normal r (foldl (clean_step r) acc cs) = true.
Proof.
  intros Hcs. revert acc. induction Hcs as [|c cs Hc _ IH]; intros acc Hacc; [done|].
  simpl. by apply IH, clean_step_normal.
Qed.

Lemma foldl_clean_dots acc cs :
  forallb (String.eqb "..") acc = true -> forallb (String.eqb "..") cs = true ->
  foldl (clean_step false) acc cs = rev cs ++ acc.
Proof.
  revert acc. induction cs as [|c cs IH]; intros acc Ha Hcs; [done|]. simpl in *.
  apply andb_true_iff in Hcs as [Hc Hcs]. apply String.eqb_eq in Hc as <-.
  rewrite <- app_assoc. rewrite <- IH; [|simpl|done].
  - f_equal. destruct acc as [|x acc]; [done|]. simpl in Ha. apply andb_true_iff in Ha as [Hx _].
    apply String.eqb_eq in Hx as <-. done.
  - done.
Qed.

(** A normal component list is a fixed point of the cleaning loop. *)
Lemma foldl_clean_id r acc : normal r acc = true -> foldl (clean_step r) [] (rev acc) = acc.
Proof.
  induction acc as [|c acc IH]; [done|]. cbn [normal rev]. rewrite foldl_app. simpl.
  destruct (String.eqb c "..") eqn:E.
  - intros [Hr Hacc]%andb_true_iff. destruct r; [done|].
    apply String.eqb_eq in E as ->. rewrite IH by (by apply forallb_dots_normal).
    destruct acc as [|x acc]; [done|]. simpl in Hacc. apply andb_true_iff in Hacc as [Hx _].
    apply String.eqb_eq in Hx as <-. done.
  - intros [Hc Hacc]%andb_true_iff. rewrite IH by done. unfold clean_step.
    unfold plain in Hc. rewrite !andb_true_iff, !negb_true_iff in Hc.
    destruct Hc as [[[? ->] ->] _]. by rewrite E.
Qed.

Lemma comps_normal p : normal (rooted p) (rev (comps p)) = true.
Proof.
  unfold comps, clean_comps. rewrite rev_involutive. apply foldl_clean_normal; [|done].
  apply Forall_forall. intros c Hc. by apply split_no_sep in Hc.
Qed.

Lemma normal_no_slash r acc : normal r acc = true -> Forall (fun c => no_slash c = true) acc.
Proof.
  induction acc as [|c acc IH]; [by constructor|]. simpl.
  destruct (String.eqb c "..") eqn:E.
  - apply String.eqb_eq in E as ->. intros [_ Hacc]%andb_true_iff. constructor; [done|].
    apply Forall_forall. intros x Hx%list_elem_of_In. eapply forallb_forall in Hacc; [|done].
    by apply String.eqb_eq in Hacc as <-.
  - intros [Hc Hacc]%andb_true_iff. constructor; [|auto].
    unfold plain in Hc. rewrite !andb_true_iff in Hc. naive_solver.
Qed.
Lemma normal_nonempty_elem r acc c : normal r acc = true -> c ∈ acc -> c <> "" /\ c <> ".".
Proof.
  induction acc as [|x acc IH]; [intros _ H; by apply elem_of_nil in H|]. simpl.
  rewrite elem_of_cons. destruct (String.eqb x "..") eqn:E.
  - intros [_ Hacc]%andb_true_iff [->|Hin].
    + apply String.eqb_eq in E as ->. done.
    + apply list_elem_of_In in Hin. eapply forallb_forall in Hacc; [|done].
      by apply String.eqb_eq in Hacc as <-.
  - intros [Hc Hacc]%andb_true_iff [->|Hin]; [|by apply IH].
    unfold plain in Hc. rewrite !andb_true_iff, !negb_true_iff, !String.eqb_neq in Hc. naive_solver.
Qed.

(** [split] and [rooted] of a rendered normal path give back its parts. *)
Lemma join_first cs c rest :
  cs <> [] -> join "/" cs = String c rest -> exists w ws, cs = w :: ws /\
    (w = "" \/ exists w', w = String c w').
Proof.
  destruct cs as [|w ws]; [done|]. intros _ H. exists w, ws. split; [done|].
  destruct w as [|a w]; [by left|]. right. exists w. f_equal.
  destruct ws; simpl in H; [by simplify_eq|]. autorewrite with strings in H. by simplify_eq.
Qed.
Lemma render_rooted r acc : normal r acc = true -> rooted (render r (rev acc)) = r.
Proof.
  intros H. destruct r; [done|]. unfold render.
  destruct (rev acc) as [|w ws] eqn:E; [done|].
  assert (w ∈ acc) as Hw. { apply list_elem_of_In, in_rev. rewrite E. by left. }
  pose proof (normal_nonempty_elem _ _ _ H Hw) as [Hne _].
  pose proof (normal_no_slash _ _ H) as Hns. rewrite Forall_forall in Hns. specialize (Hns _ Hw).
  destruct w as [|a w]; [done|]. unfold no_slash in Hns. simpl in Hns.
  apply andb_true_iff in Hns as [Ha _]. apply negb_true_iff in Ha.
  unfold rooted. destruct ws; simpl; autorewrite with strings; simpl; unfold slash in Ha;
    rewrite Ascii.eqb_sym, Ha; done.
Qed.
Lemma render_split_clean r acc :
  normal r acc = true -> clean_comps r (split slash (render r (rev acc))) = rev acc.
Proof.
  intros H. unfold clean_comps, render.
  assert (Forall (fun c => no_slash c = true) (rev acc)) as Hns.
  { apply Forall_rev. by eapply normal_no_slash. }
  assert (split slash (join "/" (rev acc)) = rev acc \/ rev acc = []) as Hs.
  { destruct (rev acc) eqn:E; [by right|]. left. by apply split_join. }
  destruct r.
  - simpl. destruct Hs as [->| ->]; [|done].
    unfold clean_step at 2. simpl. by rewrite foldl_clean_id.
  - destruct Hs as [Hs|Hs].
    + destruct (rev acc) as [|w ws] eqn:E; [done|]. by rewrite Hs, <- E, foldl_clean_id.
    + by rewrite Hs.
Qed.
Lemma comps_Clean p : comps (Clean p) = comps p.
Proof.
  pose proof (comps_normal p) as H. unfold Clean. unfold comps at 1.
  rewrite <- (rev_involutive (comps p)).
  by rewrite render_rooted, render_split_clean.
Qed.
Lemma rooted_Clean p : rooted (Clean p) = rooted p.
Proof.
  pose proof (comps_normal p) as H. unfold Clean.
  rewrite <- (rev_involutive (comps p)). by rewrite render_rooted.
Qed.
(** [filepath.Clean] is idempotent. *)
Lemma Clean_idemp p : Clean (Clean p) = Clean p.
Proof. unfold Clean at 1. by rewrite comps_Clean, rooted_Clean. Qed.

(** ** Joining one proper component onto a directory *)

Lemma plain_iff n :
  plain n = true <-> no_slash n = true /\ n <> "" /\ n <> "." /\ n <> "..".
Proof.
  unfold plain. rewrite !andb_true_iff, !negb_true_iff, !String.eqb_neq. tauto.
Qed.
Lemma split_plain n : plain n = true -> split slash n = [n].
Proof. intros H%plain_iff. apply split_no_sep_id. tauto. Qed.
Lemma rooted_plain n : plain n = true -> rooted n = false.
Proof.
  intros (Hs & Hne & _)%plain_iff. destruct n as [|a n]; [done|].
  unfold no_slash in Hs. simpl in Hs. apply andb_true_iff in Hs as [Ha _].
  apply negb_true_iff in Ha. unfold rooted. simpl. unfold slash in Ha.
  by rewrite Ascii.eqb_sym, Ha.
Qed.
Lemma clean_step_plain r acc n : plain n = true -> clean_step r acc n = n :: acc.
Proof.
  intros (_ & H1 & H2 & H3)%plain_iff. unfold clean_step.
  apply String.eqb_neq in H1 as ->. apply String.eqb_neq in H2 as ->.
  by apply String.eqb_neq in H3 as ->.
Qed.
Lemma rooted_app d s : d <> "" -> rooted (d +:+ s) = rooted d.
Proof. destruct d; [done|]. intros _. unfold rooted. by autorewrite with strings. Qed.

Lemma Join2_unfold d n :
  plain n = true -> Join [d; n] = render (rooted d) (comps d ++ [n]).
Proof.
  intros Hn. unfold Join. destruct d as [|a d].
  - simpl drop_empty. destruct n as [|b n]; [done|]. cbn [join].
    unfold Clean, comps. rewrite (rooted_plain _ Hn), (split_plain _ Hn).
    unfold clean_comps. simpl foldl. by rewrite clean_step_plain.
  - cbn [drop_empty join]. unfold Clean. rewrite rooted_app by done. f_equal.
    unfold comps. rewrite rooted_app by done.
    change ("/" +:+ n)%string with (String slash n). rewrite split_app_sep, (split_plain n) by done.
    unfold clean_comps. rewrite foldl_app. simpl foldl. by rewrite clean_step_plain.
Qed.
Lemma comps_snoc_normal d n :
  plain n = true -> normal (rooted d) (n :: rev (comps d)) = true.
Proof.
  intros Hn. simpl. pose proof (plain_iff n) as [H _]. destruct (H Hn) as (_ & _ & _ & Hd).
  apply String.eqb_neq in Hd as ->. by rewrite Hn, comps_normal.
Qed.
Lemma Join2_parts d n :
  plain n = true ->
  rooted (Join [d; n]) = rooted d /\ comps (Join [d; n]) = comps d ++ [n]
  /\ Clean (Join [d; n]) = Join [d; n].
Proof.
  intros Hn. pose proof (comps_snoc_normal d n Hn) as H.
  rewrite Join2_unfold by done.
  replace (comps d ++ [n]) with (rev (n :: rev (comps d))) by (simpl; by rewrite rev_involutive).
  assert (rooted (render (rooted d) (rev (n :: rev (comps d)))) = rooted d) as Hr
    by (by apply render_rooted).
  assert (comps (render (rooted d) (rev (n :: rev (comps d)))) = rev (n :: rev (comps d))) as Hc.
  { unfold comps at 1. by rewrite Hr, render_split_clean. }
  repeat split; [done|done|]. unfold Clean. by rewrite Hr, Hc.
Qed.

Lemma join_snoc cs n : cs <> [] -> join "/" (cs ++ [n]) = (join "/" cs +:+ String slash n)%string.
Proof.
  induction cs as [|c cs IH]; [done|]. intros _. destruct cs as [|c' cs].
  - done.
  - cbn [app]. change (join "/" (c :: ?l)) with (c +:+ "/" +:+ join "/" l)%string.
    cbn [app] in IH. rewrite IH by done. by autorewrite with strings.
Qed.
Lemma strip_common_app l t : strip_common l (l ++ t) = ([], t).
Proof. induction l as [|x l IH]; [done|]. simpl. by rewrite String.eqb_refl. Qed.
Lemma render_nonempty_spec r cs :
  normal r (rev cs) = true -> cs <> [] ->
  render r cs <> "" /\ render r cs <> "/" /\ render r cs <> ".".
Proof.
  intros Hn Hcs. destruct cs as [|w ws]; [done|].
  assert (w ∈ rev (w :: ws)) as Hw.
  { apply list_elem_of_In. rewrite <- in_rev. by left. }
  pose proof (normal_nonempty_elem _ _ _ Hn Hw) as [H1 H2].
  assert (join "/" (w :: ws) <> "" /\ join "/" (w :: ws) <> "/" /\ join "/" (w :: ws) <> ".")
    as (J1 & J2 & J3).
  { destruct ws as [|v ws].
    - repeat split; [done| |done]. simpl. intros ->.
      pose proof (normal_no_slash _ _ Hn) as Hs. rewrite Forall_forall in Hs.
      specialize (Hs _ Hw). done.
    - destruct w as [|a w]; [done|]. simpl. autorewrite with strings.
      repeat split; intros [= -> Hx]; destruct w; done. }
  unfold render. destruct r; [|done]. repeat split; [done| |done]. by intros [= Hx].
Qed.

Lemma Rel_Join2 d n : plain n = true -> Rel d (Join [d; n]) = Ok n.
Proof.
  intros Hn. destruct (Join2_parts d n Hn) as (Hr & Hc & Hcl).
  pose proof (comps_normal d) as Hnd. unfold Rel. rewrite Hcl.
  assert (String.eqb (Join [d; n]) (Clean d) = false) as ->.
  { apply String.eqb_neq. intros E. apply (f_equal comps) in E.
    rewrite Hc, comps_Clean in E. apply (f_equal length) in E.
    rewrite length_app in E. simpl in E. lia. }
  rewrite Join2_unfold by done. unfold Clean. set (r := rooted d) in *. set (cs := comps d) in *.
  destruct (decide (cs = [])) as [->|Hcs].
  - pose proof (split_plain n Hn) as Hs. pose proof (plain_iff n) as [Hp _].
    destruct (Hp Hn) as (Hns & Hn0 & _). destruct r eqn:Er; simpl.
    + unfold render; cbn [app join]. change (String.eqb (String slash "") ".") with false. cbn.
      unfold rel_comps. change (String.eqb (String slash n) "") with false.
      assert (String.eqb (String slash n) "/" = false) as ->.
      { apply String.eqb_neq. by intros [= ->]. }
      simpl split. by rewrite Hs.
    + rewrite (rooted_plain n Hn). cbn. unfold rel_comps.
      assert (String.eqb n "" = false) as -> by (by apply String.eqb_neq).
      assert (String.eqb n "/" = false) as ->.
      { apply String.eqb_neq. intros ->. done. }
      by rewrite Hs.
  - destruct (render_nonempty_spec r cs Hnd Hcs) as (R1 & R2 & R3).
    assert (render r (cs ++ [n]) = (render r cs +:+ String slash n)%string) as ->.
    { unfold render. destruct r.
      - rewrite join_snoc by done. done.
      - destruct cs as [|c cs'] eqn:E; [done|]. rewrite <- E in *. cbn [app].
        rewrite E at 1. cbn [app]. rewrite <- join_snoc by (by rewrite E). by rewrite E. }
    apply String.eqb_neq in R3 as ->. rewrite rooted_app by done. rewrite eqb_reflx. cbn [negb].
    unfold rel_comps. apply String.eqb_neq in R1 as Hb1. apply String.eqb_neq in R2 as Hb2.
    rewrite Hb1, Hb2.
    assert (String.eqb (render r cs +:+ String slash n) "" = false) as ->.
    { apply String.eqb_neq. intros [? ?]%str_app_eq_nil. done. }
    assert (String.eqb (render r cs +:+ String slash n) "/" = false) as ->.
    { apply String.eqb_neq. destruct (render r cs) as [|a x]; [done|].
      autorewrite with strings. intros [= -> Hx]. apply str_app_eq_nil in Hx as [_ ?]. done. }
    rewrite split_app_sep, (split_plain n) by done. by rewrite strip_common_app.
Qed.
