(* ===== verification/GoURL.v ===== *)
(** * Go's [net/url]: [Parse], as far as the source looks at its result

    The source reads [u.Scheme] and [u.Host] and whether parsing failed; path,
    query and fragment are checked for validity and dropped.  The bracketed IP
    literals of a host go through [net/netip], which is the parameter
    [ip_literal] (the host as [u.Host] keeps it, or a failure). *)
From S2P Require Import Prelude GoStrings.
From Stdlib Require Import Ascii.

Record URL := { u_scheme : string; u_host : string }.

Definition is_hex (c : ascii) : bool := is_digit c || in_range 97 102 c || in_range 65 70 c.
Definition unhex (c : ascii) : Z :=
  if is_digit c then byte_val c - 48
  else if in_range 97 102 c then byte_val c - 87
  else byte_val c - 55.
Definition char_in (s : string) (c : ascii) : bool := str_existsb (Ascii.eqb c) s.

(** [!shouldEscape(c, encodeHost)]: the sub-delims, the characters of IPv6
    literals and of bad but tolerated hosts, and the unreserved ones. *)
Definition host_char (c : ascii) : bool :=
  is_alnum c || char_in "!$&'()*+,;=:[]<>-_.~" c || Ascii.eqb c dquote.
Definition userinfo_char (c : ascii) : bool := is_alnum c || char_in "-._:~!$&'()*+,;=%@" c.

(** [unescape(s, encodeHost)]: an escape must stand for a non-ASCII byte or be
    [%25]; any other ASCII byte must be a host character. *)
Fixpoint unescape_host (s : string) : option string :=
  match s with
  | "" => Some ""
  | String c t =>
      if Ascii.eqb c "%" then
        match t with
        | String a (String b u) =>
            if is_hex a && is_hex b
               && ((8 <=? unhex a) || (Ascii.eqb a "2" && Ascii.eqb b "5"))
            then String (ascii_of_N (Z.to_N (16 * unhex a + unhex b))) <$> unescape_host u
            else None
        | _ => None
        end
      else if (byte_val c <? 128) && negb (host_char c) then None
      else String c <$> unescape_host t
  end.
(** Whether [unescape] succeeds in the path, user-info and fragment modes. *)
Fixpoint escapes_ok (s : string) : bool :=
  match s with
  | "" => true
  | String c t =>
      if Ascii.eqb c "%" then
        match t with String a (String b u) => is_hex a && is_hex b && escapes_ok u | _ => false end
      else escapes_ok t
  end.

(** [getScheme]: [Err] for a missing scheme before a colon, otherwise the scheme
    ([""] when there is none) and the rest. *)
Fixpoint scheme_go (first : bool) (raw s : string) (acc : string) : option (string * string) :=
  match s with
  | "" => Some ("", raw)
  | String c t =>
      if is_lower c || is_upper c then scheme_go false raw t (String c acc)
      else if is_digit c || char_in "+-." c then
        if first then Some ("", raw) else scheme_go false raw t (String c acc)
      else if Ascii.eqb c ":" then
        if first then None else Some (String.rev acc, t)
      else Some ("", raw)
  end.
Definition getScheme (raw : string) : option (string * string) := scheme_go true raw raw "".

Definition valid_optional_port (port : string) : bool :=
  match port with
  | "" => true
  | String c t => Ascii.eqb c ":" && str_forallb is_digit t
  end.
(** The part from the last occurrence of [c] on, if there is one. *)
Fixpoint last_from (c : ascii) (s : string) : option string :=
  match s with
  | "" => None
  | String a t =>
      match last_from c t with
      | Some r => Some r
      | None => if Ascii.eqb a c then Some s else None
      end
  end.
(** What precedes the last occurrence of [c]. *)
Definition before_last (c : ascii) (s : string) : string :=
  match last_from c s with
  | Some r => take (String.length s - String.length r) s
  | None => s
  end.

Section parse.
Context (ip_literal : string -> option string).

Definition parse_host (host : string) : option string :=
  match last_from "["%char host with
  | Some _ => ip_literal host
  | None =>
      match last_from ":"%char host with
      | Some port => if valid_optional_port port then unescape_host host else None
      | None => unescape_host host
      end
  end.

Definition parse_authority (authority : string) : option string :=
  match last_from "@"%char authority with
  | None => parse_host authority
  | Some at_host =>
      host ← parse_host (drop 1 at_host);
      let userinfo := before_last "@"%char authority in
      if str_forallb userinfo_char userinfo && escapes_ok userinfo then Some host else None
  end.

Definition has_ctl_byte (s : string) : bool :=
  str_existsb (fun c => (byte_val c <? 32) || (byte_val c =? 127)) s.

Definition count_byte (c : ascii) (s : string) : nat := String.length (str_filter (Ascii.eqb c) s).

(** [url.parse(rawURL, false)]. *)
Definition parse_url (raw : string) : option URL :=
  if has_ctl_byte raw then None
  else if String.eqb raw "*" then Some {| u_scheme := ""; u_host := "" |}
  else
    '(scheme, rest) ← getScheme raw;
    let scheme := to_lower scheme in
    let rest :=
      if has_suffix rest "?" && Nat.eqb (count_byte "?" rest) 1
      then take (String.length rest - 1) rest else (cut rest "?").1.1 in
    if negb (has_prefix rest "/") && negb (String.eqb scheme "")
    then Some {| u_scheme := scheme; u_host := "" |}
    else if negb (has_prefix rest "/") && contains (cut rest "/").1.1 ":" then None
    else if (negb (String.eqb scheme "") || negb (has_prefix rest "///")) && has_prefix rest "//"
    then
      let '(authority, path) := span (fun c => negb (Ascii.eqb c "/")) (drop 2 rest) in
      host ← parse_authority authority;
      if escapes_ok path then Some {| u_scheme := scheme; u_host := host |} else None
    else if escapes_ok rest then Some {| u_scheme := scheme; u_host := "" |} else None.

(** [url.Parse]. *)
Definition Parse (raw : string) : option URL :=
  let '(u, frag, _) := cut raw "#" in
  url ← parse_url u;
  if escapes_ok frag then Some url else None.
End parse.

(** ** Lemmas *)

Definition scheme_char (c : ascii) : bool :=
  is_lower c || is_upper c || is_digit c || char_in "+-." c.

Lemma scheme_go_spec first raw s acc sch rest :
  str_forallb scheme_char (String.rev acc) = true ->
  scheme_go first raw s acc = Some (sch, rest) ->
  (sch = "" /\ rest = raw)
  \/ (str_forallb scheme_char sch = true /\ (String.rev acc +:+ s = sch +:+ ":" +:+ rest)%string).
Proof.
  revert first acc. induction s as [|c s IH]; intros first acc Hacc; simpl.
  { intros [= <- <-]. by left. }
  assert (String.rev (String c acc) = String.rev acc +:+ str1 c)%string as Hrev.
  { unfold String.rev. simpl. change (String c "") with ("" +:+ str1 c)%string. by rewrite rev_app_app. }
  assert (forall t, (String.rev (String c acc) +:+ t = String.rev acc +:+ String c t)%string) as Hcat.
  { intros t. rewrite Hrev. by autorewrite with strings. }
  destruct (is_lower c || is_upper c) eqn:E1.
  { intros H. apply IH in H; [by rewrite Hcat in H|].
    rewrite Hrev, str_forallb_app, Hacc. simpl. unfold scheme_char.
    by rewrite E1. }
  destruct (is_digit c || char_in "+-." c) eqn:E2.
  { destruct first; [intros [= <- <-]; by left|]. intros H. apply IH in H; [by rewrite Hcat in H|].
    rewrite Hrev, str_forallb_app, Hacc. simpl. unfold scheme_char. rewrite andb_true_r.
    rewrite <- orb_assoc, E2. by rewrite orb_true_r. }
  destruct (Ascii.eqb c ":") eqn:E3; [|intros [= <- <-]; by left].
  apply Ascii.eqb_eq in E3 as ->. destruct first; [done|]. intros [= <- <-]. by right.
Qed.

(** A parsed URL with a scheme begins with that scheme, up to case, and a colon. *)
Lemma getScheme_spec raw sch rest :
  getScheme raw = Some (sch, rest) ->
  (sch = "" /\ rest = raw)
  \/ (str_forallb scheme_char sch = true /\ raw = (sch +:+ ":" +:+ rest)%string).
Proof. intros H. apply scheme_go_spec in H; [|done]. exact H. Qed.

Lemma parse_url_scheme ip raw u :
  parse_url ip raw = Some u -> u_scheme u <> "" ->
  has_ctl_byte raw = false /\
  exists sch rest, u_scheme u = to_lower sch /\ str_forallb scheme_char sch = true
    /\ raw = (sch +:+ ":" +:+ rest)%string.
Proof.
  unfold parse_url. destruct (has_ctl_byte raw); [done|]. intros H Hne. split; [done|]. revert H.
  case_bool; [intros [= <-]; done|].
  destruct (getScheme raw) as [[sch rest]|] eqn:Hs; cbn; [|done]. intros H.
  assert (u_scheme u = to_lower sch) as Hu.
  { repeat match type of H with
      | context [if ?b then _ else _] => destruct b
      | context [let '(_, _) := ?p in _] => destruct p
      | context [parse_authority ip ?a] => destruct (parse_authority ip a); cbn in H
      end; by simplify_eq/=. }
  apply getScheme_spec in Hs as [[-> ->]|[Hc Hr]].
  - by rewrite Hu in Hne.
  - by exists sch, rest.
Qed.
Lemma Parse_spec ip raw u :
  Parse ip raw = Some u -> exists a, parse_url ip a = Some u /\
    (a = raw \/ exists f, raw = (a +:+ "#" +:+ f)%string).
Proof.
  unfold Parse. destruct (cut raw "#") as [[a f] b] eqn:Hc.
  destruct (parse_url ip a) as [v|] eqn:E; cbn; [|done].
  case_bool; [|done]. intros [= <-]. exists a. split; [done|].
  apply cut_spec in Hc as [(_ & -> & _)|(_ & ->)]; [by left|]. right. by exists f.
Qed.
