(* ===== verification/State.v ===== *)
(** * internal/state/state.go: the in-memory store

    Every method of [Store] runs under [s.mu], so each is one atomic function on
    the state; the pointers of the maps never leave the methods (results are
    copies), so entries are values.  Go visits a map in an unspecified order: the
    methods that list entries take the order as an argument. *)
From S2P Require Import Prelude GoStrings GoPath.
From Stdlib Require Import Ascii.

(** [time.Time] in nanoseconds since the zero time; [IsZero] is [t = 0]. *)
Definition Time := Z.
Definition IsZero (t : Time) : bool := t =? 0.

Definition StatusOK : string := "ok".
Definition StatusError : string := "error".
Definition StatusSyncing : string := "syncing".
Definition ApplyOK : string := "ok".
Definition ApplyError : string := "error".
Definition ApplyApplying : string := "applying".

Record RepoState := {
  rs_Name : string;
  rs_LastSync : Time;
  rs_LastSHA : string;
  rs_Status : string;
  rs_LastError : string;
}.

Record ContainerDetail := {
  cd_ID : string;
  cd_Name : string;
  cd_Image : string;
  cd_Status : string;
  cd_StartedAt : Time;
  cd_Env : list string;
  cd_Ports : list string;
}.

(** A slice is [None] when it is nil. *)
Record StackState := {
  ss_Name : string;
  ss_RepoName : string;
  ss_StackDir : string;
  ss_LastApply : Time;
  ss_Status : string;
  ss_LastOutput : string;
  ss_LastError : string;
  ss_Containers : option (list ContainerDetail);
  ss_InfisicalMode : string;
}.

Record InfisicalState := { inf_Enabled : bool; inf_Env : string }.

Record FullState := {
  fs_Repos : list RepoState;
  fs_Stacks : list StackState;
  fs_Infisical : InfisicalState;
}.

#[export] Instance RepoState_eq_dec : EqDecision RepoState.
Proof. solve_decision. Defined.
#[export] Instance ContainerDetail_eq_dec : EqDecision ContainerDetail.
Proof. solve_decision. Defined.
#[export] Instance StackState_eq_dec : EqDecision StackState.
Proof. solve_decision. Defined.

Definition zeroRepo : RepoState :=
  {| rs_Name := ""; rs_LastSync := 0; rs_LastSHA := ""; rs_Status := ""; rs_LastError := "" |}.
Definition zeroStack : StackState :=
  {| ss_Name := ""; ss_RepoName := ""; ss_StackDir := ""; ss_LastApply := 0; ss_Status := "";
     ss_LastOutput := ""; ss_LastError := ""; ss_Containers := None; ss_InfisicalMode := "" |}.

Record Store := {
  repos : gmap string RepoState;
  stacks : gmap string StackState;
  infisical : InfisicalState;
}.

Definition New : Store :=
  {| repos := ∅; stacks := ∅; infisical := {| inf_Enabled := false; inf_Env := "" |} |}.

Definition UpdateRepo (r : RepoState) (s : Store) : Store :=
  {| repos := <[rs_Name r := r]> (repos s); stacks := stacks s; infisical := infisical s |}.

Definition GetRepo (name : string) (s : Store) : RepoState * bool :=
  match repos s !! name with None => (zeroRepo, false) | Some r => (r, true) end.

(** The values of a map in the order in which the loop visits the keys. *)
Definition in_order {A} (keys : list string) (m : gmap string A) : list A :=
  if decide (keys ≡ₚ (map_to_list m).*1) then omap (fun k => m !! k) keys
  else (map_to_list m).*2.

Definition GetAllRepos (keys : list string) (s : Store) : list RepoState := in_order keys (repos s).

Definition stack_key (repo name : string) : string := (repo +:+ "/" +:+ name)%string.

Definition UpdateStack (st : StackState) (s : Store) : Store :=
  {| repos := repos s;
     stacks := <[stack_key (ss_RepoName st) (ss_Name st) := st]> (stacks s);
     infisical := infisical s |}.

Definition GetStack (repoName name : string) (s : Store) : StackState * bool :=
  match stacks s !! stack_key repoName name with
  | None => (zeroStack, false)
  | Some st => (st, true)
  end.

Definition with_containers (cs : option (list ContainerDetail)) (st : StackState) : StackState :=
  {| ss_Name := ss_Name st; ss_RepoName := ss_RepoName st; ss_StackDir := ss_StackDir st;
     ss_LastApply := ss_LastApply st; ss_Status := ss_Status st;
     ss_LastOutput := ss_LastOutput st; ss_LastError := ss_LastError st;
     ss_Containers := cs; ss_InfisicalMode := ss_InfisicalMode st |}.

Definition UpdateStackContainers (repoName name : string)
    (containers : option (list ContainerDetail)) (s : Store) : Store :=
  let key := stack_key repoName name in
  match stacks s !! key with
  | Some existing =>
      let containers := match containers with None => Some [] | c => c end in
      {| repos := repos s; stacks := <[key := with_containers containers existing]> (stacks s);
         infisical := infisical s |}
  | None => s
  end.

Definition GetAllStacks (keys : list string) (s : Store) : list StackState := in_order keys (stacks s).

Definition SetInfisical (inf : InfisicalState) (s : Store) : Store :=
  {| repos := repos s; stacks := stacks s; infisical := inf |}.

Definition GetAll (rkeys skeys : list string) (s : Store) : FullState :=
  {| fs_Repos := in_order rkeys (repos s); fs_Stacks := in_order skeys (stacks s);
     fs_Infisical := infisical s |}.

(** ** Lemmas *)

Lemma in_order_perm {A} keys (m : gmap string A) : in_order keys m ≡ₚ (map_to_list m).*2.
Proof.
  unfold in_order. case_decide as H; [|done].
  rewrite H. assert (forall l : list (string * A), (forall k v, (k, v) ∈ l -> m !! k = Some v) ->
    omap (fun k => m !! k) l.*1 = l.*2) as Hl.
  { clear. intros l. induction l as [|[k v] l IH]; [done|]. intros Hl. cbn.
    rewrite (Hl k v) by left. rewrite IH; [done|]. intros. apply Hl. by right. }
  rewrite Hl; [done|]. intros k v. by rewrite elem_of_map_to_list.
Qed.
Lemma elem_of_in_order {A} keys (m : gmap string A) v :
  v ∈ in_order keys m <-> exists k, m !! k = Some v.
Proof.
  rewrite in_order_perm, list_elem_of_fmap. split.
  - intros ([k w] & -> & H). exists k. by apply elem_of_map_to_list.
  - intros [k H]. exists (k, v). by rewrite elem_of_map_to_list.
Qed.

Lemma stack_key_inj r n r' n' :
  no_slash r = true -> no_slash r' = true -> stack_key r n = stack_key r' n' -> r = r' /\ n = n'.
Proof.
  unfold stack_key. intros Hr Hr' H.
  pose proof (span_run (fun a => negb (Ascii.eqb a slash)) r slash n Hr eq_refl) as E1.
  pose proof (span_run (fun a => negb (Ascii.eqb a slash)) r' slash n' Hr' eq_refl) as E2.
  change (String slash n) with ("/" +:+ n)%string in E1.
  change (String slash n') with ("/" +:+ n')%string in E2.
  rewrite H, E2 in E1. by simplify_eq.
Qed.

(** Every entry is stored under its own key. *)
Definition store_wf (s : Store) : Prop :=
  (forall k r, repos s !! k = Some r -> rs_Name r = k) /\
  (forall k st, stacks s !! k = Some st -> stack_key (ss_RepoName st) (ss_Name st) = k).

(** The operations that change the store. *)
Inductive store_op :=
| OpUpdateRepo (r : RepoState)
| OpUpdateStack (st : StackState)
| OpUpdateStackContainers (repo name : string) (cs : option (list ContainerDetail))
| OpSetInfisical (inf : InfisicalState).
Definition store_apply (op : store_op) (s : Store) : Store :=
  match op with
  | OpUpdateRepo r => UpdateRepo r s
  | OpUpdateStack st => UpdateStack st s
  | OpUpdateStackContainers repo name cs => UpdateStackContainers repo name cs s
  | OpSetInfisical inf => SetInfisical inf s
  end.

Lemma store_apply_wf op s : store_wf s -> store_wf (store_apply op s).
Proof.
  intros [Hr Hs]. destruct op as [r|st|repo name cs|inf]; simpl.
  - split; [|done]. intros k r'. simpl. rewrite lookup_insert. case_decide; naive_solver.
  - split; [done|]. intros k st'. simpl. rewrite lookup_insert. case_decide; naive_solver.
  - unfold UpdateStackContainers. destruct (stacks s !! _) as [st|] eqn:E; [|done].
    split; [done|]. intros k st'. simpl. rewrite lookup_insert. case_decide as Hk; [|auto].
    intros [= <-]. subst k. by apply (Hs _ _ E).
  - done.
Qed.
Lemma store_run_wf ops s : store_wf s -> store_wf (foldl (flip store_apply) s ops).
Proof.
  revert s. induction ops as [|op ops IH]; intros s H; [done|].
  simpl. apply IH. by apply store_apply_wf.
Qed.

(** ** Abstract specification: a map indexed by (repository, stack) pairs *)

Record AbsStore := {
  a_repos : gmap string RepoState;
  a_stacks : gmap (string * string) StackState;
  a_infisical : InfisicalState;
}.
Definition abs_empty : AbsStore :=
  {| a_repos := ∅; a_stacks := ∅; a_infisical := {| inf_Enabled := false; inf_Env := "" |} |}.
Definition abs_apply (op : store_op) (a : AbsStore) : AbsStore :=
  match op with
  | OpUpdateRepo r =>
      {| a_repos := <[rs_Name r := r]> (a_repos a); a_stacks := a_stacks a; a_infisical := a_infisical a |}
  | OpUpdateStack st =>
      {| a_repos := a_repos a; a_stacks := <[(ss_RepoName st, ss_Name st) := st]> (a_stacks a);
         a_infisical := a_infisical a |}
  | OpUpdateStackContainers repo name cs =>
      {| a_repos := a_repos a;
         a_stacks := alter (with_containers (Some (default [] cs))) (repo, name) (a_stacks a);
         a_infisical := a_infisical a |}
  | OpSetInfisical inf =>
      {| a_repos := a_repos a; a_stacks := a_stacks a; a_infisical := inf |}
  end.
(** Repository names come from [ValidateRepoName] and hold no slash. *)
Definition op_ok (op : store_op) : Prop :=
  match op with
  | OpUpdateStack st => no_slash (ss_RepoName st) = true
  | OpUpdateStackContainers repo _ _ => no_slash repo = true
  | _ => True
  end.
Definition store_refines (a : AbsStore) (s : Store) : Prop :=
  repos s = a_repos a /\ infisical s = a_infisical a /\
  (forall r n, no_slash r = true -> stacks s !! stack_key r n = a_stacks a !! (r, n)) /\
  (forall k st, stacks s !! k = Some st -> exists r n, no_slash r = true /\ k = stack_key r n).

Lemma store_apply_refines op a s :
  op_ok op -> store_refines a s -> store_refines (abs_apply op a) (store_apply op s).
Proof.
  intros Hop (Hr & Hi & Hl & Hk). destruct op as [r|st|repo name cs|inf]; simpl in Hop.
  - repeat split; simpl; try done. by rewrite Hr.
  - repeat split; simpl; try done.
    + intros r n Hrn. rewrite !lookup_insert. case_decide as E1; case_decide as E2;
        simplify_eq; auto.
      apply stack_key_inj in E1 as [? ?]; [|done..]. congruence.
    + intros k st'. rewrite lookup_insert. case_decide as E; [|by apply Hk].
      intros [= <-]. by exists (ss_RepoName st), (ss_Name st).
  - unfold store_apply, UpdateStackContainers.
    assert (match cs with None => Some [] | c => c end = Some (default [] cs)) as Hcs by (by destruct cs).
    pose proof (Hl repo name Hop) as Hlk. destruct (stacks s !! stack_key repo name) as [st|] eqn:E.
    + repeat split; simpl; try done.
      * intros r n Hrn. rewrite lookup_insert, lookup_alter, Hcs.
        case_decide as E1; case_decide as E2; simplify_eq; auto.
        -- by rewrite <- Hlk.
        -- apply stack_key_inj in E1 as [? ?]; [|done..]. congruence.
      * intros k st'. rewrite lookup_insert. case_decide as E'; [|by apply Hk].
        intros _. by exists repo, name.
    + repeat split; simpl; try done.
      intros r n Hrn. rewrite lookup_alter. case_decide as E1; [|by apply Hl].
      simplify_eq. by rewrite <- Hlk, E.
  - done.
Qed.
Lemma store_run_refines ops a s :
  Forall op_ok ops -> store_refines a s ->
  store_refines (foldl (flip abs_apply) a ops) (foldl (flip store_apply) s ops).
Proof.
  intros Hops. revert a s. induction Hops as [|op ops Hop _ IH]; intros a s H; [done|].
  simpl. apply IH. by apply store_apply_refines.
Qed.
Lemma store_refines_New : store_refines abs_empty New.
Proof. by repeat split. Qed.

(** ** Properties *)

(** C33. The store implements a map indexed by (repository, stack) pairs: after any
    sequence of updates whose repository names hold no slash, [GetRepo] and
    [GetStack] answer what the abstract map answers.  The string keys
    [repo/stack] never confuse two stacks, and [UpdateStackContainers] changes
    the container list of a known stack only. *)
Theorem store_refinement ops repo name :
  Forall op_ok ops -> no_slash repo = true ->
  let s := foldl (flip store_apply) New ops in
  let a := foldl (flip abs_apply) abs_empty ops in
  GetStack repo name s = match a_stacks a !! (repo, name) with
                         | Some st => (st, true) | None => (zeroStack, false) end
  /\ GetRepo repo s = match a_repos a !! repo with
                      | Some r => (r, true) | None => (zeroRepo, false) end
  /\ infisical s = a_infisical a.
Proof.
  intros Hops Hrepo s a.
  destruct (store_run_refines ops abs_empty New Hops store_refines_New) as (Hr & Hi & Hl & _).
  fold s in Hr, Hi, Hl. fold a in Hr, Hi, Hl. unfold GetStack, GetRepo. by rewrite Hl, Hr, Hi.
Qed.
Definition demo_stack : StackState :=
  {| ss_Name := "plex"; ss_RepoName := "home"; ss_StackDir := "/d/home/plex"; ss_LastApply := 5;
     ss_Status := ApplyOK; ss_LastOutput := ""; ss_LastError := ""; ss_Containers := Some [];
     ss_InfisicalMode := "" |}.
Lemma store_refinement_witness :
  GetStack "home" "plex" (foldl (flip store_apply) New
    [OpUpdateStack demo_stack; OpUpdateStackContainers "home" "plex" None]) = (demo_stack, true).
Proof.
  assert (Forall op_ok [OpUpdateStack demo_stack; OpUpdateStackContainers "home" "plex" None]) as H
    by (repeat constructor).
  refine (eq_trans (proj1 (store_refinement _ "home" "plex" H eq_refl)) _). vm_compute. reflexivity.
Defined.

(** Every entry of a store built by the operations lies under its own key, and
    the listings are complete: [GetAll] returns each stored repository and stack
    exactly once, in whatever order the map is visited. *)
Theorem store_listing_complete ops rkeys skeys :
  let s := foldl (flip store_apply) New ops in
  let full := GetAll rkeys skeys s in
  store_wf s
  /\ (forall r, r ∈ fs_Repos full <-> GetRepo (rs_Name r) s = (r, true))
  /\ (forall st, st ∈ fs_Stacks full <-> GetStack (ss_RepoName st) (ss_Name st) s = (st, true))
  /\ NoDup (rs_Name <$> fs_Repos full)
  /\ fs_Infisical full = infisical s.
Proof.
  intros s full. assert (store_wf s) as [Hr Hs].
  { apply store_run_wf. split; intros k x H; simpl in H; by rewrite lookup_empty in H. }
  split; [done|]. subst full. unfold GetAll; cbn [fs_Repos fs_Stacks fs_Infisical].
  split_and!; [| | |done].
  - intros r. rewrite elem_of_in_order. unfold GetRepo. split.
    + intros [k H]. rewrite <- (Hr _ _ H) in H. by rewrite H.
    + case_match eqn:E; [|done]. intros [= ->]. eauto.
  - intros st. rewrite elem_of_in_order. unfold GetStack. split.
    + intros [k H]. rewrite <- (Hs _ _ H) in H. by rewrite H.
    + case_match eqn:E; [|done]. intros [= ->]. eauto.
  - rewrite in_order_perm. assert (rs_Name <$> (map_to_list (repos s)).*2 = (map_to_list (repos s)).*1) as ->.
    { rewrite <- list_fmap_compose. apply list_fmap_ext. intros i [k r] H. simpl.
      apply Hr. apply elem_of_map_to_list. by eapply list_elem_of_lookup_2. }
    apply NoDup_fst_map_to_list.
Qed.
