(* ===== verification/Bus.v ===== *)
(** * internal/state/state.go: the activity bus

    [Publish] runs entirely under [b.mu] and is one atomic function.  [Subscribe]
    and the removal in [cancel] take the lock too, but [cancel] closes the channel
    after it has released the lock: the two halves of [cancel] are separate
    steps, and anything may happen between them. *)
From S2P Require Import Prelude GoStrings.

Record ActivityEvent := {
  ev_Type : string;
  ev_Repo : string;
  ev_Stack : string;
  ev_Msg : string;
}.
#[export] Instance ActivityEvent_eq_dec : EqDecision ActivityEvent.
Proof. solve_decision. Defined.

(** A subscriber's channel: a buffer of 32 events.  The queue holds the events;
    their JSON form is produced by [json.Marshal], which cannot fail on this
    type. *)
Record Chan := { ch_queue : list ActivityEvent; ch_closed : bool }.
Definition chan_cap : nat := 32.

Record ActivityBus := { subs : gset nat; chans : gmap nat Chan; next_chan : nat }.
Definition NewActivityBus : ActivityBus := {| subs := ∅; chans := ∅; next_chan := 0 |}.

(** [select { case ch <- data: default: }]: [None] is the panic of a send on a
    closed channel; a full buffer drops the event. *)
Definition try_send (ev : ActivityEvent) (c : Chan) : option Chan :=
  if ch_closed c then None
  else if decide (length (ch_queue c) < chan_cap)%nat
  then Some {| ch_queue := ch_queue c ++ [ev]; ch_closed := false |}
  else Some c.
Definition publish_one (ev : ActivityEvent) (acc : option (gmap nat Chan)) (id : nat)
    : option (gmap nat Chan) :=
  m ← acc; c ← m !! id; c' ← try_send ev c; Some (<[id := c']> m).
Definition Publish (ev : ActivityEvent) (b : ActivityBus) : option ActivityBus :=
  m ← foldl (publish_one ev) (Some (chans b)) (elements (subs b));
  Some {| subs := subs b; chans := m; next_chan := next_chan b |}.

Definition Subscribe (b : ActivityBus) : nat * ActivityBus :=
  let ch := next_chan b in
  (ch, {| subs := {[ch]} ∪ subs b;
          chans := <[ch := {| ch_queue := []; ch_closed := false |}]> (chans b);
          next_chan := S ch |}).

(** The first half of [cancel], under the lock: [delete(b.subs, ch)]. *)
Definition cancel_delete (ch : nat) (b : ActivityBus) : ActivityBus :=
  {| subs := subs b ∖ {[ch]}; chans := chans b; next_chan := next_chan b |}.
(** The second half, outside the lock: [close(ch)]; closing twice panics. *)
Definition cancel_close (ch : nat) (b : ActivityBus) : option ActivityBus :=
  c ← chans b !! ch;
  if ch_closed c then None
  else Some {| subs := subs b;
               chans := <[ch := {| ch_queue := ch_queue c; ch_closed := true |}]> (chans b);
               next_chan := next_chan b |}.
(** [data, ok := <-ch] when it does not block. *)
Definition receive (ch : nat) (b : ActivityBus) : option (option ActivityEvent * ActivityBus) :=
  c ← chans b !! ch;
  match ch_queue c with
  | ev :: q => Some (Some ev,
      {| subs := subs b; chans := <[ch := {| ch_queue := q; ch_closed := ch_closed c |}]> (chans b);
         next_chan := next_chan b |})
  | [] => if ch_closed c then Some (None, b) else None
  end.

(** ** The bus and its subscribers as a transition system

    Each subscription belongs to one [handleActivity] goroutine, which defers
    [cancel] once: it is subscribed, then has deleted itself, then has closed its
    channel.  [offered ch] lists what was published while [ch] was subscribed, each
    event with whether the buffer had room for it then; [received ch] what its
    goroutine has read. *)
Inductive phase := Subscribed | Deleted | Closed.
#[export] Instance phase_eq_dec : EqDecision phase.
Proof. solve_decision. Defined.

Record System := {
  bus : ActivityBus;
  phases : gmap nat phase;
  offered : gmap nat (list (ActivityEvent * bool));
  received : gmap nat (list ActivityEvent);
}.
Definition init : System :=
  {| bus := NewActivityBus; phases := ∅; offered := ∅; received := ∅ |}.
Definition published (s : System) : gmap nat (list ActivityEvent) := (fun l : list (ActivityEvent * bool) => fst <$> l) <$> offered s.
Definition has_room (b : ActivityBus) (ch : nat) : bool :=
  match chans b !! ch with Some c => bool_decide (length (ch_queue c) < chan_cap)%nat | None => false end.
(** [ev] is published in [s]: it is offered to the subscribers of that moment. *)
Definition offer (ev : ActivityEvent) (s : System) : gmap nat (list (ActivityEvent * bool)) :=
  map_imap (fun ch l => Some (if decide (phases s !! ch = Some Subscribed) then l ++ [(ev, has_room (bus s) ch)] else l))
    (offered s).

Definition note (ev : ActivityEvent) (ch : nat) (m : gmap nat (list ActivityEvent)) :=
  <[ch := default [] (m !! ch) ++ [ev]]> m.

Inductive outcome := Running (s : System) | Panic.

(** One atomic action of some goroutine. *)
Inductive step : System -> outcome -> Prop :=
| step_publish s ev b' :
    Publish ev (bus s) = Some b' ->
    step s (Running {| bus := b'; phases := phases s;
      offered := offer ev s; received := received s |})
| step_publish_panic s ev : Publish ev (bus s) = None -> step s Panic
| step_subscribe s ch b' :
    Subscribe (bus s) = (ch, b') ->
    step s (Running {| bus := b'; phases := <[ch := Subscribed]> (phases s);
      offered := <[ch := []]> (offered s); received := <[ch := []]> (received s) |})
| step_delete s ch :
    phases s !! ch = Some Subscribed ->
    step s (Running {| bus := cancel_delete ch (bus s); phases := <[ch := Deleted]> (phases s);
      offered := offered s; received := received s |})
| step_close s ch b' :
    phases s !! ch = Some Deleted -> cancel_close ch (bus s) = Some b' ->
    step s (Running {| bus := b'; phases := <[ch := Closed]> (phases s);
      offered := offered s; received := received s |})
| step_close_panic s ch :
    phases s !! ch = Some Deleted -> cancel_close ch (bus s) = None -> step s Panic
| step_receive s ch ev b' :
    phases s !! ch = Some Subscribed -> receive ch (bus s) = Some (Some ev, b') ->
    step s (Running {| bus := b'; phases := phases s;
      offered := offered s; received := note ev ch (received s) |}).

Inductive reachable : outcome -> Prop :=
| reachable_init : reachable (Running init)
| reachable_step s o : reachable (Running s) -> step s o -> reachable o.

(** ** The invariant *)

(** The events that found room. *)
Definition kept (off : list (ActivityEvent * bool)) : list ActivityEvent := fst <$> filter (fun p => p.2 = true) off.
Lemma kept_app l k : kept (l ++ k) = kept l ++ kept k.
Proof. unfold kept. by rewrite filter_app, fmap_app. Qed.
Lemma kept_sublist off : sublist (kept off) (fst <$> off).
Proof.
  unfold kept. induction off as [|[ev b] off IH]; [constructor|]. rewrite filter_cons. cbn [snd].
  destruct b; [rewrite decide_True by done; by constructor|rewrite decide_False by done; by constructor].
Qed.

Record chan_inv (s : System) (ch : nat) : Prop := {
  ci_sub : ch ∈ subs (bus s) <-> phases s !! ch = Some Subscribed;
  ci_chan : forall p, phases s !! ch = Some p ->
    exists c off rcv, chans (bus s) !! ch = Some c /\ ch_closed c = bool_decide (p = Closed)
      /\ (length (ch_queue c) <= chan_cap)%nat
      /\ offered s !! ch = Some off /\ received s !! ch = Some rcv
      /\ rcv ++ ch_queue c = kept off;
  ci_fresh : (next_chan (bus s) <= ch)%nat -> phases s !! ch = None;
}.
Definition bus_inv (s : System) : Prop := forall ch, chan_inv s ch.

Lemma init_inv : bus_inv init.
Proof. intros ch. split; simpl; [set_solver|done|done]. Qed.

Lemma foldl_publish_None ev l : foldl (publish_one ev) None l = None.
Proof. induction l; [done|]. done. Qed.

(** Publishing to a list of open channels succeeds and touches only those. *)
Lemma publish_fold ev l m :
  NoDup l ->
  (forall id, id ∈ l -> exists c, m !! id = Some c /\ ch_closed c = false) ->
  exists m', foldl (publish_one ev) (Some m) l = Some m' /\
    forall id, m' !! id = if decide (id ∈ l) then m !! id ≫= try_send ev else m !! id.
Proof.
  revert m. induction l as [|i l IH]; intros m Hnd Hl.
  { exists m. split; [done|]. intros id. by case_decide as H; [apply elem_of_nil in H|]. }
  apply NoDup_cons in Hnd as [Hi Hnd].
  destruct (Hl i) as (c & Hc & Hcl); [by left|].
  assert (exists c', try_send ev c = Some c') as [c' Hc'].
  { unfold try_send. rewrite Hcl. case_decide; eauto. }
  destruct (IH (<[i := c']> m) Hnd) as (m' & Hm' & Hlk).
  { intros id Hid. destruct (Hl id) as (d & Hd & ?); [by right|]. exists d.
    rewrite lookup_insert_ne; [done|]. by intros ->. }
  exists m'. split.
  - simpl. rewrite Hc. cbn. rewrite Hc'. exact Hm'.
  - intros id. rewrite Hlk. destruct (decide (id = i)) as [->|Hne].
    + rewrite decide_False by done. rewrite decide_True by (by left).
      by rewrite lookup_insert_eq, Hc.
    + rewrite lookup_insert_ne by done. apply decide_ext. rewrite elem_of_cons. naive_solver.
Qed.

Lemma Publish_spec ev b :
  (forall id, id ∈ subs b -> exists c, chans b !! id = Some c /\ ch_closed c = false) ->
  exists m', Publish ev b = Some {| subs := subs b; chans := m'; next_chan := next_chan b |} /\
    forall id, m' !! id = if decide (id ∈ subs b) then chans b !! id ≫= try_send ev else chans b !! id.
Proof.
  intros H. destruct (publish_fold ev (elements (subs b)) (chans b)) as (m' & Hm & Hlk).
  - apply NoDup_elements.
  - intros id. rewrite elem_of_elements. apply H.
  - exists m'. unfold Publish. rewrite Hm. split; [done|]. intros id. rewrite Hlk.
    apply decide_ext. apply elem_of_elements.
Qed.

Lemma inv_open s id : bus_inv s -> id ∈ subs (bus s) ->
  exists c, chans (bus s) !! id = Some c /\ ch_closed c = false.
Proof.
  intros Hinv Hid. apply (ci_sub _ _ (Hinv id)) in Hid.
  destruct (ci_chan _ _ (Hinv id) _ Hid) as (c & ? & ? & Hc & Hcl & _). by exists c.
Qed.

Lemma publish_inv s ev b' :
  bus_inv s -> Publish ev (bus s) = Some b' ->
  bus_inv {| bus := b'; phases := phases s; offered := offer ev s; received := received s |}.
Proof.
  intros Hinv HP. destruct (Publish_spec ev (bus s)) as (m' & HP' & Hlk).
  { intros id. by apply inv_open. }
  rewrite HP in HP'. injection HP' as ->. intros ch. destruct (Hinv ch) as [Hsub Hch Hfr].
  split; simpl; [done| |done]. intros p Hp.
  destruct (Hch p Hp) as (c & off & rcv & Hc & Hcl & Hlen & Hoff & Hrcv & Hk).
  unfold offer, has_room. rewrite Hlk, map_lookup_imap, Hoff, Hc. cbn [mbind option_bind].
  destruct (decide (ch ∈ subs (bus s))) as [Hin|Hin].
  - apply Hsub in Hin. rewrite decide_True by done. rewrite Hin in Hp. injection Hp as <-. cbn. unfold try_send.
    rewrite Hcl. cbn. destruct (decide (length (ch_queue c) < chan_cap)%nat) as [Hroom|Hroom];
      eexists _, _, rcv; (split; [done|]); split_and!; try done; simpl.
    + rewrite length_app. simpl. lia.
    + rewrite kept_app, <- Hk, bool_decide_eq_true_2 by done. by rewrite app_assoc.
    + rewrite kept_app, <- Hk, bool_decide_eq_false_2 by done. by rewrite app_nil_r.
  - rewrite decide_False by (by rewrite <- Hsub). eexists _, _, rcv. by split_and!.
Qed.

Lemma subscribe_inv s :
  bus_inv s ->
  let ch := next_chan (bus s) in
  bus_inv {| bus := (Subscribe (bus s)).2; phases := <[ch := Subscribed]> (phases s);
    offered := <[ch := []]> (offered s); received := <[ch := []]> (received s) |}.
Proof.
  intros Hinv ch id. destruct (Hinv id) as [Hsub Hch Hfr]. split; simpl.
  - rewrite elem_of_union, elem_of_singleton, lookup_insert. fold ch.
    case_decide as E; [naive_solver|]. rewrite Hsub. naive_solver.
  - intros p. fold ch. rewrite !lookup_insert. case_decide as E.
    + intros [= <-]. eexists _, [], []. split_and!; try done. simpl. lia.
    + apply Hch.
  - intros Hle. rewrite lookup_insert. case_decide as E; [lia|]. apply Hfr. lia.
Qed.

Lemma delete_inv s ch :
  bus_inv s -> phases s !! ch = Some Subscribed ->
  bus_inv {| bus := cancel_delete ch (bus s); phases := <[ch := Deleted]> (phases s);
    offered := offered s; received := received s |}.
Proof.
  intros Hinv Hp id. destruct (Hinv id) as [Hsub Hch Hfr]. split; simpl.
  - rewrite elem_of_difference, elem_of_singleton, Hsub, lookup_insert. case_decide; naive_solver.
  - intros p. rewrite lookup_insert. case_decide as E; [|apply Hch]. subst id. intros [= <-].
    destruct (Hch _ Hp) as (c & off & rcv & Hc & Hcl & H). exists c, off, rcv. by rewrite Hcl.
  - intros Hle. rewrite lookup_insert. case_decide as E; [|auto]. subst id.
    rewrite Hfr in Hp by done. done.
Qed.

Lemma close_inv s ch b' :
  bus_inv s -> phases s !! ch = Some Deleted -> cancel_close ch (bus s) = Some b' ->
  bus_inv {| bus := b'; phases := <[ch := Closed]> (phases s);
    offered := offered s; received := received s |}.
Proof.
  intros Hinv Hp Hcl id. destruct (Hinv id) as [Hsub Hch Hfr]. unfold cancel_close in Hcl.
  destruct (chans (bus s) !! ch) as [c|] eqn:Hc; cbn in Hcl; [|done].
  destruct (ch_closed c) eqn:Ec; [done|]. injection Hcl as <-. split; simpl.
  - rewrite Hsub, lookup_insert. case_decide; naive_solver.
  - intros p. rewrite !lookup_insert. case_decide as E; [|apply Hch]. subst id. intros [= <-].
    destruct (Hch _ Hp) as (c' & off & rcv & Hc' & _ & Hlen & ? & ? & ?).
    rewrite Hc in Hc'. injection Hc' as <-. eexists _, off, rcv. done.
  - intros Hle. rewrite lookup_insert. case_decide as E; [|auto]. subst id.
    rewrite Hfr in Hp by done. done.
Qed.

Lemma receive_inv s ch ev b' :
  bus_inv s -> phases s !! ch = Some Subscribed -> receive ch (bus s) = Some (Some ev, b') ->
  bus_inv {| bus := b'; phases := phases s;
    offered := offered s; received := note ev ch (received s) |}.
Proof.
  intros Hinv Hp Hr id. destruct (Hinv id) as [Hsub Hch Hfr]. unfold receive in Hr.
  destruct (chans (bus s) !! ch) as [c|] eqn:Hc; cbn in Hr; [|done].
  destruct (ch_queue c) as [|e q] eqn:Hq; [by destruct (ch_closed c)|].
  injection Hr as -> <-. split; simpl; [done| |done].
  intros p Hp'. unfold note. rewrite !lookup_insert. case_decide as E; [|by apply Hch]. subst id.
  destruct (Hch _ Hp') as (c' & off & rcv & Hc' & Hcl & Hlen & Hoff & Hrcv & Hk).
  rewrite Hc in Hc'. injection Hc' as <-. rewrite Hq in *. eexists _, off, _. rewrite Hrcv.
  split_and!; try done; simpl in *; [lia|]. by rewrite <- app_assoc.
Qed.

Lemma step_inv s o : bus_inv s -> step s o -> exists s', o = Running s' /\ bus_inv s'.
Proof.
  intros Hinv Hstep. destruct Hstep as [s ev b' HP|s ev HP|s ch b' HS|s ch Hp|s ch b' Hp Hc|s ch Hp Hc|s ch ev b' Hp Hr].
  - eexists. split; [done|]. by apply publish_inv.
  - exfalso. destruct (Publish_spec ev (bus s)) as (m' & HP' & _); [|congruence].
    intros id. by apply inv_open.
  - eexists. split; [done|]. pose proof (subscribe_inv s Hinv) as H. rewrite HS in H.
    unfold Subscribe in HS. by simplify_eq.
  - eexists. split; [done|]. by apply delete_inv.
  - eexists. split; [done|]. by eapply close_inv.
  - exfalso. destruct (ci_chan _ _ (Hinv ch) _ Hp) as (c & ? & ? & Hch & Hcl & _).
    unfold cancel_close in Hc. rewrite Hch in Hc. cbn in Hc. by rewrite Hcl in Hc.
  - eexists. split; [done|]. by eapply receive_inv.
Qed.

Lemma reachable_inv o : reachable o -> exists s, o = Running s /\ bus_inv s.
Proof.
  induction 1 as [|s o _ (s' & Hs & Hinv) Hstep].
  - exists init. split; [done|]. apply init_inv.
  - simplify_eq. by eapply step_inv.
Qed.

(** ** Properties *)

(** C31. However publishers, subscribers and cancellations interleave, the bus never
    panics: no event is sent on a closed channel, although [cancel] closes the
    channel outside the lock, and no channel is closed twice. *)
Theorem bus_no_panic : ~ reachable Panic.
Proof. intros H. by destruct (reachable_inv _ H) as (s & ? & _). Qed.

(** C32. A subscriber gets every event that was published while it was subscribed, in
    the order in which they were published and without duplicates or inventions,
    except those that found its buffer full: what it has read followed by what waits
    in its buffer is exactly what was published when there was room, and the buffer
    never exceeds its 32 slots.  Publishing always succeeds, in one step: the event
    enters the buffer of each subscriber that has room, and no buffer changes
    otherwise; so a slow subscriber cannot hold up a sync. *)
Theorem bus_delivery s ch off rcv :
  reachable (Running s) -> offered s !! ch = Some off -> received s !! ch = Some rcv ->
  is_Some (phases s !! ch) ->
  (exists c, chans (bus s) !! ch = Some c /\ (length (ch_queue c) <= chan_cap)%nat
     /\ rcv ++ ch_queue c = (fst <$> filter (fun p => p.2 = true) off))
  /\ forall ev, exists b', Publish ev (bus s) = Some b' /\ forall id c, chans (bus s) !! id = Some c ->
       exists c', chans b' !! id = Some c' /\ ch_closed c' = ch_closed c
       /\ ch_queue c' = if decide (phases s !! id = Some Subscribed /\ (length (ch_queue c) < 32)%nat)
                        then ch_queue c ++ [ev] else ch_queue c.
Proof.
  intros H Hoff Hrcv [p Hp]. destruct (reachable_inv _ H) as (s' & Hs & Hinv). simplify_eq. split.
  - destruct (ci_chan _ _ (Hinv ch) _ Hp) as (c & ? & ? & ? & ? & ? & ? & ? & ?).
    simplify_eq. by exists c.
  - intros ev. destruct (Publish_spec ev (bus s')) as (m & -> & Hm); [intros id; by apply inv_open|].
    eexists. split; [done|]. intros id c Hc. cbn [chans]. rewrite Hm, Hc.
    destruct (decide (id ∈ subs (bus s'))) as [Hin|Hin].
    + destruct (inv_open _ _ Hinv Hin) as (c0 & Hc0 & Hcl). rewrite Hc in Hc0. injection Hc0 as <-.
      apply (ci_sub _ _ (Hinv id)) in Hin. cbn [mbind option_bind]. unfold try_send. rewrite Hcl. fold chan_cap.
      destruct (decide (length (ch_queue c) < chan_cap)%nat); eexists; (split; [done|]); (split; [done|]).
      * by rewrite decide_True.
      * by rewrite decide_False by tauto.
    + exists c. split; [done|]. split; [done|]. rewrite decide_False; [done|]. rewrite <- (ci_sub _ _ (Hinv id)). tauto.
Qed.
Definition demo_event : ActivityEvent :=
  {| ev_Type := "done"; ev_Repo := "home"; ev_Stack := ""; ev_Msg := "home up to date" |}.
Definition demo_bus1 : ActivityBus := (Subscribe NewActivityBus).2.
Definition demo_sys0 : System :=
  {| bus := demo_bus1; phases := <[0%nat := Subscribed]> (phases init);
     offered := <[0%nat := []]> (offered init); received := <[0%nat := []]> (received init) |}.
Definition demo_sys : System :=
  {| bus := default demo_bus1 (Publish demo_event demo_bus1); phases := phases demo_sys0;
     offered := offer demo_event demo_sys0; received := received demo_sys0 |}.
Lemma bus_delivery_witness :
  exists c, chans (bus demo_sys) !! 0%nat = Some c /\ (length (ch_queue c) <= chan_cap)%nat
     /\ [] ++ ch_queue c = [demo_event].
Proof.
  assert (reachable (Running demo_sys)) as H.
  { eapply reachable_step; [eapply reachable_step; [apply reachable_init|]|].
    - apply (step_subscribe init 0%nat demo_bus1). reflexivity.
    - apply (step_publish demo_sys0 demo_event). vm_compute. reflexivity. }
  exact (proj1 (bus_delivery demo_sys 0 [(demo_event, true)] [] H eq_refl eq_refl ltac:(by eexists))).
Defined.

(** Of 33 events published in a row to a subscriber that does not read, the last one
    is dropped. *)
Definition flooded : option ActivityBus :=
  Nat.iter 33 (fun b => b ≫= Publish demo_event) (Some demo_bus1).
Example full_buffer_drops :
  match flooded with
  | Some b => has_room b 0 = false /\ (fun c => length (ch_queue c)) <$> chans b !! 0%nat = Some 32%nat
  | None => False
  end.
Proof. vm_compute. done. Qed.
