(* ===== verification/Sched.v ===== *)
(** * main.go: backoff, scheduling, intervals and the clone path of a repository

    [time.Duration] is a 64-bit integer of nanoseconds and wraps around.  The
    maps [repoBackoffs] and [repoNextDue] are [sync.Map]s; each function below is
    the body of a critical section, with the clock reading it makes as an
    argument. *)
From S2P Require Import Prelude GoStrings GoPath GoURL GitRef State.
From Stdlib Require Import Ascii.

Definition Second : Z := 10 ^ 9.

(** ** Backoff *)

Record syncBackoff := { failures : Z; nextAllowed : Time; suspended : bool }.
#[export] Instance syncBackoff_eq_dec : EqDecision syncBackoff.
Proof. solve_decision. Defined.
Definition zeroBackoff : syncBackoff := {| failures := 0; nextAllowed := 0; suspended := false |}.
Definition maxSyncFailures : Z := 10.

(** [LoadOrStore]: the entry, created when it is missing. *)
Definition getBackoff (repoName : string) (m : gmap string syncBackoff) : syncBackoff :=
  default zeroBackoff (m !! repoName).

Definition clear_backoff (b : syncBackoff) : syncBackoff := zeroBackoff.

(** The delay computed by a failure: [2^failures * base], at most [8 * base]. *)
Definition backoff_delay (fails base : Z) : Z :=
  let multiplier := wrap64 (Z.shiftl 1 fails) in
  let backoff := wrap64 (multiplier * base) in
  let maxBackoff := wrap64 (8 * base) in
  if maxBackoff <? backoff then maxBackoff else backoff.

Definition fail_backoff (base now : Z) (b : syncBackoff) : bool * syncBackoff :=
  let f := wrap64 (failures b + 1) in
  if maxSyncFailures <=? f
  then (true, {| failures := f; nextAllowed := nextAllowed b; suspended := true |})
  else (false, {| failures := f; nextAllowed := now + backoff_delay f base; suspended := suspended b |}).

Definition skip_backoff (now : Time) (b : syncBackoff) : bool :=
  if suspended b then true
  else if negb (IsZero (nextAllowed b)) && (now <? nextAllowed b) then true
  else false.

Definition recordSyncSuccess (repoName : string) (m : gmap string syncBackoff) :=
  <[repoName := clear_backoff (getBackoff repoName m)]> m.
Definition recordSyncFailure (repoName : string) (base now : Z) (m : gmap string syncBackoff) :=
  let '(r, b) := fail_backoff base now (getBackoff repoName m) in (r, <[repoName := b]> m).
Definition shouldSkipSync (repoName : string) (now : Time) (m : gmap string syncBackoff) :=
  let b := getBackoff repoName m in (skip_backoff now b, <[repoName := b]> m).
Definition resetBackoff (repoName : string) (m : gmap string syncBackoff) :=
  <[repoName := clear_backoff (getBackoff repoName m)]> m.

(** ** Scheduling *)

Definition dueForSync (repoName : string) (now : Time) (m : gmap string Time) : bool :=
  match m !! repoName with None => true | Some t => negb (now <? t) end.
Definition markScheduled (repoName : string) (interval now : Z) (m : gmap string Time) :=
  let interval := if interval <=? 0 then 60 * Second else interval in
  <[repoName := now + interval]> m.

(** The two inputs are the [SyncInterval] of the repository and the default. *)
Definition effectiveInterval (SyncInterval defaultInterval : Z) : Z :=
  if 0 <? SyncInterval then wrap64 (SyncInterval * Second)
  else if 0 <? defaultInterval then defaultInterval
  else 60 * Second.

(** The value of the [default_sync_interval] setting, or the error of reading it. *)
Definition loadDefaultInterval (setting : result (string * bool)) : Z :=
  match setting with
  | Ok (val, _) =>
      if negb (String.eqb val "") then
        match Atoi val with
        | Some n => if 0 <? n then wrap64 (n * Second) else 60 * Second
        | None => 60 * Second
        end
      else 60 * Second
  | Err _ => 60 * Second
  end.

(** ** The clone path *)

Definition safeRepoPath (cloneDir repoName : string) : result string :=
  match ValidateRepoName repoName with
  | Err e => Err e
  | Ok _ =>
      let dest := Join [cloneDir; repoName] in
      let escapes := Err (errorf ("repo path " +:+ quote repoName +:+ " escapes clone dir")) in
      match Rel cloneDir dest with
      | Err _ => escapes
      | Ok rel => if String.eqb rel ".." || has_prefix rel "../" then escapes else Ok dest
      end
  end.

(** ** Lemmas *)

Lemma shiftl_1 k : 0 <= k -> Z.shiftl 1 k = 2 ^ k.
Proof. intros. rewrite Z.shiftl_1_l. done. Qed.

(** Intervals for which no product overflows: at most 2^63 / 2^9 nanoseconds,
    about 208 days. *)
Definition base_ok (base : Z) : Prop := 0 < base /\ 512 * base <= int64_max.

Lemma backoff_delay_spec k base :
  1 <= k <= 9 -> base_ok base -> backoff_delay k base = Z.min (2 ^ k) 8 * base.
Proof.
  intros Hk [Hb1 Hb2]. unfold int64_max in Hb2. unfold backoff_delay.
  rewrite shiftl_1 by lia.
  assert (2 <= 2 ^ k <= 512) as Hp.
  { change 2 with (2 ^ 1) at 1. change 512 with (2 ^ 9). split; apply Z.pow_le_mono_r; lia. }
  assert (forall z, 0 <= z <= 512 * base -> wrap64 z = z) as Hw.
  { intros z Hz. apply wrap64_small. unfold in_int64, int64_min, int64_max. bool_prop. lia. }
  rewrite (wrap64_small (2 ^ k)) by (unfold in_int64, int64_min, int64_max; bool_prop; lia).
  rewrite !Hw by nia. case_bool; bool_prop; nia.
Qed.

Lemma lookup_getBackoff_eq n b m : getBackoff n (<[n := b]> m) = b.
Proof. unfold getBackoff. by rewrite lookup_insert_eq. Qed.
Lemma lookup_getBackoff_ne n n' b m : n <> n' -> getBackoff n (<[n' := b]> m) = getBackoff n m.
Proof. intros H. unfold getBackoff. by rewrite lookup_insert_ne. Qed.

(** ** Specification: the backoff as a function of the history of a repository *)

(** What happens to the backoff record of one repository: a failed sync (with the
    interval in force and the time), a successful sync, a manual reset. *)
Inductive backoff_event := Failed (base now : Z) | Succeeded | Reset_.
Definition backoff_apply (b : syncBackoff) (e : backoff_event) : syncBackoff :=
  match e with
  | Failed base now => (fail_backoff base now b).2
  | Succeeded | Reset_ => clear_backoff b
  end.
(** The failures since the last success or reset, latest first. *)
Fixpoint recent_failures (acc : list (Z * Z)) (h : list backoff_event) : list (Z * Z) :=
  match h with
  | [] => acc
  | Failed base now :: h => recent_failures ((base, now) :: acc) h
  | _ :: h => recent_failures [] h
  end.
Definition event_ok (e : backoff_event) : Prop :=
  match e with Failed base now => base_ok base /\ 0 < now | _ => True end.

(** What the record holds when the recent failures are [l]. *)
Definition backoff_spec (l : list (Z * Z)) (b : syncBackoff) : Prop :=
  failures b = Z.of_nat (length l)
  /\ suspended b = (10 <=? Z.of_nat (length l))
  /\ match l with
     | [] => nextAllowed b = 0
     | (base, now) :: _ =>
         (length l < 10)%nat -> nextAllowed b = now + Z.min (2 ^ Z.of_nat (length l)) 8 * base
     end.

Lemma backoff_apply_spec l b e :
  Z.of_nat (length l) < int64_max -> event_ok e -> backoff_spec l b ->
  backoff_spec (recent_failures l [e]) (backoff_apply b e).
Proof.
  intros Hlen He (Hf & Hs & Hn). destruct e as [base now| |]; simpl; [|by repeat split..].
  destruct He as [Hb Hnow]. unfold fail_backoff. rewrite Hf.
  assert (wrap64 (Z.of_nat (length l) + 1) = Z.of_nat (S (length l))) as ->.
  { unfold int64_max in Hlen. rewrite wrap64_small; [lia|].
    unfold in_int64, int64_min, int64_max. bool_prop. lia. }
  unfold maxSyncFailures. case_bool; bool_prop; unfold backoff_spec; cbn [length failures suspended nextAllowed snd].
  - split_and!; [done|by symmetry; apply Z.leb_le|lia].
  - split_and!; [done| |].
    + rewrite Hs. transitivity false; [apply Z.leb_gt; lia|symmetry; apply Z.leb_gt; lia].
    + intros _. f_equal. apply backoff_delay_spec; [lia|done].
Qed.
Lemma recent_failures_app l h1 h2 :
  recent_failures l (h1 ++ h2) = recent_failures (recent_failures l h1) h2.
Proof. revert l. induction h1 as [|[]]; intros l; simpl; auto. Qed.
Lemma recent_failures_length l h :
  (length (recent_failures l h) <= length l + length h)%nat.
Proof.
  revert l. induction h as [|[] h IH]; intros l; simpl; [lia|..];
    (etransitivity; [apply IH|simpl; lia]).
Qed.
Lemma backoff_run_spec h :
  Z.of_nat (length h) <= int64_max -> Forall event_ok h ->
  backoff_spec (recent_failures [] h) (foldl backoff_apply zeroBackoff h).
Proof.
  induction h as [|e h IH] using rev_ind; intros Hlen Hok; [by repeat split|].
  apply Forall_app in Hok as [Hok He]. apply Forall_cons in He as [He _].
  rewrite length_app in Hlen. simpl in Hlen.
  rewrite foldl_app, recent_failures_app. apply backoff_apply_spec; [|done|apply IH; [lia|done]].
  pose proof (recent_failures_length [] h). simpl in *. lia.
Qed.

(** ** Properties *)

(** C25. The backoff of a repository is what the documentation promises, after any
    history of failures, successes and manual resets: with [k] failures since the
    last success or reset, a sync is skipped for good once [k] reaches 10, and
    otherwise exactly until [min(2^k, 8)] intervals after the last failure. *)
Theorem backoff_correct h now :
  Z.of_nat (length h) <= int64_max -> Forall event_ok h ->
  let k := Z.of_nat (length (recent_failures [] h)) in
  let b := foldl backoff_apply zeroBackoff h in
  failures b = k /\ suspended b = (10 <=? k) /\
  skip_backoff now b =
    ((10 <=? k)
     || match recent_failures [] h with
        | [] => false
        | (base, last) :: _ => now <? last + Z.min (2 ^ k) 8 * base
        end).
Proof.
  intros Hlen Hok k b. destruct (backoff_run_spec h Hlen Hok) as (Hf & Hs & Hn).
  fold b in Hf, Hs, Hn. fold k in Hf, Hs. split_and!; [done|done|].
  unfold skip_backoff. rewrite Hs. destruct (10 <=? k) eqn:Ek; [done|]. simpl.
  assert (Forall (fun p => base_ok p.1 /\ 0 < p.2) (recent_failures [] h)) as Hall.
  { assert (forall l, Forall (fun p => base_ok p.1 /\ 0 < p.2) l ->
      Forall (fun p => base_ok p.1 /\ 0 < p.2) (recent_failures l h)) as H; [|by apply H].
    clear -Hok. induction Hok as [|[] h He _ IH]; intros l Hl; simpl; auto. }
  subst k. destruct (recent_failures [] h) as [|[base last] l]; [by rewrite Hn|].
  bool_prop. rewrite Hn by lia. apply Forall_cons in Hall as [[Hb Hl] _]. simpl in Hb, Hl.
  assert (0 < Z.min (2 ^ Z.of_nat (length ((base, last) :: l))) 8) as Hm.
  { pose proof (Z.pow_pos_nonneg 2 (Z.of_nat (length ((base, last) :: l)))). lia. }
  destruct Hb as [Hb _].
  assert (IsZero (last + Z.min (2 ^ Z.of_nat (length ((base, last) :: l))) 8 * base) = false) as ->.
  { apply Z.eqb_neq. nia. }
  simpl. by case_bool.
Qed.
Lemma backoff_correct_witness :
  failures (foldl backoff_apply zeroBackoff
    [Failed (60 * Second) 1; Succeeded; Failed (60 * Second) 2; Failed (60 * Second) 3]) = 2.
Proof.
  refine (proj1 (backoff_correct
    [Failed (60 * Second) 1; Succeeded; Failed (60 * Second) 2; Failed (60 * Second) 3] 0 _ _)).
  - vm_compute. discriminate.
  - repeat constructor; vm_compute; done.
Defined.

(** C38. The backoff for every interval, those that overflow [time.Duration] included.
    After a failure that does not suspend the repository, the k-th in a row, the
    next attempt is due after the smaller of [2^k] and eight intervals, each product
    taken modulo 2^64 as a signed number, and the repository is held back at that
    time exactly if this is positive.  So it is held back if neither product
    overflows, and it is retried at once, without any backoff, if the interval times
    [2^k] is at least 2^63 but less than 2^64: after the ninth failure, for
    intervals from about 208 to 417 days. *)
Theorem backoff_overflow b base now :
  0 < now -> 0 < base <= int64_max -> 0 <= failures b < 9 -> suspended b = false ->
  let b' := (fail_backoff base now b).2 in
  let k := failures b + 1 in
  let delay := Z.min (wrap64 (2 ^ k * base)) (wrap64 (8 * base)) in
  failures b' = k /\ suspended b' = false /\ nextAllowed b' = now + delay
  /\ (skip_backoff now b' = true <-> 0 < delay)
  /\ (2 ^ k * base <= int64_max -> 8 * base <= int64_max -> delay = Z.min (2 ^ k) 8 * base /\ skip_backoff now b' = true)
  /\ (2 ^ 63 <= 2 ^ k * base < 2 ^ 64 -> nextAllowed b' < now /\ skip_backoff now b' = false).
Proof.
  intros Hnow Hbase Hf Hs b' k delay.
  assert (2 <= 2 ^ k <= 512) as Hp.
  { subst k. change 2 with (2 ^ 1) at 1. change 512 with (2 ^ 9). split; apply Z.pow_le_mono_r; lia. }
  assert (backoff_delay k base = delay) as Hd.
  { unfold backoff_delay, delay. rewrite shiftl_1 by (subst k; lia).
    rewrite (wrap64_small (2 ^ k)) by (unfold in_int64, int64_min, int64_max; bool_prop; lia).
    destruct (Z.ltb_spec (wrap64 (8 * base)) (wrap64 (2 ^ k * base))); lia. }
  assert (b' = {| failures := k; nextAllowed := now + delay; suspended := false |}) as ->.
  { subst b'. unfold fail_backoff. rewrite (wrap64_small (failures b + 1)) by (unfold in_int64, int64_min, int64_max; bool_prop; lia).
    fold k. rewrite Hd, Hs. unfold maxSyncFailures. by replace (10 <=? k) with false by (subst k; lia). }
  assert (skip_backoff now {| failures := k; nextAllowed := now + delay; suspended := false |} = true <-> 0 < delay) as Hskip.
  { unfold skip_backoff, IsZero. cbn [suspended nextAllowed]. case_bool; bool_prop; lia. }
  cbn [failures nextAllowed suspended]. split_and!; [done..|exact Hskip| |].
  - intros H1 H2. assert (delay = Z.min (2 ^ k) 8 * base) as He.
    { unfold delay. rewrite !wrap64_small by (unfold in_int64, int64_min in *; bool_prop; nia). nia. }
    split; [exact He|]. apply Hskip. nia.
  - intros H. assert (delay < 0) as Hneg.
    { assert (wrap64 (2 ^ k * base) < 0); [|lia]. unfold wrap64.
      rewrite <- (Z.mod_unique_pos (2 ^ k * base + 2 ^ 63) (2 ^ 64) 1 (2 ^ k * base - 2 ^ 63)); lia. }
    split; [lia|]. destruct (skip_backoff _ _); [|done]. assert (0 < delay) by (by apply Hskip). lia.
Qed.
(** An interval of 18014399 seconds, accepted by the API, after the ninth failure. *)
Lemma backoff_overflow_witness :
  let b' := (fail_backoff (effectiveInterval 18014399 0) 5 {| failures := 8; nextAllowed := 5; suspended := false |}).2 in
  nextAllowed b' < 5 /\ skip_backoff 5 b' = false.
Proof.
  refine (proj2 (proj2 (proj2 (proj2 (proj2 (backoff_overflow {| failures := 8; nextAllowed := 5; suspended := false |}
    (effectiveInterval 18014399 0) 5 eq_refl _ _ eq_refl))))) _).
  - split; vm_compute; done.
  - split; vm_compute; done.
  - split; vm_compute; done.
Defined.

Lemma safeRepoPath_valid cloneDir repoName :
  ValidateRepoName repoName = Ok tt -> safeRepoPath cloneDir repoName = Ok (Join [cloneDir; repoName]).
Proof.
  intros E. unfold safeRepoPath. rewrite E. pose proof (ValidateRepoName_plain _ E) as Hp. rewrite Rel_Join2 by done.
  pose proof (proj1 (plain_iff _) Hp) as (Hns & _ & _ & Hdd).
  apply String.eqb_neq in Hdd as ->. cbn [orb].
  destruct (has_prefix repoName "../") eqn:Hpre; [|done].
  by apply has_prefix_iff in Hpre as [r ->].
Qed.

(** C26. [safeRepoPath] accepts exactly the valid repository names, and the path it
    returns lies one component below the clone directory, whatever that directory
    is: the components of the result are those of [cloneDir] followed by the
    name.  The check against escaping paths never fires for a valid name. *)
Theorem safeRepoPath_confined cloneDir repoName :
  match safeRepoPath cloneDir repoName with
  | Ok dest =>
      ValidateRepoName repoName = Ok tt /\ plain repoName = true
      /\ comps dest = comps cloneDir ++ [repoName] /\ rooted dest = rooted cloneDir
      /\ Clean dest = dest
  | Err e => ValidateRepoName repoName = Err e
  end.
Proof.
  destruct (ValidateRepoName repoName) as [[]|e] eqn:E; [|by unfold safeRepoPath; rewrite E].
  rewrite safeRepoPath_valid by done. pose proof (ValidateRepoName_plain _ E) as Hp.
  by destruct (Join2_parts cloneDir repoName Hp) as (? & ? & ?).
Qed.

(** Once a repository has been scheduled with a positive interval, it comes due
    exactly when that interval has elapsed, and scheduling one repository leaves
    the others alone; a repository that was never scheduled is due.  Intervals
    that overflow or are missing fall back to 60 seconds. *)
Theorem markScheduled_due n n' interval now t m :
  (dueForSync n t (markScheduled n interval now m) =
     (now + (if interval <=? 0 then 60 * Second else interval) <=? t))
  /\ (n <> n' -> dueForSync n' t (markScheduled n interval now m) = dueForSync n' t m)
  /\ dueForSync n t ∅ = true.
Proof.
  unfold dueForSync, markScheduled. rewrite lookup_insert_eq, lookup_empty. split_and!; [|intros|done].
  - by rewrite (Z.leb_antisym t).
  - by rewrite lookup_insert_ne.
Qed.

(** ** The tables of main_test.go *)
Example TestEffectiveInterval :
  (effectiveInterval 30 (90 * Second), effectiveInterval 0 (90 * Second), effectiveInterval 0 0)
  = (30 * Second, 90 * Second, 60 * Second).
Proof. vm_compute. reflexivity. Qed.
Example TestSafeRepoPath :
  map (safeRepoPath "/var/lib/stackd/repos") ["myrepo"; ".ssh"]
    = [Ok "/var/lib/stackd/repos/myrepo"; Ok "/var/lib/stackd/repos/.ssh"]
  /\ map (fun n => is_ok (safeRepoPath "/var/lib/stackd/repos" n)) ["../etc"; ".."; "a/b"]
    = [false; false; false].
Proof. vm_compute. done. Qed.
