(* ===== verification/Base64.v ===== *)
(** * Go's [encoding/base64]: [StdEncoding] and [RawURLEncoding] on byte strings *)
From S2P Require Import Prelude GoStrings.
From Stdlib Require Import Ascii.

Definition byte_of (z : Z) : ascii := ascii_of_N (Z.to_N z).

(** [c62] and [c63] are the last two characters of the alphabet. *)
Definition sextet_char (c62 c63 : ascii) (d : Z) : ascii :=
  if d <? 26 then byte_of (65 + d)
  else if d <? 52 then byte_of (71 + d)
  else if d <? 62 then byte_of (d - 4)
  else if d =? 62 then c62 else c63.
Definition char_sextet (c62 c63 : ascii) (c : ascii) : option Z :=
  if is_upper c then Some (byte_val c - 65)
  else if is_lower c then Some (byte_val c - 71)
  else if is_digit c then Some (byte_val c + 4)
  else if Ascii.eqb c c62 then Some 62
  else if Ascii.eqb c c63 then Some 63 else None.

(** Encoding; [pad] is the padding of a final group with [n] missing bytes. *)
Fixpoint encode (c62 c63 : ascii) (pad : nat -> string) (s : string) : string :=
  let ch := sextet_char c62 c63 in
  match s with
  | String a (String b (String c t)) =>
      let x := byte_val a * 65536 + byte_val b * 256 + byte_val c in
      String (ch (x / 262144)) (String (ch (x / 4096 mod 64))
        (String (ch (x / 64 mod 64)) (String (ch (x mod 64)) (encode c62 c63 pad t))))
  | String a (String b "") =>
      let x := byte_val a * 65536 + byte_val b * 256 in
      String (ch (x / 262144)) (String (ch (x / 4096 mod 64))
        (String (ch (x / 64 mod 64)) (pad 1%nat)))
  | String a "" =>
      let x := byte_val a * 65536 in
      String (ch (x / 262144)) (String (ch (x / 4096 mod 64)) (pad 2%nat))
  | "" => ""
  end.
Definition std_pad (n : nat) : string := match n with 1%nat => "=" | _ => "==" end.
Definition StdEncode : string -> string := encode "+" "/" std_pad.
Definition RawURLEncode : string -> string := encode "-" "_" (fun _ => "").

(** [StdEncoding.DecodeString]: carriage returns and newlines are ignored, then
    groups of four characters; the last group may end in padding. *)
Fixpoint decode_groups (s : string) : option string :=
  match s with
  | "" => Some ""
  | String a (String b (String c (String d t))) =>
      x ← char_sextet "+" "/" a;
      y ← char_sextet "+" "/" b;
      let b0 := byte_of (x * 4 + y / 16) in
      if Ascii.eqb c "=" then
        if Ascii.eqb d "=" && String.eqb t "" then Some (str1 b0) else None
      else
        z ← char_sextet "+" "/" c;
        let b1 := byte_of (y mod 16 * 16 + z / 4) in
        if Ascii.eqb d "=" then
          if String.eqb t "" then Some (String b0 (str1 b1)) else None
        else
          w ← char_sextet "+" "/" d;
          r ← decode_groups t;
          Some (String b0 (String b1 (String (byte_of (z mod 4 * 64 + w)) r)))
  | _ => None
  end.
Definition is_crlf (c : ascii) : bool := Ascii.eqb c "013" || Ascii.eqb c "010".
Definition StdDecode (s : string) : option string :=
  decode_groups (str_filter (fun c => negb (is_crlf c)) s).

(** ** Decoding undoes encoding *)

Lemma byte_val_range c : 0 <= byte_val c < 256.
Proof. unfold byte_val. pose proof (N_ascii_bounded c). lia. Qed.
Lemma byte_of_val c : byte_of (byte_val c) = c.
Proof. unfold byte_of, byte_val. by rewrite N2Z.id, ascii_N_embedding. Qed.

Definition sextet_ok (d : Z) : bool :=
  let c := sextet_char "+" "/" d in
  match char_sextet "+" "/" c with Some d' => d =? d' | None => false end
  && negb (Ascii.eqb c "=") && negb (is_crlf c).
Lemma sextet_spec d :
  0 <= d < 64 ->
  let c := sextet_char "+" "/" d in
  char_sextet "+" "/" c = Some d /\ Ascii.eqb c "=" = false /\ is_crlf c = false.
Proof.
  intros Hd. assert (forallb sextet_ok (map Z.of_nat (seq 0 64)) = true) as H by (vm_compute; reflexivity).
  rewrite forallb_forall in H. specialize (H d).
  assert (In d (map Z.of_nat (seq 0 64))) as Hin.
  { apply in_map_iff. exists (Z.to_nat d). split; [lia|]. apply in_seq. lia. }
  specialize (H Hin). unfold sextet_ok in H.
  rewrite !andb_true_iff, !negb_true_iff in H. destruct H as [[H1 H2] H3].
  case_match; [|done]. apply Z.eqb_eq in H1 as <-. done.
Qed.

Lemma sextet_filter d t :
  0 <= d < 64 ->
  str_filter (fun c => negb (is_crlf c)) (String (sextet_char "+" "/" d) t)
  = String (sextet_char "+" "/" d) (str_filter (fun c => negb (is_crlf c)) t).
Proof. intros Hd. cbn [str_filter]. destruct (sextet_spec d Hd) as (_ & _ & ->). done. Qed.

(** Induction in steps of three bytes, as [encode] recurses. *)
Lemma three_ind (P : string -> Prop) :
  P "" -> (forall a, P (str1 a)) -> (forall a b, P (String a (str1 b))) ->
  (forall a b c t, P t -> P (String a (String b (String c t)))) -> forall s, P s.
Proof.
  intros H0 H1 H2 H3 s. enough (P s /\ (forall a, P (String a s)) /\ forall a b, P (String a (String b s)))
    by tauto.
  induction s as [|c s (IH1 & IH2 & IH3)]; [done|]. auto.
Qed.

Ltac sextets :=
  repeat match goal with
  | |- context [char_sextet "+" "/" (sextet_char "+" "/" ?d)] =>
      let H := fresh in assert (0 <= d < 64) as H by
        (split; [apply Z.div_pos || apply Z.mod_pos_bound; lia
                |apply Z.div_lt_upper_bound || apply Z.mod_pos_bound; lia]);
      destruct (sextet_spec d H) as (-> & ? & _); clear H; cbn [mbind option_bind]
  | H : Ascii.eqb ?c "=" = false |- context [Ascii.eqb ?c "="] => rewrite H
  end.

Lemma three_bytes a b c :
  let x := byte_val a * 65536 + byte_val b * 256 + byte_val c in
  byte_of (x / 262144 * 4 + x / 4096 mod 64 / 16) = a
  /\ byte_of (x / 4096 mod 64 mod 16 * 16 + x / 64 mod 64 / 4) = b
  /\ byte_of (x / 64 mod 64 mod 4 * 64 + x mod 64) = c.
Proof.
  pose proof (byte_val_range a). pose proof (byte_val_range b). pose proof (byte_val_range c).
  cbv zeta. set (x := byte_val a * 65536 + byte_val b * 256 + byte_val c).
  rewrite <- (byte_of_val a), <- (byte_of_val b), <- (byte_of_val c).
  repeat split; f_equal; subst x; Z.div_mod_to_equations; lia.
Qed.

Lemma decode_encode s : StdDecode (StdEncode s) = Some s.
Proof.
  unfold StdDecode, StdEncode.
  induction s as [|a|a b|a b c t IH] using three_ind; [done|..]; cbn [encode str1];
    repeat rewrite sextet_filter by
      (repeat match goal with |- context [byte_val ?c] =>
         lazymatch goal with _ : 0 <= byte_val c < 256 |- _ => fail | _ => pose proof (byte_val_range c) end end;
       split; [apply Z.div_pos || apply Z.mod_pos_bound; lia
              |apply Z.div_lt_upper_bound || apply Z.mod_pos_bound; lia]).
  - destruct (three_bytes a "000" "000") as (H & _ & _). change (byte_val "000") with 0 in H.
    rewrite !Z.add_0_r in H. cbn [str_filter std_pad]. pose proof (byte_val_range a).
    cbn [decode_groups]. sextets. cbn. by rewrite H.
  - destruct (three_bytes a b "000") as (Ha & Hb & _). change (byte_val "000") with 0 in *.
    rewrite !Z.add_0_r in *. cbn [str_filter std_pad]. pose proof (byte_val_range a).
    pose proof (byte_val_range b). cbn [decode_groups]. sextets. cbn. by rewrite Ha, Hb.
  - destruct (three_bytes a b c) as (Ha & Hb & Hc). pose proof (byte_val_range a).
    pose proof (byte_val_range b). pose proof (byte_val_range c).
    cbn [decode_groups]. sextets. rewrite IH. cbn. by rewrite Ha, Hb, Hc.
Qed.

Example base64_examples :
  map StdEncode [""; "f"; "fo"; "foo"; "foob"] = [""; "Zg=="; "Zm8="; "Zm9v"; "Zm9vYg=="]
  /\ RawURLEncode "f" = "Zg" /\ StdDecode "Zg=" = None.
Proof. vm_compute. done. Qed.
