(* ===== verification/Crypto.v ===== *)
(** * internal/crypto/crypto.go: encryption of the stored secrets

    The block cipher and its mode are an interface: [AEAD] states what the code
    relies on of AES-GCM (a 12-byte nonce, opening undoes sealing, and the length
    of the ciphertext), [HKDF] is the third-party key derivation.  The rest, the
    nonce in front of the ciphertext, base64 and the error paths, is the code's
    own. *)
From S2P Require Import Prelude GoStrings Base64.
From Stdlib Require Import Ascii.

Class AEAD := {
  seal : string -> string -> string -> string;      (* key nonce plaintext *)
  open : string -> string -> string -> option string; (* key nonce ciphertext *)
}.
Definition NonceSize : nat := 12.
Class AEADLaws (A : AEAD) := {
  open_seal key nonce plain :
    String.length nonce = NonceSize -> open key nonce (seal key nonce plain) = Some plain;
  seal_length key nonce plain :
    String.length (seal key nonce plain) = (String.length plain + 16)%nat;
}.

(** [aes.NewCipher] accepts keys of 16, 24 or 32 bytes. *)
Definition valid_key (key : string) : bool :=
  let n := String.length key in Nat.eqb n 16 || Nat.eqb n 24 || Nat.eqb n 32.

Section crypto.
Context `{A : AEAD}.
(** HKDF-SHA256 of golang.org/x/crypto: secret, info and the number of bytes
    asked for. *)
Context (hkdf : string -> string -> nat -> result string).

Definition DeriveKey (secret : string) : result string :=
  match hkdf secret "stackd-v1" 32 with
  | Ok key => Ok key
  | Err e => Err (wrap "derive key: " e)
  end.

(** [nonce] is what reading [NonceSize] bytes of [rand.Reader] gave. *)
Definition Encrypt (nonce : result string) (key plaintext : string) : result string :=
  if negb (valid_key key) then Err (errorf "new cipher: crypto/aes: invalid key size")
  else
    match nonce with
    | Err e => Err (wrap "nonce: " e)
    | Ok nonce => Ok (StdEncode (nonce +:+ seal key nonce plaintext))
    end.

Definition Decrypt (key ciphertext : string) : result string :=
  match StdDecode ciphertext with
  | None => Err (errorf "base64 decode: illegal base64 data")
  | Some data =>
      if negb (valid_key key) then Err (errorf "new cipher: crypto/aes: invalid key size")
      else if Nat.ltb (String.length data) NonceSize then Err (errorf "ciphertext too short")
      else
        match open key (take NonceSize data) (drop NonceSize data) with
        | None => Err (errorf "decrypt: cipher: message authentication failed")
        | Some plain => Ok plain
        end
  end.
End crypto.

Lemma Decrypt_Encrypt `{AEADLaws} nonce key plaintext ct :
  String.length nonce = NonceSize ->
  Encrypt (Ok nonce) key plaintext = Ok ct -> Decrypt key ct = Ok plaintext.
Proof.
  intros Hn. unfold Encrypt, Decrypt. destruct (valid_key key); cbn [negb]; [|done].
  intros [= <-]. rewrite decode_encode, str_length_app, Hn.
  assert (Nat.ltb (NonceSize + String.length (seal key nonce plaintext)) NonceSize = false) as ->
    by (apply Nat.ltb_ge; lia).
  rewrite <- Hn, take_app, drop_app, open_seal by done. done.
Qed.

(** A stand-in for AES-GCM, to run the definitions: the plaintext and a tag made
    of the key's first bytes. *)
Definition demo_tag (key : string) : string := take 16 (key +:+ "0123456789abcdef").
#[export] Instance demo_aead : AEAD := {
  seal key nonce plain := (plain +:+ demo_tag key)%string;
  open key nonce ct :=
    let n := (String.length ct - 16)%nat in
    if String.eqb (drop n ct) (demo_tag key) then Some (take n ct) else None;
}.
Lemma take_length n s : (n <= String.length s)%nat -> String.length (take n s) = n.
Proof.
  revert s. induction n as [|n IH]; intros s H; [done|].
  destruct s as [|c s]; simpl in *; [lia|]. rewrite IH; lia.
Qed.
Lemma demo_tag_length key : String.length (demo_tag key) = 16%nat.
Proof. unfold demo_tag. apply take_length. rewrite str_length_app. simpl. lia. Qed.
#[export] Instance demo_laws : AEADLaws demo_aead.
Proof.
  split; intros key nonce plain.
  - intros _. unfold seal, open, demo_aead. rewrite str_length_app, demo_tag_length.
    replace (String.length plain + 16 - 16)%nat with (String.length plain) by lia.
    by rewrite drop_app, String.eqb_refl, take_app.
  - unfold seal, demo_aead. by rewrite str_length_app, demo_tag_length.
Qed.

(** ** Properties *)

(** C34. What [Encrypt] stores, [Decrypt] gives back, for every plaintext and every
    key the cipher accepts; [Encrypt] fails only when the key has a wrong size or
    the random source fails, and what it stores survives being wrapped by
    newlines. *)
Theorem Encrypt_roundtrip `{AEADLaws} nonce key plaintext :
  String.length nonce = NonceSize -> valid_key key = true ->
  exists ct, Encrypt (Ok nonce) key plaintext = Ok ct
    /\ Decrypt key ct = Ok plaintext
    /\ Decrypt key (ct +:+ NL) = Ok plaintext.
Proof.
  intros Hn Hk. eexists. split; [unfold Encrypt; by rewrite Hk|].
  assert (forall s, StdDecode (s +:+ NL) = StdDecode s) as Hnl.
  { intros s. unfold StdDecode. f_equal. induction s as [|c s IH]; [done|].
    autorewrite with strings. cbn [str_filter]. by rewrite IH. }
  assert (Decrypt key (StdEncode (nonce +:+ seal key nonce plaintext)) = Ok plaintext) as Hd.
  { eapply Decrypt_Encrypt; [done|]. unfold Encrypt. by rewrite Hk. }
  split; [done|]. unfold Decrypt in *. by rewrite Hnl.
Qed.
Lemma Encrypt_roundtrip_witness :
  exists ct, Encrypt (Ok "nonce-123456") "0123456789abcdef0123456789abcdef" "hunter2" = Ok ct
    /\ Decrypt "0123456789abcdef0123456789abcdef" ct = Ok "hunter2"
    /\ Decrypt "0123456789abcdef0123456789abcdef" (ct +:+ NL) = Ok "hunter2".
Proof. apply (Encrypt_roundtrip "nonce-123456"); reflexivity. Defined.

(** [Decrypt] never hands a truncated text to the cipher: with a valid key, a
    text whose decoded form is shorter than the nonce is refused as too short,
    and a longer one is opened with its first 12 bytes as the nonce. *)
Theorem Decrypt_short `{A : AEAD} key ciphertext data :
  valid_key key = true -> StdDecode ciphertext = Some data ->
  ((String.length data < NonceSize)%nat ->
     Decrypt key ciphertext = Err (errorf "ciphertext too short"))
  /\ ((NonceSize <= String.length data)%nat ->
     exists nonce ct, data = (nonce +:+ ct)%string /\ String.length nonce = NonceSize
       /\ is_ok (Decrypt key ciphertext) = bool_decide (is_Some (open key nonce ct))).
Proof.
  intros Hk Hd. unfold Decrypt. rewrite Hd, Hk. cbn [negb]. split.
  - intros H. apply Nat.ltb_lt in H as ->. done.
  - intros Hle. assert (Nat.ltb (String.length data) NonceSize = false) as -> by (by apply Nat.ltb_ge).
    assert (data = (take NonceSize data +:+ drop NonceSize data)%string) as Hsplit.
    { clear. generalize NonceSize. intros n. revert data. induction n as [|n IH]; intros data.
      - by destruct data.
      - destruct data as [|c data]; [done|]. simpl. autorewrite with strings. by rewrite <- IH. }
    exists (take NonceSize data), (drop NonceSize data). split; [done|].
    split; [by apply take_length|]. destruct (open _ _ _); symmetry;
      [by apply bool_decide_eq_true_2|]. apply bool_decide_eq_false_2. by intros [? ?].
Qed.
Lemma Decrypt_short_witness :
  Decrypt "0123456789abcdef" "Zm9v" = Err (errorf "ciphertext too short").
Proof. apply (proj1 (Decrypt_short "0123456789abcdef" "Zm9v" "foo" eq_refl eq_refl)). vm_compute. lia. Defined.
