(* ===== verification/Metrics.v ===== *)
(** * internal/metrics/metrics.go: counters and the Prometheus text format

    The package variables are one record, every function a critical section of
    [mu].  Durations are summed as [float64], modelled by the IEEE-754 numbers of
    [SpecFloat] at binary64.  Go visits maps in an unspecified order, which is the
    parameter [visit] of [Handler]. *)
From S2P Require Import Prelude GoStrings State.
From Stdlib Require Import Ascii SpecFloat.

(** ** float64 *)

Definition float64 := spec_float.
Definition f64_of_Z (z : Z) : float64 := binary_normalize 53 1024 z 0 false.
Definition f64_add : float64 -> float64 -> float64 := SFadd 53 1024.
Definition f64_div : float64 -> float64 -> float64 := SFdiv 53 1024.
(** [time.Duration.Seconds]. *)
Definition Seconds (d : Z) : float64 :=
  f64_add (f64_of_Z (Z.quot d (10 ^ 9))) (f64_div (f64_of_Z (Z.rem d (10 ^ 9))) (f64_of_Z (10 ^ 9))).

Definition pad4 (z : Z) : string :=
  let s := Itoa z in take (4 - String.length s) "0000" +:+ s.
(** The [%.4f] verb: the exact value rounded half to even. *)
Definition fmt4f (f : float64) : string :=
  let show (neg : bool) (q : Z) :=
    ((if neg then "-" else "") +:+ Itoa (q / 10000) +:+ "." +:+ pad4 (q mod 10000))%string in
  match f with
  | S754_zero s => show s 0
  | S754_infinity s => if s then "-Inf" else "+Inf"
  | S754_nan => "NaN"
  | S754_finite s m e =>
      if 0 <=? e then show s (Z.pos m * 10000 * 2 ^ e)
      else
        let n := Z.pos m * 10000 in
        let d := 2 ^ (- e) in
        let q := n / d in
        let r := n mod d in
        if (d <? 2 * r) || ((2 * r =? d) && Z.odd q) then show s (q + 1) else show s q
  end.

(** ** Label values *)

Definition escape_byte (c : ascii) : string :=
  if Ascii.eqb c backslash then String backslash (str1 backslash)
  else if Ascii.eqb c dquote then String backslash (str1 dquote)
  else if Ascii.eqb c nl then String backslash "n"
  else str1 c.
Fixpoint escapeLabel (v : string) : string :=
  match v with "" => "" | String c v => escape_byte c +:+ escapeLabel v end.

(** ** State *)

Record Metrics := {
  syncTotal : gmap string (gmap string Z);
  applyTotal : gmap string (gmap string Z);
  containersRunning : gmap string Z;
  lastSyncTS : gmap string Z;
  syncDurationSum : gmap string float64;
  syncDurationCount : gmap string Z;
}.
Definition zeroMetrics : Metrics :=
  {| syncTotal := ∅; applyTotal := ∅; containersRunning := ∅; lastSyncTS := ∅;
     syncDurationSum := ∅; syncDurationCount := ∅ |}.

(** [m[k]++] on a [map[string]int64]. *)
Definition incr (k : string) (m : gmap string Z) : gmap string Z :=
  <[k := wrap64 (default 0 (m !! k) + 1)]> m.
(** The same one level down; a missing inner map is created. *)
Definition incr2 (a b : string) (m : gmap string (gmap string Z)) : gmap string (gmap string Z) :=
  <[a := incr b (default ∅ (m !! a))]> m.

(** [Time.Unix]: seconds since 1970. *)
Definition Unix (t : Time) : Z := t / 10 ^ 9 - 62135596800.

Definition RecordSync (repo status : string) (duration : Z) (now : Time) (m : Metrics) : Metrics :=
  let total := incr2 repo status (syncTotal m) in
  if String.eqb status "success" then
    {| syncTotal := total; applyTotal := applyTotal m; containersRunning := containersRunning m;
       lastSyncTS := <[repo := Unix now]> (lastSyncTS m);
       syncDurationSum := <[repo := f64_add (default (S754_zero false) (syncDurationSum m !! repo)) (Seconds duration)]>
         (syncDurationSum m);
       syncDurationCount := incr repo (syncDurationCount m) |}
  else
    {| syncTotal := total; applyTotal := applyTotal m; containersRunning := containersRunning m;
       lastSyncTS := lastSyncTS m; syncDurationSum := syncDurationSum m;
       syncDurationCount := syncDurationCount m |}.

Definition RecordApply (stack status : string) (m : Metrics) : Metrics :=
  {| syncTotal := syncTotal m; applyTotal := incr2 stack status (applyTotal m);
     containersRunning := containersRunning m; lastSyncTS := lastSyncTS m;
     syncDurationSum := syncDurationSum m; syncDurationCount := syncDurationCount m |}.

Definition SetContainersRunning (repoStack : string) (count : Z) (m : Metrics) : Metrics :=
  {| syncTotal := syncTotal m; applyTotal := applyTotal m;
     containersRunning := <[repoStack := count]> (containersRunning m);
     lastSyncTS := lastSyncTS m; syncDurationSum := syncDurationSum m;
     syncDurationCount := syncDurationCount m |}.

(** ** Handler *)

Section handler.
Context (visit : forall A, gmap string A -> list (string * A)).

Definition label (name value : string) : string :=
  (name +:+ "=" +:+ str1 dquote +:+ escapeLabel value +:+ str1 dquote)%string.
Definition sample (name : string) (labels : list string) (value : string) : string :=
  (name +:+ "{" +:+ join "," labels +:+ "} " +:+ value)%string.
Definition counter_lines (name key : string) (total : gmap string (gmap string Z)) : list string :=
  '(k, statuses) ← visit _ total; '(status, count) ← visit _ statuses;
  [sample name [label key k; label "status" status] (Itoa count)].
Definition gauge_lines (name key : string) (m : gmap string Z) : list string :=
  (fun '(k, n) => sample name [label key k] (Itoa n)) <$> visit _ m.
Definition duration_lines (m : Metrics) : list string :=
  '(repo, sum) ← visit _ (syncDurationSum m);
  [sample "stackd_sync_duration_seconds_sum" [label "repo" repo] (fmt4f sum);
   sample "stackd_sync_duration_seconds_count" [label "repo" repo]
     (Itoa (default 0 (syncDurationCount m !! repo)))].

(** The lines written by the handler, in order; [goroutines] and [threads] are
    read from the runtime. *)
Definition metric_lines (goroutines threads : Z) (m : Metrics) : list string :=
  ["# HELP stackd_sync_total Total repo sync attempts by status.";
   "# TYPE stackd_sync_total counter"]
  ++ counter_lines "stackd_sync_total" "repo" (syncTotal m)
  ++ ["# HELP stackd_sync_duration_seconds Repo sync duration summary.";
      "# TYPE stackd_sync_duration_seconds summary"]
  ++ duration_lines m
  ++ ["# HELP stackd_stack_apply_total Total stack apply attempts by status.";
      "# TYPE stackd_stack_apply_total counter"]
  ++ counter_lines "stackd_stack_apply_total" "stack" (applyTotal m)
  ++ ["# HELP stackd_containers_running Running containers per stack.";
      "# TYPE stackd_containers_running gauge"]
  ++ gauge_lines "stackd_containers_running" "stack" (containersRunning m)
  ++ ["# HELP stackd_last_sync_timestamp Unix timestamp of last successful sync.";
      "# TYPE stackd_last_sync_timestamp gauge"]
  ++ gauge_lines "stackd_last_sync_timestamp" "repo" (lastSyncTS m)
  ++ ["# HELP stackd_goroutines Number of goroutines currently in flight.";
      "# TYPE stackd_goroutines gauge"; "stackd_goroutines " +:+ Itoa goroutines;
      "# HELP stackd_threads Number of OS threads created by the Go runtime (cumulative high-water mark).";
      "# TYPE stackd_threads gauge"; "stackd_threads " +:+ Itoa threads].
Definition Handler (goroutines threads : Z) (m : Metrics) : string :=
  foldr (fun l body => l +:+ NL +:+ body)%string "" (metric_lines goroutines threads m).
End handler.

(** ** Reading the text back *)

(** A label value up to its closing quote, as a scraper reads it. *)
Fixpoint read_label (s : string) : option (string * string) :=
  match s with
  | "" => None
  | String c t =>
      if Ascii.eqb c dquote then Some ("", t)
      else if Ascii.eqb c backslash then
        match t with
        | String d u =>
            '(v, r) ← read_label u;
            Some (String (if Ascii.eqb d "n" then nl else d) v, r)
        | "" => None
        end
      else '(v, r) ← read_label t; Some (String c v, r)
  end.

Definition no_nl (s : string) : bool := str_forallb (fun a => negb (Ascii.eqb a nl)) s.

Lemma read_label_escape v rest :
  read_label (escapeLabel v +:+ String dquote rest) = Some (v, rest).
Proof.
  induction v as [|c v IH]; [done|]. cbn [escapeLabel]. rewrite str_app_assoc. unfold escape_byte.
  destruct (Ascii.eqb c backslash) eqn:E1; [apply Ascii.eqb_eq in E1 as ->|
  destruct (Ascii.eqb c dquote) eqn:E2; [apply Ascii.eqb_eq in E2 as ->|
  destruct (Ascii.eqb c nl) eqn:E3; [apply Ascii.eqb_eq in E3 as ->|]]];
    unfold str1; autorewrite with strings; cbn [read_label].
  1-3: match goal with |- context [read_label ?x] => change x with (escapeLabel v +:+ String dquote rest)%string end;
    rewrite IH; reflexivity.
  rewrite E1, E2. by rewrite IH.
Qed.
Lemma escapeLabel_no_nl v : no_nl (escapeLabel v) = true.
Proof.
  unfold no_nl. induction v as [|c v IH]; [done|]. cbn [escapeLabel]. rewrite str_forallb_app, IH, andb_true_r.
  unfold escape_byte. repeat case_bool; try done. simpl. by rewrite E1.
Qed.
Lemma Itoa_no_nl z : no_nl (Itoa z) = true.
Proof.
  assert (forall s, str_forallb is_digit s = true -> no_nl s = true) as Hd.
  { intros s. apply str_forallb_impl. intros c H. apply negb_true_iff, Ascii.eqb_neq. by intros ->. }
  unfold Itoa. case_bool; bool_prop.
  - unfold no_nl. simpl. apply Hd, digits_of_digits. lia.
  - by apply Hd, digits_of_digits.
Qed.
Lemma no_nl_app s t : no_nl (s +:+ t) = no_nl s && no_nl t.
Proof. apply str_forallb_app. Qed.
Lemma no_nl_take n s : no_nl s = true -> no_nl (take n s) = true.
Proof.
  revert s. induction n as [|n IH]; intros s; [done|]. destruct s as [|c s]; [done|].
  unfold no_nl in *. simpl. intros [-> H]%andb_true_iff. by apply IH.
Qed.
Lemma fmt4f_no_nl f : no_nl (fmt4f f) = true.
Proof.
  assert (forall z, no_nl (pad4 z) = true) as Hp.
  { intros z. unfold pad4. rewrite no_nl_app, Itoa_no_nl, no_nl_take; done. }
  assert (forall (neg : bool) q, no_nl ((if neg then "-" else "") +:+ Itoa (q / 10000) +:+ "." +:+ pad4 (q mod 10000)) = true) as Hs.
  { intros neg q. rewrite !no_nl_app, Itoa_no_nl, Hp. by destruct neg. }
  unfold fmt4f. destruct f as [s|s| |s m e]; [apply Hs|by destruct s|done|].
  destruct (0 <=? e); [apply Hs|]. destruct (_ || _); apply Hs.
Qed.
Lemma sample_no_nl name labels value :
  no_nl name = true -> Forall (fun l => no_nl l = true) labels -> no_nl value = true ->
  no_nl (sample name labels value) = true.
Proof.
  intros Hn Hl Hv. unfold sample. rewrite !no_nl_app, Hn, Hv.
  assert (no_nl (join "," labels) = true) as ->; [|done].
  induction Hl as [|l ls Hl Hls IH]; [done|]. cbn [join]. destruct ls; [done|].
  rewrite !no_nl_app, Hl, IH. done.
Qed.
Lemma label_no_nl name v : no_nl name = true -> no_nl (label name v) = true.
Proof. intros H. unfold label. by rewrite !no_nl_app, H, escapeLabel_no_nl. Qed.
#[export] Hint Resolve sample_no_nl label_no_nl Itoa_no_nl fmt4f_no_nl : stackd.

Lemma metric_lines_no_nl visit g t m : Forall (fun l => no_nl l = true) (metric_lines visit g t m).
Proof.
  assert (forall name key total, no_nl name = true -> no_nl key = true ->
    Forall (fun l => no_nl l = true) (counter_lines visit name key total)) as Hc.
  { intros name key total H1 H2. apply Forall_forall. unfold counter_lines. intros l.
    rewrite list_elem_of_bind. intros ([k sts] & Hl & _).
    rewrite list_elem_of_bind in Hl. destruct Hl as ([s c] & Hl & _).
    apply list_elem_of_singleton in Hl as ->. auto 10 with stackd. }
  assert (forall name key m, no_nl name = true -> no_nl key = true ->
    Forall (fun l => no_nl l = true) (gauge_lines visit name key m)) as Hg.
  { intros name key m' H1 H2. apply Forall_fmap, Forall_true. intros [k n]. simpl. auto 10 with stackd. }
  assert (Forall (fun l => no_nl l = true) (duration_lines visit m)) as Hd.
  { apply Forall_forall. unfold duration_lines. intros l.
    rewrite list_elem_of_bind. intros ([k s] & Hl & _).
    rewrite !elem_of_cons, elem_of_nil in Hl. destruct_or? Hl; subst; try done; auto 10 with stackd. }
  assert (forall s z, no_nl s = true -> no_nl (s +:+ Itoa z) = true) as Hi.
  { intros s z Hs. by rewrite no_nl_app, Hs, Itoa_no_nl. }
  unfold metric_lines. rewrite !Forall_app. split_and!; auto; repeat constructor; auto.
Qed.

(** ** Counting *)

Inductive metric_op :=
| MSync (repo status : string) (duration now : Z)
| MApply (stack status : string)
| MRunning (repoStack : string) (count : Z).
Definition metric_apply (m : Metrics) (op : metric_op) : Metrics :=
  match op with
  | MSync repo status d now => RecordSync repo status d now m
  | MApply stack status => RecordApply stack status m
  | MRunning k n => SetContainersRunning k n m
  end.
Definition is_sync (repo status : string) (op : metric_op) : bool :=
  match op with MSync r s _ _ => String.eqb r repo && String.eqb s status | _ => false end.
Definition is_apply (stack status : string) (op : metric_op) : bool :=
  match op with MApply r s => String.eqb r stack && String.eqb s status | _ => false end.
Definition count_ops (p : metric_op -> bool) (h : list metric_op) : Z := Z.of_nat (length (filter (fun op => p op = true) h)).
Definition get1 (k : string) (m : gmap string Z) : Z := default 0 (m !! k).
Definition get2 (a b : string) (m : gmap string (gmap string Z)) : Z := get1 b (default ∅ (m !! a)).
(** The time of the last successful sync of [repo] in a history. *)
Definition last_success (repo : string) (h : list metric_op) : option Z :=
  foldl (fun acc op => match op with
    | MSync r s _ now => if String.eqb r repo && String.eqb s "success" then Some now else acc
    | _ => acc end) None h.

Lemma get1_incr k k' m : get1 k (incr k' m) = if decide (k = k') then wrap64 (get1 k m + 1) else get1 k m.
Proof.
  unfold get1, incr. rewrite lookup_insert. case_decide as E; [|by rewrite decide_False].
  subst. by rewrite decide_True.
Qed.
Lemma get2_incr2 a b a' b' m :
  get2 a b (incr2 a' b' m) = if decide (a = a' /\ b = b') then wrap64 (get2 a b m + 1) else get2 a b m.
Proof.
  unfold get2, incr2. rewrite lookup_insert. case_decide as E.
  - subst. simpl. rewrite get1_incr. apply decide_ext. naive_solver.
  - rewrite decide_False; [done|naive_solver].
Qed.
Lemma count_ops_app p h op : count_ops p (h ++ [op]) = count_ops p h + if p op then 1 else 0.
Proof.
  unfold count_ops. rewrite filter_app, length_app, filter_cons, filter_nil.
  destruct (p op); simpl; lia.
Qed.
Lemma count_ops_bound p h : 0 <= count_ops p h <= Z.of_nat (length h).
Proof. unfold count_ops. pose proof (length_filter (fun op => p op = true) h). lia. Qed.
Lemma wrap64_count p h :
  Z.of_nat (length h) < int64_max -> wrap64 (count_ops p h + 1) = count_ops p h + 1.
Proof.
  intros H. pose proof (count_ops_bound p h). apply wrap64_small.
  unfold in_int64, int64_min, int64_max in *. bool_prop. lia.
Qed.
Lemma eqb_and_decide (a b a' b' : string) {A} (x y : A) :
  (if decide (a = a' /\ b = b') then x else y) = (if String.eqb a' a && String.eqb b' b then x else y).
Proof.
  destruct (decide (a = a' /\ b = b')) as [[-> ->]|H].
  - by rewrite !String.eqb_refl.
  - destruct (String.eqb_spec a' a), (String.eqb_spec b' b); naive_solver.
Qed.

Definition metrics_inv (h : list metric_op) (m : Metrics) : Prop :=
  (forall repo status, get2 repo status (syncTotal m) = count_ops (is_sync repo status) h)
  /\ (forall stack status, get2 stack status (applyTotal m) = count_ops (is_apply stack status) h)
  /\ (forall repo, get1 repo (syncDurationCount m) = count_ops (is_sync repo "success") h)
  /\ (forall repo, lastSyncTS m !! repo = Unix <$> last_success repo h).

Lemma RecordSync_syncTotal repo status d now m :
  syncTotal (RecordSync repo status d now m) = incr2 repo status (syncTotal m).
Proof. unfold RecordSync. by case_bool. Qed.
Lemma RecordSync_applyTotal repo status d now m :
  applyTotal (RecordSync repo status d now m) = applyTotal m.
Proof. unfold RecordSync. by case_bool. Qed.
Lemma RecordSync_count repo status d now m :
  syncDurationCount (RecordSync repo status d now m) =
    if String.eqb status "success" then incr repo (syncDurationCount m) else syncDurationCount m.
Proof. unfold RecordSync. by case_bool. Qed.
Lemma RecordSync_last repo status d now m :
  lastSyncTS (RecordSync repo status d now m) =
    if String.eqb status "success" then <[repo := Unix now]> (lastSyncTS m) else lastSyncTS m.
Proof. unfold RecordSync. by case_bool. Qed.

Lemma last_success_app repo h op :
  last_success repo (h ++ [op]) = match op with
    | MSync r s _ now => if String.eqb r repo && String.eqb s "success" then Some now else last_success repo h
    | _ => last_success repo h end.
Proof. unfold last_success. by rewrite foldl_app. Qed.

Lemma metric_apply_inv h m op :
  Z.of_nat (length h) < int64_max -> metrics_inv h m -> metrics_inv (h ++ [op]) (metric_apply m op).
Proof.
  intros Hlen (H1 & H2 & H3 & H4). destruct op as [repo status d now|stack status|k n]; simpl.
  - split_and!; intros x.
    + intros y. rewrite RecordSync_syncTotal, get2_incr2, count_ops_app, eqb_and_decide, !H1. simpl.
      destruct (_ && _); [by apply wrap64_count|lia].
    + intros y. rewrite RecordSync_applyTotal, count_ops_app, H2. simpl. lia.
    + rewrite RecordSync_count, count_ops_app. simpl. destruct (String.eqb status "success").
      * rewrite get1_incr, !H3, andb_true_r. destruct (String.eqb_spec repo x).
        -- subst. rewrite decide_True by done. by apply wrap64_count.
        -- rewrite decide_False by done. lia.
      * rewrite H3, andb_false_r. lia.
    + rewrite RecordSync_last, last_success_app. destruct (String.eqb status "success");
        [|by rewrite andb_false_r]. rewrite andb_true_r, lookup_insert, H4.
      destruct (String.eqb_spec repo x); case_decide; done.
  - split_and!; intros x; [intros y..| |]; cbn [syncTotal applyTotal syncDurationCount lastSyncTS RecordApply].
    + rewrite count_ops_app, H1. simpl. lia.
    + rewrite get2_incr2, count_ops_app, eqb_and_decide, !H2. simpl.
      destruct (_ && _); [by apply wrap64_count|lia].
    + rewrite count_ops_app, H3. simpl. lia.
    + by rewrite last_success_app, H4.
  - split_and!; intros x; [intros y..| |]; cbn [syncTotal applyTotal syncDurationCount lastSyncTS SetContainersRunning].
    + rewrite count_ops_app, H1. simpl. lia.
    + rewrite count_ops_app, H2. simpl. lia.
    + rewrite count_ops_app, H3. simpl. lia.
    + by rewrite last_success_app, H4.
Qed.
Lemma metrics_run_inv h :
  Z.of_nat (length h) <= int64_max -> metrics_inv h (foldl metric_apply zeroMetrics h).
Proof.
  induction h as [|op h IH] using rev_ind; intros Hlen; [by repeat split|].
  rewrite length_app in Hlen. simpl in Hlen. rewrite foldl_app.
  apply metric_apply_inv; [lia|apply IH; lia].
Qed.

(** ** Properties *)

(** The counters count: after any history of recordings, [stackd_sync_total] and
    [stackd_stack_apply_total] hold the number of recordings with those labels,
    the duration count is the number of successful syncs, and the timestamp is
    that of the last successful sync (absent when there was none). *)
Theorem metrics_count h :
  Z.of_nat (length h) <= int64_max ->
  let m := foldl metric_apply zeroMetrics h in
  forall a b,
    get2 a b (syncTotal m) = count_ops (is_sync a b) h
    /\ get2 a b (applyTotal m) = count_ops (is_apply a b) h
    /\ get1 a (syncDurationCount m) = get2 a "success" (syncTotal m)
    /\ lastSyncTS m !! a = Unix <$> last_success a h.
Proof.
  intros Hlen m a b. destruct (metrics_run_inv h Hlen) as (H1 & H2 & H3 & H4). fold m in H1, H2, H3, H4.
  by rewrite H1, H2, H3, H4, H1.
Qed.
Lemma metrics_count_witness :
  get2 "home" "success" (syncTotal (foldl metric_apply zeroMetrics
    [MSync "home" "success" 5 7; MSync "home" "error" 5 8; MSync "home" "success" 1 9])) = 2.
Proof.
  refine (eq_trans (proj1 (metrics_count _ _ "home" "success")) _);
    [vm_compute; discriminate|vm_compute; reflexivity].
Defined.

(** C39. No repository or stack name can forge or break the exposition: the response
    splits at its newlines into exactly the lines of the handler, one per sample,
    and a scraper that reads a label value up to its closing quote gets back the
    name that was recorded. *)
Theorem metrics_no_injection visit goroutines threads m v rest :
  split nl (Handler visit goroutines threads m) = metric_lines visit goroutines threads m ++ [""]
  /\ read_label (escapeLabel v +:+ String dquote rest) = Some (v, rest).
Proof.
  split; [|apply read_label_escape]. unfold Handler.
  pose proof (metric_lines_no_nl visit goroutines threads m) as H.
  induction H as [|l ls Hl _ IH]; [done|]. cbn [foldr app].
  change (NL +:+ ?b)%string with (String nl b). rewrite split_app_sep, IH.
  by rewrite split_no_sep_id.
Qed.

Example metrics_example :
  fmt4f (f64_add (Seconds 1500000000) (Seconds 250000)) = "1.5003"
  /\ escapeLabel (String "a" (String dquote (String nl (str1 backslash))))
     = String "a" (String backslash (String dquote (String backslash (String "n" (String backslash (str1 backslash)))))).
Proof. vm_compute. done. Qed.
