(* ===== verification/Db.v ===== *)
(** * internal/db: the three tables, their statements, and the migrations

    The SQL text of the source is translated into functions on tables: a table is
    a finite map from its primary key to rows, a statement changes it the way the
    SQL says (uniqueness constraints, upserts, updates that match no row), and a
    [fault] is the database refusing a statement.  Timestamps are stored with
    [time.DateTime], which keeps whole seconds. *)
From stdpp Require Import sorting.
From Stdlib Require Import Ascii.
From S2P Require Import Prelude GoStrings State.

(** ** Faults of the engine *)

(** A statement fails as a whole, or the iteration over a result set stops with
    an error after some rows. *)
Inductive fault := NoFault | StmtFault (msg : string) | IterFault (rows : nat) (msg : string).
Definition stmt_error (f : fault) : option GoError :=
  match f with NoFault => None | StmtFault m | IterFault _ m => Some (errorf m) end.
(** [for rows.Next()]: what was read, and [rows.Err()]. *)
Definition iterate {A} (f : fault) (pfx : string) (rows : list A) : list A * option GoError :=
  match f with
  | NoFault => (rows, None)
  | StmtFault m => ([], Some (wrap pfx (errorf m)))
  | IterFault n m => (firstn n rows, Some (errorf m))
  end.
Definition ErrNoRows : GoError := mkErr "sql: no rows in result set" true.
Definition unique_violation (col : string) : GoError := errorf ("UNIQUE constraint failed: " +:+ col).

(** ** Rebind *)

Fixpoint rebind_go (n : Z) (query : string) : string :=
  match query with
  | "" => ""
  | String c q =>
      if Ascii.eqb c "?" then "$" +:+ Itoa n +:+ rebind_go (n + 1) q
      else String c (rebind_go n q)
  end.
Definition Rebind (driverName query : string) : string :=
  if negb (String.eqb driverName "postgres") then query else rebind_go 1 query.

(** ** UUIDs *)

Definition hex2 (c : ascii) : string :=
  String (hex_digit (byte_val c / 16)) (str1 (hex_digit (byte_val c mod 16))).
Fixpoint hex (s : string) : string :=
  match s with "" => "" | String c s => hex2 c +:+ hex s end.
Definition map_byte (i : nat) (f : Z -> Z) (s : string) : string :=
  match drop i s with
  | String c r => take i s +:+ String (ascii_of_N (Z.to_N (f (byte_val c)))) r
  | "" => s
  end.
(** The version and variant bits. *)
Definition set_version (b : string) : string :=
  let b := map_byte 6 (fun x => Z.lor (Z.land x 15) 64) b in
  map_byte 8 (fun x => Z.lor (Z.land x 63) 128) b.
Definition slice (i j : nat) (s : string) : string := take (j - i) (drop i s).
(** [b] is what [rand.Read] gave; a failure of the random source panics. *)
Definition newUUID (b : option string) : option string :=
  match b with
  | None => None
  | Some b =>
      let b := set_version b in
      Some (hex (slice 0 4 b) +:+ "-" +:+ hex (slice 4 6 b) +:+ "-" +:+ hex (slice 6 8 b)
            +:+ "-" +:+ hex (slice 8 10 b) +:+ "-" +:+ hex (drop 10 b))%string
  end.

(** ** Tables *)

(** [Format(time.DateTime)] and [time.Parse(time.DateTime, _)]. *)
Definition DateTime := Z.
Definition format_datetime (t : Time) : DateTime := t / 10 ^ 9.
Definition parse_datetime (d : DateTime) : Time := d * 10 ^ 9.

Definition nullStr (s : string) : option string := if String.eqb s "" then None else Some s.
Definition null_string (o : option string) : string := default "" o.
Definition boolInt (b : bool) : Z := if b then 1 else 0.

Record RepoDB := {
  r_ID : string;
  r_Name : string;
  r_URL : string;
  r_Branch : string;
  r_Remote : string;
  r_AuthType : string;
  r_SSHKeyID : string;
  r_PATEnc : string;
  r_StacksDir : string;
  r_SyncInterval : Z;
  r_Enabled : bool;
  r_CreatedAt : Time;
  r_UpdatedAt : Time;
}.
Record SSHKeyDB := {
  k_ID : string;
  k_Name : string;
  k_PrivateKeyEnc : string;
  k_PublicKey : string;
  k_CreatedAt : Time;
}.

(** A row of [repos] without its key. *)
Record repo_row := {
  c_name : string;
  c_url : string;
  c_branch : string;
  c_remote : string;
  c_auth_type : string;
  c_ssh_key_id : option string;
  c_pat_enc : option string;
  c_stacks_dir : string;
  c_sync_interval : Z;
  c_enabled : Z;
  c_created_at : DateTime;
  c_updated_at : DateTime;
}.
Record key_row := {
  ck_name : string;
  ck_private_key_enc : string;
  ck_public_key : string;
  ck_created_at : DateTime;
}.
Record setting_row := { cs_value : option string; cs_sensitive : Z; cs_updated_at : DateTime }.

Record DB := {
  t_repos : gmap string repo_row;
  t_keys : gmap string key_row;
  t_settings : gmap string setting_row;
}.
Definition with_repos (t : gmap string repo_row) (d : DB) : DB :=
  {| t_repos := t; t_keys := t_keys d; t_settings := t_settings d |}.
Definition with_keys (t : gmap string key_row) (d : DB) : DB :=
  {| t_repos := t_repos d; t_keys := t; t_settings := t_settings d |}.
Definition with_settings (t : gmap string setting_row) (d : DB) : DB :=
  {| t_repos := t_repos d; t_keys := t_keys d; t_settings := t |}.

(** ** Repositories *)

Definition scanRepo (id : string) (row : repo_row) : RepoDB :=
  {| r_ID := id; r_Name := c_name row; r_URL := c_url row; r_Branch := c_branch row;
     r_Remote := c_remote row; r_AuthType := c_auth_type row;
     r_SSHKeyID := null_string (c_ssh_key_id row); r_PATEnc := null_string (c_pat_enc row);
     r_StacksDir := c_stacks_dir row; r_SyncInterval := c_sync_interval row;
     r_Enabled := negb (c_enabled row =? 0);
     r_CreatedAt := parse_datetime (c_created_at row);
     r_UpdatedAt := parse_datetime (c_updated_at row) |}.
Definition name_le (a b : RepoDB) : Prop := String.le (r_Name a) (r_Name b).
#[export] Instance name_le_dec : RelDecision name_le.
Proof. intros a b. unfold name_le. apply _. Defined.

(** [SELECT ... ORDER BY name], in byte order. *)
Definition select_repos (d : DB) : list RepoDB :=
  merge_sort name_le ((fun '(id, row) => scanRepo id row) <$> map_to_list (t_repos d)).
Definition ListRepos (f : fault) (d : DB) : list RepoDB * option GoError :=
  iterate f "listRepos: " (select_repos d).

Definition GetRepo (f : fault) (id : string) (d : DB) : result RepoDB :=
  match stmt_error f with
  | Some e => Err (wrap "getRepo: " e)
  | None =>
      match t_repos d !! id with
      | None => Err (wrap "getRepo: " ErrNoRows)
      | Some row => Ok (scanRepo id row)
      end
  end.
Definition repo_by_name (name : string) (t : gmap string repo_row) : option (string * repo_row) :=
  head (filter (fun p => c_name p.2 = name) (map_to_list t)).
Definition GetRepoByName (f : fault) (name : string) (d : DB) : result RepoDB :=
  match stmt_error f with
  | Some e => Err (wrap "getRepoByName: " e)
  | None =>
      match repo_by_name name (t_repos d) with
      | None => Err (wrap "getRepoByName: " ErrNoRows)
      | Some (id, row) => Ok (scanRepo id row)
      end
  end.

Definition row_of (r : RepoDB) (created updated : DateTime) : repo_row :=
  {| c_name := r_Name r; c_url := r_URL r; c_branch := r_Branch r; c_remote := r_Remote r;
     c_auth_type := r_AuthType r; c_ssh_key_id := nullStr (r_SSHKeyID r);
     c_pat_enc := nullStr (r_PATEnc r); c_stacks_dir := r_StacksDir r;
     c_sync_interval := r_SyncInterval r; c_enabled := boolInt (r_Enabled r);
     c_created_at := created; c_updated_at := updated |}.

(** [uuid] is the identifier drawn when the repository has none. *)
Definition CreateRepo (f : fault) (uuid : string) (now : Time) (r : RepoDB) (d : DB)
    : option GoError * DB :=
  let id := if String.eqb (r_ID r) "" then uuid else r_ID r in
  let at_ := format_datetime now in
  match stmt_error f with
  | Some e => (Some (wrap "createRepo: " e), d)
  | None =>
      match t_repos d !! id, repo_by_name (r_Name r) (t_repos d) with
      | Some _, _ => (Some (wrap "createRepo: " (unique_violation "repos.id")), d)
      | None, Some _ => (Some (wrap "createRepo: " (unique_violation "repos.name")), d)
      | None, None => (None, with_repos (<[id := row_of r at_ at_]> (t_repos d)) d)
      end
  end.

(** An update that matches no row succeeds and changes nothing. *)
Definition UpdateRepo (f : fault) (now : Time) (r : RepoDB) (d : DB) : option GoError * DB :=
  let at_ := format_datetime now in
  match stmt_error f with
  | Some e => (Some (wrap "updateRepo: " e), d)
  | None =>
      match t_repos d !! r_ID r with
      | None => (None, d)
      | Some old =>
          match repo_by_name (r_Name r) (delete (r_ID r) (t_repos d)) with
          | Some _ => (Some (wrap "updateRepo: " (unique_violation "repos.name")), d)
          | None => (None, with_repos (<[r_ID r := row_of r (c_created_at old) at_]> (t_repos d)) d)
          end
      end
  end.

Definition DeleteRepo (f : fault) (id : string) (d : DB) : option GoError * DB :=
  match stmt_error f with
  | Some e => (Some (wrap "deleteRepo: " e), d)
  | None => (None, with_repos (delete id (t_repos d)) d)
  end.

(** ** SSH keys *)

Definition scan_key (id : string) (row : key_row) : SSHKeyDB :=
  {| k_ID := id; k_Name := ck_name row; k_PrivateKeyEnc := ck_private_key_enc row;
     k_PublicKey := ck_public_key row; k_CreatedAt := parse_datetime (ck_created_at row) |}.
Definition key_le (a b : SSHKeyDB) : Prop := String.le (k_Name a) (k_Name b).
#[export] Instance key_le_dec : RelDecision key_le.
Proof. intros a b. unfold key_le. apply _. Defined.
Definition ListSSHKeys (f : fault) (d : DB) : list SSHKeyDB * option GoError :=
  iterate f "listSSHKeys: "
    (merge_sort key_le ((fun '(id, row) => scan_key id row) <$> map_to_list (t_keys d))).
Definition GetSSHKey (f : fault) (id : string) (d : DB) : result SSHKeyDB :=
  match stmt_error f with
  | Some e => Err (wrap "getSSHKey: " e)
  | None =>
      match t_keys d !! id with
      | None => Err (wrap "getSSHKey: " ErrNoRows)
      | Some row => Ok (scan_key id row)
      end
  end.
Definition CreateSSHKey (f : fault) (uuid : string) (now : Time) (k : SSHKeyDB) (d : DB)
    : option GoError * DB :=
  let id := if String.eqb (k_ID k) "" then uuid else k_ID k in
  match stmt_error f with
  | Some e => (Some (wrap "createSSHKey: " e), d)
  | None =>
      match t_keys d !! id, head (filter (fun p => ck_name p.2 = k_Name k) (map_to_list (t_keys d))) with
      | Some _, _ => (Some (wrap "createSSHKey: " (unique_violation "ssh_keys.id")), d)
      | None, Some _ => (Some (wrap "createSSHKey: " (unique_violation "ssh_keys.name")), d)
      | None, None =>
          (None, with_keys (<[id := {| ck_name := k_Name k; ck_private_key_enc := k_PrivateKeyEnc k;
             ck_public_key := k_PublicKey k; ck_created_at := format_datetime now |}]> (t_keys d)) d)
      end
  end.
Definition DeleteSSHKey (f : fault) (id : string) (d : DB) : option GoError * DB :=
  match stmt_error f with
  | Some e => (Some (wrap "deleteSSHKey: " e), d)
  | None => (None, with_keys (delete id (t_keys d)) d)
  end.

(** ** Settings *)

Definition sensitiveKeys : list string := ["dashboard_token"; "infisical_token"].

Definition GetSetting (f : fault) (key : string) (d : DB) : result (string * bool) :=
  let pfx := ("getSetting " +:+ quote key +:+ ": ")%string in
  match stmt_error f with
  | Some e => Err (wrap pfx e)
  | None =>
      match t_settings d !! key with
      | None => Err (wrap pfx ErrNoRows)
      | Some row => Ok (null_string (cs_value row), negb (cs_sensitive row =? 0))
      end
  end.

(** [INSERT ... ON CONFLICT(key) DO UPDATE SET value, updated_at]. *)
Definition upsert (key value : string) (now : DateTime) (sensitive : Z)
    (t : gmap string setting_row) : gmap string setting_row :=
  match t !! key with
  | Some row => <[key := {| cs_value := Some value; cs_sensitive := cs_sensitive row; cs_updated_at := now |}]> t
  | None => <[key := {| cs_value := Some value; cs_sensitive := sensitive; cs_updated_at := now |}]> t
  end.
Definition SetSetting (f : fault) (now : Time) (key value : string) (d : DB) : option GoError * DB :=
  let sensitive := if existsb (String.eqb key) sensitiveKeys then 1 else 0 in
  match stmt_error f with
  | Some e => (Some (wrap ("setSetting " +:+ quote key +:+ ": ") e), d)
  | None => (None, with_settings (upsert key value (format_datetime now) sensitive (t_settings d)) d)
  end.

Definition masked_value (row : setting_row) : string :=
  if negb (cs_sensitive row =? 0) then "" else null_string (cs_value row).
(** An iteration that stops early still hands back the rows read so far, which
    every caller drops along with the error. *)
Definition GetAllSettings (f : fault) (d : DB) : result (gmap string string) :=
  match f with
  | NoFault => Ok (masked_value <$> t_settings d)
  | StmtFault m => Err (wrap "getAllSettings: " (errorf m))
  | IterFault _ m => Err (errorf m)
  end.

(** ** Migrations *)

(** [INSERT ... ON CONFLICT (key) DO NOTHING] and [DELETE]. *)
Definition seed (now : DateTime) (t : gmap string setting_row) (s : string * string * Z) :=
  let '(key, value, sensitive) := s in
  match t !! key with
  | Some _ => t
  | None => <[key := {| cs_value := Some value; cs_sensitive := sensitive; cs_updated_at := now |}]> t
  end.
Definition seeds (now : DateTime) (l : list (string * string * Z)) (d : DB) : DB :=
  with_settings (foldl (seed now) (t_settings d) l) d.
Definition up_001 (now : DateTime) : DB -> DB :=
  seeds now [("infisical_token", "", 1); ("infisical_env", "prod", 0); ("infisical_url", "", 0);
             ("git_user_name", "stackd", 0); ("git_user_email", "stackd@localhost", 0)].
Definition up_002 (now : DateTime) : DB -> DB := seeds now [("infisical_project_id", "", 0)].
Definition up_003 (d : DB) : DB := with_settings (delete "pull_only" (t_settings d)) d.
Definition up_004 (now : DateTime) : DB -> DB :=
  seeds now [("dashboard_token", "", 1); ("default_sync_interval", "60", 0)].
(** All the migrations, from version [from] on. *)
Definition migrate_up (now : DateTime) (from : nat) (d : DB) : DB :=
  foldl (fun d m => m d) d (skipn from [up_001 now; up_002 now; up_003; up_004 now]).
Definition emptyDB : DB := {| t_repos := ∅; t_keys := ∅; t_settings := ∅ |}.

(** ** Lemmas: Rebind *)

(** The reference definition: the pieces between question marks, with [$n],
    [$n+1], ... between them. *)
Fixpoint weave (n : Z) (pieces : list string) : string :=
  match pieces with
  | [] => ""
  | [p] => p
  | p :: ps => (p +:+ "$" +:+ Itoa n +:+ weave (n + 1) ps)%string
  end.
Lemma weave_cons c n p ps : weave n (String c p :: ps) = String c (weave n (p :: ps)).
Proof. by destruct ps. Qed.
Lemma rebind_go_weave n q : rebind_go n q = weave n (split "?" q).
Proof.
  revert n. induction q as [|c q IH]; intros n; [done|]. cbn [rebind_go split].
  destruct (Ascii.eqb c "?").
  - rewrite IH. pose proof (split_nonempty "?" q) as H. by destruct (split "?" q).
  - rewrite IH. pose proof (split_nonempty "?" q) as H.
    destruct (split "?" q) as [|p ps]; [done|]. by rewrite weave_cons.
Qed.
Definition not_qmark (a : ascii) : bool := negb (Ascii.eqb a "?").
Lemma digit_not_qmark a : is_digit a = true -> not_qmark a = true.
Proof. destruct a as [[] [] [] [] [] [] [] []]; vm_compute; auto. Qed.
Lemma rebind_go_no_qmark n q : 0 <= n -> str_forallb not_qmark (rebind_go n q) = true.
Proof.
  revert n. induction q as [|c q IH]; intros n Hn; [done|]. cbn [rebind_go].
  destruct (Ascii.eqb c "?") eqn:E.
  - rewrite !str_forallb_app, IH by lia. unfold Itoa.
    destruct (n <? 0) eqn:En; [apply Z.ltb_lt in En; lia|].
    assert (str_forallb not_qmark (digits_of n) = true) as ->; [|done].
    apply (str_forallb_impl is_digit); [apply digit_not_qmark|by apply digits_of_digits].
  - cbn [str_forallb]. unfold not_qmark at 1. by rewrite E, IH.
Qed.

(** ** Lemmas: identifiers *)

Lemma hex2_inj c d s t : (hex2 c +:+ s)%string = (hex2 d +:+ t)%string -> c = d /\ s = t.
Proof.
  intros H. assert (hex2 c = hex2 d /\ s = t) as [Hcd Hst].
  { unfold hex2, str1 in *. rewrite !str_app_cons, !str_app_nil_l in H. injection H. by intros -> -> ->. }
  split; [|done]. clear -Hcd.
  assert (forallb (fun p => match p with (c, d) => orb (Ascii.eqb c d) (negb (String.eqb (hex2 c) (hex2 d))) end)
    (list_prod (ascii_of_nat <$> seq 0 256) (ascii_of_nat <$> seq 0 256)) = true) as Hall
    by (vm_compute; reflexivity).
  rewrite forallb_forall in Hall.
  assert (forall a, List.In a (ascii_of_nat <$> seq 0 256)) as Hin.
  { intros a. apply list_elem_of_In, list_elem_of_fmap. exists (nat_of_ascii a).
    split; [by rewrite ascii_nat_embedding|]. apply list_elem_of_In, in_seq.
    pose proof (nat_ascii_bounded a). lia. }
  specialize (Hall (c, d) (in_prod _ _ _ _ (Hin c) (Hin d))). cbn in Hall.
  rewrite Hcd, String.eqb_refl, orb_false_r in Hall. by apply Ascii.eqb_eq.
Qed.
Lemma hex_inj s t : hex s = hex t -> s = t.
Proof.
  revert t. induction s as [|c s IH]; intros [|d t] H; try done.
  cbn [hex] in H. apply hex2_inj in H as [-> H]. by rewrite (IH t).
Qed.

(** A 16-byte string is its bytes. *)
Lemma bytes16 b : String.length b = 16%nat -> exists c0 c1 c2 c3 c4 c5 c6 c7 c8 c9 c10 c11 c12 c13 c14 c15,
  b = String c0 (String c1 (String c2 (String c3 (String c4 (String c5 (String c6 (String c7 (String c8
     (String c9 (String c10 (String c11 (String c12 (String c13 (String c14 (String c15 ""))))))))))))))).
Proof.
  intros H. do 16 (destruct b as [|? b]; [done|]). destruct b; [|done]. by repeat eexists.
Qed.
Definition dashes_at (u : string) : bool :=
  forallb (fun i => String.eqb (slice i (S i) u) "-") [8; 13; 18; 23]%nat.
Lemma version_nibble c :
  hex2 (ascii_of_N (Z.to_N (Z.lor (Z.land (byte_val c) 15) 64)))
  = String "4" (str1 (hex_digit (byte_val c mod 16))).
Proof. destruct c as [[] [] [] [] [] [] [] []]; reflexivity. Qed.
Lemma variant_nibble c :
  exists a, In a ["8"; "9"; "a"; "b"]%char /\
  hex2 (ascii_of_N (Z.to_N (Z.lor (Z.land (byte_val c) 63) 128)))
  = String a (str1 (hex_digit (byte_val c mod 16))).
Proof.
  destruct c as [[] [] [] [] [] [] [] []]; eexists; (split; [|reflexivity]); cbn;
    tauto.
Qed.

(** The bytes of an identifier that are not overwritten. *)
Definition free_bits (b : string) : string := set_version b.

Lemma newUUID_layout b :
  String.length b = 16%nat -> exists u0 u1 u2 u3 u4,
  newUUID (Some b) = Some (u0 +:+ "-" +:+ u1 +:+ "-" +:+ u2 +:+ "-" +:+ u3 +:+ "-" +:+ u4)%string
  /\ (u0 +:+ u1 +:+ u2 +:+ u3 +:+ u4)%string = hex (free_bits b)
  /\ String.length u0 = 8%nat /\ String.length u1 = 4%nat /\ String.length u2 = 4%nat
  /\ String.length u3 = 4%nat /\ String.length u4 = 12%nat
  /\ take 1 u2 = "4" /\ In (take 1 u3) ["8"; "9"; "a"; "b"].
Proof.
  intros H. destruct (bytes16 b H) as (c0&c1&c2&c3&c4&c5&c6&c7&c8&c9&c10&c11&c12&c13&c14&c15&->).
  unfold newUUID, free_bits, set_version, map_byte. cbn [drop take].
  rewrite !str_app_cons, !str_app_nil_l. cbn [drop take].
  rewrite !str_app_cons, !str_app_nil_l. unfold slice. cbn [drop take Nat.sub hex].
  rewrite !str_app_nil_r, version_nibble.
  destruct (variant_nibble c8) as (a & Ha & ->).
  do 5 eexists. split; [reflexivity|]. split; [by rewrite !str_app_assoc|].
  do 6 (split; [reflexivity|]). simpl in Ha |- *. intuition (subst; auto).
Qed.

(** ** Lemmas: tables *)

Lemma repo_by_name_None name t :
  repo_by_name name t = None <-> forall id row, t !! id = Some row -> c_name row <> name.
Proof.
  unfold repo_by_name. split.
  - intros H id row Hid Hn. apply elem_of_map_to_list in Hid.
    assert ((id, row) ∈ filter (fun p => c_name p.2 = name) (map_to_list t)) as Hin
      by (apply list_elem_of_filter; done).
    destruct (filter _ _); [by apply elem_of_nil in Hin|done].
  - intros H. destruct (filter _ _) as [|[id row] l] eqn:E; [done|].
    assert ((id, row) ∈ filter (fun p => c_name p.2 = name) (map_to_list t)) as Hin
      by (rewrite E; left).
    apply list_elem_of_filter in Hin as [Hn Hin]. apply elem_of_map_to_list in Hin.
    by destruct (H _ _ Hin).
Qed.
Lemma repo_by_name_Some name t id row :
  repo_by_name name t = Some (id, row) -> t !! id = Some row /\ c_name row = name.
Proof.
  unfold repo_by_name. destruct (filter _ _) as [|p l] eqn:E; [done|]. intros [= ->].
  assert ((id, row) ∈ filter (fun p => c_name p.2 = name) (map_to_list t)) as Hin
    by (rewrite E; left).
  apply list_elem_of_filter in Hin as [Hn Hin]. by apply elem_of_map_to_list in Hin.
Qed.

(** The uniqueness constraint of [repos.name]. *)
Definition names_unique (t : gmap string repo_row) : Prop :=
  forall i j a b, t !! i = Some a -> t !! j = Some b -> c_name a = c_name b -> i = j.

(** The statements that change the [repos] table. *)
Inductive repo_op :=
| OpCreate (f : fault) (uuid : string) (now : Time) (r : RepoDB)
| OpUpdate (f : fault) (now : Time) (r : RepoDB)
| OpDelete (f : fault) (id : string).
Definition repo_exec (op : repo_op) (d : DB) : option GoError * DB :=
  match op with
  | OpCreate f uuid now r => CreateRepo f uuid now r d
  | OpUpdate f now r => UpdateRepo f now r d
  | OpDelete f id => DeleteRepo f id d
  end.
Definition run_repo_ops (ops : list repo_op) (d : DB) : DB :=
  foldl (fun d op => (repo_exec op d).2) d ops.

Lemma names_unique_insert id row t :
  names_unique t -> repo_by_name (c_name row) (delete id t) = None -> names_unique (<[id := row]> t).
Proof.
  intros Hu Hn i j a b. rewrite repo_by_name_None in Hn.
  assert (forall k x, k <> id -> t !! k = Some x -> c_name x <> c_name row) as Hx.
  { intros k x Hk Hkx. apply (Hn k). by rewrite lookup_delete_ne. }
  rewrite !lookup_insert. repeat case_decide; subst; try done; intros; simplify_eq.
  - exfalso. by eapply (Hx j); [intros -> | |symmetry].
  - exfalso. by eapply (Hx i); [intros -> | |].
  - by eapply Hu.
Qed.
Lemma names_unique_delete id t : names_unique t -> names_unique (delete id t).
Proof.
  intros Hu i j a b Hi Hj. apply lookup_delete_Some in Hi as [_ Hi].
  apply lookup_delete_Some in Hj as [_ Hj]. by eapply Hu.
Qed.
Lemma repo_exec_unique op d : names_unique (t_repos d) -> names_unique (t_repos (repo_exec op d).2).
Proof.
  intros Hu. destruct op as [f uuid now r|f now r|f id]; simpl.
  - unfold CreateRepo. destruct (stmt_error f); [done|].
    destruct (t_repos d !! _) eqn:E1; [done|]. destruct (repo_by_name _ _) eqn:E2; [done|].
    apply names_unique_insert; [done|]. by rewrite delete_id.
  - unfold UpdateRepo. destruct (stmt_error f); [done|].
    destruct (t_repos d !! _) eqn:E1; [|done]. destruct (repo_by_name _ _) eqn:E2; [done|].
    by apply names_unique_insert.
  - unfold DeleteRepo. destruct (stmt_error f); [done|]. by apply names_unique_delete.
Qed.
Lemma run_repo_ops_unique ops d :
  names_unique (t_repos d) -> names_unique (t_repos (run_repo_ops ops d)).
Proof.
  revert d. induction ops as [|op ops IH]; intros d H; [done|].
  apply IH. by apply repo_exec_unique.
Qed.
Lemma elem_of_select_repos d r :
  r ∈ select_repos d <-> exists row, t_repos d !! r_ID r = Some row /\ r = scanRepo (r_ID r) row.
Proof.
  unfold select_repos. rewrite merge_sort_Permutation, list_elem_of_fmap. split.
  - intros ([id row] & -> & H). apply elem_of_map_to_list in H. by exists row.
  - intros (row & H & ->). exists (r_ID r, row). split; [done|]. by apply elem_of_map_to_list.
Qed.

(** The statements that change the [settings] table. *)
Record setting_op := { so_fault : fault; so_now : Time; so_key : string; so_value : string }.
Definition run_setting_ops (ops : list setting_op) (d : DB) : DB :=
  foldl (fun d op => (SetSetting (so_fault op) (so_now op) (so_key op) (so_value op) d).2) d ops.
Definition is_sensitive (key : string) : bool := existsb (String.eqb key) sensitiveKeys.
(** Every secret's row carries the flag that hides it. *)
Definition secrets_flagged (t : gmap string setting_row) : Prop :=
  forall key row, is_sensitive key = true -> t !! key = Some row -> cs_sensitive row <> 0.

Lemma upsert_flagged key value now t :
  secrets_flagged t -> secrets_flagged (upsert key value now (if is_sensitive key then 1 else 0) t).
Proof.
  intros H k row Hk. unfold upsert. destruct (t !! key) as [old|] eqn:E;
    rewrite lookup_insert; (case_decide; [subst k|by apply H]); intros [= <-]; simpl.
  - by apply (H key).
  - by rewrite Hk.
Qed.
Lemma SetSetting_flagged f now key value d :
  secrets_flagged (t_settings d) -> secrets_flagged (t_settings (SetSetting f now key value d).2).
Proof.
  intros H. unfold SetSetting. destruct (stmt_error f); [done|]. by apply upsert_flagged.
Qed.
Lemma run_setting_ops_flagged ops d :
  secrets_flagged (t_settings d) -> secrets_flagged (t_settings (run_setting_ops ops d)).
Proof.
  revert d. induction ops as [|op ops IH]; intros d H; [done|]. apply IH. by apply SetSetting_flagged.
Qed.

Lemma seed_lookup now t key value sensitive k :
  seed now t (key, value, sensitive) !! k =
  match t !! k with
  | Some row => Some row
  | None => if decide (k = key) then Some {| cs_value := Some value; cs_sensitive := sensitive; cs_updated_at := now |}
            else None
  end.
Proof.
  unfold seed. destruct (t !! key) as [row|] eqn:E.
  - destruct (t !! k) eqn:Ek; [done|]. case_decide; congruence.
  - rewrite lookup_insert. case_decide as H1; case_decide as H2; subst; try done.
    + by rewrite E.
    + by destruct (t !! k).
Qed.
(** The row the statements seed for a key, if any does. *)
Fixpoint seeded (now : DateTime) (l : list (string * string * Z)) (k : string) : option setting_row :=
  match l with
  | [] => None
  | (key, value, sensitive) :: l =>
      if decide (k = key) then Some {| cs_value := Some value; cs_sensitive := sensitive; cs_updated_at := now |}
      else seeded now l k
  end.
Lemma seeds_lookup now l t k :
  foldl (seed now) t l !! k = match t !! k with Some row => Some row | None => seeded now l k end.
Proof.
  revert t. induction l as [|[[key value] sensitive] l IH]; intros t.
  - simpl. by destruct (t !! k).
  - change (foldl (seed now) t ((key, value, sensitive) :: l)) with (foldl (seed now) (seed now t (key, value, sensitive)) l). rewrite IH, seed_lookup. cbn [seeded]. by destruct (t !! k); [|case_decide].
Qed.
Lemma seeded_app now l l' k :
  seeded now (l ++ l') k = match seeded now l k with Some r => Some r | None => seeded now l' k end.
Proof.
  induction l as [|[[key value] sensitive] l IH]; [done|]. cbn [app seeded]. by case_decide.
Qed.

Definition seeds_001 : list (string * string * Z) :=
  [("infisical_token", "", 1); ("infisical_env", "prod", 0); ("infisical_url", "", 0);
   ("git_user_name", "stackd", 0); ("git_user_email", "stackd@localhost", 0)].
Definition seeds_002 : list (string * string * Z) := [("infisical_project_id", "", 0)].
Definition seeds_004 : list (string * string * Z) :=
  [("dashboard_token", "", 1); ("default_sync_interval", "60", 0)].
Definition default_settings : list (string * string * Z) := seeds_001 ++ seeds_002 ++ seeds_004.

(** What a key holds after all the migrations. *)
Lemma migrate_up_lookup now d k :
  t_settings (migrate_up now 0 d) !! k =
  if decide (k = "pull_only") then None
  else match t_settings d !! k with Some row => Some row | None => seeded now default_settings k end.
Proof.
  change (t_settings (migrate_up now 0 d)) with
    (foldl (seed now) (delete "pull_only"
      (foldl (seed now) (foldl (seed now) (t_settings d) seeds_001) seeds_002)) seeds_004).
  rewrite seeds_lookup, lookup_delete, !seeds_lookup. unfold default_settings.
  rewrite !seeded_app. case_decide as H1; case_decide as H2; subst; try done.
  destruct (t_settings d !! k); [done|]. destruct (seeded now seeds_001 k); [done|].
  by destruct (seeded now seeds_002 k).
Qed.
Lemma migrate_up_tables now from d :
  t_repos (migrate_up now from d) = t_repos d /\ t_keys (migrate_up now from d) = t_keys d.
Proof. by do 5 (destruct from as [|from]; [done|]). Qed.

(** ** Properties *)

(** C40. With Postgres every [?] of a statement becomes [$1], [$2], ... from left to
    right and nothing else changes, so no [?] is left; with SQLite the statement
    is unchanged. *)
Theorem Rebind_correct driver query :
  Rebind driver query =
    (if String.eqb driver "postgres" then weave 1 (split "?" query) else query)
  /\ contains (Rebind "postgres" query) "?" = false.
Proof.
  split.
  - unfold Rebind. destruct (String.eqb driver "postgres"); [apply rebind_go_weave|done].
  - unfold Rebind. cbn [negb]. destruct (contains _ _) eqn:E; [|done].
    apply contains_iff in E as (a & b & E). change (negb (String.eqb "postgres" "postgres")) with false in E.
    pose proof (rebind_go_no_qmark 1 query ltac:(lia)) as H.
    cbn [negb] in E. rewrite E, !str_forallb_app, !andb_true_iff in H. by destruct H as (_ & H & _).
Qed.

(** An identifier has the layout of a version 4 UUID (8-4-4-4-12 hexadecimal
    digits, version 4, variant 8 to b), and two draws give the same identifier
    only if they agree on the 122 bits that are not fixed; no identifier is made
    when the random source fails. *)
Theorem newUUID_v4 b :
  newUUID None = None
  /\ (String.length b = 16%nat ->
      (exists u0 u1 u2 u3 u4,
        newUUID (Some b) = Some (u0 +:+ "-" +:+ u1 +:+ "-" +:+ u2 +:+ "-" +:+ u3 +:+ "-" +:+ u4)%string
        /\ String.length u0 = 8%nat /\ String.length u1 = 4%nat /\ String.length u2 = 4%nat
        /\ String.length u3 = 4%nat /\ String.length u4 = 12%nat
        /\ take 1 u2 = "4" /\ In (take 1 u3) ["8"; "9"; "a"; "b"])
      /\ forall b', String.length b' = 16%nat -> newUUID (Some b) = newUUID (Some b') ->
           free_bits b = free_bits b').
Proof.
  split; [done|]. intros Hb.
  destruct (newUUID_layout b Hb) as (u0&u1&u2&u3&u4&E&Hx&H0&H1&H2&H3&H4&Hv&Hr).
  split; [by exists u0, u1, u2, u3, u4|]. intros b' Hb' Heq.
  destruct (newUUID_layout b' Hb') as (v0&v1&v2&v3&v4&E'&Hx'&I0&I1&I2&I3&I4&_).
  apply hex_inj. rewrite <- Hx, <- Hx'. rewrite E, E' in Heq.
  assert (forall p q r s : string, String.length p = String.length q ->
    (p +:+ r)%string = (q +:+ s)%string -> p = q /\ r = s) as Hinj.
  { clear. induction p as [|c p IH]; intros [|d q] r s Hl H; try done.
    rewrite !str_app_cons in H. injection H as -> H. simpl in Hl.
    destruct (IH q r s) as [-> ->]; [lia|done|done]. }
  injection Heq as Heq.
  apply Hinj in Heq as [-> Heq]; [|lia]. apply (str_app_inv_l "-") in Heq.
  apply Hinj in Heq as [-> Heq]; [|lia]. apply (str_app_inv_l "-") in Heq.
  apply Hinj in Heq as [-> Heq]; [|lia]. apply (str_app_inv_l "-") in Heq.
  apply Hinj in Heq as [-> Heq]; [|lia]. apply (str_app_inv_l "-") in Heq. by subst.
Qed.

Lemma GetSetting_SetSetting f now key value k d :
  (SetSetting f now key value d).1 = None ->
  GetSetting NoFault k (SetSetting f now key value d).2 =
    if decide (k = key)
    then Ok (value, match t_settings d !! key with
                    | Some row => negb (cs_sensitive row =? 0) | None => is_sensitive key end)
    else GetSetting NoFault k d.
Proof.
  unfold SetSetting, GetSetting. destruct (stmt_error f); [done|]. intros _. simpl. unfold upsert.
  case_decide as Hk; [subst k|].
  - destruct (t_settings d !! key); rewrite lookup_insert_eq; cbn; [done|].
    by destruct (is_sensitive key) eqn:E; unfold is_sensitive, sensitiveKeys in E; cbn in E; rewrite E.
  - by destruct (t_settings d !! key); rewrite lookup_insert_ne.
Qed.

(** C36. Settings: after any sequence of [SetSetting] calls on a migrated database,
    some of which fail, the listing blanks every secret that is stored, and shows
    the value of every other setting as [GetSetting] reads it; a successful
    [SetSetting] is read back by [GetSetting] and changes no other key, a failed
    one changes nothing. *)
Theorem settings_correct now0 ops f now key value :
  let d := run_setting_ops ops (migrate_up now0 0 emptyDB) in
  let res := SetSetting f now key value d in
  (exists m, GetAllSettings NoFault d = Ok m /\ forall k,
     m !! k = match GetSetting NoFault k d with
              | Err _ => None
              | Ok (v, sensitive) => Some (if sensitive then "" else v)
              end
     /\ (is_sensitive k = true -> m !! k = None \/ m !! k = Some ""))
  /\ (forall e, res.1 = Some e -> res.2 = d)
  /\ (res.1 = None -> forall k,
       (k <> key -> GetSetting NoFault k res.2 = GetSetting NoFault k d)
       /\ (k = key -> exists sensitive, GetSetting NoFault k res.2 = Ok (value, sensitive)
            /\ (is_sensitive key = true -> sensitive = true))).
Proof.
  intros d res. assert (secrets_flagged (t_settings d)) as Hfl.
  { apply run_setting_ops_flagged. intros k row Hk. rewrite migrate_up_lookup.
    case_decide; [done|]. change (t_settings emptyDB !! k) with (@None setting_row).
    cbv iota. unfold is_sensitive, sensitiveKeys in Hk. cbn in Hk.
    bool_prop. destruct Hk as [ -> |[ -> |]]; [..|done]; vm_compute; by intros [= <-]. }
  split_and!.
  - eexists; split; [reflexivity|]. intros k. rewrite lookup_fmap. unfold GetSetting, masked_value.
    cbn [stmt_error]. destruct (t_settings d !! k) as [row|] eqn:E; cbn; [|by auto].
    split; [done|]. intros Hk. apply (Hfl _ _ Hk) in E. apply Z.eqb_neq in E. rewrite E. by right.
  - intros e. subst res. unfold SetSetting. by destruct (stmt_error f).
  - intros Hok k. subst res. rewrite GetSetting_SetSetting by done. split; intros Hk.
    + by rewrite decide_False.
    + rewrite decide_True by done. eexists. split; [done|]. intros Hs.
      destruct (t_settings d !! key) eqn:E; [|done]. apply (Hfl _ _ Hs) in E.
      by apply Z.eqb_neq in E as ->.
Qed.

(** C37. Migrations are idempotent and lose nothing: run on any database, also one
    whose version was forced back after a failed attempt, they keep every
    repository, key and setting except the retired [pull_only], leave every
    default setting present, and running them once more changes no setting. *)
Theorem migrate_up_idempotent now now' d :
  let d' := migrate_up now 0 d in
  t_repos d' = t_repos d /\ t_keys d' = t_keys d
  /\ (forall k row, k <> "pull_only" -> t_settings d !! k = Some row -> t_settings d' !! k = Some row)
  /\ t_settings d' !! "pull_only" = None
  /\ Forall (fun s => is_Some (t_settings d' !! s.1.1)) default_settings
  /\ migrate_up now' 0 d' = d'.
Proof.
  intros d'. destruct (migrate_up_tables now 0 d) as [Hr Hk].
  assert (forall k, t_settings (migrate_up now' 0 d') !! k = t_settings d' !! k) as Heq.
  { intros k. subst d'. rewrite !migrate_up_lookup. case_decide; [done|].
    destruct (t_settings d !! k); [done|].
    destruct (seeded now default_settings k) eqn:E; [done|].
    assert (forall l, seeded now l k = None -> seeded now' l k = None) as H'; [|by apply H'].
    clear. induction l as [|[[? ?] ?] l IH]; [done|]. cbn [seeded]. by case_decide. }
  split_and!; [done|done| | | |].
  - intros k row Hne Hs. subst d'. rewrite migrate_up_lookup. case_decide; [done|]. by rewrite Hs.
  - subst d'. rewrite migrate_up_lookup. by case_decide.
  - subst d'. unfold default_settings. repeat constructor; rewrite migrate_up_lookup; cbn [fst];
      (rewrite decide_False by done); destruct (t_settings d !! _); try done; by eexists.
  - destruct (migrate_up_tables now' 0 d') as [Hr' Hk'].
    assert (t_settings (migrate_up now' 0 d') = t_settings d') as Hs by (by apply map_eq).
    destruct (migrate_up now' 0 d'), d'; cbn in *; congruence.
Qed.
Lemma GetRepoByName_spec d name r :
  names_unique (t_repos d) ->
  GetRepoByName NoFault name d = Ok r <-> GetRepo NoFault (r_ID r) d = Ok r /\ r_Name r = name.
Proof.
  intros Hu. unfold GetRepoByName, GetRepo. cbn [stmt_error].
  destruct (repo_by_name name (t_repos d)) as [[id row]|] eqn:E.
  - apply repo_by_name_Some in E as [Hid Hn]. split.
    + intros [= <-]. cbn. by rewrite Hid.
    + intros [H Hr]. destruct (t_repos d !! r_ID r) as [row'|] eqn:E'; [|done]. injection H as H.
      assert (id = r_ID r) as ->; [|rewrite E' in Hid; injection Hid as ->; by rewrite H].
      apply (Hu _ _ _ _ Hid E'). rewrite Hn, <- Hr, <- H. done.
  - split; [done|]. intros [H Hr]. destruct (t_repos d !! r_ID r) as [row'|] eqn:E'; [|done].
    injection H as H. rewrite repo_by_name_None in E. destruct (E _ _ E'). by rewrite <- Hr, <- H.
Qed.

Lemma select_repos_NoDup d : names_unique (t_repos d) -> NoDup (r_Name <$> select_repos d).
Proof.
  intros Hu. unfold select_repos. rewrite merge_sort_Permutation, <- list_fmap_compose.
  apply NoDup_fmap_2_strong; [|apply NoDup_map_to_list].
  intros [i a] [j b] Hi%elem_of_map_to_list Hj%elem_of_map_to_list Hn.
  assert (i = j) as -> by (by apply (Hu _ _ _ _ Hi Hj)). congruence.
Qed.

(** C35. The repositories after any sequence of inserts, updates and deletes, some of
    which fail: names are unique, the listing is sorted by name and holds each
    stored repository exactly once, and the lookups by id and by name find the
    same rows as the listing. *)
Theorem repos_consistent ops :
  let d := run_repo_ops ops emptyDB in
  exists l, ListRepos NoFault d = (l, None)
  /\ Sorted name_le l /\ NoDup (r_Name <$> l)
  /\ forall r, r ∈ l <-> GetRepo NoFault (r_ID r) d = Ok r
     /\ forall name, GetRepoByName NoFault name d = Ok r <-> GetRepo NoFault (r_ID r) d = Ok r /\ r_Name r = name.
Proof.
  intros d. assert (names_unique (t_repos d)) as Hu.
  { apply run_repo_ops_unique. by intros i j a b H. }
  eexists; split; [reflexivity|]. split; [|split].
  - apply Sorted_merge_sort. intros a b. apply (total String.le).
  - by apply select_repos_NoDup.
  - intros r. rewrite elem_of_select_repos. unfold GetRepo at 1. cbn [stmt_error]. split.
    + intros (row & -> & Hr). split; [by rewrite <- Hr|]. intros name. by apply GetRepoByName_spec.
    + intros [H _]. destruct (t_repos d !! r_ID r) as [row|]; [|done]. exists row. split; [done|]. congruence.
Qed.

(** Writing a repository and reading it back: a successful [CreateRepo] stores
    the record under its own identifier (the drawn one if it had none), with the
    creation time in whole seconds, a successful [UpdateRepo] keeps the
    identifier and the creation time, a [DeleteRepo] removes the row; no other
    repository changes, and a statement that fails changes nothing. *)
Theorem repo_ops_correct op d :
  let res := repo_exec op d in
  (forall e, res.1 = Some e -> res.2 = d)
  /\ (res.1 = None -> match op with
      | OpCreate _ uuid now r =>
          let id := if String.eqb (r_ID r) "" then uuid else r_ID r in
          let t := parse_datetime (format_datetime now) in
          t_repos d !! id = None
          /\ GetRepo NoFault id res.2 = Ok {| r_ID := id; r_Name := r_Name r; r_URL := r_URL r;
               r_Branch := r_Branch r; r_Remote := r_Remote r; r_AuthType := r_AuthType r;
               r_SSHKeyID := r_SSHKeyID r; r_PATEnc := r_PATEnc r; r_StacksDir := r_StacksDir r;
               r_SyncInterval := r_SyncInterval r; r_Enabled := r_Enabled r;
               r_CreatedAt := t; r_UpdatedAt := t |}
          /\ forall i, i <> id -> t_repos res.2 !! i = t_repos d !! i
      | OpUpdate _ now r =>
          (forall old, GetRepo NoFault (r_ID r) d = Ok old ->
             GetRepo NoFault (r_ID r) res.2 = Ok {| r_ID := r_ID r; r_Name := r_Name r; r_URL := r_URL r;
               r_Branch := r_Branch r; r_Remote := r_Remote r; r_AuthType := r_AuthType r;
               r_SSHKeyID := r_SSHKeyID r; r_PATEnc := r_PATEnc r; r_StacksDir := r_StacksDir r;
               r_SyncInterval := r_SyncInterval r; r_Enabled := r_Enabled r;
               r_CreatedAt := r_CreatedAt old; r_UpdatedAt := parse_datetime (format_datetime now) |})
          /\ forall i, i <> r_ID r -> t_repos res.2 !! i = t_repos d !! i
      | OpDelete _ id =>
          t_repos res.2 !! id = None /\ forall i, i <> id -> t_repos res.2 !! i = t_repos d !! i
      end).
Proof.
  assert (forall s, null_string (nullStr s) = s) as Hnull.
  { intros s. unfold nullStr. destruct (String.eqb s "") eqn:E; [|done]. by apply String.eqb_eq in E as ->. }
  assert (forall b, negb (boolInt b =? 0) = b) as Hbool by (by intros []).
  assert (forall id r c u, scanRepo id (row_of r c u) = {| r_ID := id; r_Name := r_Name r; r_URL := r_URL r;
    r_Branch := r_Branch r; r_Remote := r_Remote r; r_AuthType := r_AuthType r; r_SSHKeyID := r_SSHKeyID r;
    r_PATEnc := r_PATEnc r; r_StacksDir := r_StacksDir r; r_SyncInterval := r_SyncInterval r;
    r_Enabled := r_Enabled r; r_CreatedAt := parse_datetime c; r_UpdatedAt := parse_datetime u |}) as Hscan.
  { intros. unfold scanRepo, row_of. simpl. by rewrite !Hnull, Hbool. }
  intros res. subst res. split; destruct op as [f uuid now r|f now r|f id]; simpl.
  - intros e. unfold CreateRepo. repeat case_match; by intros [=].
  - intros e. unfold UpdateRepo. repeat case_match; by intros [=].
  - intros e. unfold DeleteRepo. repeat case_match; by intros [=].
  - unfold CreateRepo. destruct (stmt_error f); [done|].
    destruct (t_repos d !! _) eqn:E; [done|]. destruct (repo_by_name _ _); [done|]. intros _.
    split; [done|]. cbn. rewrite lookup_insert_eq, Hscan. split; [done|].
    intros i Hi. by rewrite lookup_insert_ne.
  - unfold UpdateRepo. destruct (stmt_error f); [done|]. unfold GetRepo. cbn [stmt_error].
    destruct (t_repos d !! _) as [old|] eqn:E; [|done].
    destruct (repo_by_name _ _); [done|]. intros _. cbn. rewrite lookup_insert_eq, Hscan. split.
    + by intros ? [= <-].
    + intros i Hi. by rewrite lookup_insert_ne.
  - unfold DeleteRepo. destruct (stmt_error f); [done|]. intros _. cbn. rewrite lookup_delete_eq.
    split; [done|]. intros i Hi. by rewrite lookup_delete_ne.
Qed.
