(* ===== verification/Effects.v ===== *)
(** * Effects: programs that call the outside world and share memory

    A function of the source that does I/O is a [prog]: a tree of calls to the
    outside world ([Ask]: the clock, the environment, the file system, child
    processes, the database engine, the Docker daemon), each answered by anything
    of the call's answer type, and of atomic steps on the memory the goroutines
    share ([Mem]: one step per critical section).  An atomic step that answers
    [None] blocks.  [run] executes a program against an [Oracle]; [wp] is a
    rely/guarantee logic for it, sound for [run] and for the interleaving of any
    number of goroutines ([par_safe]). *)
From Stdlib Require Import Ascii.
From S2P Require Import Prelude GoStrings Masking State Bus Sched Metrics Db.

(** ** Calls to the outside world *)

Record DirEntry := { de_name : string; de_isdir : bool }.

(** A child process: [exec.Cmd] with what [execpg.configure] sets. *)
Record Cmd := {
  cmd_name : string;
  cmd_args : list string;
  cmd_env : option (list string);   (* nil: inherit the parent's environment *)
  cmd_dir : string;
  cmd_setpgid : bool;
  cmd_waitdelay : Z;
}.
(** What running it gave: the output, the error, and the standard error an
    [*exec.ExitError] carries. *)
Record CmdOut := { co_out : string; co_err : option GoError; co_exit_stderr : option string }.

(** The parts of the Docker API's answers that are used. *)
Record ContainerSummary := {
  ct_ID : string;
  ct_Names : list string;
  ct_Image : string;
  ct_State : string;
}.
Record Inspect := {
  in_StartedAt : option string;
  in_Env : option (list string);
  in_Ports : option (list PortEntry);
}.

Inductive wake := Done | Tick | Trigger.

(** What slog is given: the level, and the values of the attributes. *)
Inductive Level := LevelDebug | LevelInfo | LevelWarn | LevelError.
Inductive LogValue := LStr (s : string) | LInt (z : Z) | LBool (b : bool) | LDur (d : Z) | LErr (e : GoError).

(** What [migrate.Up] reports, and the migrations it ran: those numbered from
    [up_from] (0 is the first), [up_count] of them. *)
Inductive up_error := ErrNoChange | ErrDirty (version : Z) | UpFailed (e : GoError).
Record UpResult := { up_from : nat; up_count : nat; up_err : option up_error }.

Inductive Ask : Type -> Type :=
(* time, environment, randomness, scheduling *)
| Now : Ask Time
| CtxErr : Ask (option GoError)
| Getenv (name : string) : Ask string
| Environ : Ask (list string)
| RandRead (n : nat) : Ask (result string)
| MapOrder : Ask (list string)
| Select : Ask wake
(* files *)
| Stat (path : string) : Ask bool
| ReadFile (path : string) : Ask (result string)
| ReadNoFollow (path : string) : Ask (result string)
| ReadDir (path : string) : Ask (result (list DirEntry))
| MkdirAll (path : string) (perm : Z) : Ask (option GoError)
| CreateTemp (dir pattern : string) : Ask (result string)
| WriteString (path data : string) : Ask (option GoError)
| CloseFile (path : string) : Ask unit
| Remove (path : string) : Ask unit
| WriteFile (path data : string) (perm : Z) : Ask (option GoError)
| Setenv (name value : string) : Ask (option GoError)
(* log/slog *)
| Log (level : Level) (msg : string) (attrs : list (string * LogValue)) : Ask unit
(* opening the database: database/sql and golang-migrate *)
| SqlOpen (driver dsn : string) : Ask (option GoError)
| SqlExec (stmt : string) : Ask (option GoError)
| SqlPing : Ask (option GoError)
| SqlClose : Ask unit
| MigrationsFS : Ask (option GoError)
| MigrateNew (url : string) : Ask (option GoError)
| MigrateUp : Ask UpResult
| MigrateForce (version : Z) : Ask (option GoError)
| MigrateClose : Ask unit
(* processes *)
| Exec (c : Cmd) : Ask CmdOut
(* the database engine's verdict on the next statement *)
| DbFault : Ask fault
(* the activity bus *)
| PublishEv (typ repo stack msg : string) : Ask unit
(* Docker *)
| DockerNew : Ask (result nat)
| DockerClose (c : nat) : Ask unit
| ContainerList (c : nat) (filter value : string) : Ask (result (list ContainerSummary))
| ContainerInspect (c : nat) (id : string) : Ask (result Inspect)
| ContainerStart (c : nat) (name : string) : Ask (option GoError)
| ContainerStop (c : nat) (name : string) : Ask (option GoError)
| ContainerRestart (c : nat) (name : string) : Ask (option GoError)
| ExecCreate (c : nat) (id : string) (cmd : list string) (tty : bool) : Ask (result string)
| ExecStart (c : nat) (exec_id : string) : Ask (option GoError)
| ExecInspect (c : nat) (exec_id : string) : Ask (result Z)
| ExecAttach (c : nat) (exec_id : string) : Ask (option GoError)
| ContainerLogs (c : nat) (name : string) : Ask (option GoError)
(* stdcopy: the pieces of the log it writes one by one, and how reading ended *)
| LogChunks (c : nat) (name : string) : Ask (list string * option GoError)
| LogsClose (c : nat) (name : string) : Ask unit.

(** A call with its answer; a trace is the list of them, oldest first. *)
Record Act := act { a_type : Type; a_ask : Ask a_type; a_ans : a_type }.
Arguments act {a_type} a_ask a_ans.

(** ** The shared memory *)

Record Mem := {
  m_store : Store;                      (* state.Store *)
  m_backoffs : gmap string syncBackoff; (* repoBackoffs *)
  m_nextDue : gmap string Time;         (* repoNextDue *)
  m_locks : gmap string nat;            (* repoLocks: held mutexes, with the goroutine holding each *)
  m_metrics : Metrics;                  (* metrics *)
  m_holder : option nat;                (* docker.ClientHolder *)
  m_db : DB;                            (* the database *)
  m_trigger : list string;              (* syncTrigger, capacity 16 *)
  m_token : string;                     (* Server.tokenVal *)
  m_applying : gmap string nat;         (* Server.applying: the stacks being applied, with the goroutine doing it *)
  m_lastTime : gmap string Time;        (* Server.syncLimiter *)
}.
Definition emptyMem : Mem :=
  {| m_store := State.New; m_backoffs := ∅; m_nextDue := ∅; m_locks := ∅; m_metrics := zeroMetrics;
     m_holder := None; m_db := emptyDB; m_trigger := []; m_token := ""; m_applying := ∅; m_lastTime := ∅ |}.

Definition set_store (f : Store -> Store) (m : Mem) : Mem :=
  {| m_store := f (m_store m); m_backoffs := m_backoffs m; m_nextDue := m_nextDue m; m_locks := m_locks m;
     m_metrics := m_metrics m; m_holder := m_holder m; m_db := m_db m; m_trigger := m_trigger m;
     m_token := m_token m; m_applying := m_applying m; m_lastTime := m_lastTime m |}.
Definition set_backoffs (f : gmap string syncBackoff -> gmap string syncBackoff) (m : Mem) : Mem :=
  {| m_store := m_store m; m_backoffs := f (m_backoffs m); m_nextDue := m_nextDue m; m_locks := m_locks m;
     m_metrics := m_metrics m; m_holder := m_holder m; m_db := m_db m; m_trigger := m_trigger m;
     m_token := m_token m; m_applying := m_applying m; m_lastTime := m_lastTime m |}.
Definition set_nextDue (f : gmap string Time -> gmap string Time) (m : Mem) : Mem :=
  {| m_store := m_store m; m_backoffs := m_backoffs m; m_nextDue := f (m_nextDue m); m_locks := m_locks m;
     m_metrics := m_metrics m; m_holder := m_holder m; m_db := m_db m; m_trigger := m_trigger m;
     m_token := m_token m; m_applying := m_applying m; m_lastTime := m_lastTime m |}.
Definition set_locks (f : gmap string nat -> gmap string nat) (m : Mem) : Mem :=
  {| m_store := m_store m; m_backoffs := m_backoffs m; m_nextDue := m_nextDue m; m_locks := f (m_locks m);
     m_metrics := m_metrics m; m_holder := m_holder m; m_db := m_db m; m_trigger := m_trigger m;
     m_token := m_token m; m_applying := m_applying m; m_lastTime := m_lastTime m |}.
Definition set_metrics (f : Metrics -> Metrics) (m : Mem) : Mem :=
  {| m_store := m_store m; m_backoffs := m_backoffs m; m_nextDue := m_nextDue m; m_locks := m_locks m;
     m_metrics := f (m_metrics m); m_holder := m_holder m; m_db := m_db m; m_trigger := m_trigger m;
     m_token := m_token m; m_applying := m_applying m; m_lastTime := m_lastTime m |}.
Definition set_holder (h : option nat) (m : Mem) : Mem :=
  {| m_store := m_store m; m_backoffs := m_backoffs m; m_nextDue := m_nextDue m; m_locks := m_locks m;
     m_metrics := m_metrics m; m_holder := h; m_db := m_db m; m_trigger := m_trigger m;
     m_token := m_token m; m_applying := m_applying m; m_lastTime := m_lastTime m |}.
Definition set_db (d : DB) (m : Mem) : Mem :=
  {| m_store := m_store m; m_backoffs := m_backoffs m; m_nextDue := m_nextDue m; m_locks := m_locks m;
     m_metrics := m_metrics m; m_holder := m_holder m; m_db := d; m_trigger := m_trigger m;
     m_token := m_token m; m_applying := m_applying m; m_lastTime := m_lastTime m |}.
Definition set_trigger (l : list string) (m : Mem) : Mem :=
  {| m_store := m_store m; m_backoffs := m_backoffs m; m_nextDue := m_nextDue m; m_locks := m_locks m;
     m_metrics := m_metrics m; m_holder := m_holder m; m_db := m_db m; m_trigger := l;
     m_token := m_token m; m_applying := m_applying m; m_lastTime := m_lastTime m |}.
Definition set_token (t : string) (m : Mem) : Mem :=
  {| m_store := m_store m; m_backoffs := m_backoffs m; m_nextDue := m_nextDue m; m_locks := m_locks m;
     m_metrics := m_metrics m; m_holder := m_holder m; m_db := m_db m; m_trigger := m_trigger m;
     m_token := t; m_applying := m_applying m; m_lastTime := m_lastTime m |}.
Definition set_applying (s : gmap string nat) (m : Mem) : Mem :=
  {| m_store := m_store m; m_backoffs := m_backoffs m; m_nextDue := m_nextDue m; m_locks := m_locks m;
     m_metrics := m_metrics m; m_holder := m_holder m; m_db := m_db m; m_trigger := m_trigger m;
     m_token := m_token m; m_applying := s; m_lastTime := m_lastTime m |}.
Definition set_lastTime (l : gmap string Time) (m : Mem) : Mem :=
  {| m_store := m_store m; m_backoffs := m_backoffs m; m_nextDue := m_nextDue m; m_locks := m_locks m;
     m_metrics := m_metrics m; m_holder := m_holder m; m_db := m_db m; m_trigger := m_trigger m;
     m_token := m_token m; m_applying := m_applying m; m_lastTime := l |}.

(** ** Programs *)

Inductive prog (A : Type) : Type :=
| Ret (a : A)
| Call {X : Type} (q : Ask X) (k : X -> prog A)
| Atomic {X : Type} (f : Mem -> option (X * Mem)) (k : X -> prog A).
Arguments Ret {A} a.
Arguments Call {A X} q k.
Arguments Atomic {A X} f k.

Fixpoint bind {A B} (p : prog A) (f : A -> prog B) : prog B :=
  match p with
  | Ret a => f a
  | Call q k => Call q (fun x => bind (k x) f)
  | Atomic g k => Atomic g (fun x => bind (k x) f)
  end.

Declare Scope prog_scope.
Delimit Scope prog_scope with prog.
Notation "x <- p ;; q" := (bind p%prog (fun x => q%prog))
  (at level 100, p at next level, right associativity) : prog_scope.
Notation "p ;;; q" := (bind p%prog (fun _ : unit => q%prog))
  (at level 100, right associativity) : prog_scope.

Definition ask {X} (q : Ask X) : prog X := Call q Ret.
(** [slog.Debug], [slog.Info], [slog.Warn], [slog.Error]. *)
Definition log_debug (msg : string) (attrs : list (string * LogValue)) : prog unit := ask (Log LevelDebug msg attrs).
Definition log_info (msg : string) (attrs : list (string * LogValue)) : prog unit := ask (Log LevelInfo msg attrs).
Definition log_warn (msg : string) (attrs : list (string * LogValue)) : prog unit := ask (Log LevelWarn msg attrs).
Definition log_error (msg : string) (attrs : list (string * LogValue)) : prog unit := ask (Log LevelError msg attrs).
(** An atomic step that never blocks. *)
Definition atomic {X} (f : Mem -> X * Mem) : prog X := Atomic (fun m => Some (f m)) Ret.
Definition modify (f : Mem -> Mem) : prog unit := atomic (fun m => (tt, f m)).
Definition reads {X} (f : Mem -> X) : prog X := atomic (fun m => (f m, m)).

(** [for _, x := range l { body }] *)
Fixpoint for_each {X} (l : list X) (body : X -> prog unit) : prog unit :=
  match l with [] => Ret tt | x :: l => bind (body x) (fun _ => for_each l body) end.

(** A statement of the database: the engine's verdict, then the statement itself. *)
Definition db_read {X} (f : fault -> DB -> X) : prog X :=
  bind (ask DbFault) (fun flt => reads (fun m => f flt (m_db m))).
Definition db_exec {X} (f : fault -> DB -> X * DB) : prog X :=
  bind (ask DbFault) (fun flt => atomic (fun m => let '(x, d) := f flt (m_db m) in (x, set_db d m))).

(** ** Execution *)

(** The environment of a run: how every call is answered, given the calls made so
    far, and what the other goroutines do to the memory before each step. *)
Record Oracle := {
  o_answer : forall X, Ask X -> list Act -> X;
  o_other : nat -> Mem -> Mem;
}.
Fixpoint run {A} (o : Oracle) (p : prog A) (n : nat) (m : Mem) (h : list Act) : option (A * Mem * list Act) :=
  let m := o_other o n m in
  match p with
  | Ret a => Some (a, m, h)
  | Call q k => let x := o_answer o _ q h in run o (k x) (S n) m (h ++ [act q x])
  | Atomic f k =>
      match f m with
      | None => None
      | Some (x, m) => run o (k x) (S n) m h
      end
  end.

(** Where a run blocks: the memory it finds there, and the calls made before. *)
Fixpoint blocked {A} (o : Oracle) (p : prog A) (n : nat) (m : Mem) (h : list Act) : option (Mem * list Act) :=
  let m := o_other o n m in
  match p with
  | Ret _ => None
  | Call q k => let x := o_answer o _ q h in blocked o (k x) (S n) m (h ++ [act q x])
  | Atomic f k =>
      match f m with
      | None => Some (m, h)
      | Some (x, m) => blocked o (k x) (S n) m h
      end
  end.
(** What the program itself does to the memory in a run: its atomic steps, each
    with the memory before and after it. *)
Fixpoint own_steps {A} (o : Oracle) (p : prog A) (n : nat) (m : Mem) (h : list Act) : list (Mem * Mem) :=
  let m := o_other o n m in
  match p with
  | Ret _ => []
  | Call q k => let x := o_answer o _ q h in own_steps o (k x) (S n) m (h ++ [act q x])
  | Atomic f k =>
      match f m with
      | None => []
      | Some (x, m') => (m, m') :: own_steps o (k x) (S n) m' h
      end
  end.

(** The [k]-th step of a run, if it is a call: the call, and the trace before it.
    Also a run that blocks later on, or has not come to its end, is observed. *)
Record Pending := { pd_trace : list Act; pd_type : Type; pd_ask : Ask pd_type }.
Fixpoint pending {A} (k : nat) (o : Oracle) (p : prog A) (n : nat) (m : Mem) (h : list Act) : option Pending :=
  let m := o_other o n m in
  match p with
  | Ret _ => None
  | Call q f =>
      match k with
      | O => Some {| pd_trace := h; pd_ask := q |}
      | S k => let x := o_answer o _ q h in pending k o (f x) (S n) m (h ++ [act q x])
      end
  | Atomic g f =>
      match k, g m with
      | S k, Some (x, m) => pending k o (f x) (S n) m h
      | _, _ => None
      end
  end.

(** ** A rely/guarantee logic *)

(** What a goroutine is proved against: what the other goroutines may do to the
    memory between its steps, which calls it may make (in which memory and after
    which calls of its own), how the outside world answers them, what its atomic
    steps may do, when it may block. *)
Record Spec := {
  rely : Mem -> Mem -> Prop;
  call_ok : forall X, Ask X -> Mem -> list Act -> Prop;
  ans_ok : forall X, Ask X -> X -> Prop;
  atom_ok : Mem -> Mem -> Prop;
  block_ok : Mem -> Prop;
  rely_pre : PreOrder rely;
}.
#[export] Existing Instance rely_pre.
Arguments call_ok s {X} q m h.
Arguments ans_ok s {X} q x.

Section wp.
Context (S : Spec).

Fixpoint wp {A} (p : prog A) (Q : A -> Mem -> list Act -> Prop) (m : Mem) (h : list Act) : Prop :=
  match p with
  | Ret a => forall m1, rely S m m1 -> Q a m1 h
  | Call q k => forall m1, rely S m m1 ->
      call_ok S q m1 h /\ forall x, ans_ok S q x -> wp (k x) Q m1 (h ++ [act q x])
  | Atomic f k => forall m1, rely S m m1 ->
      match f m1 with
      | None => block_ok S m1
      | Some (x, m2) => atom_ok S m1 m2 /\ wp (k x) Q m2 h
      end
  end.

Lemma wp_bind {A B} (p : prog A) (f : A -> prog B) Q m h :
  wp p (fun a => wp (f a) Q) m h -> wp (bind p f) Q m h.
Proof.
  revert m h. induction p as [a|X q k IH|X g k IH]; intros m h Hp; simpl in *.
  - apply Hp. reflexivity.
  - intros m1 Hm. destruct (Hp m1 Hm) as [Hc Hk]. split; [done|]. intros x Hx. by apply IH, Hk.
  - intros m1 Hm. specialize (Hp m1 Hm). destruct (g m1) as [[x m2]|]; [|done].
    destruct Hp as [Ha Hk]. split; [done|]. by apply IH.
Qed.

Lemma wp_unbind {A B} (p : prog A) (f : A -> prog B) Q m h :
  wp (bind p f) Q m h -> wp p (fun a => wp (f a) Q) m h.
Proof.
  revert m h. induction p as [a|X q k IH|X g k IH]; intros m h Hp; simpl in *.
  - intros m1 Hm. destruct (f a); simpl in *; intros m2 Hm2; apply Hp; by transitivity m1.
  - intros m1 Hm. destruct (Hp m1 Hm) as [Hc Hk]. split; [done|]. intros x Hx. by apply IH, Hk.
  - intros m1 Hm. specialize (Hp m1 Hm). destruct (g m1) as [[x m2]|]; [|done].
    destruct Hp as [Ha Hk]. split; [done|]. by apply IH.
Qed.

Lemma wp_mono {A} (p : prog A) (Q Q' : A -> Mem -> list Act -> Prop) m h :
  (forall a m h, Q a m h -> Q' a m h) -> wp p Q m h -> wp p Q' m h.
Proof.
  intros HQ. revert m h. induction p as [a|X q k IH|X g k IH]; intros m h Hp; simpl in *.
  - intros m1 Hm. by apply HQ, Hp.
  - intros m1 Hm. destruct (Hp m1 Hm) as [Hc Hk]. split; [done|]. intros x Hx. by apply IH, Hk.
  - intros m1 Hm. specialize (Hp m1 Hm). destruct (g m1) as [[x m2]|]; [|done].
    destruct Hp as [Ha Hk]. split; [done|]. by apply IH.
Qed.

(** What holds now still holds after the other goroutines have moved. *)
Lemma wp_stable {A} (p : prog A) Q m m' h : rely S m m' -> wp p Q m h -> wp p Q m' h.
Proof.
  intros Hr. destruct p; simpl; intros Hp m1 Hm; apply Hp; by transitivity m'.
Qed.

Lemma wp_ask {X} (q : Ask X) (Q : X -> Mem -> list Act -> Prop) m h :
  (forall m1, rely S m m1 -> call_ok S q m1 h /\
     forall x m2, ans_ok S q x -> rely S m1 m2 -> Q x m2 (h ++ [act q x])) ->
  wp (ask q) Q m h.
Proof.
  intros H m1 Hm. destruct (H m1 Hm) as [Hc Hq]. split; [done|]. intros x Hx m2 Hm2. by apply Hq.
Qed.

Lemma wp_for_each {X} (l : list X) (body : X -> prog unit) (I : list X -> Mem -> list Act -> Prop) m h :
  (forall m m' l h, rely S m m' -> I l m h -> I l m' h) ->
  (forall done x rest m h, l = done ++ x :: rest -> I done m h ->
     wp (body x) (fun _ => I (done ++ [x])) m h) ->
  I [] m h -> wp (for_each l body) (fun _ => I l) m h.
Proof.
  intros Hstable Hbody Hinit.
  assert (forall rest done m h, l = done ++ rest -> I done m h ->
    wp (for_each rest body) (fun _ => I l) m h) as H; [|by apply (H l [])].
  clear m h Hinit. induction rest as [|x rest IH]; intros done m h Hl Hd.
  - rewrite app_nil_r in Hl. subst. intros m1 Hm. by eapply Hstable.
  - apply wp_bind. eapply wp_mono; [|by eapply Hbody].
    intros [] m' h' Hd'. apply (IH (done ++ [x])); [|done]. by rewrite <- app_assoc.
Qed.

(** A conjunction of two post-conditions. *)
Lemma wp_conj {A} (p : prog A) (Q Q' : A -> Mem -> list Act -> Prop) m h :
  wp p Q m h -> wp p Q' m h -> wp p (fun a m h => Q a m h /\ Q' a m h) m h.
Proof.
  revert m h. induction p as [a|X q k IH|X g k IH]; intros m h Hp Hp'; simpl in *.
  - intros m1 Hm. auto.
  - intros m1 Hm. destruct (Hp m1 Hm) as [Hc Hk], (Hp' m1 Hm) as [_ Hk']. split; [done|]. auto.
  - intros m1 Hm. specialize (Hp m1 Hm). specialize (Hp' m1 Hm).
    destruct (g m1) as [[x m2]|]; [|done]. destruct Hp as [Ha Hk], Hp' as [_ Hk']. split; auto.
Qed.

Lemma wp_Ret_bind {A B} (a : A) (f : A -> prog B) Q m h : wp (f a) Q m h -> wp (bind (Ret a) f) Q m h.
Proof. done. Qed.

(** Soundness for [run]: the program ends as the post-condition says, or it blocks
    where it may. *)
Lemma wp_run {A} (o : Oracle) (p : prog A) Q n m h :
  (forall n m, rely S m (o_other o n m)) ->
  (forall X (q : Ask X) h, ans_ok S q (o_answer o X q h)) ->
  wp p Q m h ->
  match run o p n m h with
  | Some (a, m', h') => Q a m' h'
  | None => exists m', block_ok S m'
  end.
Proof.
  intros Ho Ha. revert n m h. induction p as [a|X q k IH|X g k IH]; intros n m h Hp; simpl in *.
  - by apply Hp.
  - destruct (Hp _ (Ho n m)) as [_ Hk]. apply IH, Hk, Ha.
  - specialize (Hp _ (Ho n m)). destruct (g _) as [[x m2]|]; [|by eexists].
    destruct Hp as [_ Hk]. by apply IH.
Qed.
Lemma wp_blocked {A} (o : Oracle) (p : prog A) Q n m h :
  (forall n m, rely S m (o_other o n m)) ->
  (forall X (q : Ask X) h, ans_ok S q (o_answer o X q h)) ->
  wp p Q m h -> run o p n m h = None ->
  exists m' h', blocked o p n m h = Some (m', h') /\ block_ok S m'.
Proof.
  intros Ho Ha. revert n m h. induction p as [a|X q k IH|X g k IH]; intros n m h Hp Hr; simpl in *; [done| |].
  - destruct (Hp _ (Ho n m)) as [_ Hk]. eapply IH, Hr. apply Hk, Ha.
  - specialize (Hp _ (Ho n m)). destruct (g _) as [[x m2]|]; [|by do 2 eexists].
    destruct Hp as [_ Hk]. eapply IH, Hr. exact Hk.
Qed.
(** What a proof promises of the calls holds of each of them. *)
Lemma wp_pending {A} (o : Oracle) (p : prog A) Q n m h k c :
  (forall n m, rely S m (o_other o n m)) ->
  (forall X (q : Ask X) h, ans_ok S q (o_answer o X q h)) ->
  wp p Q m h -> pending k o p n m h = Some c ->
  exists m', call_ok S (pd_ask c) m' (pd_trace c).
Proof.
  intros Ho Ha. revert n m h k. induction p as [a|X q f IH|X g f IH]; intros n m h k Hw E; [by destruct k| |].
  - destruct (Hw _ (Ho n m)) as [Hc Hf]. destruct k as [|k]; cbn [pending] in E.
    + injection E as <-. by eexists.
    + eapply IH; [|exact E]. by apply Hf.
  - specialize (Hw _ (Ho n m)). destruct k as [|k]; cbn [pending] in E; [done|].
    destruct (g _) as [[x m2]|]; [|done]. destruct Hw as [_ Hw]. by eapply IH.
Qed.

End wp.

(** A weaker specification: fewer interferences and answers, more of the rest. *)
Lemma wp_weaken (S S' : Spec) {A} (p : prog A) Q m h :
  (forall m m', rely S' m m' -> rely S m m') ->
  (forall X (q : Ask X) m h, call_ok S q m h -> call_ok S' q m h) ->
  (forall X (q : Ask X) x, ans_ok S' q x -> ans_ok S q x) ->
  (forall m m', atom_ok S m m' -> atom_ok S' m m') ->
  (forall m, block_ok S m -> block_ok S' m) ->
  wp S p Q m h -> wp S' p Q m h.
Proof.
  intros Hr Hc Ha Hat Hb. revert m h. induction p as [a|X q k IH|X g k IH]; intros m h Hp m1 Hm; specialize (Hp m1 (Hr _ _ Hm)).
  - exact Hp.
  - destruct Hp as [Hq Hk]. split; [by apply Hc|]. intros x Hx. by apply IH, Hk, Ha.
  - destruct (g m1) as [[x m2]|]; [|by apply Hb]. destruct Hp as [Hg Hk]. split; [by apply Hat|by apply IH].
Qed.

(** A program whose calls all satisfy [C] and whose atomic steps all satisfy [D],
    whatever the answers and the memory. *)
Definition Step : Type -> Type := fun X => Mem -> option (X * Mem).
Section shaped.
Context (C : forall X, Ask X -> Prop) (D : forall X, Step X -> Prop).
Fixpoint shaped {A} (p : prog A) : Prop :=
  match p with
  | Ret _ => True
  | Call q k => C _ q /\ forall x, shaped (k x)
  | Atomic f k => D _ f /\ forall x, shaped (k x)
  end.
Lemma shaped_bind {A B} (p : prog A) (f : A -> prog B) :
  shaped p -> (forall a, shaped (f a)) -> shaped (bind p f).
Proof. intros Hp Hf. induction p; simpl in *; naive_solver. Qed.
Lemma shaped_for_each {X} (l : list X) body : (forall x, shaped (body x)) -> shaped (for_each l body).
Proof. intros H. induction l; simpl; [done|]. by apply shaped_bind. Qed.
Lemma shaped_ask {X} (q : Ask X) : C _ q -> shaped (ask q).
Proof. done. Qed.
Lemma shaped_atomic {X} (f : Mem -> X * Mem) : D _ (fun m => Some (f m)) -> shaped (atomic f).
Proof. done. Qed.
Lemma shaped_Ret {A} (a : A) : shaped (Ret a).
Proof. done. Qed.
End shaped.
Definition any_step : forall X, Step X -> Prop := fun _ _ => True.
Lemma shaped_mono (C C' : forall X, Ask X -> Prop) (D D' : forall X, Step X -> Prop) {A} (p : prog A) :
  (forall X q, C X q -> C' X q) -> (forall X f, D X f -> D' X f) -> shaped C D p -> shaped C' D' p.
Proof. intros HC HD. induction p; simpl; naive_solver. Qed.

(** Whatever the answers and the memory, the program returns a value in [P]. *)
Fixpoint returns {A} (P : A -> Prop) (p : prog A) : Prop :=
  match p with
  | Ret a => P a
  | Call q k => forall x, returns P (k x)
  | Atomic f k => forall x, returns P (k x)
  end.
Lemma returns_bind {A B} (P : B -> Prop) (R : A -> Prop) (p : prog A) (f : A -> prog B) :
  returns R p -> (forall a, R a -> returns P (f a)) -> returns P (bind p f).
Proof. intros Hp Hf. induction p; simpl in *; naive_solver. Qed.
Lemma returns_any {A} (p : prog A) : returns (fun _ => True) p.
Proof. by induction p. Qed.
Lemma returns_mono {A} (P Q : A -> Prop) (p : prog A) :
  (forall a, P a -> Q a) -> returns P p -> returns Q p.
Proof. intros H. induction p; simpl; naive_solver. Qed.
Lemma shaped_bind_ret C D {A B} (R : A -> Prop) (p : prog A) (f : A -> prog B) :
  shaped C D p -> returns R p -> (forall a, R a -> shaped C D (f a)) -> shaped C D (bind p f).
Proof. intros Hp Hr Hf. induction p; simpl in *; naive_solver. Qed.

(** Follow the shape of a program; the lemmas about its functions are in the hint
    database [shape]. *)
Create HintDb shape.
Ltac shape_step :=
  first
  [ solve [eauto 2 with shape]
  | match goal with
    | |- shaped _ _ (Ret _) => exact I
    | |- shaped _ _ (bind _ _) => apply shaped_bind; [|intros ?]
    | |- shaped _ _ (for_each _ _) => apply shaped_for_each; intros ?
    | |- shaped _ _ (ask _) => apply shaped_ask
    | |- shaped _ _ (log_debug _ _) => apply shaped_ask
    | |- shaped _ _ (log_info _ _) => apply shaped_ask
    | |- shaped _ _ (log_warn _ _) => apply shaped_ask
    | |- shaped _ _ (log_error _ _) => apply shaped_ask
    | |- shaped _ _ (atomic _) => apply shaped_atomic
    | |- shaped _ _ (modify _) => apply shaped_atomic
    | |- shaped _ _ (reads _) => apply shaped_atomic
    | |- shaped _ _ (db_read _) => apply shaped_bind; [|intros ?]
    | |- shaped _ _ (let _ := _ in _) => cbv zeta
    | |- shaped _ _ (match ?x with _ => _ end) => destruct x
    end ].
Ltac shape := intros; repeat shape_step; try done.
(** Case analysis on an innermost scrutinee. *)
Ltac inner_match :=
  cbn; match goal with
  | |- context [match ?e with _ => _ end] =>
      lazymatch e with context [match _ with _ => _ end] => fail | _ => destruct e end
  end.
(** A straight-line program: one call or step after the other. *)
Ltac straight := repeat (cbv zeta; first
  [ exact I
  | split; [first [done | intros ?m; done | intros ?m; by repeat inner_match]|intros ?] ]).

(** Nothing is assumed of the other goroutines nor of the world, nothing is
    promised. *)
Lemma any_pre : PreOrder (fun _ _ : Mem => True).
Proof. by split. Qed.
Definition any_spec : Spec :=
  {| rely := fun _ _ => True; call_ok := fun _ _ _ _ => True; ans_ok := fun _ _ _ => True;
     atom_ok := fun _ _ => True; block_ok := fun _ => True; rely_pre := any_pre |}.
(** The same for code that never blocks, in a world that answers as [W] says. *)
Definition free_spec (W : forall X, Ask X -> X -> Prop) : Spec :=
  {| rely := fun _ _ => True; call_ok := fun _ _ _ _ => True; ans_ok := W;
     atom_ok := fun _ _ => True; block_ok := fun _ => False; rely_pre := any_pre |}.
Definition anything : forall X, Ask X -> X -> Prop := fun _ _ _ => True.
(** The calls of a program are in its trace. *)
Lemma shaped_trace (C : forall X, Ask X -> Prop) (D : forall X, Step X -> Prop) {A} (p : prog A) m h :
  shaped C D p ->
  wp any_spec p (fun _ _ h' => exists h1, h' = h ++ h1 /\ Forall (fun a => C _ (a_ask a)) h1) m h.
Proof.
  assert (forall h0 h2, h = h0 ++ h2 -> Forall (fun a => C _ (a_ask a)) h2 -> shaped C D p ->
    wp any_spec p (fun _ _ h' => exists h1, h' = h0 ++ h1 /\ Forall (fun a => C _ (a_ask a)) h1) m h) as H.
  { revert m h. induction p as [a|X q k IH|X g k IH]; intros m h h0 h2 Hh Hall Hp m1 _; simpl in Hp.
    - by exists h2.
    - destruct Hp as [Hq Hk]. split; [done|]. intros x _. apply (IH x _ _ _ (h2 ++ [act q x])); [|..|done].
      + by rewrite Hh, app_assoc.
      + by apply Forall_app_2; [|repeat constructor].
    - destruct Hp as [_ Hk]. destruct (g m1) as [[x m2]|]; [|done]. split; [done|]. by apply (IH x _ _ _ h2). }
  intros Hp. apply (H h []); [by rewrite app_nil_r|constructor|done].
Qed.

(** ** Any number of goroutines *)

(** The goroutines that were started, what is left of each, and the calls each has
    made. *)
Record Config := { c_mem : Mem; c_threads : gmap nat (prog unit * list Act) }.

Section par.
(** The programs that may be started as goroutine [t]. *)
Context (Start : nat -> prog unit -> Prop).

Inductive pstep : Config -> Config -> Prop :=
| p_start c t p :
    c_threads c !! t = None -> Start t p ->
    pstep c {| c_mem := c_mem c; c_threads := <[t := (p, [])]> (c_threads c) |}
| p_call c t X (q : Ask X) k x h :
    c_threads c !! t = Some (Call q k, h) ->
    pstep c {| c_mem := c_mem c; c_threads := <[t := (k x, h ++ [act q x])]> (c_threads c) |}
| p_atomic c t X (f : Mem -> option (X * Mem)) k x m h :
    c_threads c !! t = Some (Atomic f k, h) -> f (c_mem c) = Some (x, m) ->
    pstep c {| c_mem := m; c_threads := <[t := (k x, h)]> (c_threads c) |}.

Inductive preachable (m0 : Mem) : Config -> Prop :=
| pr_init : preachable m0 {| c_mem := m0; c_threads := ∅ |}
| pr_step c c' : preachable m0 c -> pstep c c' -> preachable m0 c'.

Context (SP : nat -> Spec).
Hypothesis Hans : forall t X (q : Ask X) x, ans_ok (SP t) q x.
Context (Inv : Mem -> Prop).
Hypothesis Hcompat : forall t u m m', t <> u -> Inv m -> atom_ok (SP t) m m' -> rely (SP u) m m'.
Hypothesis Hinv : forall t m m', Inv m -> atom_ok (SP t) m m' -> Inv m'.
(** What holds until a goroutine is started, and once it has ended. *)
Context (Idle Over : nat -> Mem -> Prop).
Hypothesis Hidle : forall t m m', rely (SP t) m m' -> Idle t m -> Idle t m'.
Hypothesis Hstart : forall t p m, Inv m -> Idle t m -> Start t p -> wp (SP t) p (fun _ m _ => Over t m) m [].

Definition par_inv (c : Config) : Prop :=
  Inv (c_mem c) /\
  forall t, match c_threads c !! t with
            | Some (p, h) => wp (SP t) p (fun _ m _ => Over t m) (c_mem c) h
            | None => Idle t (c_mem c)
            end.

Lemma pstep_inv c c' : par_inv c -> pstep c c' -> par_inv c'.
Proof.
  intros [Hi Ht] Hs. destruct Hs as [c t p Hn Hp|c t X q k x h Hc|c t X f k x m h Hc Hf].
  - split; [done|]. intros u. simpl. rewrite lookup_insert. case_decide; [|by apply Ht].
    subst. pose proof (Ht u) as Hu. rewrite Hn in Hu. by apply Hstart.
  - split; [done|]. intros u. simpl. rewrite lookup_insert. case_decide; [|by apply Ht].
    subst. pose proof (Ht u) as Hu. rewrite Hc in Hu.
    destruct (Hu (c_mem c) ltac:(reflexivity)) as [_ Hk]. apply Hk, Hans.
  - pose proof (Ht t) as Hw. rewrite Hc in Hw. specialize (Hw (c_mem c) ltac:(reflexivity)).
    simpl in Hw. rewrite Hf in Hw. destruct Hw as [Ha Hk]. split; [by eapply Hinv|].
    intros u. simpl. rewrite lookup_insert. case_decide as Hu; [by subst|].
    pose proof (Ht u) as Hu'. pose proof (Hcompat t u _ _ Hu Hi Ha) as Hr.
    destruct (c_threads c !! u) as [[p' h']|]; [by eapply wp_stable|by eapply Hidle].
Qed.
Lemma preachable_inv m0 c : Inv m0 -> (forall t, Idle t m0) -> preachable m0 c -> par_inv c.
Proof.
  intros Hm0 Hid Hr. induction Hr as [|c c' Hr IH Hs]; [|by eapply pstep_inv].
  split; [done|]. intros u. simpl. rewrite lookup_empty. apply Hid.
Qed.

(** Every call a goroutine is about to make is one its specification allows, in
    every interleaving. *)
Lemma par_safe m0 c t X (q : Ask X) k h :
  Inv m0 -> (forall t, Idle t m0) -> preachable m0 c -> c_threads c !! t = Some (Call q k, h) ->
  call_ok (SP t) q (c_mem c) h.
Proof.
  intros Hm0 Hid Hr Hc. destruct (preachable_inv m0 c Hm0 Hid Hr) as [_ Ht].
  specialize (Ht t). rewrite Hc in Ht. by destruct (Ht (c_mem c) ltac:(reflexivity)) as [H _].
Qed.
Lemma par_mem m0 c : Inv m0 -> (forall t, Idle t m0) -> preachable m0 c -> Inv (c_mem c).
Proof. intros Hm0 Hid Hr. by destruct (preachable_inv m0 c Hm0 Hid Hr). Qed.
(** A goroutine that has ended, and one that is blocked. *)
Lemma par_over m0 c t h :
  Inv m0 -> (forall t, Idle t m0) -> preachable m0 c -> c_threads c !! t = Some (Ret tt, h) -> Over t (c_mem c).
Proof.
  intros Hm0 Hid Hr Hc. destruct (preachable_inv m0 c Hm0 Hid Hr) as [_ Ht].
  specialize (Ht t). rewrite Hc in Ht. by apply Ht.
Qed.
Lemma par_blocked m0 c t X (f : Mem -> option (X * Mem)) k h :
  Inv m0 -> (forall t, Idle t m0) -> preachable m0 c -> c_threads c !! t = Some (Atomic f k, h) ->
  f (c_mem c) = None -> block_ok (SP t) (c_mem c).
Proof.
  intros Hm0 Hid Hr Hc Hf. destruct (preachable_inv m0 c Hm0 Hid Hr) as [_ Ht].
  specialize (Ht t). rewrite Hc in Ht. specialize (Ht (c_mem c) ltac:(reflexivity)). by rewrite Hf in Ht.
Qed.
Lemma par_idle m0 c t :
  Inv m0 -> (forall t, Idle t m0) -> preachable m0 c -> c_threads c !! t = None -> Idle t (c_mem c).
Proof.
  intros Hm0 Hid Hr Hc. destruct (preachable_inv m0 c Hm0 Hid Hr) as [_ Ht].
  specialize (Ht t). by rewrite Hc in Ht.
Qed.

(** Running a goroutine on its own for some steps, with given answers. *)
Context (answer : forall X, Ask X -> X).
Definition advance_one (t : nat) (c : Config) : option Config :=
  match c_threads c !! t with
  | Some (Call q k, h) =>
      let x := answer _ q in
      Some {| c_mem := c_mem c; c_threads := <[t := (k x, h ++ [act q x])]> (c_threads c) |}
  | Some (Atomic f k, h) =>
      match f (c_mem c) with
      | Some (x, m) => Some {| c_mem := m; c_threads := <[t := (k x, h)]> (c_threads c) |}
      | None => None
      end
  | _ => None
  end.
Fixpoint advance (n : nat) (t : nat) (c : Config) : Config :=
  match n with
  | O => c
  | S n => match advance_one t c with Some c' => advance n t c' | None => c end
  end.
Lemma advance_reachable m0 n t c : preachable m0 c -> preachable m0 (advance n t c).
Proof.
  revert c. induction n as [|n IH]; intros c Hc; [done|]. cbn [advance].
  destruct (advance_one t c) as [c'|] eqn:E; [|done]. apply IH. apply (pr_step _ _ _ Hc).
  unfold advance_one in E. destruct (c_threads c !! t) as [[[[]|X q k|X f k] h]|] eqn:Et; try done.
  - injection E as <-. by eapply p_call.
  - destruct (f (c_mem c)) as [[x m]|] eqn:Ef; [|done]. injection E as <-. by eapply p_atomic.
Qed.
Definition start (t : nat) (p : prog unit) (c : Config) : Config :=
  {| c_mem := c_mem c; c_threads := <[t := (p, [])]> (c_threads c) |}.
End par.

(** ** Two programs an observer cannot tell apart *)

(** [psim V R p q]: answered alike, the programs make calls that look alike through
    [V], take the same atomic steps and return results related by [R]. *)
Section sim.
Context (V : forall X, Ask X -> Ask X -> Prop).
Inductive psim {A B} (R : A -> B -> Prop) : prog A -> prog B -> Prop :=
| sim_ret a b : R a b -> psim R (Ret a) (Ret b)
| sim_call X (q q' : Ask X) k k' :
    V X q q' -> (forall x, psim R (k x) (k' x)) -> psim R (Call q k) (Call q' k')
| sim_atomic X (f : Mem -> option (X * Mem)) k k' :
    (forall x, psim R (k x) (k' x)) -> psim R (Atomic f k) (Atomic f k').

Lemma psim_refl {A} (p : prog A) : (forall X q, V X q q) -> psim eq p p.
Proof. intros HV. induction p; constructor; auto. Qed.
Lemma psim_bind {A A' B B'} (R : A -> A' -> Prop) (R' : B -> B' -> Prop) p p' f f' :
  psim R p p' -> (forall a a', R a a' -> psim R' (f a) (f' a')) -> psim R' (bind p f) (bind p' f').
Proof.
  intros Hp Hf. induction Hp as [a b Hab|X q q' k k' HV _ IH|X g k k' _ IH]; simpl;
    [by apply Hf|by constructor|by constructor].
Qed.
Lemma psim_for_each {X} (l : list X) body body' :
  (forall x, psim eq (body x) (body' x)) -> psim eq (for_each l body) (for_each l body').
Proof.
  intros H. induction l as [|x l IH]; [by constructor|]. simpl. eapply psim_bind; [apply H|done].
Qed.
End sim.

(** The observer who sees what a [view] leaves of every call. *)
Section view.
Context (view : forall X, Ask X -> Ask X).
Definition viewed (a : Act) : Act := act (view _ (a_ask a)) (a_ans a).
Definition same_view : forall X, Ask X -> Ask X -> Prop := fun X q q' => view X q = view X q'.
(** The outside world answers by what the observer sees. *)
Definition blind (o : Oracle) : Prop :=
  forall X (q q' : Ask X) h h', view X q = view X q' -> viewed <$> h = viewed <$> h' ->
    o_answer o X q h = o_answer o X q' h'.

(** Indistinguishable programs have indistinguishable runs. *)
Lemma psim_run {A B} (R : A -> B -> Prop) o (p : prog A) (p' : prog B) n m h h' :
  blind o -> psim same_view R p p' -> viewed <$> h = viewed <$> h' ->
  match run o p n m h, run o p' n m h' with
  | Some (a, m1, h1), Some (a', m1', h1') => R a a' /\ m1 = m1' /\ viewed <$> h1 = viewed <$> h1'
  | None, None => True
  | _, _ => False
  end.
Proof.
  intros Ho Hp. revert n m h h'.
  induction Hp as [a b Hab|X q q' k k' HV _ IH|X f k k' _ IH]; intros n m h h' Hh; simpl.
  - done.
  - rewrite (Ho X q q' h h' HV Hh). apply IH. rewrite !fmap_app, Hh. f_equal.
    simpl. unfold viewed. simpl. unfold same_view in HV. by rewrite HV.
  - destruct (f _) as [[x m2]|]; [|done]. by apply IH.
Qed.
End view.

(** ** Questions about traces *)

Create Rewrite HintDb trace.

Definition act_cmd (a : Act) : option Cmd :=
  match a_ask a with Exec c => Some c | _ => None end.
(** The child processes a trace starts. *)
Definition cmds (h : list Act) : list Cmd := omap act_cmd h.
Definition act_run (a : Act) : option (Cmd * CmdOut) :=
  (match a_ask a in Ask X return X -> option (Cmd * CmdOut) with
   | Exec c => fun r => Some (c, r)
   | _ => fun _ => None
   end) (a_ans a).
(** The child processes with what they gave. *)
Definition runs (h : list Act) : list (Cmd * CmdOut) := omap act_run h.
Definition act_stat (a : Act) : option (string * bool) :=
  (match a_ask a in Ask X return X -> option (string * bool) with
   | Stat path => fun b => Some (path, b)
   | _ => fun _ => None
   end) (a_ans a).
(** The paths that were looked for, and whether they were there. *)
Definition stats (h : list Act) : list (string * bool) := omap act_stat h.
Definition act_clock (a : Act) : option Time :=
  (match a_ask a in Ask X return X -> option Time with Now => fun t => Some t | _ => fun _ => None end) (a_ans a).
(** The clock readings. *)
Definition clocks (h : list Act) : list Time := omap act_clock h.
Definition act_temp (a : Act) : option string :=
  (match a_ask a in Ask X return X -> option string with
   | CreateTemp _ _ => fun r => match r with Ok path => Some path | Err _ => None end
   | _ => fun _ => None
   end) (a_ans a).
(** The temporary files a trace creates and the files it removes. *)
Definition temps (h : list Act) : list string := omap act_temp h.
Definition act_removed (a : Act) : option string :=
  match a_ask a with Remove path => Some path | _ => None end.
Definition removed (h : list Act) : list string := omap act_removed h.
Definition act_event (a : Act) : option (string * string * string) :=
  match a_ask a with PublishEv typ repo stack _ => Some (typ, repo, stack) | _ => None end.
(** The activity events a trace publishes: type, repository and stack. *)
Definition events (h : list Act) : list (string * string * string) := omap act_event h.

Lemma cmds_app h h' : cmds (h ++ h') = cmds h ++ cmds h'.
Proof. apply omap_app. Qed.
Lemma runs_app h h' : runs (h ++ h') = runs h ++ runs h'.
Proof. apply omap_app. Qed.
Lemma stats_app h h' : stats (h ++ h') = stats h ++ stats h'.
Proof. apply omap_app. Qed.
Lemma clocks_app h h' : clocks (h ++ h') = clocks h ++ clocks h'.
Proof. apply omap_app. Qed.
Lemma cmds_runs h : cmds h = fst <$> runs h.
Proof. unfold cmds, runs. induction h as [|[X q x] h IH]; [done|]. destruct q; try exact IH. cbn. f_equal. exact IH. Qed.
Lemma no_runs h : cmds h = [] <-> runs h = [].
Proof. rewrite cmds_runs. by destruct (runs h). Qed.
Lemma temps_app h h' : temps (h ++ h') = temps h ++ temps h'.
Proof. apply omap_app. Qed.
Lemma removed_app h h' : removed (h ++ h') = removed h ++ removed h'.
Proof. apply omap_app. Qed.
Lemma events_app h h' : events (h ++ h') = events h ++ events h'.
Proof. apply omap_app. Qed.
#[export] Hint Rewrite cmds_app runs_app stats_app clocks_app temps_app removed_app events_app : trace.

(** ** The trace of a piece of code *)

(** In a world that answers as [W] says, the code never blocks, and its result and
    its trace are in [R]. *)
Section ran.
Context (W : forall X, Ask X -> X -> Prop).
Definition ran {A} (p : prog A) (R : A -> list Act -> Prop) : Prop := forall m h,
  wp (free_spec W) p (fun a _ h' => exists h1, h' = h ++ h1 /\ R a h1) m h.
Lemma ran_Ret {A} (a : A) (R : A -> list Act -> Prop) : R a [] -> ran (Ret a) R.
Proof. intros H m h m' _. exists []. by rewrite app_nil_r. Qed.
Lemma ran_ask {X} (q : Ask X) (R : X -> list Act -> Prop) :
  (forall x, W _ q x -> R x [act q x]) -> ran (ask q) R.
Proof. intros H m h m' _. split; [done|]. intros x Hx m'' _. exists [act q x]. auto. Qed.
Lemma ran_step {X} (f : Mem -> X * Mem) (R : X -> list Act -> Prop) :
  (forall m, R (fst (f m)) []) -> ran (atomic f) R.
Proof.
  intros H m h m' _. simpl. pose proof (H m'). destruct (f m'). split; [done|].
  intros m'' _. exists []. by rewrite app_nil_r.
Qed.
Lemma ran_bind {A B} (p : prog A) (f : A -> prog B) (R : A -> list Act -> Prop) (R' : B -> list Act -> Prop) :
  ran p R -> (forall a h1, R a h1 -> ran (f a) (fun b h2 => R' b (h1 ++ h2))) -> ran (bind p f) R'.
Proof.
  intros Hp Hf m h. apply wp_bind. eapply wp_mono; [|apply Hp]. intros a m1 h1 (x & -> & Hx).
  eapply wp_mono; [|by eapply Hf]. intros b m2 h2 (y & -> & Hy). exists (x ++ y). by rewrite app_assoc.
Qed.
Lemma ran_mono {A} (p : prog A) (R R' : A -> list Act -> Prop) :
  (forall a h, R a h -> R' a h) -> ran p R -> ran p R'.
Proof.
  intros H Hp m h. eapply wp_mono; [|apply Hp]. intros a m1 h1 (x & -> & Hx). exists x. auto.
Qed.
Lemma ran_run {A} o (p : prog A) R n m h :
  (forall X (q : Ask X) h, W _ q (o_answer o X q h)) -> ran p R ->
  exists a m' h1, run o p n m h = Some (a, m', h ++ h1) /\ R a h1.
Proof.
  intros Ho Hp. pose proof (wp_run (free_spec W) o p _ n m h ltac:(done) Ho (Hp m h)) as Hw.
  destruct (run o p n m h) as [[[a m'] h']|]; [|by destruct Hw].
  destruct Hw as (h1 & -> & HR). by exists a, m', h1.
Qed.
Lemma ran_returns {A} (p : prog A) (P : A -> Prop) (R : A -> list Act -> Prop) :
  returns P p -> ran p R -> ran p (fun a h => R a h /\ P a).
Proof.
  intros Hr Hp m h. specialize (Hp m h).
  assert (forall m h (Q : A -> Mem -> list Act -> Prop), wp (free_spec W) p Q m h ->
    wp (free_spec W) p (fun a m' h' => Q a m' h' /\ P a) m h) as H.
  { clear Hp m h. induction p as [a|X q k IH|X f k IH]; intros m h Q Hp m' _; simpl in Hr.
    - split; [by apply Hp|done].
    - destruct (Hp m' I) as [_ Hk]. split; [done|]. intros x Hx. apply IH; [apply Hr|by apply Hk].
    - specialize (Hp m' I). destruct (f m') as [[x m2]|]; [|done]. destruct Hp as [_ Hp].
      split; [done|]. apply IH; [apply Hr|exact Hp]. }
  eapply wp_mono; [|apply H, Hp]. intros a m' h' [(h1 & -> & Hx) Ha]. by exists h1.
Qed.
Lemma ran_and {A} (p : prog A) (R R' : A -> list Act -> Prop) :
  ran p R -> ran p R' -> ran p (fun a h => R a h /\ R' a h).
Proof.
  intros H H' m h. eapply wp_mono; [|apply wp_conj; [apply H|apply H']].
  intros a m' h' [(h1 & -> & Hx) (h2 & E & Hy)]. apply app_inv_head in E as <-. by exists h1.
Qed.
(** Its answers are those of the world. *)
Lemma ran_world {A} (p : prog A) (R : A -> list Act -> Prop) :
  ran p R -> ran p (fun a h => R a h /\ Forall (fun a => W _ (a_ask a) (a_ans a)) h).
Proof.
  intros Hp m h. specialize (Hp m h).
  assert (forall m h0 h1 (Q : A -> Mem -> list Act -> Prop), wp (free_spec W) p Q m (h0 ++ h1) ->
    Forall (fun a => W _ (a_ask a) (a_ans a)) h1 ->
    wp (free_spec W) p (fun a m' h' => Q a m' h' /\ exists h2, h' = h0 ++ h2
      /\ Forall (fun a => W _ (a_ask a) (a_ans a)) h2) m (h0 ++ h1)) as H.
  { clear. induction p as [a|X q k IH|X f k IH]; intros m h0 h1 Q Hp Hh m' _.
    - split; [by apply Hp|by exists h1].
    - destruct (Hp m' I) as [_ Hk]. split; [done|]. intros x Hx. rewrite <- app_assoc. apply IH.
      + rewrite app_assoc. by apply Hk.
      + apply Forall_app_2; [done|]. by repeat constructor.
    - specialize (Hp m' I). destruct (f m') as [[x m2]|]; [|done]. destruct Hp as [_ Hp]. split; [done|]. by apply IH. }
  specialize (H m h [] (fun a _ h' => exists h1, h' = h ++ h1 /\ R a h1)). rewrite app_nil_r in H.
  eapply wp_mono; [|apply H; [exact Hp|constructor]].
  intros a m' h' [(h1 & -> & Hr) (h2 & E & Hf)]. apply app_inv_head in E as <-. by exists h1.
Qed.
(** Code whose calls are all in [C] and that never blocks. *)
Lemma ran_shaped (C : forall X, Ask X -> Prop) P {A} (p : prog A) :
  shaped C (fun X f => forall m, match f m with Some (_, m') => P m m' | None => False end) p ->
  ran p (fun _ h => Forall (fun a => C _ (a_ask a)) h).
Proof.
  induction p as [a|X q k IH|X f k IH]; intros Hp m h m' _.
  - exists []. rewrite app_nil_r. by split.
  - destruct Hp as [Hq Hk]. split; [done|]. intros x _.
    eapply wp_mono; [|by apply IH]. intros a m1 h1 (y & -> & Hy). exists (act q x :: y).
    rewrite <- app_assoc. split; [done|]. by constructor.
  - destruct Hp as [Hf Hk]. specialize (Hf m'). destruct (f m') as [[x m2]|]; [|done]. split; [done|].
    by apply IH.
Qed.
Lemma ran_for_each {X} (l : list X) body (R : X -> list Act -> Prop) :
  (forall x, ran (body x) (fun _ h => R x h)) ->
  ran (for_each l body) (fun _ h => exists hs, h = concat hs /\ Forall2 R l hs).
Proof.
  intros H. induction l as [|x l IH].
  - apply ran_Ret. exists []. split; [done|constructor].
  - cbn [for_each]. eapply ran_bind; [apply H|]. intros [] h1 H1. eapply ran_mono; [|apply IH].
    intros _ h2 (hs & -> & Hs). exists (h1 :: hs). split; [done|]. by constructor.
Qed.
End ran.

(** ** A world where everything works, to run the definitions *)

Definition demo_answer X (q : Ask X) : X :=
  match q in Ask X return X with
  | Now => 63000000000 * 10 ^ 9
  | CtxErr => None
  | Getenv _ => ""
  | Environ => ["HOME=/root"]
  | RandRead n => Ok (String.concat "" (repeat "r" n))
  | MapOrder => []
  | Select => Tick
  | Stat _ => true
  | ReadFile _ => Ok "services: {}"
  | ReadNoFollow _ => Ok "services: {}"
  | ReadDir _ => Ok [{| de_name := "README.md"; de_isdir := false |}; {| de_name := "plex"; de_isdir := true |}]
  | MkdirAll _ _ => None
  | CreateTemp dir _ => Ok (dir +:+ "/stackd-key-1")%string
  | WriteString _ _ => None
  | CloseFile _ => tt
  | Remove _ => tt
  | WriteFile _ _ _ => None
  | Setenv _ _ => None
  | Log _ _ _ => tt
  | SqlOpen _ _ | SqlExec _ | SqlPing | MigrationsFS | MigrateNew _ | MigrateForce _ => None
  | SqlClose | MigrateClose => tt
  | MigrateUp => {| up_from := 0; up_count := 4; up_err := None |}
  | Exec c => {| co_out := if String.eqb (cmd_name c) "git" then "c0ffee" +:+ NL else ""; co_err := None; co_exit_stderr := None |}
  | DbFault => NoFault
  | PublishEv _ _ _ _ => tt
  | DockerNew => Ok 1%nat
  | DockerClose _ => tt
  | ContainerList _ _ _ => Ok []
  | ContainerInspect _ _ => Err (errorf "no such container")
  | ContainerStart _ _ | ContainerStop _ _ | ContainerRestart _ _ => None
  | ExecCreate _ _ _ _ => Ok "e1"
  | ExecStart _ _ => None
  | ExecInspect _ _ => Ok 0
  | ExecAttach _ _ => None
  | ContainerLogs _ _ => None
  | LogChunks _ _ => ([("line one" +:+ NL +:+ "line two" +:+ NL)%string], None)
  | LogsClose _ _ => tt
  end.
Definition demo_oracle : Oracle := {| o_answer := fun X q _ => demo_answer X q; o_other := fun _ m => m |}.
