(* ===== verification/Git.v ===== *)
(** * internal/git/git.go: the commands that bring a clone up to date, and
    internal/execpg: how they are started and killed *)
From Stdlib Require Import Ascii.
From S2P Require Import Prelude GoStrings GoPath GitRef Base64 Effects.

(** ** internal/execpg *)

Definition DefaultWaitDelay : Z := 5 * 10 ^ 9.
(** [execpg.Configure] on unix: an own process group, and a bounded wait. *)
Definition configure (cmd : Cmd) : Cmd :=
  {| cmd_name := cmd_name cmd; cmd_args := cmd_args cmd; cmd_env := cmd_env cmd; cmd_dir := cmd_dir cmd;
     cmd_setpgid := true;
     cmd_waitdelay := if cmd_waitdelay cmd =? 0 then DefaultWaitDelay else cmd_waitdelay cmd |}.
Definition CommandContext (name : string) (args : list string) : Cmd :=
  configure {| cmd_name := name; cmd_args := args; cmd_env := None; cmd_dir := "";
               cmd_setpgid := false; cmd_waitdelay := 0 |}.
Definition with_env (env : list string) (cmd : Cmd) : Cmd :=
  {| cmd_name := cmd_name cmd; cmd_args := cmd_args cmd; cmd_env := Some env; cmd_dir := cmd_dir cmd;
     cmd_setpgid := cmd_setpgid cmd; cmd_waitdelay := cmd_waitdelay cmd |}.
Definition with_dir (dir : string) (cmd : Cmd) : Cmd :=
  {| cmd_name := cmd_name cmd; cmd_args := cmd_args cmd; cmd_env := cmd_env cmd; cmd_dir := dir;
     cmd_setpgid := cmd_setpgid cmd; cmd_waitdelay := cmd_waitdelay cmd |}.

(** The [Cancel] hook: the signals sent, given the pid of the started process and
    whether signalling its group, and then the process alone, succeeds. *)
Inductive target := Group (pid : Z) | Process (pid : Z).
Definition Cancel (process : option Z) (kill : target -> bool) : list target * option GoError :=
  match process with
  | None => ([], Some (errorf "execpg: process not started"))
  | Some pid =>
      if kill (Group pid) then ([Group pid], None)
      else ([Group pid; Process pid],
            if kill (Process pid) then None else Some (errorf "os: process already finished"))
  end.

(** ** internal/git *)

Record AuthOpts := { Type_ : string; SSHKeyPath : string; PAT : string }.
Definition gitAllowProtocol : string := "GIT_ALLOW_PROTOCOL=ssh:https:git:http".

Definition knownHostsFile : prog string := (
  env <- ask (Getenv "SSH_KNOWN_HOSTS_DIR");;
  let dir := if String.eqb env "" then "/tmp/stackd-ssh" else env in
  made <- ask (MkdirAll dir 448);;          (* 0700 *)
  (match made with
   | Some err => log_warn "could not create ssh known_hosts dir" [("dir", LStr dir); ("err", LErr err)]
   | None => Ret tt
   end);;;
  Ret (Join [dir; "known_hosts"]))%prog.

Definition sshCommandEnv (keyPath : string) : prog string := (
  kh <- knownHostsFile;;
  Ret ("GIT_SSH_COMMAND=ssh -i " +:+ keyPath +:+
       " -o StrictHostKeyChecking=accept-new" +:+
       " -o UserKnownHostsFile=" +:+ kh +:+
       " -o BatchMode=yes" +:+
       " -o ConnectTimeout=10" +:+
       " -o ServerAliveInterval=10" +:+
       " -o ServerAliveCountMax=3")%string)%prog.

Definition patEnv (pat : string) : list string :=
  ["GIT_CONFIG_COUNT=1"; "GIT_CONFIG_KEY_0=http.extraHeader";
   ("GIT_CONFIG_VALUE_0=Authorization: Basic " +:+ StdEncode (pat +:+ ":"))%string].

Definition applyGitEnv (cmd : Cmd) (opts : AuthOpts) : prog Cmd := (
  environ <- ask Environ;;
  let env := environ ++ [gitAllowProtocol] in
  env <- (if String.eqb (Type_ opts) "ssh" && negb (String.eqb (SSHKeyPath opts) "")
          then (e <- sshCommandEnv (SSHKeyPath opts);; Ret (env ++ [e]))
          else Ret env);;
  let env := if String.eqb (Type_ opts) "pat" && negb (String.eqb (PAT opts) "")
             then env ++ patEnv (PAT opts) else env in
  Ret (with_env env cmd))%prog.

(** A failed command: what went wrong, then its output without credentials. *)
Definition cmd_error (what : string) (err : GoError) (out : string) : GoError :=
  {| err_text := (what +:+ ": " +:+ err_text err +:+ NL +:+ "output: " +:+ Redact out)%string;
     err_norows := err_norows err |}.
(** [cmd.CombinedOutput] and the error of the caller; [title] and [attrs] are logged. *)
Definition git_command (what : string) (args : list string) (title : string) (attrs : list (string * LogValue))
    (opts : AuthOpts) : prog (option GoError) := (
  cmd <- applyGitEnv (CommandContext "git" args) opts;;
  log_debug title attrs;;;
  res <- ask (Exec cmd);;
  Ret (match co_err res with
       | Some err => Some (cmd_error what err (co_out res))
       | None => None
       end))%prog.

Definition clone_args (repoURL destDir remote : string) : list string :=
  ["clone"; "--origin"; remote; "--"; repoURL; destDir].
Definition fetch_args (repoDir remote : string) : list string :=
  ["-C"; repoDir; "fetch"; "--prune"; "--"; remote].
Definition reset_args (repoDir ref : string) : list string :=
  ["-C"; repoDir; "reset"; "--hard"; "--end-of-options"; ref].

Definition cloneRepo (repoURL destDir remote : string) (opts : AuthOpts) : prog (option GoError) :=
  git_command "git clone" (clone_args repoURL destDir remote)
    "git clone" [("dest", LStr destDir); ("remote", LStr remote)] opts.

Definition reset_ref (remote branch : string) : string :=
  if negb (String.eqb branch "") && negb (String.eqb branch "HEAD")
  then (remote +:+ "/" +:+ branch)%string else "FETCH_HEAD".
Definition fetchReset (repoDir remote branch : string) (opts : AuthOpts) : prog (option GoError) := (
  err <- git_command "git fetch" (fetch_args repoDir remote)
           "git fetch" [("dir", LStr repoDir); ("remote", LStr remote)] opts;;
  match err with
  | Some e => Ret (Some e)
  | None =>
      let ref := reset_ref remote branch in
      git_command ("git reset --hard " +:+ ref) (reset_args repoDir ref)
        "git reset --hard" [("dir", LStr repoDir); ("ref", LStr ref)] opts
  end)%prog.

Definition SyncRepo (destDir repoURL remote branch : string) (opts : AuthOpts) : prog (option GoError) := (
  let remote := if String.eqb remote "" then "origin" else remote in
  there <- ask (Stat (Join [destDir; ".git"]));;
  err <- (if there then Ret None else cloneRepo repoURL destDir remote opts);;
  match err with
  | Some e => Ret (Some e)
  | None => fetchReset destDir remote branch opts
  end)%prog.

Definition sha_args (repoDir : string) : list string := ["-C"; repoDir; "rev-parse"; "HEAD"].
Definition HeadSHA (repoDir : string) : prog (result string) := (
  log_debug "git rev-parse HEAD" [("dir", LStr repoDir)];;;
  res <- ask (Exec (CommandContext "git" (sha_args repoDir)));;
  Ret (match co_err res with
       | Some err =>
           let pfx := ("git rev-parse HEAD " +:+ repoDir +:+ ": ")%string in
           match co_exit_stderr res with
           | Some stderr =>
               if 0 <? len stderr
               then Err {| err_text := (pfx +:+ err_text err +:+ ": " +:+ trim_space stderr)%string;
                           err_norows := err_norows err |}
               else Err (wrap pfx err)
           | None => Err (wrap pfx err)
           end
       | None => Ok (trim_space (co_out res))
       end))%prog.

(** ** Lemmas *)

(** The environment of a git command: the protocol guard, and the credentials. *)
Definition carries (opts : AuthOpts) (env : list string) : Prop :=
  gitAllowProtocol ∈ env
  /\ (Type_ opts = "ssh" -> SSHKeyPath opts <> "" -> exists rest,
       ("GIT_SSH_COMMAND=ssh -i " +:+ SSHKeyPath opts +:+ " -o StrictHostKeyChecking=accept-new" +:+ rest)%string ∈ env)
  /\ (Type_ opts = "pat" -> PAT opts <> "" -> forall e, e ∈ patEnv (PAT opts) -> e ∈ env).
(** No process and no look at the file system. *)
Definition still (h : list Act) : Prop := runs h = [] /\ stats h = [].
Lemma still_app h h' : still h -> still h' -> still (h ++ h').
Proof. intros [C S] [C' S']. unfold still. autorewrite with trace. by rewrite C, S, C', S'. Qed.
Lemma ran_ssh_env keyPath :
  ran anything (sshCommandEnv keyPath) (fun e h => still h /\ exists rest,
    e = ("GIT_SSH_COMMAND=ssh -i " +:+ keyPath +:+ " -o StrictHostKeyChecking=accept-new" +:+ rest)%string).
Proof.
  unfold sshCommandEnv. eapply (ran_bind _ _ _ (fun _ h => still h)).
  - unfold knownHostsFile. eapply ran_bind; [by apply (ran_ask _ _ (fun _ h => still h))|]. intros dir h1 H1. cbv zeta.
    eapply ran_bind; [by apply (ran_ask _ _ (fun _ h => still h))|]. intros made h2 H2.
    eapply (ran_bind _ _ _ (fun _ h => still h)).
    { destruct made; [by apply (ran_ask _ _ (fun _ h => still h))|by apply ran_Ret]. }
    intros [] h3 H3. apply ran_Ret. rewrite app_nil_r. by apply still_app; [|apply still_app].
  - intros kh h1 H1. apply ran_Ret. rewrite app_nil_r. split; [done|]. by eexists.
Qed.
Lemma ran_env cmd opts :
  ran anything (applyGitEnv cmd opts) (fun c h => still h /\ exists env, c = with_env env cmd /\ carries opts env).
Proof.
  unfold applyGitEnv. eapply ran_bind; [by apply (ran_ask _ _ (fun _ h => still h))|]. intros environ h1 H1. cbv zeta.
  eapply (ran_bind _ _ _ (fun env h => still h /\ gitAllowProtocol ∈ env
    /\ (Type_ opts = "ssh" -> SSHKeyPath opts <> "" -> exists rest,
       ("GIT_SSH_COMMAND=ssh -i " +:+ SSHKeyPath opts +:+ " -o StrictHostKeyChecking=accept-new" +:+ rest)%string ∈ env))).
  - destruct (String.eqb_spec (Type_ opts) "ssh") as [Et|Et]; [destruct (String.eqb_spec (SSHKeyPath opts) "") as [Ep|Ep]|]; cbn [andb negb].
    + apply ran_Ret. split_and!; [done|set_solver|done].
    + eapply ran_bind; [apply ran_ssh_env|]. intros e h2 (H2 & rest & ->). apply ran_Ret. rewrite app_nil_r.
      split_and!; [done|set_solver|]. intros _ _. exists rest. set_solver.
    + apply ran_Ret. split_and!; [done|set_solver|done].
  - intros env h2 (H2 & Hg & Hs). apply ran_Ret. rewrite app_nil_r. split; [by apply still_app|].
    eexists. split; [done|]. unfold carries.
    destruct (String.eqb_spec (Type_ opts) "pat") as [Et|Et]; [destruct (String.eqb_spec (PAT opts) "") as [Ep|Ep]|]; cbn [andb negb].
    + split_and!; [done|done|done].
    + split_and!; [set_solver|intros Ht; congruence|]. intros _ _ e He. set_solver.
    + split_and!; [done|done|done].
Qed.
(** The command that was run: [git] with these arguments and credentials, in a
    process group of its own. *)
Definition git_cmd (args : list string) (opts : AuthOpts) (c : Cmd) : Prop :=
  cmd_name c = "git" /\ cmd_args c = args /\ cmd_dir c = "" /\ cmd_setpgid c = true
  /\ cmd_waitdelay c = DefaultWaitDelay /\ exists env, cmd_env c = Some env /\ carries opts env.

(** The commands of [plan], each named by its error message, were run in order up to
    the first that failed, and [err] is that failure; none failed if there is no
    error. *)
Fixpoint executed (opts : AuthOpts) (plan : list (string * list string)) (rs : list (Cmd * CmdOut)) (err : option GoError) : Prop :=
  match plan, rs with
  | [], [] => err = None
  | (what, args) :: plan, (c, r) :: rs =>
      git_cmd args opts c
      /\ match co_err r with
         | Some e => err = Some (cmd_error what e (co_out r)) /\ rs = []
         | None => executed opts plan rs err
         end
  | _, _ => False
  end.
Lemma ran_git what args title attrs opts :
  ran anything (git_command what args title attrs opts) (fun err h =>
    stats h = [] /\ exists c r, runs h = [(c, r)] /\ git_cmd args opts c
      /\ err = match co_err r with Some e => Some (cmd_error what e (co_out r)) | None => None end).
Proof.
  unfold git_command. eapply ran_bind; [apply ran_env|]. intros c h1 [[H1 S1] (env & -> & Hin)].
  eapply ran_bind; [by apply (ran_ask _ _ (fun _ h => still h))|]. intros [] h2 [H2 S2].
  eapply ran_bind; [by apply (ran_ask _ _ (fun r h => stats h = [] /\ runs h = [(with_env env (CommandContext "git" args), r)]))|].
  intros res h3 [S3 H3]. apply ran_Ret. autorewrite with trace. rewrite H1, H2, H3, S1, S2, S3. split; [done|].
  do 2 eexists. split; [done|]. split; [|done]. by repeat split; [..|exists env].
Qed.
(** One command of a plan, then the rest. *)
Lemma ran_then what args title attrs opts plan (k : option GoError -> prog (option GoError)) :
  (forall e, k (Some e) = Ret (Some e)) ->
  ran anything (k None) (fun err h => stats h = [] /\ executed opts plan (runs h) err) ->
  ran anything (bind (git_command what args title attrs opts) k)
    (fun err h => stats h = [] /\ executed opts ((what, args) :: plan) (runs h) err).
Proof.
  intros Hk Hn. eapply ran_bind; [apply ran_git|]. intros err h1 (S1 & c & r & H1 & Hc & ->).
  destruct (co_err r) as [e|] eqn:E.
  - rewrite Hk. apply ran_Ret. rewrite app_nil_r, H1. split; [done|]. cbn. by rewrite E.
  - eapply ran_mono; [|exact Hn]. intros err h2 [S2 H2]. autorewrite with trace. rewrite S1, S2, H1.
    split; [done|]. cbn. by rewrite E.
Qed.

(** The commands of a synchronisation, depending on whether there is a clone. *)
Definition sync_plan (there : bool) (destDir repoURL remote branch : string) : list (string * list string) :=
  let remote := if String.eqb remote "" then "origin" else remote in
  let ref := if decide (branch = "" \/ branch = "HEAD") then "FETCH_HEAD" else (remote +:+ "/" +:+ branch)%string in
  (if there then [] else [("git clone", ["clone"; "--origin"; remote; "--"; repoURL; destDir])])
  ++ [("git fetch", ["-C"; destDir; "fetch"; "--prune"; "--"; remote]);
      (("git reset --hard " +:+ ref)%string, ["-C"; destDir; "reset"; "--hard"; "--end-of-options"; ref])].
Lemma reset_ref_decide remote branch :
  reset_ref remote branch = if decide (branch = "" \/ branch = "HEAD") then "FETCH_HEAD" else (remote +:+ "/" +:+ branch)%string.
Proof.
  unfold reset_ref. destruct (String.eqb_spec branch ""), (String.eqb_spec branch "HEAD"); case_decide; naive_solver.
Qed.
Lemma SyncRepo_ran destDir repoURL remote branch opts :
  ran anything (SyncRepo destDir repoURL remote branch opts)
    (fun err h => exists there, stats h = [(Join [destDir; ".git"], there)]
       /\ executed opts (sync_plan there destDir repoURL remote branch) (runs h) err).
Proof.
  unfold SyncRepo, sync_plan. cbv zeta. set (rm := if String.eqb remote "" then "origin" else remote).
  eapply ran_bind; [by apply (ran_ask _ _ (fun there h => runs h = [] /\ stats h = [(Join [destDir; ".git"], there)]))|].
  intros there h0 [H0 S0].
  assert (ran anything (fetchReset destDir rm branch opts) (fun err h => stats h = [] /\
    executed opts (sync_plan true destDir repoURL remote branch) (runs h) err)) as Hf.
  { unfold fetchReset, sync_plan. fold rm. cbn [app]. apply ran_then; [done|].
    cbv zeta. rewrite reset_ref_decide. eapply ran_mono; [|apply ran_git]. intros err h (S & c & r & -> & Hc & ->).
    split; [done|]. cbn. split; [done|]. by destruct (co_err r). }
  eapply ran_mono with (R := fun err h => stats h = [] /\ executed opts (sync_plan there destDir repoURL remote branch) (runs h) err).
  { intros err h [S H]. exists there. autorewrite with trace. by rewrite H0, S0, S. }
  destruct there; [exact Hf|]. unfold sync_plan. cbn [app]. by apply ran_then.
Qed.

(** A clone that exists is brought up to date from where it was cloned: the URL the
    repository has now makes no difference. *)
Lemma existing_clone_ignores_url o destDir url url' remote branch opts n m h :
  o_answer o _ (Stat (Join [destDir; ".git"])) h = true ->
  run o (SyncRepo destDir url remote branch opts) n m h = run o (SyncRepo destDir url' remote branch opts) n m h.
Proof. intros H. unfold SyncRepo. cbn. by rewrite H. Qed.

(** C24. [SyncRepo] always returns, and runs exactly these commands, in this order: a
    clone if it did not find [.git] where it looked, then always a fetch and a
    hard reset; it stops at the first that fails and returns that failure, and
    returns no error only when all of them succeeded.  The URL, the directory
    and the ref stand behind [--], [--end-of-options] or [-C], where git does not
    parse them as options; every command carries the credentials and the protocol
    allow-list, and kills its process group. *)
Theorem SyncRepo_commands o destDir repoURL remote branch opts n m h :
  exists err m' h1 there, run o (SyncRepo destDir repoURL remote branch opts) n m h = Some (err, m', h ++ h1)
  /\ stats h1 = [(Join [destDir; ".git"], there)]
  /\ executed opts (sync_plan there destDir repoURL remote branch) (runs h1) err.
Proof.
  destruct (ran_run anything o _ _ n m h ltac:(done) (SyncRepo_ran destDir repoURL remote branch opts))
    as (err & m' & h1 & Hr & there & Hs & He). by exists err, m', h1, there.
Qed.
