(* ===== verification/Docker.v ===== *)
(** * internal/docker: the client of the Docker daemon, and its holder

    The calls of the Docker API are [Ask]s, answered by the daemon; a client is
    its number.  This file holds what the source does around them. *)
From Stdlib Require Import Ascii.
From S2P Require Import Prelude GoStrings Masking State Effects.

(** ** [time.Parse(time.RFC3339Nano, _)]

    [2006-01-02T15:04:05] with two-digit fields, an optional fraction and [Z] or
    a numeric zone, which is the form the daemon writes.  Nanoseconds since the
    zero time; a text that does not parse is the zero time. *)
Definition leap (y : Z) : bool := (y mod 4 =? 0) && (negb (y mod 100 =? 0) || (y mod 400 =? 0)).
Definition month_days (y : Z) : list Z :=
  [31; if leap y then 29 else 28; 31; 30; 31; 30; 31; 31; 30; 31; 30; 31].
Definition days_before (y m d : Z) : Z :=
  365 * (y - 1) + (y - 1) / 4 - (y - 1) / 100 + (y - 1) / 400
  + foldr Z.add 0 (firstn (Z.to_nat (m - 1)) (month_days y)) + (d - 1).
(** A field of [n] digits between [lo] and [hi], and what follows the separator. *)
Definition field (n : nat) (lo hi : Z) (s : string) : option (Z * string) :=
  match parse_digits 0 (take n s) with
  | Some v => if Nat.eqb (String.length (take n s)) n && (lo <=? v) && (v <=? hi)
              then Some (v, drop n s) else None
  | None => None
  end.
Definition sep (c : ascii) (s : string) : option string :=
  match s with String a s => if Ascii.eqb a c then Some s else None | "" => None end.
Fixpoint nanos (scale : Z) (s : string) : Z :=
  match s with
  | "" => 0
  | String c s => match digit_val c with Some d => d * scale + nanos (scale / 10) s | None => 0 end
  end.
Definition zone (s : string) : option Z :=
  match s with
  | String "Z" "" => Some 0
  | String c s =>
      '(h, s) ← field 2 0 24 s; s ← sep ":" s; '(mi, s) ← field 2 0 60 s;
      if negb (String.eqb s "") then None
      else if Ascii.eqb c "+" then Some (h * 3600 + mi * 60)
      else if Ascii.eqb c "-" then Some (- (h * 3600 + mi * 60)) else None
  | "" => None
  end.
Definition parse_rfc3339 (s : string) : option Time :=
  '(y, s) ← field 4 0 9999 s; s ← sep "-" s;
  '(mo, s) ← field 2 1 12 s; s ← sep "-" s;
  '(d, s) ← field 2 1 (nth (Z.to_nat (mo - 1)) (month_days y) 0) s; s ← sep "T" s;
  '(h, s) ← field 2 0 23 s; s ← sep ":" s;
  '(mi, s) ← field 2 0 59 s; s ← sep ":" s;
  '(sec, s) ← field 2 0 59 s;
  let '(frac, s) := match sep "." s with
                    | Some t => let '(ds, r) := span is_digit t in
                                if String.eqb ds "" then (0, s) else (nanos (10 ^ 8) ds, r)
                    | None => (0, s)
                    end in
  off ← zone s;
  Some ((days_before y mo d * 86400 + h * 3600 + mi * 60 + sec - off) * 10 ^ 9 + frac).
Definition Parse_RFC3339Nano (s : string) : Time := default 0 (parse_rfc3339 s).

Example parse_epoch : Parse_RFC3339Nano "1970-01-01T00:00:00Z" = 62135596800 * 10 ^ 9.
Proof. reflexivity. Qed.
Example parse_offset :
  Parse_RFC3339Nano "2024-02-29T12:30:05.25+02:00" = Parse_RFC3339Nano "2024-02-29T10:30:05.250000000Z".
Proof. reflexivity. Qed.
Example parse_zero : Parse_RFC3339Nano "0001-01-01T00:00:00Z" = 0.
Proof. reflexivity. Qed.

(** ** Clients *)

Record ContainerDetail := {
  ID : string;
  Name : string;
  Image : string;
  Status : string;
  StartedAt : Time;
  Env : list string;
  Ports : list string;
}.
Definition StatusRunning : string := "running".
Definition StatusStopped : string := "stopped".
Definition StatusNotFound : string := "not_found".

Definition New : prog (result nat) := (
  res <- ask DockerNew;;
  Ret (match res with
       | Ok c => Ok c
       | Err e => Err (wrap "create docker client: " e)
       end))%prog.

(** The state of the first listed container that has the name. *)
Fixpoint find_status (name : string) (items : list ContainerSummary) : string :=
  match items with
  | [] => StatusNotFound
  | ct :: items =>
      if existsb (fun n => String.eqb n ("/" +:+ name) || String.eqb n name) (ct_Names ct)
      then if String.eqb (ct_State ct) "running" then StatusRunning else StatusStopped
      else find_status name items
  end.
Definition GetContainerStatus (c : nat) (name : string) : prog (string * option GoError) := (
  res <- ask (ContainerList c "name" name);;
  Ret (match res with
       | Err e => (StatusNotFound, Some (wrap "list containers: " e))
       | Ok items => (find_status name items, None)
       end))%prog.

Definition project_label (stackDir : string) : string :=
  ("com.docker.compose.project=" +:+ composeProjectName stackDir)%string.
Definition first_name (ct : ContainerSummary) : string :=
  match ct_Names ct with n :: _ => trim_prefix n "/" | [] => "" end.
Definition short_id (id : string) : string := if 12 <? len id then take 12 id else id.
Definition detail (ct : ContainerSummary) (insp : result Inspect) : ContainerDetail :=
  let started := match insp with
                 | Ok i => match in_StartedAt i with Some s => Parse_RFC3339Nano s | None => 0 end
                 | Err _ => 0 end in
  let env := match insp with Ok i => match in_Env i with Some e => maskEnvVars e | None => [] end | Err _ => [] end in
  let ports := match insp with Ok i => match in_Ports i with Some p => formatPorts p | None => [] end | Err _ => [] end in
  {| ID := short_id (ct_ID ct); Name := first_name ct; Image := ct_Image ct; Status := ct_State ct;
     StartedAt := started; Env := env; Ports := ports |}.
Fixpoint list_details (c : nat) (acc : list ContainerDetail) (items : list ContainerSummary)
    : prog (list ContainerDetail * option GoError) :=
  match items with
  | [] => Ret (acc, None)
  | ct :: items => (
      cancelled <- ask CtxErr;;
      match cancelled with
      | Some e => Ret (acc, Some e)
      | None =>
          insp <- ask (ContainerInspect c (ct_ID ct));;
          list_details c (acc ++ [detail ct insp]) items
      end)%prog
  end.
Definition ListStackContainerDetails (c : nat) (stackDir : string)
    : prog (list ContainerDetail * option GoError) := (
  res <- ask (ContainerList c "label" (project_label stackDir));;
  match res with
  | Err e => Ret ([], Some (wrap "list stack containers: " e))
  | Ok items => list_details c [] items
  end)%prog.
Definition ListStackContainers (c : nat) (stackDir : string) : prog (result (list string)) := (
  res <- ask (ContainerList c "label" (project_label stackDir));;
  Ret (match res with
       | Err e => Err (wrap "list stack containers: " e)
       | Ok items => Ok (omap (fun ct => match ct_Names ct with n :: _ => Some (trim_prefix n "/") | [] => None end) items)
       end))%prog.

Definition lifecycle (pfx name : string) (q : Ask (option GoError)) : prog (option GoError) := (
  err <- ask q;;
  Ret (match err with Some e => Some (wrap (pfx +:+ " " +:+ name +:+ ": ") e) | None => None end))%prog.
Definition StartContainer (c : nat) (name : string) := lifecycle "StartContainer" name (ContainerStart c name).
Definition StopContainer (c : nat) (name : string) := lifecycle "StopContainer" name (ContainerStop c name).
Definition RestartContainer (c : nat) (name : string) := lifecycle "RestartContainer" name (ContainerRestart c name).

(** ** Interactive sessions *)

Definition shells : list string := ["/bin/bash"; "/bin/sh"; "/bin/ash"; "/ash"; "/busybox/sh"].
(** One probe: the shell runs [exit 0] and exits with 0. *)
Definition probe_shell (c : nat) (containerID shell : string) : prog bool := (
  probe <- ask (ExecCreate c containerID [shell; "-c"; "exit 0"] false);;
  match probe with
  | Err _ => Ret false
  | Ok id =>
      if String.eqb id "" then Ret false
      else
        started <- ask (ExecStart c id);;
        match started with
        | Some _ => Ret false
        | None =>
            insp <- ask (ExecInspect c id);;
            Ret (match insp with Err _ => false | Ok code => code =? 0 end)
        end
  end)%prog.
Fixpoint detect_among (c : nat) (containerID : string) (candidates : list string) : prog (result string) :=
  match candidates with
  | [] => Ret (Err (errorf ("no usable shell found in container " +:+ containerID)))
  | shell :: candidates => (
      ok <- probe_shell c containerID shell;;
      if ok then Ret (Ok shell) else detect_among c containerID candidates)%prog
  end.
Definition detectShell (c : nat) (containerID : string) : prog (result string) :=
  detect_among c containerID shells.
(** The identifier of the session. *)
Definition ExecInteractive (c : nat) (containerID : string) : prog (result string) := (
  shell <- detectShell c containerID;;
  match shell with
  | Err e => Ret (Err e)
  | Ok shell =>
      exec <- ask (ExecCreate c containerID [shell] true);;
      match exec with
      | Err e => Ret (Err (wrap ("exec create " +:+ containerID +:+ ": ") e))
      | Ok id =>
          attached <- ask (ExecAttach c id);;
          Ret (match attached with
               | Some e => Err (wrap ("exec attach " +:+ containerID +:+ ": ") e)
               | None => Ok id
               end)
      end
  end)%prog.

(** ** The holder *)

Definition Get : prog (option nat) := reads m_holder.
(** [CompareAndSwap(old, new)]. *)
Definition CompareAndSwap (old new : option nat) : prog bool :=
  atomic (fun m => if decide (m_holder m = old) then (true, set_holder new m) else (false, m)).
