(* ===== verification/Stacks.v ===== *)
(** * main.go: applying the stacks of a repository, and the container details

    The goroutines share the state store and the metrics; a loop over the store's
    map visits it in an order the runtime chooses ([MapOrder]). *)
From Stdlib Require Import Ascii.
From S2P Require Import Prelude GoStrings GoPath Masking State Metrics Effects Git Docker.

(** [internal/compose]: the compose files, in the order they are looked for. *)
Definition Candidates : list string :=
  ["compose.yaml"; "compose.yml"; "docker-compose.yml"; "docker-compose.yaml"].

Record InfisicalConfig := { Token : string; inf_env : string; URL_ : string; ProjectID : string }.

(** ** The command that applies a stack *)

Fixpoint uses_vars_among (stackPath : string) (names : list string) : prog bool :=
  match names with
  | [] => Ret false
  | name :: names => (
      data <- ask (ReadFile (Join [stackPath; name]));;
      match data with
      | Err _ => uses_vars_among stackPath names
      | Ok content => Ret (usesVars content)
      end)%prog
  end.
Definition composeUsesEnvVars (stackPath : string) : prog bool := uses_vars_among stackPath Candidates.

Definition toml_path (stackPath : string) : string := Join [stackPath; "infisical.toml"].
Definition infisicalMode (stackPath : string) (cfg : InfisicalConfig) : prog string := (
  there <- ask (Stat (toml_path stackPath));;
  if there then Ret "per-stack"
  else if negb (String.eqb (Token cfg) "")
  then (uses <- composeUsesEnvVars stackPath;; Ret (if uses then "global" else ""))
  else Ret "")%prog.

Definition compose_up : list string := ["docker"; "compose"; "up"; "-d"].
Definition domain_args (cfg : InfisicalConfig) : list string :=
  if negb (String.eqb (URL_ cfg) "") then [("--domain=" +:+ URL_ cfg)%string] else [].
Definition toml_args (stackPath : string) (cfg : InfisicalConfig) : list string :=
  ["run"; ("--config=" +:+ toml_path stackPath)%string] ++ domain_args cfg ++ ["--"] ++ compose_up.
Definition token_args (cfg : InfisicalConfig) : list string :=
  ["run"; ("--env=" +:+ inf_env cfg)%string]
  ++ (if negb (String.eqb (ProjectID cfg) "") then [("--projectId=" +:+ ProjectID cfg)%string] else [])
  ++ domain_args cfg ++ ["--"] ++ compose_up.
Definition buildComposeCmd (stackPath stackName : string) (cfg : InfisicalConfig) : prog Cmd := (
  hasToml <- ask (Stat (toml_path stackPath));;
  if negb hasToml && String.eqb (Token cfg) ""
  then
    log_info "applying stack" [("stack", LStr stackName); ("infisical", LBool false)];;;
    Ret (CommandContext "docker" ["compose"; "up"; "-d"])
  else if hasToml : bool
  then
    log_info "stack using per-stack infisical.toml" [("stack", LStr stackName)];;;
    Ret (CommandContext "infisical" (toml_args stackPath cfg))
  else
    log_info "stack using global infisical token" [("stack", LStr stackName); ("env", LStr (inf_env cfg))];;;
    environ <- ask Environ;;
    Ret (with_env (environ ++ [("INFISICAL_TOKEN=" +:+ Token cfg)%string])
           (CommandContext "infisical" (token_args cfg))))%prog.

(** ** Container details *)

Definition to_state (d : Docker.ContainerDetail) : State.ContainerDetail :=
  {| cd_ID := ID d; cd_Name := Name d; cd_Image := Image d; cd_Status := Status d;
     cd_StartedAt := StartedAt d; cd_Env := Env d; cd_Ports := Ports d |}.
Definition latestStartedAt (containers : list State.ContainerDetail) : Time :=
  foldl (fun latest c => if latest <? cd_StartedAt c then cd_StartedAt c else latest) 0 containers.
Definition running (containers : list State.ContainerDetail) : Z :=
  Z.of_nat (length (filter (fun c => cd_Status c = "running") containers)).

(** The client of the holder, connecting when there is none: the loser of a race
    to publish a new client closes its own and uses the winner's. *)
Definition acquire_client : prog (option nat) := (
  client <- Get;;
  match client with
  | Some c => Ret (Some c)
  | None =>
      res <- Docker.New;;
      match res with
      | Err err => log_warn "docker reconnection failed" [("err", LErr err)];;; Ret None
      | Ok c =>
          won <- CompareAndSwap None (Some c);;
          if won : bool then log_info "docker client reconnected" [];;; Ret (Some c)
          else _ <- ask (DockerClose c);; Get
      end
  end)%prog.
Definition refresh_one (client : nat) (st : StackState) : prog unit := (
  if String.eqb (ss_StackDir st) "" then Ret tt
  else
    res <- ListStackContainerDetails client (ss_StackDir st);;
    (match snd res with
     | Some err => log_warn "refreshContainers failed"
                     [("repo", LStr (ss_RepoName st)); ("stack", LStr (ss_Name st)); ("err", LErr err)]
     | None => Ret tt
     end);;;
    let ctrs := match snd res with Some _ => [] | None => fst res end in
    let containers := to_state <$> ctrs in
    modify (set_store (UpdateStackContainers (ss_RepoName st) (ss_Name st) (Some containers)));;;
    modify (set_metrics (SetContainersRunning (ss_RepoName st +:+ "/" +:+ ss_Name st) (running containers))))%prog.
(** [store.GetAllStacks()]. *)
Definition all_stacks : prog (list StackState) := (
  order <- ask MapOrder;;
  reads (fun m => GetAllStacks order (m_store m)))%prog.
Definition refreshContainers : prog unit := (
  client <- acquire_client;;
  match client with
  | None => Ret tt
  | Some c => stacks <- all_stacks;; for_each stacks (refresh_one c)
  end)%prog.

(** ** Applying one stack *)

Definition applying_state (stackPath stackName repoName : string) : StackState :=
  {| ss_Name := stackName; ss_RepoName := repoName; ss_StackDir := stackPath; ss_LastApply := 0;
     ss_Status := ApplyApplying; ss_LastOutput := ""; ss_LastError := ""; ss_Containers := Some [];
     ss_InfisicalMode := "" |}.
(** The details shown after a successful apply, and the time of the last change:
    the newest container's start if there is one. *)
Definition applied_details (now : Time) (stackPath stackName : string) : prog (list State.ContainerDetail * Time) := (
  client <- Get;;
  match client with
  | None => Ret ([], now)
  | Some c =>
      res <- ListStackContainerDetails c stackPath;;
      match snd res with
      | Some err =>
          log_warn "container lookup failed" [("stack", LStr stackName); ("err", LErr err)];;; Ret ([], now)
      | None =>
          let ctrs := to_state <$> fst res in
          let latest := latestStartedAt ctrs in
          Ret (ctrs, if negb (IsZero latest) then latest else now)
      end
  end)%prog.
Definition applyStack (stackPath stackName repoName : string) (cfg : InfisicalConfig) : prog unit := (
  _ <- ask (PublishEv "applying" repoName stackName ("Applying " +:+ stackName));;
  modify (set_store (UpdateStack (applying_state stackPath stackName repoName)));;;
  cmd <- buildComposeCmd stackPath stackName cfg;;
  res <- ask (Exec (with_dir stackPath cmd));;
  (if negb (String.eqb (co_out res) "")
   then log_info "stack compose output" [("stack", LStr stackName); ("output", LStr (co_out res))] else Ret tt);;;
  now <- ask Now;;
  mode <- infisicalMode stackPath cfg;;
  match co_err res with
  | Some err =>
      modify (set_store (UpdateStack
        {| ss_Name := stackName; ss_RepoName := repoName; ss_StackDir := stackPath; ss_LastApply := now;
           ss_Status := ApplyError; ss_LastOutput := co_out res;
           ss_LastError := extractErrorSummary (co_out res) (err_text err);
           ss_Containers := Some []; ss_InfisicalMode := mode |}));;;
      modify (set_metrics (RecordApply stackName "error"));;;
      log_error "stack apply failed" [("stack", LStr stackName); ("err", LErr err)];;;
      ask (PublishEv "error" repoName stackName (stackName +:+ " failed"))
  | None =>
      d <- applied_details now stackPath stackName;;
      modify (set_store (UpdateStack
        {| ss_Name := stackName; ss_RepoName := repoName; ss_StackDir := stackPath; ss_LastApply := snd d;
           ss_Status := ApplyOK; ss_LastOutput := co_out res; ss_LastError := "";
           ss_Containers := Some (fst d); ss_InfisicalMode := mode |}));;;
      modify (set_metrics (RecordApply stackName "success"));;;
      log_info "stack applied successfully" [("stack", LStr stackName)];;;
      ask (PublishEv "done" repoName stackName (stackName +:+ " ready"))
  end)%prog.

(** ** Discovering the stacks of a repository *)

Fixpoint find_compose (stackPath : string) (candidates : list string) : prog string :=
  match candidates with
  | [] => Ret ""
  | candidate :: candidates => (
      let p := Join [stackPath; candidate] in
      there <- ask (Stat p);;
      if there : bool then Ret p else find_compose stackPath candidates)%prog
  end.
Definition sync_entry (stacksDir repoName : string) (cfg : InfisicalConfig) (entry : DirEntry) : prog unit := (
  if negb (de_isdir entry) then Ret tt
  else
    let stackName := de_name entry in
    let stackPath := Join [stacksDir; stackName] in
    composePath <- find_compose stackPath Candidates;;
    if String.eqb composePath ""
    then log_warn "no compose file found, skipping stack" [("stack", LStr stackName); ("repo", LStr repoName)]
    else applyStack stackPath stackName repoName cfg)%prog.
Definition runStacksSync (stacksDir repoName : string) (cfg : InfisicalConfig) : prog unit := (
  if String.eqb stacksDir "" then Ret tt
  else
    entries <- ask (ReadDir stacksDir);;
    match entries with
    | Err err =>
        log_error "failed to read stacks dir" [("repo", LStr repoName); ("dir", LStr stacksDir); ("err", LErr err)]
    | Ok entries => for_each entries (sync_entry stacksDir repoName cfg)
    end)%prog.
