(* ===== verification/Sync.v ===== *)
(** * main.go: synchronising repositories

    [setupGitAuth], [gitSyncToDisk], [syncRepoFromDB], the apply callback, the
    sync round and one turn of the main loop.  The number of the goroutine running
    the code is [me]; the repository mutexes are entries of [m_locks]. *)
From Stdlib Require Import Ascii.
From S2P Require Import Prelude GoStrings GoPath GitRef Crypto State Sched Metrics Db Effects Git Docker Stacks.

(** [t.Sub(u)] saturates. *)
Definition Sub (t u : Time) : Z := Z.max int64_min (Z.min int64_max (t - u)).

Section sync.
Context `{A : AEAD}.
(** [cloneDir], [cryptoKey], [sshTempDir], and the goroutine. *)
Context (cloneDir cryptoKey sshTempDir : string) (me : nat).

(** ** The repository mutex *)

Definition Lock (repoName : string) : prog unit :=
  Atomic (fun m => match m_locks m !! repoName with
                   | Some _ => None
                   | None => Some (tt, set_locks <[repoName := me]> m)
                   end) Ret.
Definition Unlock (repoName : string) : prog unit := modify (set_locks (delete repoName)).

(** ** Credentials *)

Definition no_auth (repo : RepoDB) : AuthOpts :=
  {| Type_ := r_AuthType repo; SSHKeyPath := ""; PAT := "" |}.
(** [privKey += "\n"] unless it is there. *)
Definition with_newline (privKey : string) : string :=
  if negb (has_suffix privKey NL) then (privKey +:+ NL)%string else privKey.
(** The options, the file [cleanup] removes, and the error. *)
Definition setupGitAuth (repo : RepoDB) : prog (AuthOpts * option string * option GoError) := (
  let opts := no_auth repo in
  if String.eqb (r_AuthType repo) "ssh" then
    if negb (String.eqb (r_SSHKeyID repo) "") then
      sshKey <- db_read (fun f d => GetSSHKey f (r_SSHKeyID repo) d);;
      match sshKey with
      | Err e => Ret (opts, None, Some (wrap "get SSH key: " e))
      | Ok sshKey =>
          match Decrypt cryptoKey (k_PrivateKeyEnc sshKey) with
          | Err e => Ret (opts, None, Some (wrap "decrypt SSH key: " e))
          | Ok privKey =>
              let privKey := with_newline privKey in
              f <- ask (CreateTemp sshTempDir "stackd-key-*");;
              match f with
              | Err e => Ret (opts, None, Some (wrap "create temp key file: " e))
              | Ok path =>
                  written <- ask (WriteString path privKey);;
                  match written with
                  | Some e =>
                      ask (CloseFile path);;;
                      ask (Remove path);;;
                      Ret (opts, None, Some (wrap "write SSH key file: " e))
                  | None =>
                      ask (CloseFile path);;;
                      Ret ({| Type_ := r_AuthType repo; SSHKeyPath := path; PAT := "" |}, Some path, None)
                  end
              end
          end
      end
    else Ret (opts, None, None)
  else if String.eqb (r_AuthType repo) "pat" then
    if negb (String.eqb (r_PATEnc repo) "") then
      match Decrypt cryptoKey (r_PATEnc repo) with
      | Err e => Ret (opts, None, Some (wrap "decrypt PAT: " e))
      | Ok pat => Ret ({| Type_ := r_AuthType repo; SSHKeyPath := ""; PAT := pat |}, None, None)
      end
    else Ret (opts, None, None)
  else Ret (opts, None, None))%prog.
Definition cleanup (file : option string) : prog unit :=
  match file with Some path => ask (Remove path) | None => Ret tt end.

(** The clone directory, and the error. *)
Definition gitSyncToDisk (repo : RepoDB) : prog (string * option GoError) := (
  match safeRepoPath cloneDir (r_Name repo) with
  | Err e => Ret ("", Some e)
  | Ok destDir =>
      auth <- setupGitAuth repo;;
      match auth with
      | (opts, file, Some e) => Ret (destDir, Some e)
      | (opts, file, None) =>
          let remote := if String.eqb (r_Remote repo) "" then "origin" else r_Remote repo in
          err <- SyncRepo destDir (r_URL repo) remote (r_Branch repo) opts;;
          cleanup file;;;
          Ret (destDir, err)
      end
  end)%prog.

(** ** One repository *)

Definition with_status (status : string) (r : RepoState) : RepoState :=
  {| rs_Name := rs_Name r; rs_LastSync := rs_LastSync r; rs_LastSHA := rs_LastSHA r;
     rs_Status := status; rs_LastError := rs_LastError r |}.
Definition named (name : string) : RepoState :=
  {| rs_Name := name; rs_LastSync := 0; rs_LastSHA := ""; rs_Status := ""; rs_LastError := "" |}.
(** The store's entry marked as syncing: a read and a write of the store. *)
Definition mark_syncing (repoName : string) : prog unit := (
  existing <- reads (fun m => State.GetRepo repoName (m_store m));;
  let existing := if snd existing : bool then fst existing else named repoName in
  modify (set_store (State.UpdateRepo (with_status StatusSyncing existing))))%prog.
Definition errored (repoName msg : string) (existing : RepoState) : RepoState :=
  {| rs_Name := repoName; rs_LastSync := rs_LastSync existing; rs_LastSHA := rs_LastSHA existing;
     rs_Status := StatusError; rs_LastError := msg |}.
(** What [recordSyncFailure] logs of the entry it leaves. *)
Definition log_failure (repoName : string) (syncInterval : Z) (b : syncBackoff) : prog unit :=
  let now_suspended := maxSyncFailures <=? failures b in
  log_warn (if now_suspended then "repo suspended after consecutive failures" else "sync backoff")
    (if now_suspended then [("repo", LStr repoName); ("failures", LInt (failures b))]
     else [("repo", LStr repoName); ("backoff", LDur (backoff_delay (failures b) syncInterval));
           ("failure", LInt (failures b)); ("maxFailures", LInt maxSyncFailures)]).
Definition recordError (repoName msg : string) (syncInterval start : Z) : prog unit := (
  let msg := Redact msg in
  log_error "sync error" [("repo", LStr repoName); ("detail", LStr msg)];;;
  existing <- reads (fun m => State.GetRepo repoName (m_store m));;
  modify (set_store (State.UpdateRepo (errored repoName msg (fst existing))));;;
  now <- ask Now;;
  entry <- atomic (fun m => let '(_, t) := recordSyncFailure repoName syncInterval now (m_backoffs m) in
                            (getBackoff repoName t, set_backoffs (fun _ => t) m));;
  log_failure repoName syncInterval entry;;;
  finish <- ask Now;;
  stamp <- ask Now;;
  modify (set_metrics (RecordSync repoName "error" (Sub finish start) stamp)))%prog.
Definition synced (repoName newSHA : string) (now : Time) : RepoState :=
  {| rs_Name := repoName; rs_LastSync := now; rs_LastSHA := newSHA; rs_Status := StatusOK; rs_LastError := "" |}.
Definition finishSync (repoName newSHA : string) (syncInterval start : Z) : prog unit := (
  ask (PublishEv "done" repoName "" (repoName +:+ " up to date"));;;
  now <- ask Now;;
  modify (set_store (State.UpdateRepo (synced repoName newSHA now)));;;
  modify (set_backoffs (recordSyncSuccess repoName));;;
  scheduled <- ask Now;;
  modify (set_nextDue (markScheduled repoName syncInterval scheduled));;;
  finish <- ask Now;;
  stamp <- ask Now;;
  modify (set_metrics (RecordSync repoName "success" (Sub finish start) stamp)))%prog.

(** What happens under the mutex. *)
Definition sync_locked (repo : RepoDB) (cfg : InfisicalConfig) (syncInterval start : Z) : prog unit := (
  let repoName := r_Name repo in
  known <- reads (fun m => State.GetRepo repoName (m_store m));;
  let oldSHA := if snd known : bool then rs_LastSHA (fst known) else "" in
  ask (PublishEv "pulling" repoName "" ("Pulling " +:+ repoName));;;
  pulled <- gitSyncToDisk repo;;
  let destDir := fst pulled in
  match snd pulled with
  | Some err =>
      ask (PublishEv "error" repoName "" (repoName +:+ " pull failed"));;;
      recordError repoName ("git sync failed: " +:+ err_text err) syncInterval start
  | None =>
      sha <- HeadSHA destDir;;
      match sha with
      | Err err =>
          ask (PublishEv "error" repoName "" (repoName +:+ " sync failed"));;;
          recordError repoName ("resolve HEAD SHA: " +:+ err_text err) syncInterval start
      | Ok newSHA =>
          (if negb (String.eqb newSHA oldSHA)
           then runStacksSync (Join [destDir; r_StacksDir repo]) repoName cfg
           else Ret tt);;;
          finishSync repoName newSHA syncInterval start
      end
  end)%prog.
Definition syncRepoFromDB (repo : RepoDB) (cfg : InfisicalConfig) (defaultInterval : Z) : prog unit := (
  let repoName := r_Name repo in
  start <- ask Now;;
  let syncInterval := effectiveInterval (r_SyncInterval repo) defaultInterval in
  mark_syncing repoName;;;
  Lock repoName;;;
  sync_locked repo cfg syncInterval start;;;
  Unlock repoName)%prog.

(** ** Settings *)

Definition loadInfisicalFromDB : prog InfisicalConfig := (
  settings <- db_read GetAllSettings;;
  match settings with
  | Err err =>
      log_warn "failed to load settings from DB" [("err", LErr err)];;;
      Ret {| Token := ""; inf_env := "prod"; URL_ := ""; ProjectID := "" |}
  | Ok settings =>
      let get k := default "" (settings !! k) in
      let env := if negb (String.eqb (get "infisical_env") "") then get "infisical_env" else "prod" in
      tokenEnc <- db_read (fun f d => GetSetting f "infisical_token" d);;
      let token := match tokenEnc with
                   | Ok (enc, _) =>
                       if negb (String.eqb enc "")
                       then match Decrypt cryptoKey enc with Ok token => token | Err _ => "" end
                       else ""
                   | Err _ => ""
                   end in
      Ret {| Token := token; inf_env := env; URL_ := get "infisical_url"; ProjectID := get "infisical_project_id" |}
  end)%prog.
Definition load_default_interval : prog Z := (
  setting <- db_read (fun f d => GetSetting f "default_sync_interval" d);;
  Ret (loadDefaultInterval setting))%prog.

(** ** The apply callback of the server *)

Definition applyCallback (repoName stackName : string) : prog unit := (
  st <- reads (fun m => GetStack repoName stackName (m_store m));;
  if negb (snd st) then Ret tt
  else
    repoDB <- db_read (fun f d => GetRepoByName f repoName d);;
    match repoDB with
    | Err err => log_error "applyStack: repo not found in db" [("repo", LStr repoName); ("err", LErr err)]
    | Ok repoDB =>
        cfg <- loadInfisicalFromDB;;
        ask (PublishEv "pulling" repoName "" ("Pulling " +:+ repoName));;;
        Lock repoName;;;
        pulled <- gitSyncToDisk repoDB;;
        Unlock repoName;;;
        (match snd pulled with
         | Some err =>
             log_error "applyStack: git sync failed" [("repo", LStr repoName); ("err", LStr (Redact (err_text err)))];;;
             ask (PublishEv "error" repoName "" (repoName +:+ " pull failed"))
         | None => ask (PublishEv "done" repoName "" (repoName +:+ " up to date"))
         end);;;
        applyStack (ss_StackDir (fst st)) stackName repoName cfg;;;
        refreshContainers
    end)%prog.

(** ** The main loop *)

(** The body of the round for one repository; [false] when the round stops. *)
Definition round_one (repo : RepoDB) (cfg : InfisicalConfig) (defaultInterval : Z) : prog bool := (
  cancelled <- ask CtxErr;;
  match cancelled with
  | Some _ => Ret false
  | None =>
      if negb (r_Enabled repo) then Ret true
      else
        t1 <- ask Now;;
        skip <- atomic (fun m => let '(b, t) := shouldSkipSync (r_Name repo) t1 (m_backoffs m) in
                                 (b, set_backoffs (fun _ => t) m));;
        if skip : bool then log_debug "skipping sync (backoff)" [("repo", LStr (r_Name repo))];;; Ret true
        else
          t2 <- ask Now;;
          due <- reads (fun m => dueForSync (r_Name repo) t2 (m_nextDue m));;
          if negb due then Ret true
          else (syncRepoFromDB repo cfg defaultInterval;;; Ret true)
  end)%prog.
Fixpoint doSyncRound (repos : list RepoDB) (cfg : InfisicalConfig) (defaultInterval : Z) : prog unit :=
  match repos with
  | [] => refreshContainers
  | repo :: repos => (
      go_on <- round_one repo cfg defaultInterval;;
      if go_on : bool then doSyncRound repos cfg defaultInterval else Ret tt)%prog
  end.

(** [case repoName := <-syncTrigger]. *)
Definition receive_one : prog string :=
  Atomic (fun m => match m_trigger m with
                   | [] => None
                   | name :: names => Some (name, set_trigger names m)
                   end) Ret.
(** The drain loop, which ends when it finds the channel empty: [fuel] turns at
    most, so what arrives after [fuel] receives is left for a later round. *)
Fixpoint drainLoop (fuel : nat) (triggered : list string) : prog (list string) :=
  match fuel with
  | O => Ret triggered
  | S fuel => (
      extra <- atomic (fun m => match m_trigger m with
                                | [] => (None, m)
                                | name :: names => (Some name, set_trigger names m)
                                end);;
      match extra with
      | Some name => drainLoop fuel (triggered ++ [name])
      | None => Ret triggered
      end)%prog
  end.
Definition triggered_one (names : list string) (cfg : InfisicalConfig) (defaultInterval : Z) (repo : RepoDB) : prog unit := (
  if negb (existsb (String.eqb (r_Name repo)) names) then Ret tt
  else
    log_info "manual sync triggered" [("repo", LStr (r_Name repo))];;;
    modify (set_backoffs (resetBackoff (r_Name repo)));;;
    syncRepoFromDB repo cfg defaultInterval)%prog.

(** One turn of the loop; [false] on shutdown.  [fuel] bounds its drain loop. *)
Definition main_turn (fuel : nat) : prog bool := (
  listed <- db_read ListRepos;;
  (match snd listed with Some err => log_error "failed to list repos" [("err", LErr err)] | None => Ret tt end);;;
  let repos := match snd listed with Some _ => [] | None => fst listed end in
  cfg <- loadInfisicalFromDB;;
  defaultInterval <- load_default_interval;;
  modify (set_store (SetInfisical {| inf_Enabled := negb (String.eqb (Token cfg) ""); inf_Env := inf_env cfg |}));;;
  doSyncRound repos cfg defaultInterval;;;
  woken <- ask Select;;
  match woken with
  | Done => log_info "shutdown signal received, shutting down cleanly" [];;; Ret false
  | Tick => Ret true
  | Trigger =>
      repoName <- receive_one;;
      names <- drainLoop fuel [repoName];;
      trigCfg <- loadInfisicalFromDB;;
      for_each repos (triggered_one names trigCfg defaultInterval);;;
      refreshContainers;;;
      Ret true
  end)%prog.
(** [n] turns at most: the loop itself is [for {}]. *)
Fixpoint main_loop (fuel n : nat) : prog unit :=
  match n with
  | O => Ret tt
  | S n => (go_on <- main_turn fuel;; if go_on : bool then main_loop fuel n else Ret tt)%prog
  end.

(** The scan at startup. *)
Definition startup_one (cfg : InfisicalConfig) (defaultInterval : Z) (repo : RepoDB) : prog unit :=
  if negb (r_Enabled repo) then Ret tt else syncRepoFromDB repo cfg defaultInterval.
Definition startup_scan : prog unit := (
  listed <- db_read ListRepos;;
  match snd listed with
  | Some err => log_error "failed to list repos from DB" [("err", LErr err)]
  | None =>
      cfg <- loadInfisicalFromDB;;
      defaultInterval <- load_default_interval;;
      for_each (fst listed) (startup_one cfg defaultInterval);;;
      refreshContainers
  end)%prog.
End sync.
