(* ===== verification/Footprint.v ===== *)
(** * Footprints: the calls each function can make and what it changes in memory

    Every program of [Git], [Docker], [Stacks] and [Sync] is a composition of
    parts that stay within a small footprint, whatever the outside world answers.
    The theorems about locks, outcomes and secrets are built from these lemmas. *)
From Stdlib Require Import Ascii.
From S2P Require Import Prelude GoStrings GoPath GitRef Crypto State Sched Metrics Db Effects Git Docker Stacks Sync.

(** A step that does not block and changes the memory as [P] allows. *)
Definition moves (P : Mem -> Mem -> Prop) : forall X, Step X -> Prop :=
  fun X f => forall m, match f m with Some (_, m') => P m m' | None => False end.
Lemma moves_mono (P P' : Mem -> Mem -> Prop) X (f : Step X) :
  (forall m m', P m m' -> P' m m') -> moves P X f -> moves P' X f.
Proof. intros H Hf m. specialize (Hf m). destruct (f m) as [[x m']|]; auto. Qed.

Definition unchanged (m m' : Mem) : Prop := m' = m.
(** Only the stacks, the apply counters, the container gauges and the holder. *)
Definition stack_frame (m m' : Mem) : Prop :=
  repos (m_store m') = repos (m_store m) /\ infisical (m_store m') = infisical (m_store m)
  /\ m_backoffs m' = m_backoffs m /\ m_nextDue m' = m_nextDue m /\ m_locks m' = m_locks m
  /\ m_db m' = m_db m /\ m_trigger m' = m_trigger m /\ m_token m' = m_token m
  /\ m_applying m' = m_applying m /\ m_lastTime m' = m_lastTime m
  /\ syncTotal (m_metrics m') = syncTotal (m_metrics m)
  /\ lastSyncTS (m_metrics m') = lastSyncTS (m_metrics m)
  /\ syncDurationSum (m_metrics m') = syncDurationSum (m_metrics m)
  /\ syncDurationCount (m_metrics m') = syncDurationCount (m_metrics m).
Lemma stack_frame_refl m : stack_frame m m.
Proof. done. Qed.
Lemma stack_frame_trans m1 m2 m3 : stack_frame m1 m2 -> stack_frame m2 m3 -> stack_frame m1 m3.
Proof. unfold stack_frame. intros. destruct_and!. split_and!; congruence. Qed.
#[export] Instance stack_frame_pre : PreOrder stack_frame.
Proof. split; [exact stack_frame_refl|exact stack_frame_trans]. Qed.

Lemma UpdateStackContainers_frame repo name cs s :
  repos (UpdateStackContainers repo name cs s) = repos s
  /\ infisical (UpdateStackContainers repo name cs s) = infisical s.
Proof. unfold UpdateStackContainers. by destruct (stacks s !! _). Qed.
Lemma moves_reads {X} (f : Mem -> X) P : (forall m, P m m) -> moves P X (fun m => Some (f m, m)).
Proof. intros H m. apply H. Qed.

(** ** Calls *)

(** The calls of the functions that apply stacks and look at containers: no git,
    no temporary file, no other process than docker and infisical. *)
Definition stack_call X (q : Ask X) : Prop :=
  match q with
  | Now | CtxErr | Environ | MapOrder | Stat _ | ReadFile _ | ReadDir _ | PublishEv _ _ _ _ => True
  | DockerNew | DockerClose _ | ContainerList _ _ _ | ContainerInspect _ _ | Log _ _ _ => True
  | Exec c => (cmd_name c = "docker" \/ cmd_name c = "infisical") /\ cmd_setpgid c = true
  | _ => False
  end.
(** Only looking at containers. *)
Definition docker_call X (q : Ask X) : Prop :=
  match q with
  | CtxErr | MapOrder | DockerNew | DockerClose _ | ContainerList _ _ _ | ContainerInspect _ _ | Log _ _ _ => True
  | _ => False
  end.
(** Only looking at files and the environment, and logging. *)
Definition look_call X (q : Ask X) : Prop :=
  match q with Stat _ | ReadFile _ | Environ | Log _ _ _ => True | _ => False end.

(** The repository directory a git command works on. *)
Definition git_dir (c : Cmd) : option string :=
  match cmd_args c with
  | [verb; _; _; _; _; dir] => if String.eqb verb "clone" then Some dir
                               else if String.eqb verb "-C" then head (skipn 1 (cmd_args c)) else None
  | verb :: dir :: _ => if String.eqb verb "-C" then Some dir else None
  | _ => None
  end.
(** The calls of the git commands on [dir]. *)
Definition git_call (dir : string) X (q : Ask X) : Prop :=
  match q with
  | Environ | Getenv _ | MkdirAll _ _ | Stat _ | Log _ _ _ => True
  | Exec c => cmd_name c = "git" /\ git_dir c = Some dir /\ cmd_setpgid c = true
  | _ => False
  end.
(** The calls that set up credentials. *)
Definition auth_call X (q : Ask X) : Prop :=
  match q with
  | DbFault | CreateTemp _ _ | WriteString _ _ | CloseFile _ | Remove _ => True
  | _ => False
  end.

(** ** The functions *)

Lemma list_details_shape c acc items : shaped docker_call (moves unchanged) (list_details c acc items).
Proof.
  revert acc. induction items as [|ct items IH]; intros acc; [done|].
  simpl. split; [done|]. intros [e|]; [done|]. simpl. split; [done|]. intros insp. apply IH.
Qed.
Lemma ListStackContainerDetails_shape c dir :
  shaped docker_call (moves unchanged) (ListStackContainerDetails c dir).
Proof. simpl. split; [done|]. intros [items|e]; [|done]. apply list_details_shape. Qed.
Lemma acquire_client_shape : shaped docker_call (moves stack_frame) acquire_client.
Proof.
  unfold acquire_client, Get, Docker.New, CompareAndSwap, log_warn, log_info. shape; intros m; try done. by destruct (decide _).
Qed.
Lemma docker_calls_weaken {A} (p : prog A) :
  shaped docker_call (moves unchanged) p -> shaped docker_call (moves stack_frame) p.
Proof.
  apply shaped_mono; [done|]. intros X f. apply moves_mono. intros m m' H. unfold unchanged in H. by subst.
Qed.
Lemma refresh_one_shape c st : shaped docker_call (moves stack_frame) (refresh_one c st).
Proof.
  unfold refresh_one. destruct (String.eqb _ _); [done|].
  apply shaped_bind; [apply docker_calls_weaken, ListStackContainerDetails_shape|]. intros res.
  apply shaped_bind; [by destruct (snd res)|]. intros _.
  apply shaped_bind; [apply shaped_atomic; intros m|intros _; apply shaped_atomic; intros m].
  - destruct (UpdateStackContainers_frame (ss_RepoName st) (ss_Name st)
      (Some (to_state <$> match res.2 with Some _ => [] | None => res.1 end)) (m_store m)) as [H1 H2].
    repeat split; simpl; [apply H1|apply H2].
  - done.
Qed.
Lemma refreshContainers_shape : shaped docker_call (moves stack_frame) refreshContainers.
Proof.
  unfold refreshContainers. apply shaped_bind; [apply acquire_client_shape|]. intros [c|]; [|done].
  apply shaped_bind.
  - unfold all_stacks. simpl. split; [done|]. intros o. split; [by intros m|done].
  - intros l. apply shaped_for_each. intros st. apply refresh_one_shape.
Qed.

Lemma uses_vars_shape dir names : shaped look_call (moves unchanged) (uses_vars_among dir names).
Proof.
  induction names as [|n names IH]; [done|]. simpl. split; [done|]. by intros [d|e].
Qed.
Lemma infisicalMode_shape dir cfg : shaped look_call (moves unchanged) (infisicalMode dir cfg).
Proof.
  pose proof (uses_vars_shape dir Candidates). unfold infisicalMode, composeUsesEnvVars. shape.
Qed.
Lemma buildComposeCmd_shape dir name cfg : shaped look_call (moves unchanged) (buildComposeCmd dir name cfg).
Proof. simpl. split; [done|]. intros [|]; simpl; [done|]. by destruct (String.eqb _ _). Qed.
Lemma find_compose_shape dir names : shaped look_call (moves unchanged) (find_compose dir names).
Proof. induction names as [|n names IH]; [done|]. simpl. split; [done|]. by intros [|]. Qed.

Lemma look_calls_weaken {A} (p : prog A) :
  shaped look_call (moves unchanged) p -> shaped stack_call (moves stack_frame) p.
Proof.
  apply shaped_mono; [by intros X []|]. intros X f. apply moves_mono. intros m m' H. unfold unchanged in H. by subst.
Qed.
Lemma docker_stack_weaken {A} (p : prog A) P :
  shaped docker_call (moves P) p -> shaped stack_call (moves P) p.
Proof. apply shaped_mono; [by intros X []|done]. Qed.

#[export] Hint Resolve list_details_shape ListStackContainerDetails_shape acquire_client_shape
  refresh_one_shape refreshContainers_shape uses_vars_shape infisicalMode_shape buildComposeCmd_shape
  find_compose_shape look_calls_weaken docker_stack_weaken docker_calls_weaken : shape.

(** The command that applies a stack: docker or infisical, in a process group of
    its own; the Infisical token is nowhere on its command line. *)
Definition compose_cmd (stackPath : string) (cfg : InfisicalConfig) (c : Cmd) : Prop :=
  cmd_setpgid c = true /\
  ((cmd_name c = "docker" /\ cmd_args c = ["compose"; "up"; "-d"] /\ cmd_env c = None) \/
   (cmd_name c = "infisical" /\ cmd_args c = toml_args stackPath cfg /\ cmd_env c = None) \/
   (cmd_name c = "infisical" /\ cmd_args c = token_args cfg
    /\ exists env, cmd_env c = Some (env ++ [("INFISICAL_TOKEN=" +:+ Token cfg)%string]))).
Lemma buildComposeCmd_returns stackPath stackName cfg :
  returns (compose_cmd stackPath cfg) (buildComposeCmd stackPath stackName cfg).
Proof.
  intros [|]; simpl; [|case_match; simpl]; unfold compose_cmd; simpl; [naive_solver|naive_solver|].
  intros _ env. split; [done|]. right. right. split_and!; [done|done|by exists env].
Qed.

Lemma moves_modify P f : (forall m, P m (f m)) -> moves P unit (fun m => Some (tt, f m)).
Proof. intros H m. apply H. Qed.
Lemma UpdateStack_frame st : moves stack_frame unit (fun m => Some (tt, set_store (UpdateStack st) m)).
Proof. by intros m. Qed.
Lemma RecordApply_frame stack status :
  moves stack_frame unit (fun m => Some (tt, set_metrics (RecordApply stack status) m)).
Proof. by intros m. Qed.
#[export] Hint Resolve UpdateStack_frame RecordApply_frame stack_frame_refl : shape.

Lemma applied_details_shape now dir name : shaped stack_call (moves stack_frame) (applied_details now dir name).
Proof.
  unfold applied_details, Get. apply shaped_bind; [by apply shaped_atomic, moves_reads|].
  intros [c|]; [|done]. apply shaped_bind; [|shape].
  apply docker_stack_weaken, docker_calls_weaken, ListStackContainerDetails_shape.
Qed.
#[export] Hint Resolve applied_details_shape : shape.

Lemma applyStack_shape dir name repo cfg : shaped stack_call (moves stack_frame) (applyStack dir name repo cfg).
Proof.
  unfold applyStack. apply shaped_bind; [done|]. intros _. apply shaped_bind; [shape|]. intros _.
  eapply shaped_bind_ret; [apply look_calls_weaken, buildComposeCmd_shape|apply buildComposeCmd_returns|].
  intros cmd [Hg Hc]. apply shaped_bind.
  { split; [|done]. simpl. split; [|done]. naive_solver. }
  shape.
Qed.
#[export] Hint Resolve applyStack_shape : shape.
Lemma sync_entry_shape dir repo cfg e : shaped stack_call (moves stack_frame) (sync_entry dir repo cfg e).
Proof. unfold sync_entry. shape. Qed.
#[export] Hint Resolve sync_entry_shape : shape.
Lemma runStacksSync_shape dir repo cfg : shaped stack_call (moves stack_frame) (runStacksSync dir repo cfg).
Proof. unfold runStacksSync. shape. Qed.
#[export] Hint Resolve runStacksSync_shape : shape.

(** ** Git *)

Lemma knownHostsFile_shape dir : shaped (git_call dir) (moves unchanged) knownHostsFile.
Proof. unfold knownHostsFile, log_warn. shape. Qed.
Lemma applyGitEnv_shape dir cmd opts : shaped (git_call dir) (moves unchanged) (applyGitEnv cmd opts).
Proof. unfold applyGitEnv, sshCommandEnv, knownHostsFile, log_warn. shape. Qed.
Lemma applyGitEnv_returns cmd opts : returns (fun c => exists env, c = with_env env cmd) (applyGitEnv cmd opts).
Proof.
  unfold applyGitEnv. eapply returns_bind; [apply returns_any|]. intros environ _.
  eapply returns_bind; [apply returns_any|]. intros env _. by eexists.
Qed.
Lemma git_command_shape what dir args title attrs opts :
  git_dir (CommandContext "git" args) = Some dir ->
  shaped (git_call dir) (moves unchanged) (git_command what args title attrs opts).
Proof.
  intros Hd. unfold git_command.
  eapply shaped_bind_ret; [apply applyGitEnv_shape|apply applyGitEnv_returns|].
  intros c [env ->]. done.
Qed.
Lemma SyncRepo_shape dir url remote branch opts :
  shaped (git_call dir) (moves unchanged) (SyncRepo dir url remote branch opts).
Proof.
  unfold SyncRepo. apply shaped_bind; [done|]. intros there. apply shaped_bind.
  { destruct there; [done|]. by apply git_command_shape. }
  intros [e|]; [done|]. unfold fetchReset. apply shaped_bind; [by apply git_command_shape|].
  intros [e|]; [done|]. by apply git_command_shape.
Qed.
Lemma HeadSHA_shape dir : shaped (git_call dir) (moves unchanged) (HeadSHA dir).
Proof. done. Qed.

(** ** Credentials *)

Section sync.
Context `{A : AEAD} (cloneDir cryptoKey sshTempDir : string) (me : nat).

Lemma db_read_shape {X} (f : fault -> DB -> X) (C : forall X, Ask X -> Prop) P :
  C _ DbFault -> (forall m, P m m) -> shaped C (moves P) (db_read f).
Proof. intros HC HP. split; [done|]. intros flt. split; [|done]. intros m. apply HP. Qed.
Lemma setupGitAuth_shape repo : shaped auth_call (moves unchanged) (setupGitAuth cryptoKey sshTempDir repo).
Proof.
  unfold setupGitAuth. cbv zeta. destruct (String.eqb _ _); [|by repeat case_match].
  destruct (negb _); [|done]. apply shaped_bind; [by apply db_read_shape|]. shape.
Qed.
(** The calls of [gitSyncToDisk]. *)
Definition pull_call (dir : string) X (q : Ask X) : Prop := git_call dir X q \/ auth_call X q.
Lemma gitSyncToDisk_shape repo dir :
  safeRepoPath cloneDir (r_Name repo) = Ok dir \/ is_ok (safeRepoPath cloneDir (r_Name repo)) = false ->
  shaped (pull_call dir) (moves unchanged) (gitSyncToDisk cloneDir cryptoKey sshTempDir repo).
Proof.
  intros Hd. unfold gitSyncToDisk. destruct (safeRepoPath _ _) as [d|e]; [|done].
  assert (d = dir) as -> by (destruct Hd; naive_solver).
  assert (forall (B : Type) (p : prog B), shaped auth_call (moves unchanged) p ->
    shaped (pull_call dir) (moves unchanged) p) as Ha.
  { intros B p. apply shaped_mono; [|done]. intros X q. by right. }
  assert (forall (B : Type) (p : prog B), shaped (git_call dir) (moves unchanged) p ->
    shaped (pull_call dir) (moves unchanged) p) as Hg.
  { intros B p. apply shaped_mono; [|done]. intros X q. by left. }
  apply shaped_bind; [apply Ha, setupGitAuth_shape|]. intros [[opts file] [e|]]; [done|].
  apply shaped_bind; [apply Hg, SyncRepo_shape|]. intros err. apply shaped_bind; [|done].
  apply Ha. by destruct file.
Qed.
End sync.
