(* ===== verification/Applying.v ===== *)
(** * Which stacks are applied, and what applying one leaves in the store *)
From Stdlib Require Import Ascii.
From S2P Require Import Prelude GoStrings GoPath Masking State Metrics Effects Git Docker Stacks Footprint.

(** ** Discovery, as a trace shows it *)

Definition mute (h : list Act) : Prop := runs h = [] /\ events h = [].
Lemma mute_app h h' : mute h -> mute h' -> mute (h ++ h').
Proof. intros [C E] [C' E']. unfold mute. autorewrite with trace. by rewrite C, E, C', E'. Qed.
Lemma docker_mute h : Forall (fun a => docker_call _ (a_ask a)) h -> mute h.
Proof.
  unfold mute, runs, events. induction 1 as [|[X q x] h Hq _ [IH1 IH2]]; [done|].
  destruct q; try done; by rewrite <- IH1, <- IH2 at 1.
Qed.
Lemma look_mute h : Forall (fun a => look_call _ (a_ask a)) h -> mute h.
Proof.
  unfold mute, runs, events. induction 1 as [|[X q x] h Hq _ [IH1 IH2]]; [done|].
  destruct q; try done; by rewrite <- IH1, <- IH2 at 1.
Qed.

(** One stack was applied: its command ran in its directory, between the event that
    announces it and the event of its outcome. *)
Definition applied_as (dir repo name : string) (cfg : InfisicalConfig) (h : list Act) : Prop :=
  exists c r, compose_cmd dir cfg c /\ runs h = [(with_dir dir c, r)]
  /\ events h = [("applying", repo, name); (match co_err r with Some _ => "error" | None => "done" end, repo, name)].
(** The paths of [cs] were looked for in this order, up to the first that is there. *)
Fixpoint probed (dir : string) (cs : list string) (l : list (string * bool)) (found : bool) : Prop :=
  match cs, l with
  | [], [] => found = false
  | c :: cs, (path, there) :: l =>
      path = Join [dir; c] /\ if there then found = true /\ l = [] else probed dir cs l found
  | _, _ => False
  end.
(** One entry of the listing: a directory in which a compose file was found is
    applied, nothing happens for any other. *)
Definition visited (sd repo : string) (cfg : InfisicalConfig) (e : DirEntry) (h : list Act) : Prop :=
  if de_isdir e then
    exists h1 h2 found, h = h1 ++ h2 /\ mute h1 /\ probed (Join [sd; de_name e]) Candidates (stats h1) found
    /\ if found then applied_as (Join [sd; de_name e]) repo (de_name e) cfg h2 else mute h2
  else h = [].
(** A scan of [sd]: its listing, then each entry in turn. *)
Definition scanned (sd repo : string) (cfg : InfisicalConfig) (h : list Act) : Prop :=
  if decide (sd = "") then h = []
  else exists r h1, h = act (ReadDir sd) r :: h1
    /\ match r with
       | Err _ => mute h1
       | Ok entries => exists hs, h1 = concat hs /\ Forall2 (visited sd repo cfg) entries hs
       end.

Section scan.
Context (W : forall X, Ask X -> X -> Prop).
Lemma ran_log {X} (q : Ask X) : (match q with Log _ _ _ | Now => True | _ => False end) -> ran W (ask q) (fun _ h => mute h).
Proof. intros H. apply ran_ask. intros x _. by destruct q. Qed.
Lemma ran_look {A} (p : prog A) : shaped look_call (moves unchanged) p -> ran W p (fun _ h => mute h).
Proof. intros H. eapply ran_mono; [|by eapply (ran_shaped W look_call)]. intros a h. apply look_mute. Qed.
Lemma ran_docker {P A} (p : prog A) : shaped docker_call (moves P) p -> ran W p (fun _ h => mute h).
Proof. intros H. eapply ran_mono; [|by eapply (ran_shaped W docker_call)]. intros a h. apply docker_mute. Qed.
Lemma ran_modify f : ran W (modify f) (fun _ h => h = []).
Proof. by apply ran_step. Qed.
Lemma ran_details now dir name : ran W (applied_details now dir name) (fun _ h => mute h).
Proof.
  eapply (ran_docker (P := stack_frame)). unfold applied_details, Get.
  apply shaped_bind; [by apply shaped_atomic, moves_reads|]. intros [c|]; [|done].
  apply shaped_bind; [apply docker_calls_weaken, ListStackContainerDetails_shape|]. intros r. by destruct (snd r).
Qed.
Lemma ran_build dir name cfg :
  ran W (buildComposeCmd dir name cfg) (fun c h => mute h /\ compose_cmd dir cfg c).
Proof. apply ran_returns; [apply buildComposeCmd_returns|apply ran_look, buildComposeCmd_shape]. Qed.
Lemma ran_applyStack dir name repo cfg :
  ran W (applyStack dir name repo cfg) (fun _ h => applied_as dir repo name cfg h).
Proof.
  unfold applyStack, applied_as.
  eapply ran_bind; [by apply (ran_ask _ _ (fun _ h => runs h = [] /\ events h = [("applying", repo, name)]))|].
  intros _ h1 [C1 E1]. eapply ran_bind; [apply ran_modify|]. intros _ h2 ->.
  eapply ran_bind; [apply ran_build|]. intros cmd h3 [[C3 E3] Hc].
  eapply ran_bind; [by apply (ran_ask _ _ (fun r h => runs h = [(with_dir dir cmd, r)] /\ events h = []))|].
  intros res h4 [C4 E4]. eapply (ran_bind _ _ _ (fun _ h => mute h)).
  { destruct (negb _); [by apply ran_log|by apply ran_Ret]. }
  intros [] h5 [C5 E5]. eapply ran_bind; [by apply ran_log|]. intros now h6 [C6 E6].
  eapply ran_bind; [apply ran_look, infisicalMode_shape|]. intros mode h7 [C7 E7].
  destruct (co_err res) as [err|] eqn:Er.
  - eapply ran_bind; [apply ran_modify|]. intros _ h8 ->. eapply ran_bind; [apply ran_modify|]. intros _ h9 ->.
    eapply ran_bind; [by apply ran_log|]. intros [] h10 [C10 E10].
    apply ran_ask. intros x _. exists cmd, res. autorewrite with trace.
    by rewrite C1, C3, C4, C5, C6, C7, C10, E1, E3, E4, E5, E6, E7, E10, Er.
  - eapply ran_bind; [apply ran_details|]. intros d h8 [C8 E8].
    eapply ran_bind; [apply ran_modify|]. intros _ h9 ->. eapply ran_bind; [apply ran_modify|]. intros _ h10 ->.
    eapply ran_bind; [by apply ran_log|]. intros [] h11 [C11 E11].
    apply ran_ask. intros x _. exists cmd, res. autorewrite with trace.
    by rewrite C1, C3, C4, C5, C6, C7, C8, C11, E1, E3, E4, E5, E6, E7, E8, E11, Er.
Qed.

Lemma Join_plain_nonempty dir c : plain c = true -> Join [dir; c] <> "".
Proof.
  intros Hc H. destruct (Join2_parts dir c Hc) as (_ & Hp & _). rewrite H in Hp.
  apply (f_equal length) in Hp. rewrite length_app in Hp. simpl in Hp. lia.
Qed.
Lemma ran_find_compose dir cs : Forall (fun c => plain c = true) cs ->
  ran W (find_compose dir cs) (fun p h => mute h /\ probed dir cs (stats h) (negb (String.eqb p ""))).
Proof.
  induction 1 as [|c cs Hc _ IH]; [by apply ran_Ret|]. cbn [find_compose]. cbv zeta.
  eapply ran_bind; [by apply (ran_ask _ _ (fun b h => mute h /\ stats h = [(Join [dir; c], b)]))|].
  intros [|] h1 [M1 S1].
  - apply ran_Ret. rewrite app_nil_r, S1. split; [done|]. cbn. split; [done|]. split; [|done].
    by rewrite (proj2 (String.eqb_neq _ _) (Join_plain_nonempty dir c Hc)).
  - eapply ran_mono; [|exact IH]. intros p h [M2 S2]. split; [by apply mute_app|]. autorewrite with trace. by rewrite S1.
Qed.
Lemma ran_sync_entry sd repo cfg e : ran W (sync_entry sd repo cfg e) (fun _ h => visited sd repo cfg e h).
Proof.
  unfold sync_entry, visited. destruct (de_isdir e); cbn [negb]; [|by apply ran_Ret]. cbv zeta.
  eapply ran_bind; [by apply ran_find_compose; repeat constructor|]. intros p h1 [M1 P1].
  destruct (String.eqb p "").
  - eapply ran_mono; [|by apply ran_log]. intros u h M. exists h1, h, false. by split_and!.
  - eapply ran_mono; [|apply ran_applyStack]. intros u h H. exists h1, h, true. by split_and!.
Qed.
Lemma ran_runStacksSync sd repo cfg : ran W (runStacksSync sd repo cfg) (fun _ h => scanned sd repo cfg h).
Proof.
  unfold runStacksSync, scanned. destruct (String.eqb_spec sd "") as [->|Hsd]; [by apply ran_Ret|].
  destruct (decide (sd = "")) as [|_]; [done|].
  eapply ran_bind; [by apply (ran_ask _ _ (fun r h => h = [act (ReadDir sd) r]))|]. intros r h1 ->. destruct r as [entries|err].
  - eapply ran_mono; [|apply ran_for_each, (ran_sync_entry sd repo cfg)]. intros [] h2 (hs & -> & Hs).
    eexists _, _. split; [reflexivity|]. by exists hs.
  - eapply ran_mono; [|by apply ran_log]. intros [] h2 M. eexists _, _. by split.
Qed.
End scan.

(** ** Discovery in a file system that does not change during the scan *)

(** Which paths exist, and what the stacks directory holds. *)
Definition files (there : string -> bool) (entries : list DirEntry) X (q : Ask X) : X -> Prop :=
  match q in Ask X return X -> Prop with
  | Stat path => fun b => b = there path
  | ReadDir _ => fun r => r = Ok entries
  | _ => fun _ => True
  end.
(** A directory with a compose file. *)
Definition is_stack (there : string -> bool) (sd : string) (e : DirEntry) : bool :=
  de_isdir e && existsb (fun c => there (Join [Join [sd; de_name e]; c])) Candidates.

Section files.
Context (there : string -> bool) (entries : list DirEntry).
Let W := files there entries.
Definition true_to (a : Act) : Prop := match act_stat a with Some (path, b) => b = there path | None => True end.
Lemma world_true h : Forall (fun a => W _ (a_ask a) (a_ans a)) h -> Forall true_to h.
Proof. intros H. eapply Forall_impl; [exact H|]. intros [X q x]. by destruct q. Qed.
Lemma stats_true h : Forall true_to h -> Forall (fun x => snd x = there (fst x)) (stats h).
Proof. unfold stats. induction 1 as [|[X q x] h Hq _ IH]; [done|]. destruct q; try exact IH. by constructor. Qed.
Lemma probed_true dir cs l found :
  Forall (fun x => snd x = there (fst x)) l -> probed dir cs l found ->
  found = existsb (fun c => there (Join [dir; c])) cs.
Proof.
  revert l. induction cs as [|c cs IH]; intros [|[path b] l] Hl H; try done.
  apply Forall_cons in Hl as [Hb Hl]. destruct H as [-> H]. cbn in *. subst b.
  destruct (there _); cbn [orb]; [by destruct H|by apply (IH l)].
Qed.
Lemma visited_true sd repo cfg e h : Forall true_to h -> visited sd repo cfg e h ->
  if is_stack there sd e
  then exists h1 h2, h = h1 ++ h2 /\ mute h1 /\ applied_as (Join [sd; de_name e]) repo (de_name e) cfg h2
  else mute h.
Proof.
  unfold visited, is_stack. destruct (de_isdir e); cbn [andb]; [|by intros _ ->].
  intros Ht (h1 & h2 & found & -> & M1 & P & H). apply Forall_app in Ht as [Ht _]. apply stats_true in Ht.
  apply (probed_true _ _ _ _ Ht) in P. rewrite P in H. destruct (existsb _ _).
  - by exists h1, h2.
  - by apply mute_app.
Qed.

(** C11. A scan of the stacks directory applies exactly the subdirectories that hold
    one of the compose files, in the order of the listing: one command per such
    directory, run in that directory, and for each an event when it starts and
    one when it ends; nothing is run for the others, and the scan always
    returns. *)
Theorem runStacksSync_applies o sd repo cfg n m h :
  (forall X (q : Ask X) h, W X q (o_answer o X q h)) -> sd <> "" ->
  exists m' h1, run o (runStacksSync sd repo cfg) n m h = Some (tt, m', h ++ h1)
  /\ let stacks := filter (fun e => is_stack there sd e = true) entries in
     cmd_dir <$> cmds h1 = (fun e => Join [sd; de_name e]) <$> stacks
     /\ exists finals, Forall (fun f => In f ["done"; "error"]) finals
       /\ length finals = length stacks
       /\ events h1 = concat (zip_with (fun e f =>
            [("applying", repo, de_name e); (f, repo, de_name e)]) stacks finals).
Proof.
  intros Ho Hsd.
  destruct (ran_run W o _ _ n m h Ho (ran_world W _ _ (ran_runStacksSync W sd repo cfg)))
    as ([] & m' & h1 & Hrun & Hs & Ht). exists m', h1. split; [exact Hrun|]. clear Hrun.
  unfold scanned in Hs. rewrite decide_False in Hs by done. destruct Hs as (r & h2 & -> & Hs).
  apply Forall_cons in Ht as [Hr Ht%world_true]. cbn in Hr. subst r. destruct Hs as (hs & -> & Hs).
  change (cmds (?a :: ?l)) with (cmds l). change (events (?a :: ?l)) with (events l). cbv zeta. clear Ho.
  induction Hs as [|e h1 l hs He _ IH].
  - split; [done|]. exists []. by repeat constructor.
  - cbn [concat] in *. apply Forall_app in Ht as [Ht1 Ht]. destruct (IH Ht) as (IH1 & finals & F1 & F2 & F3).
    apply visited_true in He; [|done]. autorewrite with trace. rewrite fmap_app, filter_cons.
    destruct (is_stack there sd e).
    + destruct He as (x & y & -> & [Cx Ex] & c & r & _ & Cy & Ey). rewrite decide_True by done.
      apply no_runs in Cx. autorewrite with trace. rewrite Cx, Ex, (cmds_runs y), Cy, Ey. split.
      * cbn. by rewrite IH1.
      * exists (match co_err r with Some _ => "error" | None => "done" end :: finals).
        split_and!; [constructor; [|done]; destruct (co_err r); [by right; left|by left]|by f_equal/=|].
        cbn. by rewrite F3.
    + destruct He as [Ch Eh]. apply no_runs in Ch. rewrite decide_False by done. rewrite Ch, Eh. split; [done|]. by exists finals.
Qed.
End files.

Definition demo_entries : list DirEntry :=
  [{| de_name := "README.md"; de_isdir := false |}; {| de_name := "plex"; de_isdir := true |}].
Lemma runStacksSync_applies_witness :
  exists m' h1, run demo_oracle (runStacksSync "/d/home" "home" {| Token := ""; inf_env := "prod"; URL_ := ""; ProjectID := "" |}) 0 emptyMem []
    = Some (tt, m', [] ++ h1)
  /\ let stacks := filter (fun e => is_stack (fun _ => true) "/d/home" e = true) demo_entries in
     cmd_dir <$> cmds h1 = (fun e => Join ["/d/home"; de_name e]) <$> stacks
     /\ exists finals, Forall (fun f => In f ["done"; "error"]) finals
       /\ length finals = length stacks
       /\ events h1 = concat (zip_with (fun e f =>
            [("applying", "home", de_name e); (f, "home", de_name e)]) stacks finals).
Proof.
  apply (runStacksSync_applies (fun _ => true) demo_entries); [|discriminate].
  intros X q h. destruct q; reflexivity || exact I.
Defined.

(** ** What applying one stack leaves in the store *)

Definition act_result (a : Act) : option CmdOut :=
  (match a_ask a in Ask X return X -> option CmdOut with
   | Exec _ => fun r => Some r
   | _ => fun _ => None
   end) (a_ans a).
(** The results of the child processes of a trace. *)
Definition results (h : list Act) : list CmdOut := omap act_result h.
Lemma results_app h h' : results (h ++ h') = results h ++ results h'.
Proof. apply omap_app. Qed.
Lemma no_results h : runs h = [] -> results h = [].
Proof.
  unfold runs, results. induction h as [|[X q x] h IH]; [done|]. destruct q; simpl; try exact IH. done.
Qed.

Section entry.
Context (repo name : string).
(** The entry of the stack without its containers, which the refreshes of other
    goroutines may overwrite at any time. *)
Definition entry (m : Mem) : option StackState :=
  with_containers None <$> stacks (m_store m) !! stack_key repo name.
(** How many applies of stacks of this name the metrics count. *)
Definition counted (m : Mem) (status : string) : Z := get2 name status (applyTotal (m_metrics m)).
Definition same_count (m m' : Mem) : Prop := forall status, counted m' status = counted m status.
Definition same_entry (m m' : Mem) : Prop := entry m' = entry m /\ same_count m m'.
Lemma same_count_trans m1 m2 m3 : same_count m1 m2 -> same_count m2 m3 -> same_count m1 m3.
Proof. intros H1 H2 s. by rewrite H2, H1. Qed.
#[local] Instance same_entry_pre : PreOrder same_entry.
Proof.
  unfold same_entry. split; [done|]. intros m1 m2 m3 [E1 C1] [E2 C2].
  split; [congruence|by eapply same_count_trans].
Qed.
Definition entry_spec : Spec :=
  {| rely := same_entry; call_ok := fun _ _ _ _ => True; ans_ok := fun _ _ _ => True;
     atom_ok := fun _ _ => True; block_ok := fun _ => False; rely_pre := same_entry_pre |}.
Lemma wp_entry (C : forall X, Ask X -> Prop) {A} (R : A -> Prop) (p : prog A) m h :
  shaped C (moves unchanged) p -> returns R p ->
  wp entry_spec p (fun a m' h' => R a /\ same_entry m m' /\
    exists h1, h' = h ++ h1 /\ Forall (fun a => C _ (a_ask a)) h1) m h.
Proof.
  revert m h. induction p as [a|X q k IH|X f k IH]; intros m h Hp Hr m1 Hm1; simpl in Hm1.
  - split; [done|]. split; [done|]. exists []. by rewrite app_nil_r.
  - destruct Hp as [Hq Hk]. split; [done|]. intros x _. eapply wp_mono; [|apply IH; [apply Hk|apply Hr]].
    intros a m' h' (Ha & Hs & h1 & -> & Hh). split; [done|]. split; [by transitivity m1|].
    exists (act q x :: h1). rewrite <- app_assoc. split; [done|]. by constructor.
  - destruct Hp as [Hf Hk]. specialize (Hf m1). destruct (f m1) as [[x m2]|]; [|done].
    unfold unchanged in Hf. subst m2. split; [done|].
    eapply wp_mono; [|apply IH; [apply Hk|apply Hr]].
    intros a m' h' (Ha & Hs & Hx). split; [done|]. split; [by transitivity m1|done].
Qed.

(** The entry after a command that gave [res]. *)
Definition settled (dir : string) (res : CmdOut) (st : StackState) : Prop :=
  ss_Name st = name /\ ss_RepoName st = repo /\ ss_StackDir st = dir /\ ss_LastOutput st = co_out res
  /\ match co_err res with
     | None => ss_Status st = ApplyOK /\ ss_LastError st = ""
     | Some err => ss_Status st = ApplyError
         /\ ss_LastError st = extractErrorSummary (co_out res) (err_text err)
     end.
Lemma settled_containers dir res st : settled dir res st <-> settled dir res (with_containers None st).
Proof. done. Qed.

(** The metrics count the apply, under its outcome. *)
Definition outcome (res : CmdOut) : string := match co_err res with None => "success" | Some _ => "error" end.
Definition counted_once (res : CmdOut) (m m' : Mem) : Prop := forall status,
  counted m' status = if decide (status = outcome res) then wrap64 (counted m status + 1) else counted m status.
Lemma counted_RecordApply m0 m m' res :
  same_count m0 m -> same_count (set_metrics (RecordApply name (outcome res)) m) m' -> counted_once res m0 m'.
Proof.
  intros H0 H s. rewrite H, <- (H0 s). unfold counted. cbn [m_metrics set_metrics applyTotal RecordApply].
  rewrite get2_incr2. apply decide_ext. naive_solver.
Qed.
Lemma wp_applyStack_entry dir cfg m h :
  wp entry_spec (applyStack dir name repo cfg) (fun _ m' h' => exists h1 res, h' = h ++ h1
    /\ results h1 = [res] /\ counted_once res m m' /\ exists st, entry m' = Some st /\ settled dir res st) m h.
Proof.
  assert (forall st m, ss_Name st = name -> ss_RepoName st = repo ->
    entry (set_store (UpdateStack st) m) = Some (with_containers None st)) as Hset.
  { intros st m0 H1 H2. unfold entry. simpl. by rewrite <- H1, <- H2, lookup_insert_eq. }
  unfold applyStack. intros m1 [_ K1]. split; [done|]. intros [] _. apply wp_Ret_bind.
  intros m2 [_ K2]. split; [done|]. apply wp_Ret_bind, wp_bind.
  eapply wp_mono; [|eapply wp_entry; [apply buildComposeCmd_shape|apply returns_any]].
  intros cmd m3 h3 (_ & [_ K3] & x3 & -> & [C3 _]%look_mute).
  intros m4 [_ K4]. split; [done|]. intros res _. apply wp_Ret_bind, wp_bind.
  eapply wp_mono; [|eapply (wp_entry look_call (fun _ => True)); [|apply returns_any]].
  2: { by destruct (negb _). }
  intros [] m4' h4 (_ & [_ K4'] & x4 & -> & [C4 _]%look_mute).
  intros m5 [_ K5]. split; [done|]. intros now _. apply wp_Ret_bind, wp_bind.
  eapply wp_mono; [|eapply wp_entry; [apply infisicalMode_shape|apply returns_any]].
  intros mode m6 h6 (_ & [_ K6] & x6 & -> & [C6 _]%look_mute). apply no_results in C3, C4, C6.
  assert (same_count m m6) as K by (intros s; rewrite K6, K5, K4', K4, K3, <- K1, <- K2; done).
  destruct (co_err res) as [err|] eqn:Eerr.
  - intros m7 [_ K7]. split; [done|]. apply wp_Ret_bind. intros m8 [H8 K8]. split; [done|]. apply wp_Ret_bind.
    intros m9' [H9' K9']. split; [done|]. intros [] _. apply wp_Ret_bind.
    intros m9 [H9 K9]. split; [done|]. intros [] _ m10 [H10 K10].
    eexists _, res. rewrite <- !app_assoc. split; [reflexivity|].
    rewrite !results_app, C3, C4, C6. split; [done|]. split; [|eexists; split].
    + apply (counted_RecordApply _ m8).
      * intros s. rewrite K8. change (counted (set_store ?f m7)) with (counted m7). by rewrite K7, K.
      * unfold outcome. rewrite Eerr. by apply (same_count_trans _ m9'), (same_count_trans _ m9).
    + rewrite H10, H9, H9'. change (entry (set_metrics ?f m8)) with (entry m8). rewrite H8. by apply Hset.
    + unfold settled. simpl. by rewrite Eerr.
  - apply wp_bind. eapply wp_mono; [|eapply (wp_entry docker_call (fun _ => True)); [|apply returns_any]].
    2: { unfold applied_details, Get. apply shaped_bind; [by apply shaped_atomic, moves_reads|].
         intros [c|]; [|done]. apply shaped_bind; [apply ListStackContainerDetails_shape|].
         intros r. by destruct (snd r). }
    intros d m7 h7 (_ & [_ K7] & x7 & -> & [C7 _]%docker_mute). apply no_results in C7.
    intros m8 [_ K8]. split; [done|]. apply wp_Ret_bind. intros m9 [H9 K9]. split; [done|]. apply wp_Ret_bind.
    intros m10' [H10' K10']. split; [done|]. intros [] _. apply wp_Ret_bind.
    intros m10 [H10 K10]. split; [done|]. intros [] _ m11 [H11 K11].
    eexists _, res. rewrite <- !app_assoc. split; [reflexivity|].
    rewrite !results_app, C3, C4, C6, C7. split; [done|]. split; [|eexists; split].
    + apply (counted_RecordApply _ m9).
      * intros s. rewrite K9. change (counted (set_store ?f m8)) with (counted m8). by rewrite K8, K7, K.
      * unfold outcome. rewrite Eerr. by apply (same_count_trans _ m10'), (same_count_trans _ m10).
    + rewrite H11, H10, H10'. change (entry (set_metrics ?f m9)) with (entry m9). rewrite H9. by apply Hset.
    + unfold settled. simpl. by rewrite Eerr.
Qed.

(** C12. Applying a stack runs one command and always returns; the store's entry then
    says what that command said: status ok and no error if it succeeded, status
    error and a summary of its output if it failed, with its output either way, and
    the metrics count one more apply of that outcome.  Other goroutines may refresh
    the containers of the entry meanwhile. *)
Theorem applyStack_outcome o dir cfg n m h :
  (forall n m, same_entry m (o_other o n m)) ->
  exists m' h1 res st, run o (applyStack dir name repo cfg) n m h = Some (tt, m', h ++ h1)
  /\ results h1 = [res] /\ stacks (m_store m') !! stack_key repo name = Some st /\ settled dir res st
  /\ counted_once res m m'.
Proof.
  intros Ho. pose proof (wp_run entry_spec o _ _ n m h Ho ltac:(done) (wp_applyStack_entry dir cfg m h)) as Hw.
  destruct (run _ _ _ _ _) as [[[[] m'] h']|]; [|by destruct Hw].
  destruct Hw as (h1 & res & -> & Hres & Hc & st & Hst & Hset). unfold entry in Hst.
  destruct (stacks (m_store m') !! _) as [st'|] eqn:E; [|done]. injection Hst as <-.
  by exists m', h1, res, st'.
Qed.
End entry.
Lemma applyStack_outcome_witness :
  exists m' h1 res st, run demo_oracle (applyStack "/d/home/plex" "plex" "home"
      {| Token := "t"; inf_env := "prod"; URL_ := ""; ProjectID := "" |}) 0 emptyMem [] = Some (tt, m', [] ++ h1)
  /\ results h1 = [res] /\ stacks (m_store m') !! stack_key "home" "plex" = Some st
  /\ settled "home" "plex" "/d/home/plex" res st /\ counted_once "plex" res emptyMem m'.
Proof.
  apply (applyStack_outcome "home" "plex" demo_oracle). intros n m. split; [reflexivity|intros s; reflexivity].
Defined.
