(* ===== verification/Pull.v ===== *)
(** * What a pull and a synchronisation do, as their traces show it

    The specification of [gitSyncToDisk] and of [syncRepoFromDB] in terms of the
    calls they made and the answers they got: which credentials git ran with,
    which commands ran, where it stopped, and what came of it. *)
From Stdlib Require Import Ascii.
From S2P Require Import Prelude GoStrings GoPath GitRef Crypto State Sched Metrics Db Effects Git Docker Stacks Sync Footprint Applying.

Definition act_write (a : Act) : option (string * string * option GoError) :=
  (match a_ask a in Ask X return X -> option (string * string * option GoError) with
   | WriteString path data => fun r => Some (path, data, r)
   | _ => fun _ => None
   end) (a_ans a).
(** The texts written to files, and whether that went through. *)
Definition writes (h : list Act) : list (string * string * option GoError) := omap act_write h.
Lemma writes_app h h' : writes (h ++ h') = writes h ++ writes h'.
Proof. apply omap_app. Qed.
#[export] Hint Rewrite writes_app : trace.
Lemma mute_cmds h : mute h -> cmds h = [].
Proof. intros [H _]. by apply no_runs. Qed.

Section pull.
Context `{A : AEAD} (cloneDir cryptoKey sshTempDir : string).

(** The credentials that a repository asks for have been set up in [h]: an SSH key
    is decrypted and is in a temporary file of its own, with a newline at its end;
    an access token is decrypted; there is nothing to set up otherwise. *)
Definition credentials (repo : RepoDB) (h : list Act) (opts : AuthOpts) : Prop :=
  if decide (r_AuthType repo = "ssh" /\ r_SSHKeyID repo <> "") then
    exists path enc priv data, opts = {| Type_ := "ssh"; SSHKeyPath := path; PAT := "" |}
      /\ Decrypt cryptoKey enc = Ok priv /\ data ∈ [priv; (priv +:+ NL)%string] /\ has_suffix data NL = true
      /\ temps h = [path] /\ writes h = [(path, data, None)]
  else if decide (r_AuthType repo = "pat" /\ r_PATEnc repo <> "") then
    exists pat, opts = {| Type_ := "pat"; SSHKeyPath := ""; PAT := pat |} /\ Decrypt cryptoKey (r_PATEnc repo) = Ok pat
  else opts = {| Type_ := r_AuthType repo; SSHKeyPath := ""; PAT := "" |}.
(** A pull of [repo] whose trace is [h] and whose result is [res]: nothing without a
    valid name; a failure and no git command when the credentials could not be set
    up; the commands of [sync_plan] with the credentials otherwise. *)
Definition pulled (repo : RepoDB) (h : list Act) (res : string * option GoError) : Prop :=
  match ValidateRepoName (r_Name repo) with
  | Err e => h = [] /\ res = ("", Some e)
  | Ok _ =>
      let dest := Join [cloneDir; r_Name repo] in
      fst res = dest /\ exists h1 h2 h3, h = h1 ++ h2 ++ h3 /\ mute h1 /\ events h2 = [] /\ mute h3
      /\ (((exists e, snd res = Some e) /\ (forall opts, ~ credentials repo h1 opts) /\ h2 = [] /\ h3 = [])
         \/ exists opts there, credentials repo h1 opts /\ stats h2 = [(Join [dest; ".git"], there)]
            /\ executed opts (sync_plan there dest (r_URL repo) (r_Remote repo) (r_Branch repo)) (runs h2) (snd res))
  end.

Lemma with_newline_spec priv :
  with_newline priv ∈ [priv; (priv +:+ NL)%string] /\ has_suffix (with_newline priv) NL = true.
Proof.
  unfold with_newline. destruct (has_suffix priv NL) eqn:E; cbn [negb]; [by split; [left|]|].
  split; [right; left|]. apply has_suffix_app.
Qed.
Definition plainly (h : list Act) : Prop := mute h /\ temps h = [] /\ writes h = [].
Lemma plainly_app h h' : plainly h -> plainly h' -> plainly (h ++ h').
Proof.
  intros (M & T & W) (M' & T' & W'). split; [by apply mute_app|]. autorewrite with trace. by rewrite T, W, T', W'.
Qed.
Lemma ran_db_read {X} (f : fault -> DB -> X) : ran anything (db_read f) (fun _ h => plainly h).
Proof.
  eapply ran_bind; [by apply (ran_ask _ _ (fun _ h => plainly h))|]. intros flt h1 H1.
  apply ran_step. intros m. by rewrite app_nil_r.
Qed.
Lemma key_file_ran key priv opts0 :
  Decrypt cryptoKey (k_PrivateKeyEnc key) = Ok priv ->
  ran anything (
    f <- ask (CreateTemp sshTempDir "stackd-key-*");;
    match f with
    | Err e => Ret (opts0, None, Some (wrap "create temp key file: " e))
    | Ok path =>
        written <- ask (WriteString path (with_newline priv));;
        match written with
        | Some e =>
            ask (CloseFile path);;;
            ask (Remove path);;;
            Ret (opts0, None, Some (wrap "write SSH key file: " e))
        | None =>
            ask (CloseFile path);;;
            Ret ({| Type_ := "ssh"; SSHKeyPath := path; PAT := "" |}, Some path, None)
        end
    end)%prog
    (fun r h => mute h /\
      match snd r with
      | Some _ => forall path data, ~ (temps h = [path] /\ writes h = [(path, data, None)])
      | None => exists path, fst (fst r) = {| Type_ := "ssh"; SSHKeyPath := path; PAT := "" |}
                 /\ temps h = [path] /\ writes h = [(path, with_newline priv, None)]
      end).
Proof.
  intros Hd.
  eapply ran_bind; [apply (ran_ask _ _ (fun r h => mute h /\ writes h = [] /\
    temps h = match r with Ok path => [path] | Err _ => [] end)); by intros [] _|].
  intros [path|e] h1 (M1 & W1 & T1).
  2: { apply ran_Ret. rewrite app_nil_r. split; [done|]. cbn. intros path data [T _]. congruence. }
  eapply ran_bind; [by apply (ran_ask _ _ (fun r h => mute h /\ temps h = [] /\ writes h = [(path, with_newline priv, r)]))|].
  intros [e|] h2 (M2 & T2 & W2).
  - eapply ran_bind; [by apply (ran_ask _ _ (fun _ h => plainly h))|]. intros [] h3 H3.
    eapply ran_bind; [by apply (ran_ask _ _ (fun _ h => plainly h))|]. intros [] h4 H4.
    apply ran_Ret. rewrite app_nil_r. destruct (plainly_app _ _ H3 H4) as (M & T & W).
    split; [by apply mute_app; [|apply mute_app]|]. cbn. autorewrite with trace. intros p d [_ Hw].
    rewrite W1, W2 in Hw. rewrite <- writes_app, W in Hw. by simplify_eq/=.
  - eapply ran_bind; [by apply (ran_ask _ _ (fun _ h => plainly h))|]. intros [] h3 (M3 & T3 & W3).
    apply ran_Ret. rewrite app_nil_r. split; [by apply mute_app; [|apply mute_app]|]. cbn. exists path.
    autorewrite with trace. by rewrite T1, T2, T3, W1, W2, W3.
Qed.
Lemma setupGitAuth_ran repo :
  ran anything (setupGitAuth cryptoKey sshTempDir repo) (fun r h => mute h /\
    match snd r with
    | Some _ => forall opts, ~ credentials repo h opts
    | None => credentials repo h (fst (fst r))
    end).
Proof.
  unfold setupGitAuth, credentials. cbv zeta.
  destruct (String.eqb_spec (r_AuthType repo) "ssh") as [Et|Et].
  - destruct (String.eqb_spec (r_SSHKeyID repo) "") as [Ek|Ek]; cbn [negb].
    { apply ran_Ret. split; [done|]. cbn. by rewrite !decide_False by (intros [? ?]; congruence). }
    destruct (decide _) as [_|Hn]; [|by destruct Hn].
    eapply ran_bind; [apply ran_db_read|]. intros [key|e] h1 (M1 & T1 & W1).
    2: { apply ran_Ret. rewrite app_nil_r. split; [done|]. cbn.
         intros opts (path & enc & priv & data & _ & _ & _ & _ & T & _). congruence. }
    destruct (Decrypt cryptoKey (k_PrivateKeyEnc key)) as [priv|e] eqn:Ed.
    2: { apply ran_Ret. rewrite app_nil_r. split; [done|]. cbn.
         intros opts (path & enc & priv & data & _ & _ & _ & _ & T & _). congruence. }
    rewrite Et. eapply ran_mono; [|by apply (key_file_ran key)]. intros [[opts f] [e|]] h2 [M2 H2]; cbn [fst snd] in *.
    + split; [by apply mute_app|]. intros opts' (path & enc & p & data & _ & _ & _ & _ & T & W).
      autorewrite with trace in T, W. rewrite T1 in T. rewrite W1 in W. by apply (H2 path data).
    + split; [by apply mute_app|]. destruct H2 as (path & -> & T2 & W2).
      exists path, (k_PrivateKeyEnc key), priv, (with_newline priv). destruct (with_newline_spec priv) as [H1' H2'].
      autorewrite with trace. by rewrite T1, W1, T2, W2.
  - destruct (decide (r_AuthType repo = "ssh" /\ _)) as [[? _]|_]; [done|]. destruct (String.eqb_spec (r_AuthType repo) "pat") as [Ep|Ep].
    2: { apply ran_Ret. split; [done|]. cbn. by rewrite decide_False by (intros [? ?]; congruence). }
    destruct (String.eqb_spec (r_PATEnc repo) "") as [Ek|Ek]; cbn [negb].
    { apply ran_Ret. split; [done|]. cbn. by rewrite decide_False by (intros [? ?]; congruence). }
    destruct (decide _) as [_|Hn]; [|by destruct Hn].
    destruct (Decrypt cryptoKey (r_PATEnc repo)) as [pat|e] eqn:Ed; apply ran_Ret; (split; [done|]); cbn.
    + exists pat. by rewrite Ep.
    + intros opts (pat & _ & Hd). congruence.
Qed.
Lemma executed_silent_remote there dest url remote branch :
  sync_plan there dest url (if String.eqb remote "" then "origin" else remote) branch = sync_plan there dest url remote branch.
Proof. unfold sync_plan. by destruct (String.eqb_spec remote "") as [->|H]; [|rewrite (proj2 (String.eqb_neq _ _) H)]. Qed.
Lemma git_mute dir h : Forall (fun a => git_call dir _ (a_ask a)) h -> events h = [].
Proof. induction 1 as [|[X q x] h Hq _ IH]; [done|]. by destruct q. Qed.
Lemma gitSyncToDisk_ran repo :
  ran anything (gitSyncToDisk cloneDir cryptoKey sshTempDir repo) (fun res h => pulled repo h res).
Proof.
  unfold gitSyncToDisk, pulled. destruct (ValidateRepoName (r_Name repo)) as [[]|e] eqn:Ev.
  2: { unfold safeRepoPath. rewrite Ev. by apply ran_Ret. }
  rewrite safeRepoPath_valid by done.
  eapply ran_bind; [apply setupGitAuth_ran|]. intros [[opts f] [e|]] h1 [M1 H1]; cbn [fst snd] in *.
  { apply ran_Ret. rewrite app_nil_r. split; [done|]. exists h1, [], []. rewrite !app_nil_r.
    split_and!; try done. left. split_and!; [by exists e|done..]. }
  set (dest := Join [cloneDir; r_Name repo]). cbv zeta.
  eapply ran_bind.
  { apply ran_and; [apply (SyncRepo_ran dest _ _ _ opts)|].
    apply (ran_mono anything _ (fun _ h => Forall (fun a => git_call dest _ (a_ask a)) h)); [intros err h; apply git_mute|].
    eapply ran_shaped, SyncRepo_shape. }
  intros err h2 [(there & S2 & X2) E2].
  eapply (ran_bind _ _ _ (fun _ h => mute h)).
  { destruct f; [by apply (ran_ask _ _ (fun _ h => mute h))|by apply ran_Ret]. }
  intros [] h3 M3. apply ran_Ret. rewrite app_nil_r. split; [done|]. exists h1, h2, h3.
  split_and!; try done. right. exists opts, there. rewrite executed_silent_remote in X2. by split_and!.
Qed.
End pull.
