(* ===== verification/Locking.v ===== *)
(** * The repository mutex: mutual exclusion of the git commands

    Each goroutine is proved against [lock_spec]: a git command runs only while
    its own goroutine holds the mutex of the repository whose clone it works on,
    only the holder releases a mutex, and a goroutine that blocks holds none.
    [par_safe] turns this into a theorem about all interleavings. *)
From Stdlib Require Import Ascii.
From S2P Require Import Prelude GoStrings GoPath GitRef Crypto State Sched Db Effects Git Docker Stacks Sync Footprint.

Definition held (t : nat) (m : Mem) (n : string) : Prop := m_locks m !! n = Some t.
Definition same_held (t : nat) (m m' : Mem) : Prop := forall n, held t m n <-> held t m' n.
Definition holds_none (t : nat) (m : Mem) : Prop := forall n, ~ held t m n.

#[export] Instance same_held_pre t : PreOrder (same_held t).
Proof. split; [done|]. intros m1 m2 m3 H12 H23 n. by rewrite (H12 n). Qed.
#[export] Instance holds_none_proper t : Proper (same_held t ==> iff) (holds_none t).
Proof. intros m m' H. split; intros Hn n; [rewrite <- (H n)|rewrite (H n)]; apply Hn. Qed.

(** Is it a git command? *)
Definition is_git (c : Cmd) : bool := String.eqb (cmd_name c) "git".

Section lock.
Context (cloneDir : string).

Definition lock_call (t : nat) X (q : Ask X) (m : Mem) (h : list Act) : Prop :=
  match q with
  | Exec c => is_git c = true ->
      exists n, held t m n /\ plain n = true /\ git_dir c = Some (Join [cloneDir; n])
  | _ => True
  end.
Definition lock_spec (t : nat) : Spec :=
  {| rely := same_held t;
     call_ok := lock_call t;
     ans_ok := fun _ _ _ => True;
     atom_ok := fun m m' => forall u, u <> t -> same_held u m m';
     block_ok := fun m => holds_none t m
       /\ ((exists n u, m_locks m !! n = Some u /\ u <> t) \/ m_trigger m = []);
     rely_pre := same_held_pre t |}.

(** ** Programs that neither lock nor unlock *)

(** No git command, except on the clone of [n]. *)
Definition git_within (n : option string) X (q : Ask X) : Prop :=
  match q with
  | Exec c => is_git c = true -> match n with
                                 | Some n => git_dir c = Some (Join [cloneDir; n])
                                 | None => False
                                 end
  | _ => True
  end.
Definition keeps_locks : forall X, Step X -> Prop := moves (fun m m' => m_locks m' = m_locks m).
Lemma same_locks_held t m m' : m_locks m' = m_locks m -> same_held t m m'.
Proof. intros H n. unfold held. by rewrite H. Qed.

Lemma wp_calm t n {A} (p : prog A) m h :
  shaped (git_within n) keeps_locks p ->
  (forall n', n = Some n' -> held t m n' /\ plain n' = true) ->
  wp (lock_spec t) p (fun _ m' _ => same_held t m m') m h.
Proof.
  intros Hp Hn. assert (forall m0, same_held t m0 m ->
    (forall n', n = Some n' -> held t m0 n' /\ plain n' = true) ->
    wp (lock_spec t) p (fun _ m' _ => same_held t m0 m') m h) as H; [|by apply H].
  clear Hn. revert m h. induction p as [a|X q k IH|X g k IH]; intros m h m0 Hm Hn m1 Hm1.
  - simpl in Hm1. by transitivity m.
  - destruct Hp as [Hq Hk]. assert (same_held t m0 m1) as Hm' by (by transitivity m). split.
    + destruct q; try done. intros Hg. destruct n as [n|]; [|by destruct (Hq Hg)].
      destruct (Hn n eq_refl) as [Hh Hpl]. exists n. split; [by apply Hm'|]. split; [done|]. by apply Hq.
    + intros x _. by apply IH.
  - destruct Hp as [Hg Hk]. specialize (Hg m1). destruct (g m1) as [[x m2]|]; [|done].
    split; [intros u _; by apply same_locks_held|]. apply IH; [done| |done].
    transitivity m; [done|]. transitivity m1; [done|]. by apply same_locks_held.
Qed.

Lemma stack_locks X (f : Step X) : moves stack_frame X f -> keeps_locks X f.
Proof. apply moves_mono. unfold stack_frame. naive_solver. Qed.
Lemma unchanged_locks X (f : Step X) : moves unchanged X f -> keeps_locks X f.
Proof. apply moves_mono. by intros m m' ->. Qed.
Lemma stack_calm {A} (p : prog A) :
  shaped stack_call (moves stack_frame) p -> shaped (git_within None) keeps_locks p.
Proof.
  apply shaped_mono; [|apply stack_locks]. intros X []; try done. simpl.
  unfold is_git. by intros [[-> | ->] _].
Qed.
Lemma docker_calm {A} (p : prog A) :
  shaped docker_call (moves stack_frame) p -> shaped (git_within None) keeps_locks p.
Proof. intros H. by apply stack_calm, docker_stack_weaken. Qed.
Lemma pull_calm n {A} (p : prog A) :
  shaped (pull_call (Join [cloneDir; n])) (moves unchanged) p -> shaped (git_within (Some n)) keeps_locks p.
Proof.
  apply shaped_mono; [|apply unchanged_locks]. intros X []; try done. intros [H|H]; [|done].
  simpl in *. naive_solver.
Qed.

(** ** Critical sections *)

Definition holds_only (t : nat) (n : string) (m : Mem) : Prop := forall n', held t m n' <-> n' = n.
Lemma holds_only_same t n m m' : same_held t m m' -> holds_only t n m -> holds_only t n m'.
Proof. intros H Hn n'. by rewrite <- (H n'). Qed.

Lemma wp_Lock t n m h (Q : unit -> Mem -> list Act -> Prop) :
  holds_none t m -> (forall m' , holds_only t n m' -> Q tt m' h) -> wp (lock_spec t) (Lock t n) Q m h.
Proof.
  intros Hn HQ m1 Hm1. rewrite Hm1 in Hn. destruct (m_locks m1 !! n) as [u|] eqn:E.
  - split; [done|]. left. exists n, u. split; [done|]. intros ->. by apply (Hn n).
  - assert (forall v n', held v (set_locks <[n:=t]> m1) n' <-> (if decide (n = n') then v = t else held v m1 n')) as Hh.
    { intros v n'. unfold held. simpl. rewrite lookup_insert. case_decide; [|done]. split; [by intros [= <-]|by intros ->]. }
    split.
    + intros u Hu n'. rewrite Hh. case_decide as Hd; [|done]. subst. unfold held. rewrite E. by split; [|intros ->].
    + intros m2 Hm2. apply HQ. intros n'. rewrite <- (Hm2 n'), Hh. case_decide; [by subst|].
      split; [intros H'; by destruct (Hn n')|intros ->; done].
Qed.
Lemma wp_Unlock t n m h (Q : unit -> Mem -> list Act -> Prop) :
  holds_only t n m -> (forall m', holds_none t m' -> Q tt m' h) -> wp (lock_spec t) (Unlock n) Q m h.
Proof.
  intros Hn HQ m1 Hm1. apply (holds_only_same _ _ _ m1) in Hn; [|done].
  pose proof (proj2 (Hn n) eq_refl) as Hh. split.
  - intros u Hu n'. unfold held in *. simpl. rewrite lookup_delete. case_decide; [|done]. subst.
    rewrite Hh. split; [|done]. intros [= ->]. done.
  - intros m2 Hm2. apply HQ. rewrite <- Hm2. intros n'. unfold held. simpl. rewrite lookup_delete.
    case_decide; [done|]. intros Hx. by apply (Hn n') in Hx as ->.
Qed.
(** Code that runs under the mutex of [n], and works on the clone of [n] if that
    is a directory of the clones; [f] releases the mutex. *)
Lemma wp_critical t n on {A B} (p : prog A) (f : A -> prog B) (Q : B -> Mem -> list Act -> Prop) m h :
  holds_none t m -> (forall n', on = Some n' -> n' = n /\ plain n = true) ->
  shaped (git_within on) keeps_locks p ->
  (forall a m' h', holds_only t n m' -> wp (lock_spec t) (f a) Q m' h') ->
  wp (lock_spec t) (bind (Lock t n) (fun _ => bind p f)) Q m h.
Proof.
  intros Hm Hon Hp Hf. apply wp_bind. apply wp_Lock; [done|]. intros m1 Hm1.
  apply wp_bind. eapply wp_mono; [|apply (wp_calm t on p m1 h Hp)].
  - intros a m2 h2 Hs. apply (holds_only_same _ _ _ m2) in Hm1; [|done]. by apply Hf.
  - intros n' Hn'. destruct (Hon n' Hn') as [-> Hpl]. split; [by apply Hm1|done].
Qed.
Lemma wp_calm_none t {A} (p : prog A) m h :
  shaped (git_within None) keeps_locks p -> holds_none t m ->
  wp (lock_spec t) p (fun _ m' _ => holds_none t m') m h.
Proof.
  intros Hp Hm. eapply wp_mono; [|by apply (wp_calm t None p m h Hp)].
  intros a m' h' Hs. by rewrite <- Hs.
Qed.
Lemma wp_seq t {A B} (p : prog A) (f : A -> prog B) m h :
  wp (lock_spec t) p (fun _ m' _ => holds_none t m') m h ->
  (forall a m' h', holds_none t m' -> wp (lock_spec t) (f a) (fun _ m' _ => holds_none t m') m' h') ->
  wp (lock_spec t) (bind p f) (fun _ m' _ => holds_none t m') m h.
Proof. intros Hp Hf. apply wp_bind. eapply wp_mono; [|exact Hp]. intros a m' h' H. by apply Hf. Qed.
Lemma wp_loop t {X} (l : list X) (body : X -> prog unit) m h :
  (forall x m h, holds_none t m -> wp (lock_spec t) (body x) (fun _ m' _ => holds_none t m') m h) ->
  holds_none t m -> wp (lock_spec t) (for_each l body) (fun _ m' _ => holds_none t m') m h.
Proof.
  intros Hb Hm. apply (wp_for_each (lock_spec t) l body (fun _ m' _ => holds_none t m')); [|auto|done].
  intros m1 m2 l' h' Hr. simpl in Hr. by rewrite Hr.
Qed.
End lock.
Arguments git_within cloneDir n X q : simpl never.

(** ** The functions of [Sync] *)

Lemma safeRepoPath_Ok cloneDir n d : safeRepoPath cloneDir n = Ok d -> d = Join [cloneDir; n] /\ plain n = true.
Proof.
  unfold safeRepoPath. destruct (ValidateRepoName n) as [[]|e] eqn:E; [|done]. intros H. split.
  - by repeat case_match; simplify_eq.
  - by apply ValidateRepoName_plain.
Qed.

Section sync.
Context `{A : AEAD} (cloneDir cryptoKey sshTempDir : string) (t : nat).

(** The clone a sync of the repository works on. *)
Definition clone_of (n : string) : option string :=
  if is_ok (safeRepoPath cloneDir n) then Some n else None.
Lemma clone_of_spec n n' : clone_of n = Some n' -> n' = n /\ plain n = true.
Proof.
  unfold clone_of. destruct (safeRepoPath cloneDir n) as [d|e] eqn:E; [|done]. intros [= ->].
  by apply safeRepoPath_Ok in E as [_ ?].
Qed.
Lemma within_weaken n {B} (p : prog B) :
  shaped (git_within cloneDir None) keeps_locks p -> shaped (git_within cloneDir n) keeps_locks p.
Proof. apply shaped_mono; [|done]. intros X []; try done. intros H Hg. by destruct (H Hg). Qed.

Lemma gitSyncToDisk_calm repo :
  shaped (git_within cloneDir (clone_of (r_Name repo))) keeps_locks
    (gitSyncToDisk cloneDir cryptoKey sshTempDir repo).
Proof.
  unfold clone_of. destruct (safeRepoPath cloneDir (r_Name repo)) as [d|e] eqn:E; simpl.
  - pose proof (safeRepoPath_Ok _ _ _ E) as [-> _]. apply pull_calm, gitSyncToDisk_shape. by left.
  - unfold gitSyncToDisk. by rewrite E.
Qed.
Lemma gitSyncToDisk_returns repo :
  returns (fun r => snd r = None -> safeRepoPath cloneDir (r_Name repo) = Ok (fst r))
    (gitSyncToDisk cloneDir cryptoKey sshTempDir repo).
Proof.
  unfold gitSyncToDisk. destruct (safeRepoPath _ _) as [d|e]; [|done].
  eapply returns_bind; [apply returns_any|]. intros [[opts file] [e|]] _; [done|].
  eapply returns_bind; [apply returns_any|]. intros err _.
  eapply returns_bind; [apply returns_any|]. intros u _. done.
Qed.

Lemma keeps_modify f : (forall m, m_locks (f m) = m_locks m) -> keeps_locks unit (fun m => Some (tt, f m)).
Proof. intros H m. apply H. Qed.
Lemma keeps_reads {X} (f : Mem -> X) : keeps_locks X (fun m => Some (f m, m)).
Proof. by intros m. Qed.
Lemma keeps_db_read {X} (f : fault -> DB -> X) on : shaped (git_within cloneDir on) keeps_locks (db_read f).
Proof. split; [done|]. intros flt. by split; [intros m|]. Qed.

Lemma recordError_calm n msg i s : shaped (git_within cloneDir None) keeps_locks (recordError n msg i s).
Proof. straight. Qed.
Lemma finishSync_calm n sha i s : shaped (git_within cloneDir None) keeps_locks (finishSync n sha i s).
Proof. straight. Qed.
Lemma sync_locked_calm repo cfg i s :
  shaped (git_within cloneDir (clone_of (r_Name repo))) keeps_locks
    (sync_locked cloneDir cryptoKey sshTempDir repo cfg i s).
Proof.
  unfold sync_locked. cbv zeta. apply shaped_bind; [by apply shaped_atomic|]. intros known.
  apply shaped_bind; [done|]. intros _.
  eapply shaped_bind_ret; [apply gitSyncToDisk_calm|apply gitSyncToDisk_returns|].
  intros [d [e|]] Hd; cbn [fst snd] in *.
  { apply shaped_bind; [done|]. intros _. apply within_weaken, recordError_calm. }
  apply shaped_bind.
  - apply safeRepoPath_Ok in Hd as Hj; [|done]. unfold clone_of. rewrite (Hd eq_refl). destruct Hj as [-> _].
    apply pull_calm. eapply shaped_mono; [..|apply HeadSHA_shape]; [|done]. intros X q. by left.
  - intros [sha|e]; (apply shaped_bind; [|intros _]); apply within_weaken.
    + destruct (negb _); [|done]. apply stack_calm, runStacksSync_shape.
    + apply finishSync_calm.
    + done.
    + apply recordError_calm.
Qed.

Let unlocked {B} : B -> Mem -> list Act -> Prop := fun _ m' _ => holds_none t m'.
Let spec := lock_spec cloneDir t.
Lemma unlocked_Ret {B} (b : B) m h : holds_none t m -> wp spec (Ret b) unlocked m h.
Proof. intros Hm m' Hr. simpl in Hr. unfold unlocked. by rewrite <- Hr. Qed.

Lemma wp_syncRepoFromDB repo cfg di m h :
  holds_none t m -> wp spec (syncRepoFromDB cloneDir cryptoKey sshTempDir t repo cfg di) unlocked m h.
Proof.
  intros Hm. unfold syncRepoFromDB. cbv zeta.
  apply wp_seq; [by apply wp_calm_none|]. intros start m1 h1 H1.
  apply wp_seq; [apply wp_calm_none; [straight|done]|]. intros _ m2 h2 H2.
  eapply wp_critical; [done|apply clone_of_spec|apply sync_locked_calm|].
  intros _ m3 h3 H3. by apply (wp_Unlock _ _ (r_Name repo)).
Qed.

Lemma loadInfisical_calm : shaped (git_within cloneDir None) keeps_locks (loadInfisicalFromDB cryptoKey).
Proof.
  unfold loadInfisicalFromDB. apply shaped_bind; [apply keeps_db_read|]. intros [st|e]; [|done]. cbv zeta.
  apply shaped_bind; [apply keeps_db_read|]. done.
Qed.
Lemma load_default_calm : shaped (git_within cloneDir None) keeps_locks load_default_interval.
Proof. unfold load_default_interval. apply shaped_bind; [apply keeps_db_read|done]. Qed.
Lemma refresh_calm : shaped (git_within cloneDir None) keeps_locks refreshContainers.
Proof. apply docker_calm, refreshContainers_shape. Qed.
Lemma apply_calm dir name repo cfg : shaped (git_within cloneDir None) keeps_locks (applyStack dir name repo cfg).
Proof. apply stack_calm, applyStack_shape. Qed.

Lemma wp_db_read {X B} (f : fault -> DB -> X) (k : X -> prog B) m h :
  holds_none t m -> (forall flt d m' h', holds_none t m' -> wp spec (k (f flt d)) unlocked m' h') ->
  wp spec (bind (db_read f) k) unlocked m h.
Proof.
  intros Hm Hk m1 Hr. simpl in Hr. split; [done|]. intros flt _ m2 Hr2. simpl in Hr2.
  split; [done|]. apply Hk. by rewrite <- Hr2, <- Hr.
Qed.
Lemma GetRepoByName_name f name d r : GetRepoByName f name d = Ok r -> r_Name r = name.
Proof.
  unfold GetRepoByName. destruct (stmt_error f); [done|].
  destruct (repo_by_name name (t_repos d)) as [[id row]|] eqn:E; [|done].
  intros [= <-]. by apply repo_by_name_Some in E as [_ ?].
Qed.

Lemma wp_applyCallback repo stack m h :
  holds_none t m -> wp spec (applyCallback cloneDir cryptoKey sshTempDir t repo stack) unlocked m h.
Proof.
  intros Hm. unfold applyCallback. apply wp_seq; [by apply wp_calm_none|].
  intros st m1 h1 H1. destruct (negb _); [by apply unlocked_Ret|].
  apply wp_db_read; [done|]. intros flt d m2 h2 H2.
  destruct (GetRepoByName flt repo d) as [row|e] eqn:E; [|by apply wp_calm_none].
  apply GetRepoByName_name in E. subst repo.
  apply wp_seq; [by apply wp_calm_none, H2; apply loadInfisical_calm|]. intros cfg m3 h3 H3.
  apply wp_seq; [by apply wp_calm_none|]. intros _ m4 h4 H4.
  eapply wp_critical; [done|apply clone_of_spec|apply gitSyncToDisk_calm|].
  intros pulled m5 h5 H5. apply wp_bind. apply (wp_Unlock _ _ (r_Name row)); [done|]. intros m6 H6.
  apply wp_seq; [apply wp_calm_none; [by destruct (snd pulled)|done]|]. intros _ m7 h7 H7.
  apply wp_seq; [apply wp_calm_none; [apply apply_calm|done]|]. intros _ m8 h8 H8.
  apply wp_calm_none; [apply refresh_calm|done].
Qed.

Lemma wp_round_one repo cfg di m h :
  holds_none t m -> wp spec (round_one cloneDir cryptoKey sshTempDir t repo cfg di) unlocked m h.
Proof.
  intros Hm. unfold round_one. apply wp_seq; [by apply wp_calm_none|]. intros [e|] m1 h1 H1; [by apply unlocked_Ret|].
  destruct (negb (r_Enabled repo)); [by apply unlocked_Ret|].
  apply wp_seq; [by apply wp_calm_none|]. intros t1 m2 h2 H2.
  apply wp_seq; [apply wp_calm_none; [straight|done]|]. intros [|] m3 h3 H3; [by apply wp_calm_none|].
  apply wp_seq; [by apply wp_calm_none|]. intros t2 m4 h4 H4.
  apply wp_seq; [by apply wp_calm_none|]. intros [|] m5 h5 H5; [|by apply unlocked_Ret].
  apply wp_seq; [by apply wp_syncRepoFromDB|]. intros _ m6 h6 H6. by apply unlocked_Ret.
Qed.
Lemma wp_doSyncRound repos cfg di m h :
  holds_none t m -> wp spec (doSyncRound cloneDir cryptoKey sshTempDir t repos cfg di) unlocked m h.
Proof.
  revert m h. induction repos as [|repo repos IH]; intros m h Hm; cbn [doSyncRound].
  - apply wp_calm_none; [apply refresh_calm|done].
  - apply wp_seq; [by apply wp_round_one|]. intros [|] m1 h1 H1; [by apply IH|by apply unlocked_Ret].
Qed.
Lemma wp_receive_one m h : holds_none t m -> wp spec receive_one unlocked m h.
Proof.
  intros Hm m1 Hr. simpl in Hr. destruct (m_trigger m1) as [|name names] eqn:E.
  - split; [by rewrite <- Hr|by right].
  - split; [done|]. apply unlocked_Ret. by rewrite Hr in Hm.
Qed.
Lemma drainLoop_calm fuel names : shaped (git_within cloneDir None) keeps_locks (drainLoop fuel names).
Proof.
  revert names. induction fuel as [|fuel IH]; intros names; [done|]. split; [intros m; by destruct (m_trigger m)|].
  intros [x|]; [apply IH|done].
Qed.
Lemma wp_main_turn fuel m h :
  holds_none t m -> wp spec (main_turn cloneDir cryptoKey sshTempDir t fuel) unlocked m h.
Proof.
  intros Hm. unfold main_turn. apply wp_db_read; [done|]. intros flt d m0 h0 H0. cbv zeta.
  apply wp_seq; [apply wp_calm_none; [by destruct (snd (ListRepos flt d))|done]|]. intros _ m1 h1 H1.
  apply wp_seq; [by apply wp_calm_none, H1; apply loadInfisical_calm|]. intros cfg m2 h2 H2.
  apply wp_seq; [by apply wp_calm_none, H2; apply load_default_calm|]. intros di m3 h3 H3.
  apply wp_seq; [by apply wp_calm_none|]. intros _ m4 h4 H4.
  apply wp_seq; [by apply wp_doSyncRound|]. intros _ m5 h5 H5.
  apply wp_seq; [by apply wp_calm_none|]. intros [| |] m6 h6 H6; [by apply wp_calm_none..|].
  apply wp_seq; [by apply wp_receive_one|]. intros name m7 h7 H7.
  apply wp_seq; [apply wp_calm_none; [apply drainLoop_calm|done]|]. intros names m8 h8 H8.
  apply wp_seq; [by apply wp_calm_none, H8; apply loadInfisical_calm|]. intros cfg' m9 h9 H9.
  apply wp_seq.
  { apply wp_loop; [|done]. intros repo m' h' H'. unfold triggered_one.
    destruct (negb _); [by apply unlocked_Ret|]. apply wp_seq; [by apply wp_calm_none|].
    intros _ m1' h1' H1'. apply wp_seq; [by apply wp_calm_none|].
    intros _ m'' h'' H''. by apply wp_syncRepoFromDB. }
  intros _ m10 h10 H10.
  apply wp_seq; [apply wp_calm_none; [apply refresh_calm|done]|]. intros _ m11 h11 H11. by apply unlocked_Ret.
Qed.
Lemma wp_main_loop fuel n m h :
  holds_none t m -> wp spec (main_loop cloneDir cryptoKey sshTempDir t fuel n) unlocked m h.
Proof.
  revert m h. induction n as [|n IH]; intros m h Hm; [by apply unlocked_Ret|]. cbn [main_loop].
  apply wp_seq; [by apply wp_main_turn|]. intros [|] m1 h1 H1; [by apply IH|by apply unlocked_Ret].
Qed.
Lemma wp_startup_scan m h :
  holds_none t m -> wp spec (startup_scan cloneDir cryptoKey sshTempDir t) unlocked m h.
Proof.
  intros Hm. unfold startup_scan. apply wp_db_read; [done|]. intros flt d m1 h1 H1.
  destruct (snd (ListRepos flt d)) as [e|]; [by apply wp_calm_none|].
  apply wp_seq; [by apply wp_calm_none, H1; apply loadInfisical_calm|]. intros cfg m2 h2 H2.
  apply wp_seq; [by apply wp_calm_none, H2; apply load_default_calm|]. intros di m3 h3 H3.
  apply wp_seq; [|intros _ m4 h4 H4; apply wp_calm_none; [apply refresh_calm|done]].
  apply wp_loop; [|done]. intros repo m' h' H'. unfold startup_one.
  destruct (negb _); [by apply unlocked_Ret|by apply wp_syncRepoFromDB].
Qed.
End sync.
