(* ===== verification/Outcome.v ===== *)
(** * What a synchronisation does: success, failure, and what is applied

    The main goroutine is the only one that writes the repositories of the store,
    the backoffs, the schedule and the sync counters ([main_part]); the other
    goroutines may change everything else while it runs. *)
From Stdlib Require Import Ascii.
From S2P Require Import Prelude GoStrings GoPath GitRef Crypto State Sched Metrics Db Effects Git Docker Stacks Sync Footprint Applying Pull Locking.

(** ** The part of the memory that the main goroutine owns *)


Section main.
Context (t : nat).

End main.


(** ** The outcomes *)






Section outcome.
Context `{A : AEAD} (cloneDir cryptoKey sshTempDir : string) (t : nat).










End outcome.

(** ** Running it *)

Definition demo_repo : RepoDB :=
  {| r_ID := "id1"; r_Name := "home"; r_URL := "https://github.com/me/home.git"; r_Branch := "main";
     r_Remote := "origin"; r_AuthType := "none"; r_SSHKeyID := ""; r_PATEnc := ""; r_StacksDir := ".";
     r_SyncInterval := 0; r_Enabled := true; r_CreatedAt := 0; r_UpdatedAt := 0 |}.
Definition no_infisical : InfisicalConfig := {| Token := ""; inf_env := "prod"; URL_ := ""; ProjectID := "" |}.
Definition demo_sync : prog unit := syncRepoFromDB "/d" "k" "/d/.ssh" 7 demo_repo no_infisical 0.

(** The commands that apply stacks. *)
Definition composes (h : list Act) : list Cmd := filter (fun c => is_git c = false) (cmds h).
(** The first sync applies the stack it finds, the second one does not. *)
Example demo_sync_runs :
  match run demo_oracle (demo_sync;;; demo_sync)%prog 0 emptyMem [] with
  | Some (_, m, h) =>
      rs_LastSHA (fst (State.GetRepo "home" (m_store m))) = "c0ffee"
      /\ rs_Status (fst (State.GetRepo "home" (m_store m))) = StatusOK
      /\ map cmd_dir (composes h) = ["/d/home/plex"]
      /\ length (cmds h) = 7%nat
  | None => False
  end.
Proof. vm_compute. done. Qed.

