(* ===== verification/Secrets.v ===== *)
(** * Secrets: the key files are removed, and nothing shows on a command line

    Whatever the outside world answers and the other goroutines do. *)
From Stdlib Require Import Ascii.
From S2P Require Import Prelude GoStrings GoPath GitRef Crypto State Sched Metrics Db Effects Git Docker Stacks Sync Footprint Locking.

(** ** Temporary key files *)

(** Each complete run removes the files it created, in the order of their
    creation, and no other file. *)
Definition tidy {A} (p : prog A) : Prop := forall m h,
  wp any_spec p (fun _ _ h' => exists h1, h' = h ++ h1 /\ temps h1 = removed h1) m h.
Create HintDb tidy.
Definition no_file X (q : Ask X) : Prop := match q with CreateTemp _ _ | Remove _ => False | _ => True end.

Lemma no_file_trace h : Forall (fun a => no_file _ (a_ask a)) h -> temps h = [] /\ removed h = [].
Proof.
  unfold temps, removed. induction 1 as [|[X q x] h Hq _ [IH1 IH2]]; [done|].
  destruct q; try done; by rewrite <- IH1, <- IH2 at 1.
Qed.
Lemma tidy_shaped {D A} (p : prog A) : shaped no_file D p -> tidy p.
Proof.
  intros Hp m h. eapply wp_mono; [|by eapply shaped_trace]. intros a m' h' (h1 & -> & Hx).
  exists h1. split; [done|]. by apply no_file_trace in Hx as [-> ->].
Qed.
Lemma tidy_bind {A B} (p : prog A) (f : A -> prog B) : tidy p -> (forall a, tidy (f a)) -> tidy (bind p f).
Proof.
  intros Hp Hf m h. apply wp_bind. eapply wp_mono; [|apply Hp]. intros a m1 h1 (x & -> & Hx).
  eapply wp_mono; [|apply Hf]. intros b m2 h2 (y & -> & Hy). exists (x ++ y). rewrite app_assoc.
  split; [done|]. autorewrite with trace. congruence.
Qed.
Lemma tidy_for_each {X} (l : list X) body : (forall x, tidy (body x)) -> tidy (for_each l body).
Proof.
  intros H. induction l as [|x l IH]; [|by apply tidy_bind].
  intros m h m' _. exists []. by rewrite app_nil_r.
Qed.
Lemma tidy_Ret {A} (a : A) : tidy (Ret a).
Proof. by apply (tidy_shaped (D := any_step)). Qed.

Lemma git_no_file dir {A D} (p : prog A) : shaped (git_call dir) D p -> shaped no_file D p.
Proof. apply shaped_mono; [by intros X []|done]. Qed.
Lemma stack_no_file {A D} (p : prog A) : shaped stack_call D p -> shaped no_file D p.
Proof. apply shaped_mono; [by intros X []|done]. Qed.
Lemma docker_no_file {A D} (p : prog A) : shaped docker_call D p -> shaped no_file D p.
Proof. apply shaped_mono; [by intros X []|done]. Qed.
Lemma tidy_db_read {X} (f : fault -> DB -> X) : tidy (db_read f).
Proof. apply (tidy_shaped (D := any_step)). by repeat split. Qed.

Section sync.
Context `{A : AEAD} (cloneDir cryptoKey sshTempDir : string) (t : nat).

(** [setupGitAuth] leaves exactly the file it hands to [cleanup], and none when it
    fails. *)
Definition auth_post (h : list Act) (r : AuthOpts * option string * option GoError) (m : Mem) (h' : list Act) : Prop :=
  exists h1, h' = h ++ h1 /\ temps h1 = removed h1 ++ option_list (r.1.2) /\ (r.2 <> None -> r.1.2 = None).
Lemma auth_Ret h x r m :
  temps x = removed x ++ option_list (r.1.2) -> (r.2 <> None -> r.1.2 = None) ->
  wp any_spec (Ret r) (auth_post h) m (h ++ x).
Proof. intros H1 H2 m' _. by exists x. Qed.
Lemma setupGitAuth_files repo m h :
  wp any_spec (setupGitAuth cryptoKey sshTempDir repo) (auth_post h) m h.
Proof.
  unfold setupGitAuth. cbv zeta. rewrite <- (app_nil_r h) at 2.
  destruct (String.eqb (r_AuthType repo) "ssh"); [|repeat case_match; by apply auth_Ret].
  destruct (negb _); [|by apply auth_Ret].
  intros m1 _. split; [done|]. intros flt _. intros m2 _. split; [done|].
  apply wp_Ret_bind. rewrite <- app_assoc.
  destruct (GetSSHKey flt (r_SSHKeyID repo) (m_db m2)) as [key|e]; [|by apply auth_Ret].
  destruct (Decrypt cryptoKey (k_PrivateKeyEnc key)) as [priv|e]; [|by apply auth_Ret].
  intros m3 _. split; [done|]. intros [path|e] _; apply wp_Ret_bind; rewrite <- app_assoc; [|by apply auth_Ret].
  intros m4 _. split; [done|]. intros [e|] _; apply wp_Ret_bind; rewrite <- app_assoc.
  - intros m5 _. split; [done|]. intros [] _. intros m6 _. split; [done|]. intros [] _.
    apply wp_Ret_bind. rewrite <- !app_assoc. by apply auth_Ret.
  - intros m5 _. split; [done|]. intros [] _. apply wp_Ret_bind. rewrite <- !app_assoc. by apply auth_Ret.
Qed.

Lemma gitSyncToDisk_tidy repo : tidy (gitSyncToDisk cloneDir cryptoKey sshTempDir repo).
Proof.
  unfold gitSyncToDisk. destruct (safeRepoPath _ _) as [dir|e]; [|apply tidy_Ret].
  intros m h. apply wp_bind. eapply wp_mono; [|apply setupGitAuth_files].
  intros [[opts file] [e|]] m1 h1 (x & -> & Hx & Hnone); cbn [fst snd] in *.
  { rewrite Hnone in Hx by done. intros m2 _. exists x. by rewrite app_nil_r in Hx. }
  apply wp_bind. eapply wp_mono; [|eapply shaped_trace, git_no_file, SyncRepo_shape].
  intros err m2 h2 (y & -> & Hy). apply no_file_trace in Hy as [Ty Ry].
  destruct file as [path|].
  - intros m3 _. split; [done|]. intros [] _ m4 _. exists (x ++ y ++ [act (Remove path) tt]).
    rewrite !app_assoc. split; [done|]. autorewrite with trace. by rewrite Ty, Ry, Hx, !app_nil_r.
  - intros m3 _. exists (x ++ y). rewrite app_assoc. split; [done|]. autorewrite with trace.
    by rewrite Ty, Ry, Hx, !app_nil_r.
Qed.
Lemma recordError_tidy n msg i s : tidy (recordError n msg i s).
Proof. apply (tidy_shaped (D := any_step)). straight. Qed.
Lemma finishSync_tidy n sha i s : tidy (finishSync n sha i s).
Proof. apply (tidy_shaped (D := any_step)). straight. Qed.
Lemma ask_tidy {X} (q : Ask X) : no_file _ q -> tidy (ask q).
Proof. intros H. by apply (tidy_shaped (D := any_step)). Qed.
Lemma step_tidy {X} (f : Step X) : tidy (Atomic f Ret).
Proof. by apply (tidy_shaped (D := any_step)). Qed.
Lemma stack_tidy {D B} (p : prog B) : shaped stack_call D p -> tidy p.
Proof. intros H. by eapply tidy_shaped, stack_no_file. Qed.
Lemma refresh_tidy : tidy refreshContainers.
Proof. eapply tidy_shaped, docker_no_file, refreshContainers_shape. Qed.
Lemma load_tidy : tidy (loadInfisicalFromDB cryptoKey).
Proof.
  apply tidy_bind; [apply tidy_db_read|]. intros [st|e]; [|by apply tidy_bind; [apply ask_tidy|intros []; apply tidy_Ret]]. cbv zeta.
  apply tidy_bind; [apply tidy_db_read|]. intros r. apply tidy_Ret.
Qed.
Lemma default_tidy : tidy load_default_interval.
Proof. apply tidy_bind; [apply tidy_db_read|]. intros r. apply tidy_Ret. Qed.

Ltac tidy_step := match goal with
  | |- tidy (Ret _) => apply tidy_Ret
  | |- tidy (bind _ _) => apply tidy_bind; [|intros ?]
  | |- tidy (ask _) => by apply ask_tidy
  | |- tidy (log_debug _ _) => by apply ask_tidy
  | |- tidy (log_info _ _) => by apply ask_tidy
  | |- tidy (log_warn _ _) => by apply ask_tidy
  | |- tidy (log_error _ _) => by apply ask_tidy
  | |- tidy (reads _) => apply step_tidy
  | |- tidy (modify _) => apply step_tidy
  | |- tidy (atomic _) => apply step_tidy
  | |- tidy (Lock _ _) => apply step_tidy
  | |- tidy (Unlock _) => apply step_tidy
  | |- tidy receive_one => apply step_tidy
  | |- tidy (db_read _) => apply tidy_db_read
  | |- tidy (for_each _ _) => apply tidy_for_each; intros ?
  | |- tidy (let _ := _ in _) => cbv zeta
  | |- tidy (match ?x with _ => _ end) => destruct x
  | |- tidy _ => eauto with tidy
  end.
#[local] Hint Resolve gitSyncToDisk_tidy recordError_tidy finishSync_tidy refresh_tidy load_tidy default_tidy : tidy.
Lemma applyStack_tidy dir name repo cfg : tidy (applyStack dir name repo cfg).
Proof. eapply stack_tidy, applyStack_shape. Qed.
Lemma runStacksSync_tidy sd repo cfg : tidy (runStacksSync sd repo cfg).
Proof. eapply stack_tidy, runStacksSync_shape. Qed.
Lemma HeadSHA_tidy d : tidy (HeadSHA d).
Proof. by apply (tidy_shaped (D := any_step)). Qed.
#[local] Hint Resolve applyStack_tidy runStacksSync_tidy HeadSHA_tidy : tidy.
Lemma sync_locked_tidy repo cfg i s : tidy (sync_locked cloneDir cryptoKey sshTempDir repo cfg i s).
Proof. unfold sync_locked. repeat tidy_step. Qed.
#[local] Hint Resolve sync_locked_tidy : tidy.
Lemma syncRepoFromDB_tidy repo cfg di : tidy (syncRepoFromDB cloneDir cryptoKey sshTempDir t repo cfg di).
Proof. unfold syncRepoFromDB, mark_syncing. repeat tidy_step. Qed.
#[local] Hint Resolve syncRepoFromDB_tidy : tidy.
Lemma applyCallback_tidy repo stack : tidy (applyCallback cloneDir cryptoKey sshTempDir t repo stack).
Proof. unfold applyCallback. repeat tidy_step. Qed.
Lemma round_one_tidy repo cfg di : tidy (round_one cloneDir cryptoKey sshTempDir t repo cfg di).
Proof. unfold round_one. repeat tidy_step. Qed.
#[local] Hint Resolve round_one_tidy : tidy.
Lemma doSyncRound_tidy repos cfg di : tidy (doSyncRound cloneDir cryptoKey sshTempDir t repos cfg di).
Proof. induction repos as [|repo repos IH]; cbn [doSyncRound]; repeat tidy_step. Qed.
Lemma drainLoop_tidy fuel names : tidy (drainLoop fuel names).
Proof. revert names. induction fuel as [|fuel IH]; intros names; cbn [drainLoop]; repeat tidy_step. Qed.
#[local] Hint Resolve doSyncRound_tidy drainLoop_tidy : tidy.
Lemma main_turn_tidy fuel : tidy (main_turn cloneDir cryptoKey sshTempDir t fuel).
Proof. unfold main_turn, triggered_one. repeat tidy_step. Qed.
#[local] Hint Resolve main_turn_tidy : tidy.
Lemma main_loop_tidy fuel n : tidy (main_loop cloneDir cryptoKey sshTempDir t fuel n).
Proof. induction n as [|n IH]; cbn [main_loop]; repeat tidy_step. Qed.
Lemma startup_scan_tidy : tidy (startup_scan cloneDir cryptoKey sshTempDir t).
Proof. unfold startup_scan, startup_one. repeat tidy_step. Qed.

(** What a trace adds to an earlier one: the temporary files created are the files
    removed, in order. *)
Definition leaves_no_keys (h h' : list Act) : Prop := exists h1, h' = h ++ h1 /\ temps h1 = removed h1.

(** C4. Decrypted SSH keys never stay on disk: whatever git, the file system, the
    database and the other goroutines do, each run of the main goroutine (startup
    scan and any number of turns of its loop) and each run of the apply callback
    that ends has removed exactly the temporary key files it created, in order,
    on every path, errors included, and has removed nothing else. *)
Theorem key_files_removed o fuel turns repo stack n m h :
  (forall u m' h', run o (bind (startup_scan cloneDir cryptoKey sshTempDir t)
                      (fun _ => main_loop cloneDir cryptoKey sshTempDir t fuel turns)) n m h = Some (u, m', h') ->
     leaves_no_keys h h')
  /\ (forall u m' h', run o (applyCallback cloneDir cryptoKey sshTempDir t repo stack) n m h = Some (u, m', h') ->
     leaves_no_keys h h').
Proof.
  assert (forall p : prog unit, tidy p -> forall u m' h', run o p n m h = Some (u, m', h') ->
    leaves_no_keys h h') as Ht.
  { intros p Hp u m' h' Hr. pose proof (wp_run any_spec o p _ n m h ltac:(done) ltac:(done) (Hp m h)) as Hw.
    rewrite Hr in Hw. exact Hw. }
  split; apply Ht; [|apply applyCallback_tidy].
  apply tidy_bind; [apply startup_scan_tidy|]. intros u. apply main_loop_tidy.
Qed.
End sync.

(** ** Secrets and command lines *)

(** What other users of the host and the readers of the logs and the state can see
    of a call: not the environment of a child process, nor what is written to a
    file (both are private to the daemon's user). *)
Definition public X (q : Ask X) : Ask X :=
  match q in Ask X return Ask X with
  | Exec c => Exec {| cmd_name := cmd_name c; cmd_args := cmd_args c; cmd_env := None; cmd_dir := cmd_dir c;
                      cmd_setpgid := cmd_setpgid c; cmd_waitdelay := cmd_waitdelay c |}
  | WriteString path _ => WriteString path ""
  | WriteFile path _ perm => WriteFile path "" perm
  | q => q
  end.
Abbreviation alike := (psim (same_view public)).

Lemma alike_refl {A} (p : prog A) : alike eq p p.
Proof. by apply psim_refl. Qed.
Lemma alike_ask {X} (q q' : Ask X) : public X q = public X q' -> alike eq (ask q) (ask q').
Proof. intros H. constructor; [done|]. intros x. by constructor. Qed.
Lemma alike_bind {A B} (p p' : prog A) (f f' : A -> prog B) :
  alike eq p p' -> (forall a, alike eq (f a) (f' a)) -> alike eq (bind p f) (bind p' f').
Proof. intros Hp Hf. eapply psim_bind; [exact Hp|]. intros a a' <-. apply Hf. Qed.

(** Options with the same shape: only the token differs. *)
Definition same_opts (o o' : AuthOpts) : Prop := Type_ o = Type_ o' /\ SSHKeyPath o = SSHKeyPath o'.
Lemma applyGitEnv_alike cmd o o' : same_opts o o' ->
  alike (fun c c' => exists e e', c = with_env e cmd /\ c' = with_env e' cmd) (applyGitEnv cmd o) (applyGitEnv cmd o').
Proof.
  intros [H1 H2]. unfold applyGitEnv. rewrite <- H1, <- H2. constructor; [done|]. intros environ. cbv zeta.
  eapply psim_bind; [apply alike_refl|]. intros env _ <-. constructor. by do 2 eexists.
Qed.
Lemma git_command_alike what args title attrs o o' : same_opts o o' ->
  alike eq (git_command what args title attrs o) (git_command what args title attrs o').
Proof.
  intros H. unfold git_command. eapply psim_bind; [by apply applyGitEnv_alike|].
  intros c c' (e & e' & -> & ->). apply alike_bind; [apply alike_refl|]. intros []. by constructor; [|constructor].
Qed.
Lemma SyncRepo_alike dir url remote branch o o' : same_opts o o' ->
  alike eq (SyncRepo dir url remote branch o) (SyncRepo dir url remote branch o').
Proof.
  intros H. unfold SyncRepo. cbv zeta. apply alike_bind; [by apply alike_refl|]. intros there.
  apply alike_bind; [destruct there; [apply alike_refl|by apply git_command_alike]|].
  intros [e|]; [apply alike_refl|]. unfold fetchReset. apply alike_bind; [by apply git_command_alike|].
  intros [e|]; [apply alike_refl|by apply git_command_alike].
Qed.

(** Two sets of secrets behind the same ciphertexts: what one key decrypts, the
    other decrypts too, to another text. *)
Section secrets.
Context (A1 A2 : AEAD) (cloneDir sshTempDir key1 key2 : string) (t : nat).
Hypothesis same_errors : forall enc,
  match @Decrypt A1 key1 enc, @Decrypt A2 key2 enc with
  | Ok _, Ok _ => True
  | Err e, Err e' => e = e'
  | _, _ => False
  end.
(** Two Infisical configurations that differ in the token only. *)
Context (cfg1 cfg2 : InfisicalConfig).
Hypothesis same_cfg : inf_env cfg1 = inf_env cfg2 /\ URL_ cfg1 = URL_ cfg2 /\ ProjectID cfg1 = ProjectID cfg2
  /\ String.eqb (Token cfg1) "" = String.eqb (Token cfg2) "".

Definition same_auth (r r' : AuthOpts * option string * option GoError) : Prop :=
  same_opts r.1.1 r'.1.1 /\ r.1.2 = r'.1.2 /\ r.2 = r'.2.
Lemma setupGitAuth_alike repo :
  alike same_auth (@setupGitAuth A1 key1 sshTempDir repo) (@setupGitAuth A2 key2 sshTempDir repo).
Proof.
  unfold setupGitAuth. cbv zeta. destruct (String.eqb (r_AuthType repo) "ssh").
  - destruct (negb _); [|by constructor]. eapply psim_bind; [apply alike_refl|]. intros [key|e] _ <-; [|by constructor].
    pose proof (same_errors (k_PrivateKeyEnc key)) as Hs.
    destruct (@Decrypt A1 _ _), (@Decrypt A2 _ _); try done; [|subst; by constructor].
    eapply psim_bind; [apply alike_refl|]. intros [path|e] _ <-; [|by constructor].
    eapply psim_bind; [by apply alike_ask|]. intros [e|] _ <-.
    + eapply psim_bind; [apply alike_refl|]. intros u _ <-. eapply psim_bind; [apply alike_refl|].
      intros u' _ <-. by constructor.
    + eapply psim_bind; [apply alike_refl|]. intros u _ <-. by constructor.
  - destruct (String.eqb (r_AuthType repo) "pat"); [|by constructor]. destruct (negb _); [|by constructor].
    pose proof (same_errors (r_PATEnc repo)) as Hs.
    destruct (@Decrypt A1 _ _), (@Decrypt A2 _ _); try done; [by constructor|subst; by constructor].
Qed.
Lemma gitSyncToDisk_alike repo :
  alike eq (@gitSyncToDisk A1 cloneDir key1 sshTempDir repo) (@gitSyncToDisk A2 cloneDir key2 sshTempDir repo).
Proof.
  unfold gitSyncToDisk. destruct (safeRepoPath _ _) as [dir|e]; [|apply alike_refl].
  eapply psim_bind; [apply setupGitAuth_alike|].
  intros [[o f] e] [[o' f'] e'] (Ho & Hf & He); simpl in Ho, Hf, He; subst f' e'.
  destruct e as [e|]; [apply alike_refl|]. cbv zeta.
  apply alike_bind; [by apply SyncRepo_alike|]. intros err. apply alike_refl.
Qed.

(** The log lines of a trace. *)
Definition act_log (a : Act) : option (Level * string * list (string * LogValue)) :=
  match a_ask a with Log level msg attrs => Some (level, msg, attrs) | _ => None end.
Definition logs (h : list Act) : list (Level * string * list (string * LogValue)) := omap act_log h.
Lemma logs_viewed h : logs h = logs (viewed public <$> h).
Proof. unfold logs. induction h as [|[X q x] h IH]; [done|]. destruct q; try exact IH. cbn. by f_equal. Qed.

Definition same_cmd (c c' : Cmd) : Prop := public _ (Exec c) = public _ (Exec c').
Lemma same_args dir : domain_args cfg1 = domain_args cfg2 /\ toml_args dir cfg1 = toml_args dir cfg2
  /\ token_args cfg1 = token_args cfg2.
Proof.
  destruct same_cfg as (He & Hu & Hp & _). unfold token_args, toml_args, domain_args. by rewrite He, Hu, Hp.
Qed.
Lemma buildComposeCmd_alike dir name : alike same_cmd (buildComposeCmd dir name cfg1) (buildComposeCmd dir name cfg2).
Proof.
  destruct (same_args dir) as (_ & Ht & Hk). destruct same_cfg as (Henv & _ & _ & Htok).
  unfold buildComposeCmd. rewrite Htok, Ht, Hk, Henv.
  eapply psim_bind; [apply alike_refl|]. intros has _ <-.
  destruct (negb has && _); [|destruct has]; (eapply psim_bind; [apply alike_refl|]); intros [] _ _; [by constructor..|].
  eapply psim_bind; [apply alike_refl|]. intros env _ <-. by constructor.
Qed.
Lemma infisicalMode_alike dir : alike eq (infisicalMode dir cfg1) (infisicalMode dir cfg2).
Proof.
  destruct same_cfg as (_ & _ & _ & Htok). unfold infisicalMode. rewrite Htok. apply alike_refl.
Qed.
Lemma applyStack_alike dir name repo : alike eq (applyStack dir name repo cfg1) (applyStack dir name repo cfg2).
Proof.
  unfold applyStack. apply alike_bind; [apply alike_refl|]. intros _.
  apply alike_bind; [apply alike_refl|]. intros _.
  eapply psim_bind; [apply buildComposeCmd_alike|]. intros c c' Hc. apply alike_bind.
  { apply alike_ask. unfold same_cmd, public in *. simpl in *.
    injection Hc as E1 E2 E3 E4 E5. by rewrite E1, E2, E4, E5. }
  intros res. apply alike_bind; [apply alike_refl|]. intros []. apply alike_bind; [apply alike_refl|]. intros now.
  apply alike_bind; [apply infisicalMode_alike|]. intros mode. apply alike_refl.
Qed.
Lemma runStacksSync_alike sd repo : alike eq (runStacksSync sd repo cfg1) (runStacksSync sd repo cfg2).
Proof.
  unfold runStacksSync. destruct (String.eqb sd ""); [apply alike_refl|].
  apply alike_bind; [apply alike_refl|]. intros [entries|e]; [|apply alike_refl].
  apply psim_for_each. intros e. unfold sync_entry. destruct (negb _); [apply alike_refl|]. cbv zeta.
  apply alike_bind; [apply alike_refl|]. intros p. destruct (String.eqb p ""); [apply alike_refl|apply applyStack_alike].
Qed.
Lemma syncRepoFromDB_alike repo di :
  alike eq (@syncRepoFromDB A1 cloneDir key1 sshTempDir t repo cfg1 di)
           (@syncRepoFromDB A2 cloneDir key2 sshTempDir t repo cfg2 di).
Proof.
  unfold syncRepoFromDB, sync_locked. cbv zeta. apply alike_bind; [apply alike_refl|]. intros start.
  apply alike_bind; [apply alike_refl|]. intros _. apply alike_bind; [apply alike_refl|]. intros _.
  apply alike_bind; [|intros _; apply alike_refl].
  apply alike_bind; [apply alike_refl|]. intros known. apply alike_bind; [apply alike_refl|]. intros _.
  apply alike_bind; [apply gitSyncToDisk_alike|]. intros [d [e|]]; [apply alike_refl|].
  apply alike_bind; [apply alike_refl|]. intros [sha|e]; [|apply alike_refl].
  apply alike_bind; [|intros _; apply alike_refl].
  simpl snd. simpl fst. case_match; [apply runStacksSync_alike|apply alike_refl].
Qed.

(** C5. Secrets stay off the command lines, the logs and the state: run the same
    synchronisation with two different sets of secrets (SSH key, access token,
    Infisical token) behind the same database rows, in a world that answers by
    what it can see.  Every process is started with the same name, arguments and
    directory, the same files are touched, the same lines are logged with the same
    values, the same events are published, and the memory (store, metrics,
    backoffs, database) is the same in the end.  The secrets only go into the environment of the processes and into the key file. *)
Theorem secrets_not_observable o repo di n m :
  blind public o ->
  match run o (@syncRepoFromDB A1 cloneDir key1 sshTempDir t repo cfg1 di) n m [],
        run o (@syncRepoFromDB A2 cloneDir key2 sshTempDir t repo cfg2 di) n m [] with
  | Some (_, m1, h1), Some (_, m2, h2) =>
      m1 = m2 /\ viewed public <$> h1 = viewed public <$> h2 /\ logs h1 = logs h2
      /\ ((fun c => (cmd_name c, cmd_args c, cmd_dir c)) <$> cmds h1
          = (fun c => (cmd_name c, cmd_args c, cmd_dir c)) <$> cmds h2)
  | None, None => True
  | _, _ => False
  end.
Proof.
  intros Ho. pose proof (psim_run public eq o _ _ n m [] [] Ho (syncRepoFromDB_alike repo di) eq_refl) as H.
  revert H.
  generalize (run o (@syncRepoFromDB A1 cloneDir key1 sshTempDir t repo cfg1 di) n m []),
    (run o (@syncRepoFromDB A2 cloneDir key2 sshTempDir t repo cfg2 di) n m []).
  intros [[[u m1] h1]|] [[[u' m2] h2]|] H; try exact H.
  destruct H as (_ & -> & Hv). split; [done|]. split; [done|]. split; [by rewrite (logs_viewed h1), (logs_viewed h2), Hv|].
  assert (forall h, (fun c => (cmd_name c, cmd_args c, cmd_dir c)) <$> cmds h =
    (fun c => (cmd_name c, cmd_args c, cmd_dir c)) <$> cmds (viewed public <$> h)) as Hc.
  { clear. unfold cmds. induction h as [|[X q x] h IH]; [done|]. destruct q; try exact IH.
    cbn. f_equal. exact IH. }
  by rewrite (Hc h1), (Hc h2), Hv.
Qed.
End secrets.

Definition demo_key : string := "0123456789abcdef".
Definition demo_cfg (token : string) : InfisicalConfig :=
  {| Token := token; inf_env := "prod"; URL_ := ""; ProjectID := "p1" |}.
Definition demo_pat_repo : RepoDB :=
  {| r_ID := "id1"; r_Name := "home"; r_URL := "https://github.com/me/home.git"; r_Branch := "main";
     r_Remote := "origin"; r_AuthType := "pat"; r_SSHKeyID := ""; r_PATEnc := "QUFBQUFBQUFBQUFBQUFBQQ=="; r_StacksDir := ".";
     r_SyncInterval := 0; r_Enabled := true; r_CreatedAt := 0; r_UpdatedAt := 0 |}.
(** A cipher that opens everything to a fixed text. *)
Definition const_aead (s : string) : AEAD := {| seal := fun _ _ p => p; open := fun _ _ _ => Some s |}.
Lemma demo_blind : blind public demo_oracle.
Proof.
  assert (forall X (q : Ask X), demo_answer X q = demo_answer X (public X q)) as Hp by (by intros X []).
  intros X q q' h h' H _. simpl. by rewrite (Hp X q), (Hp X q'), H.
Qed.
Lemma same_errors_demo enc :
  match @Decrypt (const_aead "hunter2") demo_key enc, @Decrypt (const_aead "swordfish") demo_key enc with
  | Ok _, Ok _ => True
  | Err e, Err e' => e = e'
  | _, _ => False
  end.
Proof. unfold Decrypt. simpl. destruct (Base64.StdDecode enc); [|done].
  by destruct (Nat.ltb _ _). Qed.
Lemma secrets_not_observable_witness :
  match run demo_oracle (@syncRepoFromDB (const_aead "hunter2") "/d" demo_key "/d/.ssh" 7 demo_pat_repo (demo_cfg "t1") 0) 0 emptyMem [],
        run demo_oracle (@syncRepoFromDB (const_aead "swordfish") "/d" demo_key "/d/.ssh" 7 demo_pat_repo (demo_cfg "t2") 0) 0 emptyMem [] with
  | Some (_, m1, h1), Some (_, m2, h2) =>
      m1 = m2 /\ viewed public <$> h1 = viewed public <$> h2 /\ logs h1 = logs h2
      /\ ((fun c => (cmd_name c, cmd_args c, cmd_dir c)) <$> cmds h1
          = (fun c => (cmd_name c, cmd_args c, cmd_dir c)) <$> cmds h2)
  | None, None => True
  | _, _ => False
  end.
Proof.
  refine (secrets_not_observable (const_aead "hunter2") (const_aead "swordfish") "/d" "/d/.ssh" demo_key demo_key 7
    same_errors_demo (demo_cfg "t1") (demo_cfg "t2") _ demo_oracle demo_pat_repo 0 0 emptyMem demo_blind).
  repeat split; reflexivity.
Defined.
