(* ===== verification/Http.v ===== *)
(** * internal/server/server.go: the parts of the HTTP layer that do no I/O

    Routes, authentication, the security headers, the origin check, the rate
    limiter, the SSE framing and the status report. *)
From Stdlib Require Import Ascii.
From S2P Require Import Prelude GoStrings GoPath GoURL State Sched.

(** ** Requests and responses *)

(** What the handlers read of a request; [r_header] is [Header.Get] on canonical
    names, which is empty for a missing header. *)
Record Request := {
  req_path : string;
  req_host : string;
  req_rawquery : string;
  req_header : string -> string;
}.
(** A JSON document, as the encoder gets it. *)
Inductive Json :=
| JNull | JBool (b : bool) | JNum (z : Z) | JTime (t : Time) | JStr (s : string)
| JArr (l : list Json) | JObj (l : list (string * Json)).
Inductive Body := JSON (j : Json) | Text (s : string) | Served (page : string).
Record Response := { code : Z; headers : list (string * string); body : Body }.
Definition status_only (c : Z) (b : Body) : Response := {| code := c; headers := []; body := b |}.
(** [http.Error], [jsonOK] and [jsonError]. *)
Definition http_error (msg : string) (c : Z) : Response :=
  {| code := c; headers := [("Content-Type", "text/plain; charset=utf-8"); ("X-Content-Type-Options", "nosniff")];
     body := Text (msg +:+ NL) |}.
Definition json_header : list (string * string) := [("Content-Type", "application/json")].
Definition jsonWith (c : Z) (j : Json) : Response := {| code := c; headers := json_header; body := JSON j |}.
Definition jsonOK (j : Json) : Response := jsonWith 200 j.
Definition jsonError (msg : string) (c : Z) : Response := jsonWith c (JObj [("error", JStr msg)]).
Definition set_header (k v : string) (r : Response) : Response :=
  {| code := code r; headers := (k, v) :: headers r; body := body r |}.

(** ** [url.QueryUnescape] and [Query().Get] *)

Fixpoint query_unescape (s : string) : option string :=
  match s with
  | "" => Some ""
  | String c t =>
      if Ascii.eqb c "%" then
        match t with
        | String a (String b u) =>
            if is_hex a && is_hex b
            then String (ascii_of_N (Z.to_N (unhex a * 16 + unhex b))) <$> query_unescape u
            else None
        | _ => None
        end
      else String (if Ascii.eqb c "+" then " " else c) <$> query_unescape t
  end.
(** One [key=value] of a query; malformed ones are dropped. *)
Definition query_pair (kv : string) : option (string * string) :=
  if contains kv ";" || String.eqb kv "" then None
  else
    let '(k, v, _) := cut kv "=" in
    k ← query_unescape k; v ← query_unescape v; Some (k, v).
Definition query_get (key rawquery : string) : string :=
  match filter (fun p => p.1 = key) (omap query_pair (split "&" rawquery)) with
  | (_, v) :: _ => v
  | [] => ""
  end.

(** ** Authentication *)

(** [subtle.ConstantTimeCompare(a, b) == 1]: equal lengths, and no byte differs. *)
Fixpoint xor_all (a b : string) : Z :=
  match a, b with
  | String x a, String y b => Z.lor (Z.lxor (byte_val x) (byte_val y)) (xor_all a b)
  | _, _ => 0
  end.
Definition ctEq (a b : string) : bool := (len a =? len b) && (xor_all a b =? 0).

Definition public_path (path : string) : bool :=
  String.eqb path "/healthz" || String.eqb path "/readyz" || String.eqb path "/metrics" ||
  String.eqb path "/" || has_prefix path "/assets/" || negb (has_prefix path "/api/").
Definition bearer (r : Request) : string :=
  let auth := req_header r "Authorization" in
  if has_prefix auth "Bearer " then trim_prefix auth "Bearer " else "".
Definition unauthorized : Response := http_error "Unauthorized" 401.
Definition authMiddleware (token : string) (next : Request -> Response) (r : Request) : Response :=
  if public_path (req_path r) then next r
  else if String.eqb token "" then unauthorized
  else
    let provided := bearer r in
    let queryToken := query_get "token" (req_rawquery r) in
    if negb (ctEq provided token) && negb (negb (String.eqb queryToken "") && ctEq queryToken token)
    then set_header "WWW-Authenticate" ("Bearer realm=" +:+ quote "stackd") unauthorized
    else next r.
Definition securityHeaders (next : Request -> Response) (r : Request) : Response :=
  set_header "X-Content-Type-Options" "nosniff" (set_header "X-Frame-Options" "DENY"
    (set_header "Referrer-Policy" "strict-origin-when-cross-origin" (next r))).
(** The handler the server installs. *)
Definition server_handler (token : string) (mux : Request -> Response) : Request -> Response :=
  securityHeaders (authMiddleware token mux).

(** ** Routes: method, pattern, handler *)

Definition routes : list (string * string * string) :=
  [("GET", "/assets/", "assets"); ("GET", "/", "index");
   ("GET", "/api/status", "handleStatus"); ("POST", "/api/sync/{repo}", "handleSync");
   ("GET", "/api/logs/{container}", "handleLogs"); ("GET", "/api/exec/{container}", "handleExec");
   ("GET", "/api/activity", "handleActivity");
   ("POST", "/api/stacks/{repo}/{stack}/apply", "handleApplyStack");
   ("GET", "/api/stacks/{repo}/{stack}/compose", "handleComposeFile");
   ("POST", "/api/containers/{container}/start", "handleContainerAction start");
   ("POST", "/api/containers/{container}/stop", "handleContainerAction stop");
   ("POST", "/api/containers/{container}/restart", "handleContainerAction restart");
   ("GET", "/healthz", "healthz"); ("GET", "/readyz", "readyz"); ("GET", "/metrics", "metrics.Handler");
   ("GET", "/api/settings/repos", "handleListRepos"); ("POST", "/api/settings/repos", "handleCreateRepo");
   ("GET", "/api/settings/repos/{id}", "handleGetRepo"); ("PUT", "/api/settings/repos/{id}", "handleUpdateRepo");
   ("DELETE", "/api/settings/repos/{id}", "handleDeleteRepo");
   ("GET", "/api/settings/ssh-keys", "handleListSSHKeys"); ("POST", "/api/settings/ssh-keys", "handleCreateSSHKey");
   ("DELETE", "/api/settings/ssh-keys/{id}", "handleDeleteSSHKey");
   ("GET", "/api/settings/general", "handleGetGeneralSettings");
   ("PUT", "/api/settings/general", "handleUpdateGeneralSettings");
   ("GET", "/api/settings/system", "handleSystemInfo")].

(** ** The origin of a WebSocket *)

(** [strings.EqualFold] folds ASCII letters and the two other runes that fold to
    one (U+017F, U+212A); other non-ASCII letters are compared exactly. *)
Fixpoint fold_case (s : string) : string :=
  match s with
  | "" => ""
  | String a t =>
      match t with
      | String b u =>
          if (byte_val a =? 197) && (byte_val b =? 191) then String "s" (fold_case u)
          else match u with
               | String c v =>
                   if (byte_val a =? 226) && (byte_val b =? 132) && (byte_val c =? 170)
                   then String "k" (fold_case v)
                   else String (lower_byte a) (fold_case t)
               | "" => String (lower_byte a) (fold_case t)
               end
      | "" => String (lower_byte a) ""
      end
  end.
Definition EqualFold (s t : string) : bool := String.eqb (fold_case s) (fold_case t).
(** [allowed] is the value of [ALLOWED_ORIGINS]. *)
Definition checkOrigin (ip_literal : string -> option string) (allowed : string) (r : Request) : bool :=
  let origin := req_header r "Origin" in
  if String.eqb origin "" then true
  else
    match Parse ip_literal origin with
    | None => false
    | Some u =>
        if negb (String.eqb allowed "") && existsb (fun a => EqualFold (trim_space a) origin) (split "," allowed)
        then true
        else EqualFold (u_host u) (req_host r)
    end.

(** ** Rate limiting *)

(** The window of [New]: the value of [SYNC_RATE_LIMIT_SECONDS]. *)
Definition rate_window (v : string) : Z :=
  match Atoi v with
  | Some n => if 0 <? n then wrap64 (n * Second) else 5 * Second
  | None => 5 * Second
  end.
(** [time.Since(last) < window] with a saturating difference; [since] is the clock
    reading of [time.Since], [now] the one that is stored. *)
Definition Allow (window : Z) (key : string) (since now : Time) (lastTime : gmap string Time)
    : bool * gmap string Time :=
  match lastTime !! key with
  | Some last =>
      if Z.max int64_min (Z.min int64_max (since - last)) <? window then (false, lastTime)
      else (true, <[key := now]> lastTime)
  | None => (true, <[key := now]> lastTime)
  end.

(** ** Server-sent events *)

Definition sse_event (line : string) : string := ("data: " +:+ line +:+ NL +:+ NL)%string.
Definition sse_lines (p : string) : list string := filter (fun l => l <> "") (split nl p).
(** The loop over the lines: [ok i] says whether the [i]-th write goes through. *)
Fixpoint sse_send (ok : nat -> bool) (i : nat) (lines : list string) : list string * bool :=
  match lines with
  | [] => ([], true)
  | line :: lines =>
      if ok i then let '(sent, r) := sse_send ok (S i) lines in (sse_event line :: sent, r) else ([], false)
  end.
(** [Write(p)]: what was sent, the count, and whether it failed. *)
Definition sseWrite (ok : nat -> bool) (p : string) : list string * Z * bool :=
  let '(sent, r) := sse_send ok 0 (sse_lines p) in
  if r then (sent, len p, false) else (sent, 0, true).

(** ** The status report *)

Record repoView := {
  rv_Name : string;
  rv_LastSync : Time;
  rv_LastSHA : string;
  rv_Status : string;
  rv_LastError : string;
  rv_Infisical : InfisicalState;
  rv_Stacks : list StackState;
}.
Definition group_stacks (l : list StackState) : gmap string (list StackState) :=
  foldl (fun m st => <[ss_RepoName st := default [] (m !! ss_RepoName st) ++ [st]]> m) ∅ l.
Definition repo_view (full : FullState) (r : RepoState) : repoView :=
  {| rv_Name := rs_Name r; rv_LastSync := rs_LastSync r; rv_LastSHA := rs_LastSHA r;
     rv_Status := rs_Status r; rv_LastError := rs_LastError r; rv_Infisical := fs_Infisical full;
     rv_Stacks := default [] (group_stacks (fs_Stacks full) !! rs_Name r) |}.
Definition handleStatus (full : FullState) : list repoView * InfisicalState :=
  (repo_view full <$> fs_Repos full, fs_Infisical full).

(** ** Readiness *)

Definition ready_synced (repos : list RepoState) (stacks : list StackState) : bool :=
  Nat.eqb (length repos) 0 || existsb (fun st => negb (IsZero (ss_LastApply st))) stacks.
Definition readyz (dockerOK : bool) (repos : list RepoState) (stacks : list StackState) : Response :=
  let synced := ready_synced repos stacks in
  if dockerOK && synced
  then jsonWith 200 (JObj [("status", JStr "ready")])
  else jsonWith 503 (JObj [("status", JStr "not_ready"); ("docker", JBool dockerOK); ("synced", JBool synced)]).
Definition healthz : Response := jsonWith 200 (JObj [("status", JStr "ok")]).

(** ** Lemmas *)

Lemma xor_all_eq a b : len a = len b -> xor_all a b = 0 <-> a = b.
Proof.
  revert b. induction a as [|x a IH]; intros [|y b] Hl; try (unfold len in Hl; simpl in Hl; lia); [done|].
  simpl xor_all. rewrite Z.lor_eq_0_iff, Z.lxor_eq_0_iff, IH by (unfold len in *; simpl in Hl; lia).
  split.
  - intros [Hx ->]. f_equal. unfold byte_val in Hx. apply N2Z.inj in Hx.
    by rewrite <- (ascii_N_embedding x), <- (ascii_N_embedding y), Hx.
  - by intros [= -> ->].
Qed.
Lemma ctEq_iff a b : ctEq a b = true <-> a = b.
Proof.
  unfold ctEq. rewrite andb_true_iff, !Z.eqb_eq. split.
  - intros [Hl Hx]. by apply xor_all_eq.
  - intros ->. split; [done|]. by apply xor_all_eq.
Qed.
Lemma ctEq_neq a b : ctEq a b = false <-> a <> b.
Proof. rewrite <- ctEq_iff. by destruct (ctEq a b). Qed.

(** ** Properties *)

(** C6. The API is closed without the right token.  A request outside the public
    paths reaches the handlers exactly when a token is configured and the request
    carries it, as a bearer header or as the [token] query parameter; every other
    such request gets a 401 that does not depend on the handler, also when no
    token is configured.  The comparison accepts equal strings only. *)
Theorem authMiddleware_fail_closed token next r :
  let granted := token <> "" /\ (bearer r = token \/ query_get "token" (req_rawquery r) = token) in
  (public_path (req_path r) = true -> authMiddleware token next r = next r)
  /\ (public_path (req_path r) = false ->
        (granted -> authMiddleware token next r = next r)
        /\ (~ granted -> code (authMiddleware token next r) = 401
             /\ forall next', authMiddleware token next' r = authMiddleware token next r))
  /\ forall a b, ctEq a b = true <-> a = b.
Proof.
  intros granted. unfold authMiddleware. split_and!; [by intros ->| |apply ctEq_iff].
  intros ->. destruct (String.eqb_spec token "") as [->|Ht].
  - split; [by intros []|]. by intros _.
  - subst granted. set (q := query_get "token" (req_rawquery r)).
    destruct (ctEq (bearer r) token) eqn:Eb; cbn [negb andb].
    { apply ctEq_iff in Eb. split; [done|]. intros []. auto. }
    apply ctEq_neq in Eb. destruct (ctEq q token) eqn:Eq; rewrite ?andb_true_r, ?andb_false_r; cbn [negb].
    + apply ctEq_iff in Eq. destruct (String.eqb_spec q "") as [E|]; [congruence|]. cbn [negb].
      split; [done|]. intros []. auto.
    + apply ctEq_neq in Eq. split; [intros (_ & [?|?]); done|done].
Qed.

(** The pattern is public exactly outside [/api/]. *)
Lemma public_path_api path :
  public_path path = negb (has_prefix path "/api/").
Proof.
  unfold public_path. destruct (has_prefix path "/api/") eqn:E; cbn [negb]; [|by rewrite !orb_true_r].
  apply has_prefix_iff in E as [r ->]. reflexivity.
Qed.

(** C28. The dashboard's secrets are behind the token: without it, whatever the
    multiplexer does, only the five patterns outside [/api/] (assets, the page,
    the two probes, the metrics) can be answered by a handler, every response
    carries the three security headers, and every registered pattern under
    [/api/] answers 401. *)
Theorem routes_protected token mux r :
  bearer r <> token -> query_get "token" (req_rawquery r) <> token ->
  (forall m p hd, In (m, p, hd) routes -> has_prefix p "/api/" = false ->
     In p ["/assets/"; "/"; "/healthz"; "/readyz"; "/metrics"])
  /\ (has_prefix (req_path r) "/api/" = true -> code (server_handler token mux r) = 401)
  /\ Forall (fun h => In h (headers (server_handler token mux r)))
       [("X-Content-Type-Options", "nosniff"); ("X-Frame-Options", "DENY");
        ("Referrer-Policy", "strict-origin-when-cross-origin")].
Proof.
  intros Hb Hq. split_and!.
  - assert (forallb (fun x => has_prefix x.1.2 "/api/" ||
      existsb (String.eqb x.1.2) ["/assets/"; "/"; "/healthz"; "/readyz"; "/metrics"]) routes = true) as H
      by (vm_compute; reflexivity).
    rewrite forallb_forall in H. intros m p hd Hin Hp. specialize (H _ Hin). cbn [fst snd] in H.
    rewrite Hp in H. apply existsb_exists in H as (x & Hx & E). apply String.eqb_eq in E. by subst.
  - intros Hp. unfold server_handler, securityHeaders. cbn [set_header code].
    unfold authMiddleware. rewrite public_path_api, Hp. cbn [negb].
    destruct (String.eqb token ""); [done|].
    apply ctEq_neq in Hb as ->, Hq as ->. by rewrite andb_false_r.
  - unfold server_handler, securityHeaders. rewrite !Forall_cons. split_and!; cbn; auto.
Qed.
Lemma routes_protected_witness :
  let r := {| req_path := "/api/status"; req_host := "h"; req_rawquery := "token=guess"; req_header := fun _ => "" |} in
  code (server_handler "secret" (fun _ => healthz) r) = 401.
Proof.
  intros r. apply (routes_protected "secret" (fun _ => healthz) r); [intros H; discriminate H|intros H; discriminate H|reflexivity].
Defined.

(** The clock readings of the requests of [key] that were let through: the one that
    was compared, the one that was stored. *)
Fixpoint allowed_at (window : Z) (key : string) (reqs : list (string * (Time * Time))) (m : gmap string Time)
    : list (Time * Time) :=
  match reqs with
  | [] => []
  | (k, (since, now)) :: reqs =>
      let '(ok, m) := Allow window k since now m in
      if ok && String.eqb k key then (since, now) :: allowed_at window key reqs m else allowed_at window key reqs m
  end.
(** Each comparison is at least [w] after what was stored before. *)
Fixpoint spaced (w : Z) (prev : option Time) (l : list (Time * Time)) : Prop :=
  match l with
  | [] => True
  | (since, now) :: l => match prev with Some p => w <= since - p | None => True end /\ spaced w (Some now) l
  end.
Lemma rate_window_range v : rate_window v <= int64_max.
Proof.
  unfold rate_window, wrap64, Second, int64_max. destruct (Atoi v) as [n|]; [|lia].
  pose proof (Z.mod_pos_bound (n * 10 ^ 9 + 2 ^ 63) (2 ^ 64)). destruct (0 <? n); lia.
Qed.
Lemma Allow_spec w key since now (m : gmap string Time) : 0 < w <= int64_max ->
  match (m !! key : option Time) with
  | Some last => (w <= since - last /\ Allow w key since now m = (true, <[key := now]> m))
                 \/ (since - last < w /\ Allow w key since now m = (false, m))
  | None => Allow w key since now m = (true, <[key := now]> m)
  end.
Proof.
  intros Hw. unfold Allow. destruct (m !! key) as [last|]; [|done]. unfold int64_max, int64_min in *.
  destruct (Z.ltb_spec (Z.max (- 2 ^ 63) (Z.min (2 ^ 63 - 1) (since - last))) w); [right|left]; split; try done; lia.
Qed.
Lemma allowed_spaced w key reqs m : 0 < w <= int64_max -> spaced w (m !! key) (allowed_at w key reqs m).
Proof.
  intros Hw. revert m. induction reqs as [|[k [since now]] reqs IH]; intros m; [done|]. cbn [allowed_at].
  pose proof (Allow_spec w k since now m Hw) as H.
  destruct (String.eqb_spec k key) as [->|Hne].
  - destruct (m !! key) as [last|] eqn:E; [destruct H as [[Hl ->]|[Hl ->]]|rewrite H]; cbn [andb].
    + split; [done|]. pose proof (IH (<[key := now]> m)) as H. by rewrite lookup_insert_eq in H.
    + rewrite <- E. apply IH.
    + split; [done|]. pose proof (IH (<[key := now]> m)) as H'. by rewrite lookup_insert_eq in H'.
  - destruct (Allow w k since now m) as [ok m'] eqn:Ea. rewrite andb_false_r.
    assert (m' !! key = m !! key) as <-; [|apply IH].
    destruct (m !! k); [destruct H as [[_ H]|[_ H]]|]; simplify_eq; by rewrite ?lookup_insert_ne.
Qed.

(** The sync endpoint lets through, for each repository, requests that are at
    least one window apart, whatever the other repositories do and in whatever
    order the clock readings come; a request that comes a full window after the
    last one that was let through is let through, and so is a first request; a
    refused request does not push the next one back.  The window is the one [New]
    reads from the environment, five seconds if that is no positive number; it
    is assumed not to overflow to a negative duration. *)
Theorem rateLimiter_spacing v key reqs since now :
  let w := rate_window v in
  let m := foldl (fun m r => snd (Allow w (fst r) (fst (snd r)) (snd (snd r)) m)) ∅ reqs in
  (0 < w -> spaced w None (allowed_at w key reqs ∅)
  /\ (forall last, m !! key = Some last -> w <= since - last -> fst (Allow w key since now m) = true)
  /\ (m !! key = None -> fst (Allow w key since now m) = true)
  /\ (fst (Allow w key since now m) = false -> snd (Allow w key since now m) = m))
  /\ ((forall n, Atoi v = Some n -> n <= 0) -> w = 5 * Second).
Proof.
  intros w m. split.
  { intros Hpos. assert (0 < w <= int64_max) as Hw by (split; [done|apply rate_window_range]).
  pose proof (Allow_spec w key since now m Hw) as H. unfold Time in *. split_and!.
  - pose proof (allowed_spaced w key reqs ∅ Hw) as Hs. by rewrite lookup_empty in Hs.
  - intros last E Hl. rewrite E in H. destruct H as [[_ ->]|[? _]]; [done|lia].
  - intros E. rewrite E in H. by rewrite H.
  - destruct (m !! key); [destruct H as [[_ ->]|[_ ->]]|rewrite H]; done. }
  intros Hv. subst w. unfold rate_window. destruct (Atoi v) as [n|] eqn:E; [|done].
  specialize (Hv n eq_refl). by destruct (Z.ltb_spec 0 n); [lia|].
Qed.

Lemma sse_send_spec ok i lines :
  let '(sent, r) := sse_send ok i lines in
  exists rest, lines = firstn (length sent) lines ++ rest
    /\ sent = sse_event <$> firstn (length sent) lines /\ (r = true -> rest = []).
Proof.
  revert i. induction lines as [|l lines IH]; intros i; [by exists []|]. cbn [sse_send].
  destruct (ok i); [|by exists (l :: lines)].
  specialize (IH (S i)). destruct (sse_send ok (S i) lines) as [sent r].
  destruct IH as (rest & H1 & H2 & H3). exists rest. cbn [length firstn app fmap list_fmap].
  split_and!; [by f_equal|by f_equal|done].
Qed.

(** What the log stream sends are well-formed events: one [data:] line and an
    empty line for each non-empty line of the output, in order, so the receiver
    gets back exactly the lines; no line of the output can end an event early or
    forge a field.  A write that fails sends a prefix, and is reported. *)
Theorem sseWrite_frames ok p :
  let '(sent, n, failed) := sseWrite ok p in
  Forall (fun l => l <> "" /\ str_forallb (fun a => negb (Ascii.eqb a nl)) l = true) (sse_lines p)
  /\ (exists rest, sse_lines p = firstn (length sent) (sse_lines p) ++ rest
       /\ sent = sse_event <$> firstn (length sent) (sse_lines p)
       /\ (failed = false -> rest = []))
  /\ (failed = false -> n = len p) /\ (failed = true -> n = 0).
Proof.
  unfold sseWrite. pose proof (sse_send_spec ok 0 (sse_lines p)) as H.
  assert (Forall (fun l => l <> "" /\ str_forallb (fun a => negb (Ascii.eqb a nl)) l = true) (sse_lines p)) as Hl.
  { apply Forall_forall. intros l Hl. apply list_elem_of_filter in Hl as [Hne Hl].
    split; [done|by eapply split_no_sep]. }
  destruct (sse_send ok 0 (sse_lines p)) as [sent r]. destruct H as (rest & H1 & H2 & H3).
  destruct r; split_and!; try done; by exists rest; split_and!; auto.
Qed.

Lemma group_stacks_lookup l k :
  default [] (group_stacks l !! k) = filter (fun st => ss_RepoName st = k) l.
Proof.
  unfold group_stacks. induction l as [|st l IH] using rev_ind; [done|].
  rewrite foldl_app, filter_app, <- IH. cbn [foldl]. rewrite lookup_insert, filter_cons, filter_nil.
  repeat case_decide; subst; simplify_eq; try done. by rewrite app_nil_r.
Qed.

Lemma partition_by {A} (key : A -> string) (ns : list string) (l : list A) :
  NoDup ns -> (ns ≫= fun n => filter (fun x => key x = n) l) ≡ₚ filter (fun x => key x ∈ ns) l.
Proof.
  induction 1 as [|n ns Hn _ IH].
  - induction l as [|x l IHl]; [done|]. rewrite filter_cons, decide_False; [done|set_solver].
  - cbn [mbind list_bind]. rewrite IH. clear IH. induction l as [|x l IHl]; [done|].
    rewrite !filter_cons. destruct (decide (key x = n)) as [<-|Hx].
    + rewrite decide_False, decide_True by set_solver. simpl. by rewrite IHl.
    + destruct (decide (key x ∈ ns)).
      * rewrite decide_True by set_solver. rewrite <- IHl. by rewrite Permutation_middle.
      * by rewrite decide_False by set_solver.
Qed.

(** The status report nests every stack under its own repository: one view per
    repository, in the order of the listing; each view holds exactly the stacks
    whose repository name is its name, in their order.  When the names are
    distinct, as they are in the store, the views together show each stack of a
    known repository exactly once, and no other stack. *)
Theorem handleStatus_partition full :
  let views := fst (handleStatus full) in
  rv_Name <$> views = rs_Name <$> fs_Repos full
  /\ Forall (fun v => rv_Stacks v = filter (fun st => ss_RepoName st = rv_Name v) (fs_Stacks full)
              /\ rv_Infisical v = fs_Infisical full) views
  /\ (NoDup (rs_Name <$> fs_Repos full) ->
      (views ≫= rv_Stacks) ≡ₚ filter (fun st => ss_RepoName st ∈ rs_Name <$> fs_Repos full) (fs_Stacks full)).
Proof.
  intros views. subst views. simpl. split_and!.
  - by rewrite <- list_fmap_compose.
  - apply Forall_fmap, Forall_forall. intros r _. simpl. by rewrite group_stacks_lookup.
  - intros Hnd. rewrite <- (partition_by ss_RepoName _ (fs_Stacks full) Hnd).
    induction (fs_Repos full) as [|r rs IH]; [done|]. apply NoDup_cons in Hnd as [_ Hnd]. simpl.
    rewrite group_stacks_lookup. by rewrite IH.
Qed.
