(* ===== verification/EventStream.v ===== *)
(** * The formats of the live streams

    What encoding/json writes for an activity event, and how a browser reads an
    event stream: the parser of server-sent events by the HTML standard and a
    decoder of JSON objects of strings are the references the streams of Streams.v
    are compared with. *)
From Stdlib Require Import Ascii.
From S2P Require Import Prelude GoStrings Bus Http.

(** ** UTF-8 *)

Definition between (lo hi : Z) (a : ascii) : bool := (lo <=? byte_val a) && (byte_val a <=? hi).
Definition cont : ascii -> bool := between 128 191.
Definition utf2 (a b : ascii) : bool := between 194 223 a && cont b.
Definition utf3 (a b c : ascii) : bool :=
  cont c && (between 224 224 a && between 160 191 b || between 225 236 a && cont b
             || between 237 237 a && between 128 159 b || between 238 239 a && cont b).
Definition utf4 (a b c d : ascii) : bool :=
  cont c && cont d && (between 240 240 a && between 144 191 b || between 241 243 a && cont b
                       || between 244 244 a && between 128 143 b).
Fixpoint is_utf8 (s : string) : bool :=
  match s with
  | "" => true
  | String a t =>
      if byte_val a <? 128 then is_utf8 t
      else match t with
           | String b u =>
               if utf2 a b then is_utf8 u
               else match u with
                    | String c v =>
                        if utf3 a b c then is_utf8 v
                        else match v with
                             | String d w => if utf4 a b c d then is_utf8 w else false
                             | "" => false
                             end
                    | "" => false
                    end
           | "" => false
           end
  end.

(** ** encoding/json: strings *)

Definition escape_u (d3 d2 d1 d0 : Z) : string :=
  String backslash (String "u" (String (hex_digit d3) (String (hex_digit d2) (String (hex_digit d1) (str1 (hex_digit d0)))))).
(** An ASCII character: HTML characters are escaped, too. *)
Definition json_ascii (a : ascii) : string :=
  let v := byte_val a in
  if Ascii.eqb a dquote || Ascii.eqb a backslash then String backslash (str1 a)
  else if v =? 8 then String backslash "b"
  else if v =? 12 then String backslash "f"
  else if v =? 10 then String backslash "n"
  else if v =? 13 then String backslash "r"
  else if v =? 9 then String backslash "t"
  else if (v <? 32) || Ascii.eqb a "<" || Ascii.eqb a ">" || Ascii.eqb a "&"
  then escape_u 0 0 (v / 16) (v mod 16)
  else str1 a.
(** U+2028 and U+2029, which JavaScript takes for line ends, are escaped; a byte
    that is no UTF-8 becomes the replacement character. *)
Definition line_sep (a b c : ascii) : bool :=
  between 226 226 a && between 128 128 b && between 168 169 c.
Definition json_rune3 (a b c : ascii) : string :=
  if line_sep a b c then escape_u 2 0 2 (byte_val c mod 16) else String a (String b (str1 c)).
Definition replacement : string := escape_u 15 15 15 13.
Fixpoint json_body (s : string) : string :=
  match s with
  | "" => ""
  | String a t =>
      if byte_val a <? 128 then json_ascii a +:+ json_body t
      else match t with
           | String b u =>
               if utf2 a b then String a (str1 b) +:+ json_body u
               else match u with
                    | String c v =>
                        if utf3 a b c then json_rune3 a b c +:+ json_body v
                        else match v with
                             | String d w =>
                                 if utf4 a b c d then String a (String b (String c (str1 d))) +:+ json_body w
                                 else replacement +:+ json_body t
                             | "" => replacement +:+ json_body t
                             end
                    | "" => replacement +:+ json_body t
                    end
           | "" => replacement
           end
  end.
Definition json_string (s : string) : string := (str1 dquote +:+ json_body s +:+ str1 dquote)%string.
Definition member (name value : string) : string := (json_string name +:+ ":" +:+ json_string value)%string.
(** [json.Marshal] of an event; [stack] is left out when it is empty. *)
Definition marshal_event (ev : ActivityEvent) : string :=
  ("{" +:+ member "type" (ev_Type ev) +:+ "," +:+ member "repo" (ev_Repo ev)
   +:+ (if String.eqb (ev_Stack ev) "" then "" else "," +:+ member "stack" (ev_Stack ev))
   +:+ "," +:+ member "msg" (ev_Msg ev) +:+ "}")%string.

(** ** A decoder of JSON objects of strings *)

Definition hex_val (a : ascii) : option Z :=
  if is_digit a then Some (byte_val a - 48)
  else if between 97 102 a then Some (byte_val a - 87)
  else if between 65 70 a then Some (byte_val a - 55) else None.
Definition hex4 (a b c d : ascii) : option Z :=
  x ← hex_val a; y ← hex_val b; z ← hex_val c; w ← hex_val d; Some (((x * 16 + y) * 16 + z) * 16 + w).
Definition byte (z : Z) : ascii := ascii_of_N (Z.to_N z).
(** The UTF-8 of a code point of the basic plane. *)
Definition utf8_of (code : Z) : string :=
  if code <? 128 then str1 (byte code)
  else if code <? 2048 then String (byte (192 + code / 64)) (str1 (byte (128 + code mod 64)))
  else String (byte (224 + code / 4096)) (String (byte (128 + code / 64 mod 64)) (str1 (byte (128 + code mod 64)))).
Definition unescape (a : ascii) : option ascii :=
  if Ascii.eqb a dquote || Ascii.eqb a backslash || Ascii.eqb a "/" then Some a
  else if Ascii.eqb a "b" then Some (byte 8) else if Ascii.eqb a "f" then Some (byte 12)
  else if Ascii.eqb a "n" then Some (byte 10) else if Ascii.eqb a "r" then Some (byte 13)
  else if Ascii.eqb a "t" then Some (byte 9) else None.
Definition prepend (p : string) (r : option (string * string)) : option (string * string) :=
  match r with Some (s, rest) => Some ((p +:+ s)%string, rest) | None => None end.
(** After the opening quote: the string, and what follows the closing one. *)
Fixpoint parse_body (s : string) : option (string * string) :=
  match s with
  | "" => None
  | String a t =>
      if Ascii.eqb a dquote then Some ("", t)
      else if Ascii.eqb a backslash then
        match t with
        | String e u =>
            if Ascii.eqb e "u" then
              match u with
              | String h3 (String h2 (String h1 (String h0 w))) =>
                  match hex4 h3 h2 h1 h0 with
                  | Some code => prepend (utf8_of code) (parse_body w)
                  | None => None
                  end
              | _ => None
              end
            else match unescape e with Some c => prepend (str1 c) (parse_body u) | None => None end
        | "" => None
        end
      else if byte_val a <? 32 then None
      else prepend (str1 a) (parse_body t)
  end.
Definition parse_string (s : string) : option (string * string) :=
  match s with String a t => if Ascii.eqb a dquote then parse_body t else None | "" => None end.
Definition expect (a : ascii) (s : string) : option string :=
  match s with String b t => if Ascii.eqb a b then Some t else None | "" => None end.
(** [count] members at most. *)
Fixpoint parse_members (count : nat) (s : string) : option (list (string * string)) :=
  match count with
  | O => None
  | S count =>
      '(k, s) ← parse_string s; s ← expect ":" s; '(v, s) ← parse_string s;
      match s with
      | String "," s => l ← parse_members count s; Some ((k, v) :: l)
      | String "}" "" => Some [(k, v)]
      | _ => None
      end
  end.
Definition assoc (k : string) (l : list (string * string)) : string :=
  default "" (snd <$> find (fun p => String.eqb (fst p) k) l).
Definition decode_event (s : string) : option ActivityEvent :=
  s ← expect "{" s; l ← parse_members 4 s;
  Some {| ev_Type := assoc "type" l; ev_Repo := assoc "repo" l; ev_Stack := assoc "stack" l; ev_Msg := assoc "msg" l |}.

(** ** An event stream, as a browser reads it *)

Definition cr : ascii := "013"%char.
(** The complete lines (ended by CR LF, LF or CR), and the unfinished one. *)
Fixpoint es_lines (s : string) : list string * string :=
  match s with
  | "" => ([], "")
  | String a t =>
      if Ascii.eqb a nl then ("" :: fst (es_lines t), snd (es_lines t))
      else if Ascii.eqb a cr then
        match t with
        | String b u => if Ascii.eqb b nl then ("" :: fst (es_lines u), snd (es_lines u))
                        else ("" :: fst (es_lines t), snd (es_lines t))
        | "" => ([""], "")
        end
      else match es_lines t with
           | ([], r) => ([], String a r)
           | (l :: ls, r) => (String a l :: ls, r)
           end
  end.
Record EsEvent := { es_type : string; es_data : string }.
(** The buffers of the event being read. *)
Record EsState := { buf_type : string; buf_data : string }.
Definition es_start : EsState := {| buf_type := ""; buf_data := "" |}.
Definition es_field (name value : string) (st : EsState) : EsState :=
  if String.eqb name "event" then {| buf_type := value; buf_data := buf_data st |}
  else if String.eqb name "data" then {| buf_type := buf_type st; buf_data := (buf_data st +:+ value +:+ NL)%string |}
  else st.
Definition drop_last (s : string) : string := take (String.length s - 1) s.
Fixpoint es_read (st : EsState) (lines : list string) : list EsEvent :=
  match lines with
  | [] => []
  | line :: lines =>
      if String.eqb line "" then
        if String.eqb (buf_data st) "" then es_read es_start lines
        else {| es_type := if String.eqb (buf_type st) "" then "message" else buf_type st;
                es_data := drop_last (buf_data st) |} :: es_read es_start lines
      else
        let '(name, value, found) := cut line ":" in
        if found then if String.eqb name "" then es_read st lines else es_read (es_field name (trim_prefix value " ") st) lines
        else es_read (es_field line "" st) lines
  end.
(** The events dispatched so far. *)
Definition es_parse (s : string) : list EsEvent := es_read es_start (fst (es_lines s)).
Definition message (data : string) : EsEvent := {| es_type := "message"; es_data := data |}.

(** ** Lemmas: strings *)

Lemma ascii_cases (P : ascii -> Prop) (p : ascii -> bool) :
  forallb p (ascii_of_nat <$> seq 0 256) = true -> (forall a, p a = true -> P a) -> forall a, P a.
Proof.
  intros Hall H a. apply H. rewrite forallb_forall in Hall. apply Hall, list_elem_of_In, list_elem_of_fmap.
  exists (nat_of_ascii a). split; [by rewrite ascii_nat_embedding|]. apply list_elem_of_In, in_seq.
  pose proof (nat_ascii_bounded a). lia.
Qed.
(** Neither CR nor LF. *)
Definition plain (a : ascii) : bool := negb (Ascii.eqb a nl) && negb (Ascii.eqb a cr).
Abbreviation one_line := (str_forallb plain).

Lemma json_ascii_parse a t : byte_val a <? 128 = true ->
  parse_body (json_ascii a +:+ t) = prepend (str1 a) (parse_body t).
Proof. by destruct a as [[] [] [] [] [] [] [] []]. Qed.
Lemma prepend_prepend p q r : prepend p (prepend q r) = prepend (p +:+ q) r.
Proof. destruct r as [[s rest]|]; [|done]. cbn. by rewrite str_app_assoc. Qed.
(** Outside of ASCII a byte stands for itself. *)
Lemma parse_high a t : byte_val a <? 128 = false -> parse_body (String a t) = prepend (str1 a) (parse_body t).
Proof. by destruct a as [[] [] [] [] [] [] [] []]. Qed.
Lemma line_sep_parse a b c t : line_sep a b c = true ->
  parse_body (escape_u 2 0 2 (byte_val c mod 16) +:+ t) = prepend (String a (String b (str1 c))) (parse_body t).
Proof.
  unfold line_sep. intros H. apply andb_true_iff in H as [H Hc]. apply andb_true_iff in H as [Ha Hb].
  assert (a = byte 226) as -> by (revert Ha; by destruct a as [[] [] [] [] [] [] [] []]).
  assert (b = byte 128) as -> by (revert Hb; by destruct b as [[] [] [] [] [] [] [] []]).
  revert Hc. by destruct c as [[] [] [] [] [] [] [] []].
Qed.
Lemma high lo hi a : 128 <= lo -> between lo hi a = true -> byte_val a <? 128 = false.
Proof. unfold between. intros. bool_prop. lia. Qed.
Lemma utf2_high a b : utf2 a b = true -> byte_val a <? 128 = false /\ byte_val b <? 128 = false.
Proof. unfold utf2, cont. intros [Ha Hb]%andb_true_iff. split; by eapply high; [|eassumption]. Qed.
Lemma utf3_high a b c : utf3 a b c = true ->
  byte_val a <? 128 = false /\ byte_val b <? 128 = false /\ byte_val c <? 128 = false.
Proof.
  unfold utf3, cont, between. intros H. bool_prop.
  assert (128 <= byte_val a /\ 128 <= byte_val b /\ 128 <= byte_val c) by (destruct_and!; destruct_or!; destruct_and!; lia). lia.
Qed.
Lemma utf4_high a b c d : utf4 a b c d = true ->
  byte_val a <? 128 = false /\ byte_val b <? 128 = false /\ byte_val c <? 128 = false /\ byte_val d <? 128 = false.
Proof.
  unfold utf4, cont, between. intros H. bool_prop.
  assert (128 <= byte_val a /\ 128 <= byte_val b /\ 128 <= byte_val c /\ 128 <= byte_val d)
    by (destruct_and!; destruct_or!; destruct_and!; lia). lia.
Qed.
(** Induction over the runes of a text. *)
Lemma utf8_ind (P : string -> Prop) :
  P "" ->
  (forall a t, byte_val a <? 128 = true -> P t -> P (String a t)) ->
  (forall a b t, utf2 a b = true -> P t -> P (String a (String b t))) ->
  (forall a b c t, utf2 a b = false -> utf3 a b c = true -> P t -> P (String a (String b (String c t)))) ->
  (forall a b c d t, utf2 a b = false -> utf3 a b c = false -> utf4 a b c d = true -> P t ->
     P (String a (String b (String c (String d t))))) ->
  forall s, is_utf8 s = true -> P s.
Proof.
  intros H0 H1 H2 H3 H4 s. remember (String.length s) as n eqn:En. revert s En.
  induction n as [n IH] using lt_wf_ind. intros [|a t] -> H; [done|]. cbn [is_utf8] in H.
  destruct (byte_val a <? 128) eqn:Ea; [apply H1; [done|]; eapply IH; [|done|done]; cbn; lia|].
  destruct t as [|b u]; [done|]. destruct (utf2 a b) eqn:E2; [apply H2; [done|]; eapply IH; [|done|done]; cbn; lia|].
  destruct u as [|c v]; [done|]. destruct (utf3 a b c) eqn:E3; [apply H3; [done..|]; eapply IH; [|done|done]; cbn; lia|].
  destruct v as [|d w]; [done|]. destruct (utf4 a b c d) eqn:E4; [|done].
  apply H4; [done..|]. eapply IH; [|done|done]. cbn. lia.
Qed.
Lemma str1_app c t : (str1 c +:+ t)%string = String c t.
Proof. done. Qed.
Lemma json_body_parse s t : is_utf8 s = true -> parse_body (json_body s +:+ t) = prepend s (parse_body t).
Proof.
  intros Hs. revert t. pattern s. revert s Hs. apply utf8_ind; [|intros a t|intros a b t|intros a b c t|intros a b c d t].
  - intros t. cbn. rewrite str_app_nil_l. by destruct (parse_body t) as [[]|].
  - intros Ha IH r. cbn [json_body]. rewrite Ha, str_app_assoc, json_ascii_parse, IH by done. by rewrite prepend_prepend.
  - intros H2 IH r. destruct (utf2_high _ _ H2) as [Ha Hb]. cbn [json_body]. rewrite Ha, H2, str_app_assoc, !str_app_cons, str1_app.
    rewrite !parse_high, IH by done. by rewrite !prepend_prepend.
  - intros H2 H3 IH r. destruct (utf3_high _ _ _ H3) as (Ha & Hb & Hc). cbn [json_body].
    rewrite Ha, H2, H3, str_app_assoc. unfold json_rune3. destruct (line_sep a b c) eqn:El.
    + by rewrite (line_sep_parse a b c) by done; rewrite IH, prepend_prepend.
    + rewrite !str_app_cons, str1_app. rewrite !parse_high, IH by done. by rewrite !prepend_prepend.
  - intros H2 H3 H4 IH r. destruct (utf4_high _ _ _ _ H4) as (Ha & Hb & Hc & Hd). cbn [json_body].
    rewrite Ha, H2, H3, H4, str_app_assoc, !str_app_cons, str1_app. rewrite !parse_high, IH by done.
    by rewrite !prepend_prepend.
Qed.
Lemma parse_json_string s t : is_utf8 s = true -> parse_string (json_string s +:+ t) = Some (s, t).
Proof.
  intros Hs. unfold json_string. rewrite !str_app_assoc, str1_app. cbn [parse_string].
  rewrite (proj2 (Ascii.eqb_eq dquote dquote) eq_refl), json_body_parse by done.
  rewrite str1_app. cbn [parse_body].
  rewrite (proj2 (Ascii.eqb_eq dquote dquote) eq_refl). cbn. by rewrite str_app_nil_r.
Qed.

#[local] Arguments json_string : simpl never.
#[local] Arguments member : simpl never.

(** ** Lemmas: the text is one line *)

Lemma json_ascii_plain a : one_line (json_ascii a) = true.
Proof. by destruct a as [[] [] [] [] [] [] [] []]. Qed.
Lemma high_plain a : byte_val a <? 128 = false -> plain a = true.
Proof. by destruct a as [[] [] [] [] [] [] [] []]. Qed.
Lemma hex_plain z : 0 <= z < 16 -> plain (hex_digit z) = true.
Proof.
  intros H. assert (forallb (fun n => plain (hex_digit (Z.of_nat n))) (seq 0 16) = true) as Hall by (vm_compute; done).
  rewrite forallb_forall in Hall. rewrite <- (Z2Nat.id z) by lia. apply Hall, in_seq. lia.
Qed.
Lemma json_body_plain s : is_utf8 s = true -> one_line (json_body s) = true.
Proof.
  intros Hs. pattern s. revert s Hs. apply utf8_ind; [done|intros a t|intros a b t|intros a b c t|intros a b c d t].
  - intros Ha IH. cbn [json_body]. by rewrite Ha, str_forallb_app, json_ascii_plain, IH.
  - intros H2 IH. destruct (utf2_high _ _ H2) as [Ha Hb]. cbn [json_body]. rewrite Ha, H2, str_forallb_app, IH.
    cbn. by rewrite !high_plain.
  - intros H2 H3 IH. destruct (utf3_high _ _ _ H3) as (Ha & Hb & Hc). cbn [json_body].
    rewrite Ha, H2, H3, str_forallb_app, IH. unfold json_rune3. destruct (line_sep a b c).
    + unfold escape_u, str1. cbn [str_forallb]. rewrite !hex_plain; [done|apply Z.mod_pos_bound; lia|lia..].
    + cbn. by rewrite !high_plain.
  - intros H2 H3 H4 IH. destruct (utf4_high _ _ _ _ H4) as (Ha & Hb & Hc & Hd). cbn [json_body].
    rewrite Ha, H2, H3, H4, str_forallb_app, IH. cbn. by rewrite !high_plain.
Qed.
Lemma json_string_plain s : is_utf8 s = true -> one_line (json_string s) = true.
Proof. intros H. unfold json_string. by rewrite !str_forallb_app, json_body_plain. Qed.

(** The texts of an event are UTF-8. *)
Definition event_utf8 (ev : ActivityEvent) : bool :=
  is_utf8 (ev_Type ev) && is_utf8 (ev_Repo ev) && is_utf8 (ev_Stack ev) && is_utf8 (ev_Msg ev).
Lemma member_plain k v : is_utf8 k = true -> is_utf8 v = true -> one_line (member k v) = true.
Proof. intros. unfold member. by rewrite !str_forallb_app, !json_string_plain. Qed.
Lemma marshal_plain ev : event_utf8 ev = true -> one_line (marshal_event ev) = true.
Proof.
  unfold event_utf8. intros H. bool_prop. destruct H as [[[Ht Hr] Hs] Hm]. unfold marshal_event.
  destruct (String.eqb (ev_Stack ev) ""); rewrite !str_forallb_app, !member_plain by done; done.
Qed.
Lemma parse_member k v t : is_utf8 k = true -> is_utf8 v = true ->
  parse_string (member k v +:+ t) = Some (k, (":" +:+ json_string v +:+ t)%string).
Proof. intros. unfold member. by rewrite !str_app_assoc, parse_json_string. Qed.
Lemma expect_app a t : expect a (str1 a +:+ t) = Some t.
Proof. unfold expect. rewrite str1_app. by rewrite (proj2 (Ascii.eqb_eq a a) eq_refl). Qed.
Lemma comma_app t : ("," +:+ t)%string = String "," t.
Proof. done. Qed.
Lemma expect_colon t : expect ":" (":" +:+ t) = Some t.
Proof. done. Qed.
Lemma parse_members_next n k v t : is_utf8 k = true -> is_utf8 v = true ->
  parse_members (S n) (member k v +:+ String "," t) = (l ← parse_members n t; Some ((k, v) :: l)).
Proof.
  intros Hk Hv. cbn [parse_members]. rewrite parse_member by done. cbn. rewrite expect_colon. cbn. by rewrite parse_json_string.
Qed.
Lemma parse_members_last n k v : is_utf8 k = true -> is_utf8 v = true ->
  parse_members (S n) (member k v +:+ "}") = Some [(k, v)].
Proof.
  intros Hk Hv. cbn [parse_members]. rewrite parse_member by done. cbn. rewrite expect_colon. cbn. by rewrite parse_json_string.
Qed.
Lemma decode_marshal ev : event_utf8 ev = true -> decode_event (marshal_event ev) = Some ev.
Proof.
  unfold event_utf8. intros H. bool_prop. destruct H as [[[Ht Hr] Hs] Hm]. unfold marshal_event, decode_event.
  destruct (String.eqb_spec (ev_Stack ev) "") as [Es|Es]; rewrite ?str_app_nil_l, ?str_app_assoc;
    rewrite (expect_app "{"), ?comma_app; cbn [mbind option_bind].
  - rewrite !parse_members_next, parse_members_last by done. cbn. destruct ev; cbn in *. by subst.
  - rewrite !parse_members_next, parse_members_last by done. cbn. by destruct ev.
Qed.

(** ** Lemmas: frames *)

Lemma es_lines_line l t : one_line l = true ->
  es_lines (l +:+ String nl t) = (l :: fst (es_lines t), snd (es_lines t)).
Proof.
  induction l as [|a l IH]; intros H; [done|]. cbn [str_forallb] in H. apply andb_true_iff in H as [Ha Hl].
  unfold plain in Ha. apply andb_true_iff in Ha as [H1 H2]. apply negb_true_iff in H1, H2.
  rewrite str_app_cons. cbn [es_lines]. rewrite H1, H2, (IH Hl). done.
Qed.
Lemma data_line_cut l : cut ("data: " +:+ l) ":" = ("data", (" " +:+ l)%string, true).
Proof. by destruct l. Qed.
Lemma drop_last_nl s : drop_last (s +:+ NL) = s.
Proof.
  unfold drop_last. rewrite str_length_app. cbn [String.length NL str1]. replace (String.length s + 1 - 1)%nat with (String.length s) by lia.
  induction s as [|a s IH]; [done|]. rewrite str_app_cons. cbn [String.length take]. by rewrite IH.
Qed.
(** Each frame is read as one message. *)
Lemma es_frame l t : one_line l = true -> es_parse (sse_event l +:+ t) = message l :: es_parse t.
Proof.
  intros H. unfold es_parse, sse_event. rewrite !str_app_assoc.
  change ("data: " +:+ (l +:+ (NL +:+ (NL +:+ t))))%string with (("data: " +:+ l) +:+ String nl (String nl t))%string.
  rewrite es_lines_line by done. cbn [fst es_read].
  change (es_lines (String nl t)) with ("" :: fst (es_lines t), snd (es_lines t)). cbn [fst].
  change (String.eqb ("data: " +:+ l) "") with false. cbn match.
  rewrite data_line_cut. change (String.eqb "data" "") with false. cbn match.
  change (es_field "data" (trim_prefix (" " +:+ l) " ") es_start) with {| buf_type := ""; buf_data := (l +:+ NL)%string |}.
  cbn [es_read buf_data buf_type]. change (String.eqb "" "") with true. cbn match.
  destruct (String.eqb (l +:+ NL) "") eqn:E.
  { apply String.eqb_eq, str_app_eq_nil in E as [_ E]. done. }
  by rewrite drop_last_nl.
Qed.
Definition texts (l : list string) : string := foldr String.append "" l.
Lemma es_frames ls : Forall (fun l => one_line l = true) ls -> es_parse (texts (sse_event <$> ls)) = message <$> ls.
Proof.
  induction 1 as [|l ls Hl _ IH]; [done|]. cbn [fmap list_fmap texts foldr]. fold (texts (sse_event <$> ls)).
  change (sse_event l ++ texts (sse_event <$> ls))%string with (sse_event l +:+ texts (sse_event <$> ls))%string.
  by rewrite es_frame, IH.
Qed.
