(* ===== verification/Streams.v ===== *)
(** * internal/server/server.go: the log and activity streams

    [handleLogs] with [StreamLogs] of internal/docker/client.go, and
    [handleActivity].  [ok i] says whether the [i]-th write to the connection goes
    through; a write that fails gives the error [werr].  What a stream sends is the
    list of its frames. *)
From Stdlib Require Import Ascii.
From S2P Require Import Prelude GoStrings Bus Effects Docker Http EventStream.

Definition stream_headers : list (string * string) :=
  [("Content-Type", "text/event-stream"); ("Cache-Control", "no-cache"); ("Connection", "keep-alive");
   ("X-Accel-Buffering", "no")].
(** The start of the response, and the frames. *)
Record Stream := { st_head : Response; st_sent : list string }.
Definition streaming : Response := {| code := 200; headers := stream_headers; body := Text "" |}.
Definition refused (msg : string) (c : Z) : Stream := {| st_head := http_error msg c; st_sent := [] |}.

Section logs.
Context (ok : nat -> bool) (werr : GoError).

(** The writes of stdcopy, the first of them being the [i]-th. *)
Fixpoint copy_chunks (i : nat) (chunks : list string) : list string * bool :=
  match chunks with
  | [] => ([], false)
  | p :: chunks =>
      let '(sent, _, failed) := sseWrite (fun k => ok (i + k)%nat) p in
      if failed then (sent, true)
      else let '(rest, failed) := copy_chunks (i + length sent)%nat chunks in (sent ++ rest, failed)
  end.
(** What was sent, and the error. *)
Definition StreamLogs (c : nat) (name : string) : prog (list string * option GoError) := (
  opened <- ask (ContainerLogs c name);;
  match opened with
  | Some e => Ret ([], Some (wrap ("container logs " +:+ quote name +:+ ": ") e))
  | None =>
      read <- ask (LogChunks c name);;
      let '(sent, failed) := copy_chunks 0 (fst read) in
      let err := if failed then Some werr else snd read in
      res <- (match err with
              | None => Ret None
              | Some e =>
                  cancelled <- ask CtxErr;;
                  Ret (match cancelled with None => Some (wrap "read logs: " e) | Some _ => None end)
              end);;
      ask (LogsClose c name);;;
      Ret (sent, res)
  end)%prog.
Definition handleLogs (flusher : bool) (containerName : string) : prog Stream := (
  if String.eqb containerName "" then Ret (refused "missing container name" 400)
  else
    client <- Get;;
    match client with
    | None => Ret (refused "Docker client unavailable" 503)
    | Some c =>
        if negb flusher then Ret (refused "streaming not supported" 500)
        else
          res <- StreamLogs c containerName;;
          let '(sent, err) := res in
          Ret {| st_head := streaming;
                 st_sent := sent ++ match err with
                                    | Some e => let '(last, _, _) := sseWrite (fun k => ok (length sent + k)%nat)
                                                                              ("error: " +:+ err_text e) in last
                                    | None => []
                                    end |}
    end)%prog.
End logs.

(** ** The activity stream *)

(** What the loop is woken by: the request is over, or a receive ([None] when the
    channel is closed). *)
Inductive activity_wake := RequestDone | FromBus (data : option ActivityEvent).
Definition activity_frame (ev : ActivityEvent) : string := sse_event (marshal_event ev).
Fixpoint activity_loop (wakes : list activity_wake) : list string :=
  match wakes with
  | [] => []
  | RequestDone :: _ => []
  | FromBus None :: _ => []
  | FromBus (Some ev) :: wakes => activity_frame ev :: activity_loop wakes
  end.
Definition handleActivity (flusher : bool) (wakes : list activity_wake) : Stream :=
  if negb flusher then refused "streaming not supported" 500
  else {| st_head := streaming; st_sent := activity_loop wakes |}.

(** ** Lemmas *)

Lemma sse_lines_app_frames p : Forall (fun l => l <> "") (sse_lines p).
Proof. apply Forall_forall. intros l Hl. by apply list_elem_of_filter in Hl as [Hne _]. Qed.
Lemma sseWrite_ok ok p : (forall i, ok i = true) -> sseWrite ok p = (sse_event <$> sse_lines p, len p, false).
Proof.
  intros Hok. unfold sseWrite. assert (forall i ls, sse_send ok i ls = (sse_event <$> ls, true)) as ->; [|done].
  intros i ls. revert i. induction ls as [|l ls IH]; intros i; [done|]. cbn [sse_send]. by rewrite Hok, IH.
Qed.
(** No carriage return. *)
Definition no_cr : string -> bool := str_forallb (fun a => negb (Ascii.eqb a cr)).
Lemma split_no_cr s : no_cr s = true -> Forall (fun l => no_cr l = true) (split nl s).
Proof.
  unfold no_cr. induction s as [|a s IH]; intros H; [by repeat constructor|]. cbn [str_forallb] in H.
  apply andb_true_iff in H as [Ha Hs]. specialize (IH Hs). cbn [split]. destruct (Ascii.eqb a nl); [by constructor|].
  destruct (split nl s) as [|w ws]; [by repeat constructor; cbn; rewrite Ha|].
  apply Forall_cons in IH as [Hw Hws]. constructor; [|done]. cbn. by rewrite Ha.
Qed.
Lemma forallb_both p q s : str_forallb p s = true -> str_forallb q s = true -> str_forallb (fun a => p a && q a) s = true.
Proof.
  induction s as [|a s IH]; [done|]. cbn [str_forallb]. intros [Hp Hs]%andb_true_iff [Hq Ht]%andb_true_iff.
  by rewrite Hp, Hq, IH.
Qed.
Lemma sse_lines_plain p : no_cr p = true -> Forall (fun l => one_line l = true) (sse_lines p).
Proof.
  intros H. apply split_no_cr in H. rewrite Forall_forall in H. apply Forall_forall. intros l Hl.
  apply list_elem_of_filter in Hl as [_ Hl]. apply forallb_both; [|by apply H]. by eapply split_no_sep.
Qed.
Lemma texts_app l l' : texts (l ++ l') = (texts l +:+ texts l')%string.
Proof.
  induction l as [|x l IH]; [done|]. cbn [app texts foldr]. fold (texts (l ++ l')) (texts l). rewrite IH.
  change (?a ++ ?b)%string with (a +:+ b)%string. by rewrite str_app_assoc.
Qed.
(** [ls] are the lines of the text [s] that are not blank; the last one may lack its
    line end. *)
Definition no_nl : string -> bool := str_forallb (fun a => negb (Ascii.eqb a nl)).
Inductive is_lines : string -> list string -> Prop :=
| lines_none : is_lines "" []
| lines_blank s ls : is_lines s ls -> is_lines (NL +:+ s) ls
| lines_line l s ls : l <> "" -> no_nl l = true -> is_lines s ls -> is_lines (l +:+ NL +:+ s)%string (l :: ls)
| lines_last l : l <> "" -> no_nl l = true -> is_lines l [l].
Lemma join_lines ws : ws <> [] -> Forall (fun w => no_nl w = true) ws ->
  is_lines (join NL ws) (filter (fun l => l <> "") ws).
Proof.
  intros Hne. induction ws as [|w ws IH]; [done|]. intros [Hw Hws]%Forall_cons. rewrite filter_cons.
  destruct ws as [|w2 ws]; [cbn; case_decide as H; [by constructor|]|].
  - subst w. constructor.
  - specialize (IH ltac:(done) Hws). change (join NL (w :: w2 :: ws)) with (w +:+ NL +:+ join NL (w2 :: ws))%string.
    case_decide as H; [by constructor|]. subst w. rewrite str_app_nil_l. by constructor.
Qed.
Lemma sse_lines_spec p : is_lines p (sse_lines p).
Proof.
  rewrite <- (join_split nl p) at 1. apply join_lines; [apply split_nonempty|].
  apply Forall_forall. intros w. apply split_no_sep.
Qed.
(** Every line of the text has its line end. *)
Fixpoint ends_line (s : string) : bool :=
  match s with "" => true | String a "" => Ascii.eqb a nl | String _ s => ends_line s end.
Lemma ends_line_app s t : ends_line (s +:+ t) = true -> ends_line t = true.
Proof.
  induction s as [|a s IH]; [done|]. rewrite str_app_cons. cbn [ends_line]. destruct (s +:+ t)%string eqn:E; [|exact IH].
  by apply str_app_eq_nil in E as [_ ->].
Qed.
Lemma unended l : l <> "" -> no_nl l = true -> ends_line l = false.
Proof.
  unfold no_nl. induction l as [|a l IH]; [done|]. intros _. cbn [str_forallb ends_line]. intros [Ha Hl]%andb_true_iff.
  destruct l as [|b l]; [by destruct (Ascii.eqb a nl)|]. by apply IH.
Qed.
Lemma is_lines_app s ls t ks : is_lines s ls -> ends_line s = true -> is_lines t ks -> is_lines (s +:+ t) (ls ++ ks).
Proof.
  intros H He Ht. induction H as [|s ls _ IH|l s ls Hn Hl _ IH|l Hn Hl].
  - done.
  - rewrite str_app_assoc. constructor. by apply IH, (ends_line_app NL).
  - rewrite !str_app_assoc. cbn [app]. constructor; [done..|]. by apply IH, (ends_line_app NL), (ends_line_app l).
  - by rewrite unended in He.
Qed.
(** The text without its line ends. *)
Definition unbroken (s : string) : string := str_filter (fun a => negb (Ascii.eqb a nl)) s.
Lemma unbroken_app s t : unbroken (s +:+ t) = (unbroken s +:+ unbroken t)%string.
Proof.
  unfold unbroken. induction s as [|a s IH]; [done|]. rewrite str_app_cons. cbn [str_filter].
  destruct (negb _); [by rewrite IH|exact IH].
Qed.
Lemma is_lines_texts s ls : is_lines s ls -> texts ls = unbroken s.
Proof.
  induction 1 as [|s ls _ IH|l s ls _ Hl _ IH|l _ Hl]; [done|by rewrite unbroken_app|..].
  - rewrite !unbroken_app. unfold unbroken at 1. rewrite str_filter_id by done. cbn [texts foldr]. fold (texts ls). by rewrite IH.
  - cbn. unfold unbroken. rewrite str_filter_id by done. apply str_app_nil_r.
Qed.
(** How the lines that are displayed relate to the log, which was read in the pieces
    [chunks]: they are the lines of each piece in turn; nothing but line ends is lost
    of the log; and they are the lines of the log when no piece ends within one. *)
Record displays (chunks ls : list string) : Prop := {
  dp_pieces : exists lss, ls = concat lss /\ Forall2 is_lines chunks lss;
  dp_texts : texts ls = unbroken (texts chunks);
  dp_whole : Forall (fun p => ends_line p = true) chunks -> is_lines (texts chunks) ls;
}.
Lemma displays_lines chunks : displays chunks (chunks ≫= sse_lines).
Proof.
  split.
  - exists (sse_lines <$> chunks). split; [|apply Forall2_fmap_r, Forall_Forall2_diag, Forall_forall; intros p _; apply sse_lines_spec].
    induction chunks as [|p chunks IH]; [done|]. cbn. by f_equal.
  - induction chunks as [|p chunks IH]; [done|]. cbn [mbind list_bind]. rewrite texts_app, IH, (is_lines_texts p) by apply sse_lines_spec.
    symmetry. apply unbroken_app.
  - induction 1 as [|p chunks Hp _ IH]; [constructor|]. cbn [mbind list_bind].
    change (texts (p :: chunks)) with (p +:+ texts chunks)%string. apply is_lines_app; [apply sse_lines_spec|done|exact IH].
Qed.
(** What the writes of the pieces send. *)
Definition shown (chunks : list string) : list string := chunks ≫= sse_lines.
Lemma copy_chunks_ok ok i chunks : (forall i, ok i = true) -> copy_chunks ok i chunks = (sse_event <$> shown chunks, false).
Proof.
  intros Hok. revert i. induction chunks as [|p chunks IH]; intros i; [done|]. cbn [copy_chunks].
  rewrite sseWrite_ok by done. rewrite IH. unfold shown. cbn [mbind list_bind]. by rewrite fmap_app.
Qed.

(** ** The log stream *)

(** The log and the errors of the daemon contain no carriage return. *)
Definition cr_free X (q : Ask X) : X -> Prop :=
  match q in Ask X return X -> Prop with
  | ContainerLogs _ _ => fun r => match r with Some e => no_cr (err_text e) = true | None => True end
  | LogChunks _ _ => fun r => Forall (fun p => no_cr p = true) (fst r)
      /\ match snd r with Some e => no_cr (err_text e) = true | None => True end
  | _ => fun _ => True
  end.
Lemma quote_no_cr s : no_cr (quote s) = true.
Proof.
  assert (no_cr (quote_body s) = true) as Hq.
  { unfold no_cr. induction s as [|a s IH]; [done|]. cbn [quote_body]. rewrite str_forallb_app, IH, andb_true_r.
    by destruct a as [[] [] [] [] [] [] [] []]. }
  unfold no_cr, quote in *. rewrite ?str_app_cons. cbn [str_forallb]. rewrite ?str_forallb_app.
  cbn [str_forallb]. by rewrite Hq.
Qed.
Lemma no_cr_app s t : no_cr (s +:+ t) = no_cr s && no_cr t.
Proof. apply str_forallb_app. Qed.

(** What a browser reads of a stream. *)
Definition browser (s : Stream) : list EsEvent := es_parse (texts (st_sent s)).
Definition log_outcome (name : string) (s : Stream) (h : list Act) : Prop :=
  (In (code (st_head s)) [400; 503] /\ st_sent s = [])
  \/ st_head s = streaming /\
     ((exists c e, In (act (ContainerLogs c name) (Some e)) h
         /\ exists ls, is_lines ("error: container logs " +:+ quote name +:+ ": " +:+ err_text e) ls /\ browser s = message <$> ls)
      \/ exists c chunks end_ ls, In (act (LogChunks c name) (chunks, end_)) h /\ displays chunks ls /\
         ((browser s = message <$> ls /\ (end_ = None \/ exists e, In (act CtxErr (Some e)) h))
          \/ exists e last, end_ = Some e /\ is_lines ("error: read logs: " +:+ err_text e) last
               /\ browser s = message <$> (ls ++ last))).
Lemma browser_lines ls last :
  Forall (fun l => one_line l = true) ls -> no_cr last = true ->
  es_parse (texts ((sse_event <$> ls) ++ (sse_event <$> sse_lines last))) = message <$> (ls ++ sse_lines last).
Proof.
  intros H Hl. rewrite <- fmap_app. apply es_frames. apply Forall_app_2; [done|by apply sse_lines_plain].
Qed.
Lemma shown_plain chunks : Forall (fun p => no_cr p = true) chunks -> Forall (fun l => one_line l = true) (shown chunks).
Proof.
  unfold shown. induction 1 as [|p chunks Hp _ IH]; [constructor|]. cbn [mbind list_bind].
  apply Forall_app_2; [by apply sse_lines_plain|done].
Qed.
Lemma ran_handleLogs ok werr name : (forall i, ok i = true) -> ran cr_free (handleLogs ok werr true name) (log_outcome name).
Proof.
  intros Hok. unfold handleLogs. destruct (String.eqb name ""); [apply ran_Ret; left; cbn; tauto|].
  eapply (ran_bind _ _ _ (fun _ h => h = [])); [by apply ran_step|]. intros [c|] h0 ->.
  2: { apply ran_Ret. left. cbn. tauto. }
  cbn [negb app]. unfold StreamLogs.
  apply (ran_bind _ _ _ (fun r h => let '(sent, err) := r in
    (exists c e, In (act (ContainerLogs c name) (Some e)) h /\ no_cr (err_text e) = true /\ sent = []
       /\ err = Some (wrap ("container logs " +:+ quote name +:+ ": ") e))
    \/ exists c chunks end_, In (act (LogChunks c name) (chunks, end_)) h /\ Forall (fun p => no_cr p = true) chunks
       /\ sent = sse_event <$> shown chunks
       /\ (err = None /\ (end_ = None \/ exists e, In (act CtxErr (Some e)) h)
           \/ exists e, end_ = Some e /\ no_cr (err_text e) = true /\ err = Some (wrap "read logs: " e)))).
  { eapply (ran_bind _ _ _ (fun r h => h = [act (ContainerLogs c name) r] /\ cr_free _ (ContainerLogs c name) r)).
    { by apply ran_ask. }
    intros [e|] h1 [-> Hc].
    { apply ran_Ret. left. exists c, e. split_and!; try done. by left. }
    eapply (ran_bind _ _ _ (fun r h => h = [act (LogChunks c name) r] /\ cr_free _ (LogChunks c name) r)).
    { by apply ran_ask. }
    intros [chunks end_] h2 [-> [Hcs He]]. cbn [fst snd] in *. rewrite copy_chunks_ok by done.
    eapply (ran_bind _ _ _ (fun err h => err = None /\ (end_ = None \/ exists e, In (act CtxErr (Some e)) h)
           \/ exists e, end_ = Some e /\ no_cr (err_text e) = true /\ err = Some (wrap "read logs: " e))).
    { destruct end_ as [e|]; [|apply ran_Ret; left; split; [done|by left]].
      eapply (ran_bind _ _ _ (fun r h => h = [act CtxErr r])); [by apply ran_ask|]. intros [e'|] h3 ->; apply ran_Ret.
      - left. split; [done|]. right. exists e'. by left.
      - right. by exists e. }
    intros err h3 Herr. eapply (ran_bind _ _ _ (fun _ _ => True)); [by apply ran_ask|]. intros [] h4 _. apply ran_Ret.
    right. exists c, chunks, end_. split_and!; [by right; left|done|done|].
    destruct Herr as [[-> [->|[e He']]]|(e & -> & ? & ->)]; [left; by split; [|left]| |right; by exists e].
    left. split; [done|]. right. exists e. rewrite !in_app_iff. tauto. }
  intros [sent err] h [(c' & e & Hin & Hcr & -> & ->)|(c' & chunks & end_ & Hin & Hcr & -> & Herr)]; apply ran_Ret;
    rewrite app_nil_r; right; (split; [done|]); cbn [st_sent].
  - left. exists c', e. split; [done|]. unfold browser. cbn [st_sent]. rewrite sseWrite_ok by done.
    eexists. split; [apply sse_lines_spec|].
    cbn [app err_text wrap]. rewrite es_frames; [by rewrite !str_app_assoc|]. apply sse_lines_plain.
    by rewrite !no_cr_app, quote_no_cr, Hcr.
  - right. exists c', chunks, end_, (shown chunks). split; [done|]. split; [apply displays_lines|].
    destruct Herr as [[-> Hend]|(e & -> & Hce & ->)]; [left|right; exists e; eexists];
      unfold browser; cbn [st_sent].
    + rewrite app_nil_r. split; [by apply es_frames, shown_plain|done].
    + split; [done|]. split; [apply sse_lines_spec|]. rewrite sseWrite_ok by done. rewrite browser_lines; [|by apply shown_plain|].
      * cbn [err_text wrap]. done.
      * cbn [err_text wrap]. by rewrite !no_cr_app, Hce.
Qed.

(** C23. The log viewer shows the log.  For a container that exists, on a connection
    that takes every write, a browser that reads the stream of [handleLogs] by the
    HTML standard gets one message for each line of each piece in which the log was
    read that is not blank, in order, with the line as its text.  So the texts of the
    messages together are the log without its line ends, and when the pieces end at
    line ends there is one message for each line of the log that is not blank (a
    line that is cut by the end of a piece comes as two).  At the end comes the error
    that broke the log off, if one did and the viewer was still there; no line can
    end an event early or pose as another field.  The condition is that the log
    contains no carriage return. *)
Theorem logs_stream o ok werr name n m h :
  (forall i, ok i = true) ->
  (forall X (q : Ask X) h, cr_free X q (o_answer o X q h)) ->
  exists s m' h1, run o (handleLogs ok werr true name) n m h = Some (s, m', h ++ h1) /\ log_outcome name s h1.
Proof. intros Hok Ho. by apply (ran_run cr_free o _ _ n m h Ho), ran_handleLogs. Qed.
Lemma logs_stream_witness : exists s m' h1,
  run demo_oracle (handleLogs (fun _ => true) (errorf "broken pipe") true "plex") 0 (set_holder (Some 1%nat) emptyMem) []
    = Some (s, m', [] ++ h1)
  /\ browser s = [message "line one"; message "line two"] /\ log_outcome "plex" s h1.
Proof.
  destruct (logs_stream demo_oracle (fun _ => true) (errorf "broken pipe") "plex" 0 (set_holder (Some 1%nat) emptyMem) [])
    as (s & m' & h1 & Hrun & Hout).
  - reflexivity.
  - intros X q h. destruct q; try exact I. split; [repeat constructor|exact I].
  - exists s, m', h1. split; [exact Hrun|]. split; [|exact Hout].
    assert (match run demo_oracle (handleLogs (fun _ => true) (errorf "broken pipe") true "plex") 0 (set_holder (Some 1%nat) emptyMem) []
            with Some (s, _, _) => browser s | None => [] end = [message "line one"; message "line two"]) as Hb by (vm_compute; reflexivity).
    by rewrite Hrun in Hb.
Defined.

(** With a carriage return a line of the log poses as an event of another type. *)
Example carriage_return_forges :
  es_parse (texts (fst (fst (sseWrite (fun _ => true) ("progress" +:+ str1 cr +:+ "event: alert" +:+ str1 cr +:+ "data: owned" +:+ NL)))))
  = [{| es_type := "alert"; es_data := "progress" +:+ NL +:+ "owned" |}].
Proof. vm_compute. reflexivity. Qed.

(** ** The activity stream *)

(** What the goroutine of a subscription has been woken by, when it has read [rcv]. *)
Definition wakes_of (rcv : list ActivityEvent) : list activity_wake := (fun ev => FromBus (Some ev)) <$> rcv.
Lemma activity_loop_wakes rcv rest :
  activity_loop (wakes_of rcv ++ rest) = (sse_event <$> (marshal_event <$> rcv)) ++ activity_loop rest.
Proof. unfold wakes_of. induction rcv as [|ev rcv IH]; [done|]. cbn. by f_equal. Qed.
Lemma Forall_sublist_of {X} (P : X -> Prop) l k : sublist l k -> Forall P k -> Forall P l.
Proof.
  induction 1 as [|x l k _ IH|x l k _ IH]; [done|..]; intros [Hx Hk]%Forall_cons; [constructor|]; auto.
Qed.

(** C22. The dashboard's live feed shows what happened.  Take any interleaving of
    publishers, subscribers and cancellations of the activity bus, and one open
    stream that has read [rcv] from its channel: a browser that parses the stream by
    the HTML standard and decodes the JSON of each message gets exactly the events
    [rcv], which were published while it was subscribed, in that order; also when
    the stream has ended, by the request or by the channel, and whatever the texts
    of the events contain (line ends, quotes, HTML), so long as they are UTF-8. *)
Theorem activity_stream s ch pub rcv rest :
  reachable (Running s) -> published s !! ch = Some pub -> received s !! ch = Some rcv ->
  is_Some (phases s !! ch) ->
  Forall (fun ev => event_utf8 ev = true) pub ->
  match rest with FromBus (Some _) :: _ => False | _ => True end ->
  let stream := handleActivity true (wakes_of rcv ++ rest) in
  st_head stream = streaming
  /\ browser stream = message <$> (marshal_event <$> rcv)
  /\ decode_event <$> (es_data <$> browser stream) = Some <$> rcv
  /\ sublist rcv pub.
Proof.
  intros Hr Hpub Hrcv [p Hp] Hutf Hrest. destruct (reachable_inv _ Hr) as (s' & Hs & Hinv). injection Hs as <-.
  destruct (ci_chan _ _ (Hinv ch) _ Hp) as (c & off & rcv' & _ & _ & _ & Hoff & Hrcv' & Hk).
  unfold published in Hpub. rewrite lookup_fmap, Hoff in Hpub. injection Hpub as <-. simplify_eq.
  assert (sublist rcv (fst <$> off)) as Hsub'.
  { etransitivity; [apply sublist_inserts_r; reflexivity|rewrite Hk; apply kept_sublist]. }
  pose proof (Forall_sublist_of _ _ _ Hsub' Hutf) as Hu.
  assert (activity_loop rest = []) as Hl by (destruct rest as [|[|[ev|]] rest]; done).
  cbn zeta. assert (browser (handleActivity true (wakes_of rcv ++ rest)) = message <$> (marshal_event <$> rcv)) as Hb.
  { unfold browser, handleActivity. cbn [negb st_sent]. rewrite activity_loop_wakes, Hl, app_nil_r. apply es_frames.
    apply Forall_fmap. eapply Forall_impl; [exact Hu|]. intros ev. apply marshal_plain. }
  split_and!; [done|done| |done]. rewrite Hb. clear -Hu.
  induction Hu as [|ev rcv Hev _ IH]; [done|]. cbn [fmap list_fmap es_data message].
  f_equal; [by apply decode_marshal|exact IH].
Qed.
(** An event whose text is hostile to every layer. *)
Definition demo_hostile : ActivityEvent :=
  {| ev_Type := "error"; ev_Repo := "home"; ev_Stack := "plex";
     ev_Msg := "<b>" +:+ str1 dquote +:+ str1 backslash +:+ NL +:+ NL +:+ "data: x" +:+ str1 cr |}.
Definition demo_published : System :=
  {| bus := default demo_bus1 (Publish demo_hostile demo_bus1); phases := phases demo_sys0;
     offered := offer demo_hostile demo_sys0; received := received demo_sys0 |}.
Definition demo_stream_sys : System :=
  {| bus := demo_bus1; phases := phases demo_sys0;
     offered := offer demo_hostile demo_sys0; received := note demo_hostile 0 (received demo_sys0) |}.
Lemma activity_stream_witness :
  decode_event <$> (es_data <$> browser (handleActivity true (wakes_of [demo_hostile] ++ [RequestDone]))) = [Some demo_hostile].
Proof.
  assert (reachable (Running demo_stream_sys)) as H.
  { eapply reachable_step; [eapply reachable_step; [eapply reachable_step; [apply reachable_init|]|]|].
    - apply (step_subscribe init 0%nat demo_bus1). reflexivity.
    - apply (step_publish demo_sys0 demo_hostile (default demo_bus1 (Publish demo_hostile demo_bus1))). vm_compute. reflexivity.
    - apply (step_receive demo_published 0%nat demo_hostile demo_bus1); vm_compute; reflexivity. }
  apply (activity_stream demo_stream_sys 0%nat [demo_hostile] [demo_hostile] [RequestDone] H eq_refl eq_refl).
  - by eexists.
  - repeat constructor.
  - exact I.
Defined.
