(* ===== verification/Session.v ===== *)
(** * internal/server/server.go: the web shell

    [handleExec] upgrades the request to a WebSocket, starts a shell in the
    container and copies between the two until one side is gone.  Three goroutines
    do so: the handler's own loop (browser to terminal), the pump (terminal to
    browser), and one that closes the terminal when the context is cancelled.  They
    are a transition system of their own, with the browser, the shell and the
    30-minute cap as its environment.  [decode] is [json.Unmarshal] into an
    [execResizeMsg]. *)
From Stdlib Require Import Ascii.
From S2P Require Import Prelude GoStrings Effects Docker Http.

(** ** Starting *)

Inductive ExecStart :=
| Refused (r : Response)
| NotUpgraded                  (* the upgrader has answered *)
| NoShell (msg : string)       (* sent as a text message, then the socket is closed *)
| Started (execID : string).
Definition crlf : string := String "013" NL.
(** [refusal]: why the origin or the handshake was refused, if it was. *)
Definition startExec (refusal : option GoError) (containerID : string) : prog ExecStart := (
  client <- Get;;
  match client with
  | None => Ret (Refused (http_error "docker unavailable" 503))
  | Some c =>
      if String.eqb containerID "" then Ret (Refused (http_error "missing container" 400))
      else
        match refusal with
        | Some err =>
            log_warn "exec ws upgrade failed" [("container", LStr containerID); ("err", LErr err)];;; Ret NotUpgraded
        | None =>
            exec <- ExecInteractive c containerID;;
            match exec with
            | Err e =>
                log_warn "exec create failed" [("container", LStr containerID); ("err", LErr e)];;;
                Ret (NoShell (crlf +:+ "failed to start shell: " +:+ err_text e +:+ crlf))
            | Ok id =>
                log_info "exec session started" [("container", LStr containerID); ("execID", LStr id)];;;
                Ret (Started id)
            end
        end
  end)%prog.

(** ** The session *)

Record execResizeMsg := { rz_Type : string; rz_Cols : Z; rz_Rows : Z }.
Inductive msg_type := TextMessage | BinaryMessage.
(** What the handler's loop makes of a message. *)
Inductive action := Resize (rows cols : Z) | Input (data : string).

Inductive pump_state := PReading | PWriting (data : string) (ended : bool) | PEnded.
Inductive loop_state := LReading | LHandling (a : action) | LCloseExec | LCancel | LCloseSocket | LDone.
Inductive killer_state := KWaiting | KDone.
Record Session := {
  cancelled : bool;               (* ctx *)
  conn_open : bool;               (* exec.Conn *)
  sock_open : bool;               (* ws, the server's side *)
  browser_here : bool;            (* the other end of ws *)
  pump : pump_state;
  loop : loop_state;
  killer : killer_state;
  from_browser : list (msg_type * string);   (* read from the socket *)
  from_shell : list string;                  (* read from the terminal *)
  typed : list string;                       (* written to the terminal *)
  resized : list (Z * Z);                    (* ContainerExecResize: rows, columns *)
  displayed : list string;                   (* written to the socket *)
}.
Definition opened : Session :=
  {| cancelled := false; conn_open := true; sock_open := true; browser_here := true;
     pump := PReading; loop := LReading; killer := KWaiting;
     from_browser := []; from_shell := []; typed := []; resized := []; displayed := [] |}.

Definition set_cancelled (b : bool) (s : Session) : Session :=
  {| cancelled := b; conn_open := conn_open s; sock_open := sock_open s; browser_here := browser_here s;
     pump := pump s; loop := loop s; killer := killer s; from_browser := from_browser s;
     from_shell := from_shell s; typed := typed s; resized := resized s; displayed := displayed s |}.
Definition close_conn (s : Session) : Session :=
  {| cancelled := cancelled s; conn_open := false; sock_open := sock_open s; browser_here := browser_here s;
     pump := pump s; loop := loop s; killer := killer s; from_browser := from_browser s;
     from_shell := from_shell s; typed := typed s; resized := resized s; displayed := displayed s |}.
Definition close_sock (s : Session) : Session :=
  {| cancelled := cancelled s; conn_open := conn_open s; sock_open := false; browser_here := browser_here s;
     pump := pump s; loop := loop s; killer := killer s; from_browser := from_browser s;
     from_shell := from_shell s; typed := typed s; resized := resized s; displayed := displayed s |}.
Definition leave (s : Session) : Session :=
  {| cancelled := cancelled s; conn_open := conn_open s; sock_open := sock_open s; browser_here := false;
     pump := pump s; loop := loop s; killer := killer s; from_browser := from_browser s;
     from_shell := from_shell s; typed := typed s; resized := resized s; displayed := displayed s |}.
Definition set_pump (p : pump_state) (s : Session) : Session :=
  {| cancelled := cancelled s; conn_open := conn_open s; sock_open := sock_open s; browser_here := browser_here s;
     pump := p; loop := loop s; killer := killer s; from_browser := from_browser s;
     from_shell := from_shell s; typed := typed s; resized := resized s; displayed := displayed s |}.
Definition set_loop (l : loop_state) (s : Session) : Session :=
  {| cancelled := cancelled s; conn_open := conn_open s; sock_open := sock_open s; browser_here := browser_here s;
     pump := pump s; loop := l; killer := killer s; from_browser := from_browser s;
     from_shell := from_shell s; typed := typed s; resized := resized s; displayed := displayed s |}.
Definition set_killer (k : killer_state) (s : Session) : Session :=
  {| cancelled := cancelled s; conn_open := conn_open s; sock_open := sock_open s; browser_here := browser_here s;
     pump := pump s; loop := loop s; killer := k; from_browser := from_browser s;
     from_shell := from_shell s; typed := typed s; resized := resized s; displayed := displayed s |}.
Definition got_message (t : msg_type) (data : string) (s : Session) : Session :=
  {| cancelled := cancelled s; conn_open := conn_open s; sock_open := sock_open s; browser_here := browser_here s;
     pump := pump s; loop := loop s; killer := killer s; from_browser := from_browser s ++ [(t, data)];
     from_shell := from_shell s; typed := typed s; resized := resized s; displayed := displayed s |}.
Definition got_output (data : string) (s : Session) : Session :=
  {| cancelled := cancelled s; conn_open := conn_open s; sock_open := sock_open s; browser_here := browser_here s;
     pump := pump s; loop := loop s; killer := killer s; from_browser := from_browser s;
     from_shell := from_shell s ++ (if String.eqb data "" then [] else [data]); typed := typed s; resized := resized s;
     displayed := displayed s |}.
Definition write_conn (data : string) (s : Session) : Session :=
  {| cancelled := cancelled s; conn_open := conn_open s; sock_open := sock_open s; browser_here := browser_here s;
     pump := pump s; loop := loop s; killer := killer s; from_browser := from_browser s;
     from_shell := from_shell s; typed := typed s ++ [data]; resized := resized s; displayed := displayed s |}.
Definition resize_exec (rows cols : Z) (s : Session) : Session :=
  {| cancelled := cancelled s; conn_open := conn_open s; sock_open := sock_open s; browser_here := browser_here s;
     pump := pump s; loop := loop s; killer := killer s; from_browser := from_browser s;
     from_shell := from_shell s; typed := typed s; resized := resized s ++ [(rows, cols)]; displayed := displayed s |}.
Definition write_sock (data : string) (s : Session) : Session :=
  {| cancelled := cancelled s; conn_open := conn_open s; sock_open := sock_open s; browser_here := browser_here s;
     pump := pump s; loop := loop s; killer := killer s; from_browser := from_browser s;
     from_shell := from_shell s; typed := typed s; resized := resized s; displayed := displayed s ++ [data] |}.

Section session.
Context (decode : string -> option execResizeMsg).

Definition classify (data : string) : action :=
  match data with
  | String "{" _ =>
      match decode data with
      | Some r => if String.eqb (rz_Type r) "resize" then Resize (rz_Rows r) (rz_Cols r) else Input data
      | None => Input data
      end
  | _ => Input data
  end.

(** The pump after a read: what it does next, having read [data] and, if [ended],
    an error. *)
Definition pump_read (data : string) (ended : bool) (s : Session) : Session :=
  let s := got_output data s in
  if negb (String.eqb data "") then set_pump (PWriting data ended) s
  else if ended then set_pump PEnded (set_cancelled true s)
  else s.

(** The steps of the three goroutines that wait for nobody: a read or a write on a
    closed connection fails, a read from a browser that has left fails, a call with
    a cancelled context returns. *)
Inductive own : Session -> Session -> Prop :=
| pump_closed s : pump s = PReading -> conn_open s = false -> own s (pump_read "" true s)
| pump_unwritable s data ended : pump s = PWriting data ended -> sock_open s = false -> own s (set_pump PEnded s)
| loop_gone s : loop s = LReading -> browser_here s = false -> own s (set_loop LCloseExec s)
| loop_not_resized s rows cols :
    loop s = LHandling (Resize rows cols) -> cancelled s = true -> own s (set_loop LReading (resize_exec rows cols s))
| loop_unwritable s data : loop s = LHandling (Input data) -> conn_open s = false -> own s (set_loop LCloseExec s)
| loop_close_exec s : loop s = LCloseExec -> own s (set_loop LCancel (close_conn s))
| loop_cancel s : loop s = LCancel -> own s (set_loop LCloseSocket (set_cancelled true s))
| loop_close_socket s : loop s = LCloseSocket -> own s (set_loop LDone (close_sock s))
| killer_closes s : killer s = KWaiting -> cancelled s = true -> own s (set_killer KDone (close_conn s)).

(** The environment: the shell writes or ends, the browser sends or leaves, the cap
    elapses or the request is cancelled.  A write to an open connection waits for
    the other side and there is no deadline, so that it comes to an end, or fails,
    is up to the environment, and so is the answer of Docker to a resize. *)
Inductive env : Session -> Session -> Prop :=
| shell_output s data ended :
    pump s = PReading -> conn_open s = true -> (String.length data <= 4096)%nat -> env s (pump_read data ended s)
| browser_sends s t data :
    loop s = LReading -> sock_open s = true -> browser_here s = true ->
    env s (set_loop (LHandling (classify data)) (got_message t data s))
| pump_wrote s data ended :
    pump s = PWriting data ended -> sock_open s = true ->
    env s (let s := write_sock data s in
           if ended then set_pump PEnded (set_cancelled true s) else set_pump PReading s)
| pump_failed s data ended : pump s = PWriting data ended -> env s (set_pump PEnded s)
| loop_resized s rows cols :
    loop s = LHandling (Resize rows cols) -> env s (set_loop LReading (resize_exec rows cols s))
| loop_wrote s data :
    loop s = LHandling (Input data) -> conn_open s = true -> env s (set_loop LReading (write_conn data s))
| loop_failed s data : loop s = LHandling (Input data) -> env s (set_loop LCloseExec s)
| browser_leaves s : env s (leave s)
| cap_elapses s : env s (set_cancelled true s).

Inductive reached : Session -> Prop :=
| reached_opened : reached opened
| reached_own s s' : reached s -> own s s' -> reached s'
| reached_env s s' : reached s -> env s s' -> reached s'.

(** ** Nothing is lost or reordered *)

Definition as_input (m : msg_type * string) : option string :=
  match classify m.2 with Input d => Some d | Resize _ _ => None end.
Definition as_resize (m : msg_type * string) : option (Z * Z) :=
  match classify m.2 with Resize r c => Some (r, c) | Input _ => None end.
(** What the browser asked to be typed, and the sizes it asked for. *)
Definition inputs (l : list (msg_type * string)) : list string := omap as_input l.
Definition resizes (l : list (msg_type * string)) : list (Z * Z) := omap as_resize l.
#[local] Arguments inputs : simpl never.
#[local] Arguments resizes : simpl never.

(** [l] is [k] and what is under way: nothing when [idle], one element at most. *)
Definition behind {X} (idle : Prop) (k l : list X) : Prop :=
  exists rest, l = k ++ rest /\ (length rest <= 1)%nat /\ (idle -> rest = []).
Lemma behind_refl {X} (idle : Prop) (l : list X) : behind idle l l.
Proof. exists []. rewrite app_nil_r. split_and!; [done|cbn; lia|done]. Qed.
Lemma behind_one {X} (idle : Prop) (x : X) k l : ~ idle -> l = k -> behind idle k (l ++ [x]).
Proof. intros Hi ->. exists [x]. split_and!; [done|cbn; lia|done]. Qed.
Lemma behind_mono {X} (idle idle' : Prop) (k l : list X) : (idle' -> idle) -> behind idle k l -> behind idle' k l.
Proof. intros H (r & ? & ? & Hr). exists r. split_and!; auto. Qed.
Lemma behind_idle {X} (idle : Prop) (k l : list X) : idle -> behind idle k l -> l = k.
Proof. intros H (r & -> & _ & Hr). by rewrite Hr, app_nil_r. Qed.

(** What is under way in the handler's loop, and in the pump. *)
Definition typing (l : loop_state) : list string := match l with LHandling (Input d) => [d] | _ => [] end.
Definition sizing (l : loop_state) : list (Z * Z) := match l with LHandling (Resize r c) => [(r, c)] | _ => [] end.
Definition showing (p : pump_state) : list string := match p with PWriting d _ => [d] | _ => [] end.
Definition serving (l : loop_state) : Prop := match l with LReading | LHandling _ => True | _ => False end.
Record copied (s : Session) : Prop := {
  co_typed : behind (serving (loop s)) (typed s ++ typing (loop s)) (inputs (from_browser s));
  co_resized : resizes (from_browser s) = resized s ++ sizing (loop s);
  co_shown : behind (pump s <> PEnded) (displayed s ++ showing (pump s)) (from_shell s);
}.
Lemma pump_read_copied data ended s : pump s = PReading -> copied s -> copied (pump_read data ended s).
Proof.
  intros Hp [Ht Hr Hs]. rewrite Hp in Hs. apply behind_idle in Hs; [|done]. cbn in Hs. rewrite app_nil_r in Hs.
  unfold pump_read. destruct (String.eqb data "") eqn:E; cbn [negb].
  - destruct ended; split; cbn; rewrite ?E, ?app_nil_r, ?Hs, ?Hp; cbn; rewrite ?app_nil_r; try done; apply behind_refl.
  - split; cbn; rewrite ?E; try done. rewrite Hs. apply behind_refl.
Qed.
Lemma pump_failed_copied s d e : pump s = PWriting d e -> copied s -> copied (set_pump PEnded s).
Proof.
  intros Hp [Ht Hr Hs]. rewrite Hp in Hs. apply behind_idle in Hs; [|done]. cbn in Hs. split; cbn; try done.
  rewrite app_nil_r, Hs. apply behind_one; [by intros []|done].
Qed.
Lemma resized_copied s r c : loop s = LHandling (Resize r c) -> copied s -> copied (set_loop LReading (resize_exec r c s)).
Proof. intros Hl [Ht Hr Hs]. rewrite Hl in *. split; cbn in *; [done| |done]. by rewrite Hr, app_nil_r. Qed.
Lemma loop_failed_copied s d : loop s = LHandling (Input d) -> copied s -> copied (set_loop LCloseExec s).
Proof.
  intros Hl [Ht Hr Hs]. rewrite Hl in *. split; cbn in *; [|by rewrite Hr|done]. apply behind_idle in Ht; [|done].
  rewrite Ht, app_nil_r. apply behind_one; [intros []|done].
Qed.
Lemma own_copied s s' : own s s' -> copied s -> copied s'.
Proof.
  intros Hstep Hc.
  destruct Hstep as [s Hp _|s data ended Hp _|s Hl _|s r c Hl _|s d Hl _|s Hl|s Hl|s Hl|s _ _].
  - by apply pump_read_copied.
  - by eapply pump_failed_copied.
  - destruct Hc as [Ht Hr Hs]. rewrite Hl in *. split; cbn in *; try done. by eapply behind_mono; [|exact Ht].
  - by apply resized_copied.
  - by eapply loop_failed_copied.
  - destruct Hc. rewrite Hl in *. by split.
  - destruct Hc. rewrite Hl in *. by split.
  - destruct Hc. rewrite Hl in *. by split.
  - by destruct Hc.
Qed.
Lemma env_copied s s' : env s s' -> copied s -> copied s'.
Proof.
  intros Hstep Hc.
  destruct Hstep as [s data ended Hp _ _|s ty data Hl _ _|s data ended Hp _|s data ended Hp|s r c Hl|s d Hl _|s d Hl|s|s].
  - by apply pump_read_copied.
  - destruct Hc as [Ht Hr Hs]. rewrite Hl in *. cbn in *. rewrite app_nil_r in *. apply behind_idle in Ht; [|done].
    split; cbn; [| |done].
    + unfold inputs in *. rewrite omap_app, Ht. unfold as_input. cbn. destruct (classify data); cbn; rewrite ?app_nil_r; apply behind_refl.
    + unfold resizes in *. rewrite omap_app, Hr. unfold as_resize. cbn. by destruct (classify data).
  - destruct Hc as [Ht Hr Hs]. rewrite Hp in Hs. apply behind_idle in Hs; [|done]. cbn in Hs.
    destruct ended; split; cbn; try done; rewrite app_nil_r, Hs; apply behind_refl.
  - by eapply pump_failed_copied.
  - by apply resized_copied.
  - destruct Hc as [Ht Hr Hs]. rewrite Hl in *. split; cbn in *; [|by rewrite Hr|done]. by rewrite app_nil_r.
  - by eapply loop_failed_copied.
  - by destruct Hc.
  - by destruct Hc.
Qed.
Lemma reached_copied s : reached s -> copied s.
Proof.
  induction 1 as [|s s' _ IH Hs|s s' _ IH Hs]; [|by eapply own_copied|by eapply env_copied].
  split; cbn; [apply behind_refl|done|apply behind_refl].
Qed.

(** C19. The shell in the browser is the shell in the container.  In every state a
    session can reach, in any interleaving of its goroutines with the browser, the
    shell and the cap: what was written to the terminal is what the browser sent,
    and what was sent to the browser is what the terminal printed, in order and
    unchanged, less at most one piece that is under way or was lost when the other
    side went away; the sizes asked for are set in order, and none of them is ever
    typed. *)
Theorem exec_transparent s :
  reached s ->
  behind (loop s = LReading) (typed s) (inputs (from_browser s))
  /\ behind (loop s = LReading) (resized s) (resizes (from_browser s))
  /\ behind (pump s = PReading) (displayed s) (from_shell s).
Proof.
  intros [Ht Hr Hs]%reached_copied. split_and!.
  - destruct (loop s) as [|[r c|d]| | | |]; cbn in *; rewrite ?app_nil_r in *; try (eapply behind_mono; [|exact Ht]; done).
    apply behind_idle in Ht; [|done]. rewrite Ht. by apply behind_one.
  - rewrite Hr. destruct (loop s) as [|[r c|d]| | | |]; cbn; rewrite ?app_nil_r; try apply behind_refl. by apply behind_one.
  - destruct (pump s) as [|d e|]; cbn in *; rewrite ?app_nil_r in *.
    + eapply behind_mono; [|exact Hs]. done.
    + apply behind_idle in Hs; [|done]. rewrite Hs. by apply behind_one.
    + eapply behind_mono; [|exact Hs]. done.
Qed.

(** ** The end of a session *)

Definition loop_rank (l : loop_state) : nat :=
  match l with LHandling _ => 5 | LReading => 4 | LCloseExec => 3 | LCancel => 2 | LCloseSocket => 1 | LDone => 0 end.
Definition pump_rank (p : pump_state) : nat := match p with PWriting _ _ => 2 | PReading => 1 | PEnded => 0 end.
Definition killer_rank (k : killer_state) : nat := match k with KWaiting => 1 | KDone => 0 end.
Definition rank (s : Session) : nat := loop_rank (loop s) + pump_rank (pump s) + killer_rank (killer s).
Lemma pump_read_closed s : pump_read "" true s = set_pump PEnded (set_cancelled true (got_output "" s)).
Proof. reflexivity. Qed.
Lemma own_rank s s' : own s s' -> (rank s' < rank s)%nat.
Proof.
  unfold rank. destruct 1 as [s Hp _|s d e Hp _|s Hl _|s r c Hl _|s d Hl _|s Hl|s Hl|s Hl|s Hk _];
    rewrite ?pump_read_closed; cbn; rewrite ?Hp, ?Hl, ?Hk; cbn; lia.
Qed.
Lemma own_terminates : well_founded (fun s' s => own s s').
Proof. eapply well_founded_lt_compat. intros s' s. apply own_rank. Qed.

(** What holds of the connections while the loop ends, and when the killer is done. *)
Definition past_exec (l : loop_state) : bool := match l with LCancel | LCloseSocket | LDone => true | _ => false end.
Definition past_cancel (l : loop_state) : bool := match l with LCloseSocket | LDone => true | _ => false end.
Record ending (s : Session) : Prop := {
  en_exec : past_exec (loop s) = true -> conn_open s = false;
  en_cancel : past_cancel (loop s) = true -> cancelled s = true;
  en_sock : loop s = LDone -> sock_open s = false;
  en_killer : killer s = KDone -> conn_open s = false /\ cancelled s = true;
}.
Lemma cancelled_ending s : ending s -> ending (set_cancelled true s).
Proof. intros [H1 H2 H3 H4]. split; cbn; auto. intros Hk. split; [by apply H4|done]. Qed.
Lemma pump_ending p s : ending s -> ending (set_pump p s).
Proof. by intros []. Qed.
Lemma output_ending d s : ending s -> ending (got_output d s).
Proof. by intros []. Qed.
#[local] Hint Resolve cancelled_ending pump_ending output_ending : core.
Lemma pump_read_ending d e s : ending s -> ending (pump_read d e s).
Proof. intros H. unfold pump_read. destruct (negb _); [auto|]. destruct e; auto. Qed.
Lemma set_loop_ending l s : ending s -> (past_exec l = true -> conn_open s = false) ->
  (past_cancel l = true -> cancelled s = true) -> (l = LDone -> sock_open s = false) -> ending (set_loop l s).
Proof. by intros []. Qed.
Lemma own_ending s s' : own s s' -> ending s -> ending s'.
Proof.
  intros Hs H. pose proof H as [H1 H2 H3 H4].
  destruct Hs as [s Hp Hc|s d e Hp Ho|s Hl Hb|s r c Hl Hc|s d Hl Ho|s Hl|s Hl|s Hl|s Hk Hc].
  - by apply pump_read_ending.
  - auto.
  - by apply set_loop_ending.
  - apply set_loop_ending; [by split|done..].
  - by apply set_loop_ending.
  - apply set_loop_ending; [|done..]. split; cbn; auto. intros Hk. split; [done|by apply H4].
  - apply set_loop_ending; [auto| |done..]. intros _. apply H1. by rewrite Hl.
  - apply set_loop_ending; [by split| |intros _; apply H2; by rewrite Hl|done]. intros _. apply H1. by rewrite Hl.
  - split; cbn; auto.
Qed.
Lemma env_ending s s' : env s s' -> ending s -> ending s'.
Proof.
  intros Hs H. pose proof H as [H1 H2 H3 H4].
  destruct Hs as [s data ended Hp _ _|s ty data Hl _ _|s data ended Hp _|s data ended Hp|s r c Hl|s d Hl _|s d Hl|s|s].
  - by apply pump_read_ending.
  - by apply set_loop_ending.
  - assert (ending (write_sock data s)) by (by split). destruct ended; auto.
  - auto.
  - apply set_loop_ending; [by split|done..].
  - apply set_loop_ending; [by split|done..].
  - by apply set_loop_ending.
  - by split.
  - auto.
Qed.
Lemma reached_ending s : reached s -> ending s.
Proof. induction 1 as [|s s' _ IH Hs|s s' _ IH Hs]; [by split|by eapply own_ending|by eapply env_ending]. Qed.
Definition resting (s : Session) : Prop := forall s', ~ own s s'.
(** Everything has ended, and both connections are closed. *)
Definition torn_down (s : Session) : Prop :=
  loop s = LDone /\ pump s = PEnded /\ killer s = KDone /\ conn_open s = false /\ sock_open s = false /\ cancelled s = true.
Definition handling (s : Session) : Prop := match loop s with LHandling _ => True | _ => False end.
Lemma resting_loop s : resting s ->
  (loop s = LReading /\ browser_here s = true)
  \/ (handling s /\ (conn_open s = true \/ cancelled s = false)) \/ loop s = LDone.
Proof.
  intros H. unfold handling. destruct (loop s) as [|[r c|d]| | | |] eqn:Hl.
  - left. split; [done|]. destruct (browser_here s) eqn:Hb; [done|]. exfalso. by eapply H, loop_gone.
  - right; left. split; [done|]. right. destruct (cancelled s) eqn:Hc; [exfalso; by eapply H, loop_not_resized|done].
  - right; left. split; [done|]. left. destruct (conn_open s) eqn:Hc; [done|exfalso; by eapply H, loop_unwritable].
  - exfalso. by eapply H, loop_close_exec.
  - exfalso. by eapply H, loop_cancel.
  - exfalso. by eapply H, loop_close_socket.
  - by do 2 right.
Qed.
(** Once the context is cancelled, the killer has closed the terminal, and the pump
    can only be waiting for the browser. *)
Lemma resting_over s : ending s -> resting s -> cancelled s = true ->
  killer s = KDone /\ conn_open s = false /\ pump s <> PReading.
Proof.
  intros He H Hc.
  assert (killer s = KDone) as Hk by (destruct (killer s) eqn:Hk; [exfalso; by eapply H, killer_closes|done]).
  destruct (en_killer _ He Hk) as [Hconn _]. split_and!; [done|done|]. intros Hp. by eapply H, pump_closed.
Qed.
Lemma resting_done s : ending s -> resting s -> loop s = LDone -> torn_down s.
Proof.
  intros He H Hl. assert (cancelled s = true) as Hc by (apply (en_cancel _ He); by rewrite Hl).
  destruct (resting_over s He H Hc) as (Hk & Ho & Hp). apply (en_sock _ He) in Hl as Hs. split_and!; try done.
  destruct (pump s) as [|d e|] eqn:E; [done|exfalso; by eapply H, pump_unwritable|done].
Qed.
Lemma own_browser s s' : own s s' -> browser_here s' = browser_here s.
Proof. destruct 1 as [s _ _|s d e _ _|s _ _|s r c _ _|s d _ _|s _|s _|s _|s _ _]; done. Qed.
Lemma own_handling s s' : own s s' -> handling s' -> loop s = loop s'.
Proof. destruct 1 as [s Hp _|s d e _ _|s _ _|s r c _ _|s d _ _|s _|s _|s _|s _ _]; done. Qed.

(** C20. How sessions end.  The goroutines of a session never work for ever on their
    own: every sequence of their steps between two events of the environment is
    finite.  Take such a sequence that cannot be continued, from whatever state the
    session has reached.  When the browser is gone, it ends with all three
    goroutines finished, the terminal and the socket closed and the context
    cancelled, unless the handler's loop was, and still is, in the middle of passing
    on a message, a write to the terminal or a resize, with nothing cancelled: there
    is no deadline on those.  When the cap has elapsed or the request is cancelled,
    the terminal is closed, the killer is finished and no message is being passed
    on: only the loop may be left, waiting for the next message of a browser that is
    still there, and the pump, writing to that browser.  When both have happened,
    everything is torn down. *)
Theorem exec_ends :
  well_founded (fun s' s => own s s')
  /\ forall s s', reached s -> rtc own s s' -> resting s' ->
     (browser_here s = false -> torn_down s' \/ handling s /\ loop s' = loop s /\ cancelled s' = false)
     /\ (cancelled s' = true -> torn_down s' \/
          loop s' = LReading /\ browser_here s' = true /\ killer s' = KDone /\ conn_open s' = false /\ pump s' <> PReading)
     /\ (browser_here s = false -> cancelled s' = true -> torn_down s').
Proof.
  assert (forall s s', reached s -> rtc own s s' ->
    reached s' /\ browser_here s' = browser_here s /\ (handling s' -> loop s = loop s')) as Hrtc.
  { intros s s' Hr H. induction H as [s|s s1 s2 H _ IH]; [done|].
    destruct IH as (Hr' & Hb & Hh); [by eapply reached_own|]. split; [done|]. split; [by rewrite Hb, (own_browser _ _ H)|].
    intros Hs2. specialize (Hh Hs2). rewrite <- Hh. apply (own_handling _ _ H). unfold handling in *. by rewrite Hh. }
  split; [apply own_terminates|]. intros s s' Hr [Hr' [Hb Hh]]%Hrtc Hrest; [|done]. apply reached_ending in Hr'.
  assert (handling s' -> cancelled s' = false /\ handling s /\ loop s' = loop s) as Hstuck.
  { intros Hs'. split.
    - destruct (cancelled s') eqn:Hc; [|done]. destruct (resting_over s' Hr' Hrest Hc) as (_ & Ho & _).
      destruct (resting_loop s' Hrest) as [[Hl _]|[[_ [?|?]]|Hl]]; try congruence; unfold handling in Hs'; by rewrite Hl in Hs'.
    - specialize (Hh Hs'). unfold handling in *. by rewrite Hh. }
  destruct (resting_loop s' Hrest) as [[Hl Hb']|[[Hs' _]|Hl]].
  - split_and!; [congruence| |congruence]. intros Hc. right. destruct (resting_over s' Hr' Hrest Hc) as (Hk & Ho & Hp). by split_and!.
  - destruct (Hstuck Hs') as (Hc & Hs & Heq). split_and!; [by right|congruence|congruence].
  - assert (torn_down s') by (by apply resting_done). by split_and!; [left|left|].
Qed.
End session.

(** A session of a browser that types [ls] and leaves. *)
Definition no_decode (s : string) : option execResizeMsg := None.
Definition at_handling : Session := set_loop (LHandling (Input "ls")) (got_message TextMessage "ls" opened).
Definition after_typing : Session := set_loop LReading (write_conn "ls" at_handling).
Lemma exec_transparent_witness :
  reached no_decode after_typing /\ behind (loop after_typing = LReading) (typed after_typing) (inputs no_decode (from_browser after_typing)).
Proof.
  assert (reached no_decode after_typing) as H.
  { eapply reached_env; [eapply reached_env; [apply reached_opened|]|].
    - exact (browser_sends no_decode opened TextMessage "ls" eq_refl eq_refl eq_refl).
    - exact (loop_wrote no_decode at_handling "ls" eq_refl eq_refl). }
  split; [exact H|]. exact (proj1 (exec_transparent no_decode after_typing H)).
Defined.
(** The browser leaves, and the three goroutines end one after the other. *)
Definition handler_done : Session :=
  set_loop LDone (close_sock (set_loop LCloseSocket (set_cancelled true
    (set_loop LCancel (close_conn (set_loop LCloseExec (leave opened))))))).
Definition all_done : Session := set_killer KDone (close_conn (pump_read "" true handler_done)).
Lemma exec_ends_witness :
  reached no_decode (leave opened) /\ rtc own (leave opened) all_done /\ torn_down all_done.
Proof.
  assert (reached no_decode (leave opened)) as Hr by (eapply reached_env; [apply reached_opened|apply browser_leaves]).
  assert (rtc own (leave opened) all_done) as Hs.
  { eapply rtc_l; [exact (loop_gone (leave opened) eq_refl eq_refl)|].
    eapply rtc_l; [apply loop_close_exec; reflexivity|]. eapply rtc_l; [apply loop_cancel; reflexivity|].
    eapply rtc_l; [apply loop_close_socket; reflexivity|]. eapply rtc_l; [apply pump_closed; reflexivity|].
    eapply rtc_l; [apply killer_closes; reflexivity|]. apply rtc_refl. }
  split; [exact Hr|]. split; [exact Hs|]. refine (proj2 (proj2 (proj2 (exec_ends no_decode) _ _ Hr Hs _)) eq_refl eq_refl).
  intros s' H. inversion H; discriminate.
Defined.

(** A shell that does not read what is typed: the browser has left, and the loop is
    still in its write.  The cap ends it. *)
Definition undrained : Session := leave at_handling.
Example undrained_waits_for_the_cap :
  reached no_decode undrained /\ resting undrained /\ ~ resting (set_cancelled true undrained).
Proof.
  split_and!.
  - eapply reached_env; [eapply reached_env; [apply reached_opened|]|apply browser_leaves].
    exact (browser_sends no_decode opened TextMessage "ls" eq_refl eq_refl eq_refl).
  - intros s' H. inversion H; done.
  - intros H. eapply H, killer_closes; done.
Qed.

(** The cap does not end a session by itself: the shell is gone and every goroutine
    that can end has, but the handler still waits for the browser. *)
Definition capped : Session :=
  set_pump PEnded (set_killer KDone (close_conn (set_cancelled true opened))).
Example cap_leaves_the_loop :
  reached no_decode capped /\ cancelled capped = true /\ conn_open capped = false
  /\ loop capped = LReading /\ sock_open capped = true /\ resting capped.
Proof.
  split.
  { eapply reached_own; [eapply reached_own; [eapply reached_env; [apply reached_opened|apply cap_elapses]|]|].
    - exact (killer_closes (set_cancelled true opened) eq_refl eq_refl).
    - exact (pump_closed (set_killer KDone (close_conn (set_cancelled true opened))) eq_refl eq_refl). }
  split_and!; try done. intros s' H. inversion H; done.
Qed.
