(* ===== verification/Server.v ===== *)
(** * internal/server/server.go: the handlers that act on the running daemon

    A handler is a program that returns its response; where the source starts a
    goroutine, the handler says so in its result and the goroutine is a program of
    its own. *)
From Stdlib Require Import Ascii.
From S2P Require Import Prelude GoStrings GoPath Base64 Crypto State Sched Metrics Db Effects Git Docker Stacks Sync Http.

(** ** POST /api/sync/{repo} *)

Definition trigger_cap : nat := 16.
(** [select { case s.syncTrigger <- repo: ... default: ... }]. *)
Definition enqueue (repo : string) : prog bool :=
  atomic (fun m => if Nat.ltb (length (m_trigger m)) trigger_cap
                   then (true, set_trigger (m_trigger m ++ [repo]) m) else (false, m)).
(** The two clock readings of [Allow] are made before its critical section, also
    when it does not use them. *)
Definition handleSync (window : Z) (repo : string) : prog Response := (
  if String.eqb repo "" then Ret (http_error "missing repo name" 400)
  else
    since <- ask Now;;
    now <- ask Now;;
    ok <- atomic (fun m => let '(b, l) := Allow window repo since now (m_lastTime m) in (b, set_lastTime l m));;
    if negb ok then Ret (jsonWith 429 (JObj [("status", JStr "rate_limited"); ("repo", JStr repo)]))
    else
      queued <- enqueue repo;;
      Ret (if queued : bool then jsonOK (JObj [("status", JStr "queued"); ("repo", JStr repo)])
           else jsonWith 202 (JObj [("status", JStr "already_queued"); ("repo", JStr repo)])))%prog.

(** ** GET /api/stacks/{repo}/{stack}/compose *)

Definition full_state : prog FullState := (
  rorder <- ask MapOrder;;
  sorder <- ask MapOrder;;
  reads (fun m => GetAll rorder sorder (m_store m)))%prog.
Fixpoint find_dir (repoName stackName : string) (l : list StackState) : string :=
  match l with
  | [] => ""
  | st :: l => if String.eqb (ss_RepoName st) repoName && String.eqb (ss_Name st) stackName
               then ss_StackDir st else find_dir repoName stackName l
  end.
Fixpoint read_first (stackDir : string) (names : list string) : prog (option string) :=
  match names with
  | [] => Ret None
  | name :: names => (
      data <- ask (ReadNoFollow (Join [stackDir; name]));;
      match data with Ok content => Ret (Some content) | Err _ => read_first stackDir names end)%prog
  end.
Definition handleComposeFile (repoName stackName : string) : prog Response := (
  all <- full_state;;
  let stackDir := find_dir repoName stackName (fs_Stacks all) in
  if String.eqb stackDir "" then Ret (http_error "stack not found" 404)
  else
    content <- read_first stackDir Candidates;;
    Ret (match content with
         | None => http_error "compose file not found" 404
         | Some content => {| code := 200; headers := [("Content-Type", "text/plain; charset=utf-8")]; body := Text content |}
         end))%prog.

(** ** GET /api/status, /readyz *)

Definition serve_status : prog (list repoView * InfisicalState) := (
  full <- full_state;; Ret (handleStatus full))%prog.
Definition serve_readyz : prog Response := (
  client <- Get;;
  rorder <- ask MapOrder;;
  repos <- reads (fun m => GetAllRepos rorder (m_store m));;
  stacks <- all_stacks;;
  Ret (readyz (match client with Some _ => true | None => false end) repos stacks))%prog.

(** ** POST /api/containers/{container}/start|stop|restart *)

(** The response, and whether the containers are refreshed in the background. *)
Definition handleContainerAction (action name : string) : prog (Response * bool) := (
  client <- Get;;
  match client with
  | None => Ret (jsonWith 503 (JObj [("error", JStr "docker unavailable")]), false)
  | Some c =>
      let todo :=
        if String.eqb action "start" then Some (StartContainer c name)
        else if String.eqb action "stop" then Some (StopContainer c name)
        else if String.eqb action "restart" then Some (RestartContainer c name)
        else None in
      match todo with
      | None => Ret (jsonWith 400 (JObj [("error", JStr "unknown action")]), false)
      | Some run_it =>
          err <- run_it;;
          match err with
          | Some e =>
              log_error "container action failed" [("action", LStr action); ("container", LStr name); ("err", LErr e)];;;
              Ret (jsonWith 500 (JObj [("error", JStr (err_text e))]), false)
          | None =>
              log_info "container action succeeded" [("action", LStr action); ("container", LStr name)];;;
              Ret (jsonOK (JObj [("ok", JBool true)]), true)
          end
      end
  end)%prog.
Definition refresh_if_member (c : nat) (containerName : string) (st : StackState) : prog unit := (
  res <- ListStackContainerDetails c (ss_StackDir st);;
  match snd res with
  | Some _ => Ret tt
  | None =>
      if existsb (fun d => String.eqb (Name d) containerName) (fst res)
      then modify (set_store (UpdateStackContainers (ss_RepoName st) (ss_Name st) (Some (to_state <$> fst res))))
      else Ret tt
  end)%prog.
Definition refreshContainerState (containerName : string) : prog unit := (
  client <- Get;;
  match client with
  | None => Ret tt
  | Some c => stacks <- all_stacks;; for_each stacks (refresh_if_member c containerName)
  end)%prog.

(** ** POST /api/stacks/{repo}/{stack}/apply *)

(** The critical section on [s.applying]; [me] is the goroutine that will apply. *)
Definition claim (me : nat) (key : string) : prog bool :=
  atomic (fun m => match m_applying m !! key with
                   | Some _ => (false, m)
                   | None => (true, set_applying (<[key := me]> (m_applying m)) m)
                   end).
Definition unclaim (key : string) : prog unit :=
  modify (fun m => set_applying (delete key (m_applying m)) m).
(** The response, and whether the goroutine was started; [configured] is
    [s.applyStack != nil]. *)
Definition handleApplyStack (me : nat) (configured : bool) (repo stack : string) : prog (Response * bool) := (
  if String.eqb repo "" || String.eqb stack "" then Ret (http_error "missing repo or stack" 400, false)
  else
    st <- reads (fun m => GetStack repo stack (m_store m));;
    if negb (snd st) then Ret (http_error "stack not found" 404, false)
    else if negb configured then Ret (http_error "apply not configured" 503, false)
    else
      won <- claim me (repo +:+ "/" +:+ stack);;
      if negb won
      then Ret (jsonWith 409 (JObj [("status", JStr "already_applying"); ("repo", JStr repo); ("stack", JStr stack)]), false)
      else Ret (jsonOK (JObj [("status", JStr "applying")]), true))%prog.
(** The goroutine, with its deferred release. *)
Definition apply_goroutine (repo stack : string) (callback : prog unit) : prog unit := (
  callback;;; unclaim (repo +:+ "/" +:+ stack))%prog.
(** A request and what it starts. *)
Definition apply_request (me : nat) (repo stack : string) (callback : prog unit) : prog unit := (
  res <- handleApplyStack me true repo stack;;
  if snd res then apply_goroutine repo stack callback else Ret tt)%prog.

(** ** The token *)

Definition getToken : prog string := reads m_token.
Definition SetToken (token : string) : prog unit := modify (set_token token).

(** ** main.go: ensureDashboardToken *)

Definition generate_token (cloneDir : string) : prog (option GoError) := (
  buf <- ask (RandRead 32);;
  match buf with
  | Err e => Ret (Some (wrap "generate dashboard token: " e))
  | Ok buf =>
      let token := RawURLEncode buf in
      let tokenPath := Join [cloneDir; "dashboard_token"] in
      written <- ask (WriteFile tokenPath (token +:+ NL) 384);;    (* 0600 *)
      match written with
      | Some e => Ret (Some (wrap ("write dashboard token file " +:+ tokenPath +:+ ": ") e))
      | None =>
          now <- ask Now;;
          stored <- db_exec (fun f d => SetSetting f now "dashboard_token" token d);;
          match stored with
          | Some e => Ret (Some (wrap "persist dashboard token: " e))
          | None =>
              SetToken token;;;
              log_warn "generated dashboard token — retrieve it from the token file or set DASHBOARD_TOKEN to override"
                [("path", LStr tokenPath)];;;
              Ret None
          end
      end
  end)%prog.
Definition ensureDashboardToken (cloneDir : string) : prog (option GoError) := (
  envToken <- ask (Getenv "DASHBOARD_TOKEN");;
  if negb (String.eqb envToken "") then SetToken envToken;;; Ret None
  else
    dbToken <- db_read (fun f d => GetSetting f "dashboard_token" d);;
    match dbToken with
    | Ok (token, _) =>
        if negb (String.eqb token "") then SetToken token;;; Ret None else generate_token cloneDir
    | Err _ => generate_token cloneDir
    end)%prog.
