(* ===== verification/Settings.v ===== *)
(** * internal/server/settings_handlers.go: the settings API

    Every handler is a program that returns its response.  The body of a request
    is what [json.Decoder] gave: the decoded structure, or an error.  [ip_literal]
    is the parsing of IP literals by net/url, [ParsePrivateKey] the function of
    golang.org/x/crypto/ssh together with [MarshalAuthorizedKey]. *)
From Stdlib Require Import Ascii.
From S2P Require Import Prelude GoStrings GitRef Crypto State Sched Db Effects Http Server.

Section settings.
Context `{A : AEAD} (ip_literal : string -> option string) (ParsePrivateKey : string -> result string).
Context (cryptoKey : string).

(** [crypto.Encrypt] draws its nonce once the key is accepted. *)
Definition encrypt (plaintext : string) : prog (result string) :=
  if negb (valid_key cryptoKey) then Ret (Encrypt (Ok "") cryptoKey plaintext)
  else (nonce <- ask (RandRead NonceSize);; Ret (Encrypt nonce cryptoKey plaintext))%prog.
(** [db.newUUID], which panics when there is no randomness. *)
Definition draw_uuid : prog (option string) := (
  b <- ask (RandRead 16);;
  Ret (newUUID (match b with Ok b => Some b | Err _ => None end)))%prog.

(** ** Repositories *)

Record repoRequest := {
  q_Name : string;
  q_URL : string;
  q_Branch : string;
  q_Remote : string;
  q_AuthType : string;
  q_SSHKeyID : string;
  q_PAT : string;
  q_StacksDir : string;
  q_SyncInterval : Z;
  q_Enabled : option bool;
}.
Record repoResponse := {
  p_ID : string;
  p_Name : string;
  p_URL : string;
  p_Branch : string;
  p_Remote : string;
  p_AuthType : string;
  p_SSHKeyID : string;
  p_HasPAT : bool;
  p_StacksDir : string;
  p_SyncInterval : Z;
  p_Enabled : bool;
  p_CreatedAt : Time;
  p_UpdatedAt : Time;
}.
Definition repoToResponse (r : RepoDB) : repoResponse :=
  {| p_ID := r_ID r; p_Name := r_Name r; p_URL := r_URL r; p_Branch := r_Branch r; p_Remote := r_Remote r;
     p_AuthType := r_AuthType r; p_SSHKeyID := r_SSHKeyID r; p_HasPAT := negb (String.eqb (r_PATEnc r) "");
     p_StacksDir := r_StacksDir r; p_SyncInterval := r_SyncInterval r; p_Enabled := r_Enabled r;
     p_CreatedAt := r_CreatedAt r; p_UpdatedAt := r_UpdatedAt r |}.
(** The encoding, by the field tags. *)
Definition repo_json (p : repoResponse) : Json :=
  JObj ([("id", JStr (p_ID p)); ("name", JStr (p_Name p)); ("url", JStr (p_URL p));
         ("branch", JStr (p_Branch p)); ("remote", JStr (p_Remote p)); ("authType", JStr (p_AuthType p))]
        ++ (if String.eqb (p_SSHKeyID p) "" then [] else [("sshKeyId", JStr (p_SSHKeyID p))])
        ++ [("hasPat", JBool (p_HasPAT p)); ("stacksDir", JStr (p_StacksDir p));
            ("syncInterval", JNum (p_SyncInterval p)); ("enabled", JBool (p_Enabled p));
            ("createdAt", JTime (p_CreatedAt p)); ("updatedAt", JTime (p_UpdatedAt p))]).

Definition handleListRepos : prog Response := (
  listed <- db_read ListRepos;;
  match snd listed with
  | Some err => log_error "list repos" [("err", LErr err)];;; Ret (jsonError "failed to list repos" 500)
  | None => Ret (jsonOK (JArr (repo_json <$> (repoToResponse <$> fst listed))))
  end)%prog.

Definition orElse (s d : string) : string := if String.eqb s "" then d else s.
(** The row of a request whose empty fields have been filled in. *)
Definition new_repo (req : repoRequest) (patEnc : string) : RepoDB :=
  {| r_ID := ""; r_Name := q_Name req; r_URL := q_URL req; r_Branch := orElse (q_Branch req) "main";
     r_Remote := orElse (q_Remote req) "origin"; r_AuthType := q_AuthType req; r_SSHKeyID := q_SSHKeyID req;
     r_PATEnc := patEnc; r_StacksDir := orElse (q_StacksDir req) "."; r_SyncInterval := q_SyncInterval req;
     r_Enabled := default true (q_Enabled req); r_CreatedAt := 0; r_UpdatedAt := 0 |}.
(** The checks of the request, in order: the message of the first that fails. *)
Definition create_error (req : repoRequest) : option string :=
  if String.eqb (q_Name req) "" || String.eqb (q_URL req) "" then Some "name and url are required"
  else match ValidateRepoName (q_Name req) with
  | Err e => Some (err_text e)
  | Ok _ =>
      match ValidateRepoURL ip_literal (q_URL req) with
      | Err e => Some (err_text e)
      | Ok _ =>
          match ValidateRef (orElse (q_Remote req) "origin") with
          | Err e => Some (err_text e)
          | Ok _ =>
              match ValidateRef (orElse (q_Branch req) "main") with
              | Err e => Some (err_text e)
              | Ok _ => if q_SyncInterval req <? 0 then Some "syncInterval must not be negative" else None
              end
          end
      end
  end.
Definition encrypt_pat (pat : string) : prog (result string) :=
  if negb (String.eqb pat "") then encrypt pat else Ret (Ok "").
(** The row just written, as the listing shows it. *)
Definition find_repo (name : string) (l : list RepoDB) : option RepoDB :=
  find (fun r => String.eqb (r_Name r) name) l.
Definition created (found : option Json) : Response :=
  jsonWith 201 (match found with Some j => j | None => JObj [("ok", JBool true)] end).

(** [None]: the handler panicked, for want of randomness. *)
Definition handleCreateRepo (body : result repoRequest) : prog (option Response) := (
  match body with
  | Err _ => Ret (Some (jsonError "invalid request body" 400))
  | Ok req =>
      match create_error req with
      | Some msg => Ret (Some (jsonError msg 400))
      | None =>
          patEnc <- encrypt_pat (q_PAT req);;
          match patEnc with
          | Err _ => Ret (Some (jsonError "failed to encrypt PAT" 500))
          | Ok patEnc =>
              uuid <- draw_uuid;;
              match uuid with
              | None => Ret None
              | Some uuid =>
                  now <- ask Now;;
                  err <- db_exec (fun f d => CreateRepo f uuid now (new_repo req patEnc) d);;
                  match err with
                  | Some err =>
                      log_error "create repo" [("err", LErr err)];;; Ret (Some (jsonError "failed to create repo" 500))
                  | None =>
                      listed <- db_read ListRepos;;
                      Ret (Some (created (match snd listed with
                        | Some _ => None
                        | None => repo_json <$> (repoToResponse <$> find_repo (q_Name req) (fst listed))
                        end)))
                  end
              end
          end
      end
  end)%prog.

Definition handleGetRepo (id : string) : prog Response := (
  repo <- db_read (fun f d => Db.GetRepo f id d);;
  Ret (match repo with
       | Err e => if err_norows e then jsonError "not found" 404 else jsonError "failed to get repo" 500
       | Ok repo => jsonOK (repo_json (repoToResponse repo))
       end))%prog.

(** The checks of an update: only of the fields that are given. *)
Definition given_error (check : string -> result unit) (s : string) : option string :=
  if negb (String.eqb s "") then match check s with Err e => Some (err_text e) | Ok _ => None end else None.
Definition first_error (l : list (option string)) : option string :=
  foldr (fun e r => match e with Some m => Some m | None => r end) None l.
Definition update_error (req : repoRequest) : option string :=
  first_error [given_error ValidateRepoName (q_Name req); given_error (ValidateRepoURL ip_literal) (q_URL req);
               given_error ValidateRef (q_Branch req); given_error ValidateRef (q_Remote req)].
(** The row with the fields of the request written over it. *)
Definition updated_repo (id : string) (req : repoRequest) (patEnc : string) (existing : RepoDB) : RepoDB :=
  {| r_ID := id; r_Name := orElse (q_Name req) (r_Name existing); r_URL := orElse (q_URL req) (r_URL existing);
     r_Branch := orElse (q_Branch req) (r_Branch existing); r_Remote := orElse (q_Remote req) (r_Remote existing);
     r_AuthType := orElse (q_AuthType req) (r_AuthType existing);
     r_SSHKeyID := if negb (String.eqb (q_SSHKeyID req) "") || String.eqb (q_AuthType req) "ssh"
                   then q_SSHKeyID req else r_SSHKeyID existing;
     r_PATEnc := if negb (String.eqb (q_PAT req) "") then patEnc else r_PATEnc existing;
     r_StacksDir := orElse (q_StacksDir req) (r_StacksDir existing);
     r_SyncInterval := if 0 <? q_SyncInterval req then q_SyncInterval req else r_SyncInterval existing;
     r_Enabled := match q_Enabled req with Some b => b | None => r_Enabled existing end;
     r_CreatedAt := r_CreatedAt existing; r_UpdatedAt := r_UpdatedAt existing |}.
Definition handleUpdateRepo (id : string) (body : result repoRequest) : prog Response := (
  existing <- db_read (fun f d => Db.GetRepo f id d);;
  match existing with
  | Err _ => Ret (jsonError "not found" 404)
  | Ok existing =>
      match body with
      | Err _ => Ret (jsonError "invalid request body" 400)
      | Ok req =>
          match update_error req with
          | Some msg => Ret (jsonError msg 400)
          | None =>
              patEnc <- encrypt_pat (q_PAT req);;
              match patEnc with
              | Err _ => Ret (jsonError "failed to encrypt PAT" 500)
              | Ok patEnc =>
                  now <- ask Now;;
                  err <- db_exec (fun f d => Db.UpdateRepo f now (updated_repo id req patEnc existing) d);;
                  match err with
                  | Some _ => Ret (jsonError "failed to update repo" 500)
                  | None =>
                      updated <- db_read (fun f d => Db.GetRepo f id d);;
                      Ret (match updated with
                           | Err _ => jsonOK (JObj [("ok", JBool true)])
                           | Ok repo => jsonOK (repo_json (repoToResponse repo))
                           end)
                  end
              end
          end
      end
  end)%prog.
Definition ok_response : Response := jsonOK (JObj [("ok", JBool true)]).
Definition handleDeleteRepo (id : string) : prog Response := (
  err <- db_exec (fun f d => DeleteRepo f id d);;
  Ret (match err with Some _ => jsonError "failed to delete repo" 500 | None => ok_response end))%prog.

(** ** SSH keys *)

Record sshKeyRequest := { kq_Name : string; kq_PrivateKey : string }.
Definition key_json (k : SSHKeyDB) : Json :=
  JObj [("id", JStr (k_ID k)); ("name", JStr (k_Name k)); ("publicKey", JStr (k_PublicKey k));
        ("createdAt", JTime (k_CreatedAt k))].
Definition handleListSSHKeys : prog Response := (
  listed <- db_read ListSSHKeys;;
  Ret (match snd listed with
       | Some _ => jsonError "failed to list SSH keys" 500
       | None => jsonOK (JArr (key_json <$> fst listed))
       end))%prog.
Definition new_key (name privKeyEnc pubKey : string) : SSHKeyDB :=
  {| k_ID := ""; k_Name := name; k_PrivateKeyEnc := privKeyEnc; k_PublicKey := pubKey; k_CreatedAt := 0 |}.
Definition handleCreateSSHKey (body : result sshKeyRequest) : prog (option Response) := (
  match body with
  | Err _ => Ret (Some (jsonError "invalid request body" 400))
  | Ok req =>
      if String.eqb (kq_Name req) "" || String.eqb (kq_PrivateKey req) ""
      then Ret (Some (jsonError "name and privateKey are required" 400))
      else match ParsePrivateKey (kq_PrivateKey req) with
      | Err e => Ret (Some (jsonError ("invalid private key: " +:+ err_text e) 400))
      | Ok pubKey =>
          privKeyEnc <- encrypt (kq_PrivateKey req);;
          match privKeyEnc with
          | Err _ => Ret (Some (jsonError "failed to encrypt private key" 500))
          | Ok privKeyEnc =>
              uuid <- draw_uuid;;
              match uuid with
              | None => Ret None
              | Some uuid =>
                  now <- ask Now;;
                  err <- db_exec (fun f d => CreateSSHKey f uuid now (new_key (kq_Name req) privKeyEnc pubKey) d);;
                  match err with
                  | Some _ => Ret (Some (jsonError "failed to create SSH key" 500))
                  | None =>
                      listed <- db_read ListSSHKeys;;
                      Ret (Some (created (key_json <$> find (fun k => String.eqb (k_Name k) (kq_Name req)) (fst listed))))
                  end
              end
          end
      end
  end)%prog.
Definition handleDeleteSSHKey (id : string) : prog Response := (
  err <- db_exec (fun f d => DeleteSSHKey f id d);;
  Ret (match err with Some _ => jsonError "failed to delete SSH key" 500 | None => ok_response end))%prog.

(** ** General settings *)

Record generalSettingsRequest := {
  g_InfisicalToken : option string;
  g_InfisicalProjectID : option string;
  g_InfisicalEnv : option string;
  g_InfisicalURL : option string;
  g_GitUserName : option string;
  g_GitUserEmail : option string;
  g_DashboardToken : option string;
  g_DefaultSyncInterval : option Z;
}.
(** A value read with its error ignored is empty on an error. *)
Definition or_empty (r : result (string * bool)) : string := match r with Ok (v, _) => v | Err _ => "" end.
Definition shown_interval (val : string) : Z :=
  if negb (String.eqb val "")
  then match Atoi val with Some n => if 0 <? n then n else 60 | None => 60 end else 60.
Definition handleGetGeneralSettings : prog Response := (
  settings <- db_read GetAllSettings;;
  match settings with
  | Err _ => Ret (jsonError "failed to get settings" 500)
  | Ok settings =>
      tokenRaw <- db_read (fun f d => GetSetting f "infisical_token" d);;
      dbDashToken <- db_read (fun f d => GetSetting f "dashboard_token" d);;
      let get k := default "" (settings !! k) in
      Ret (jsonOK (JObj
        [("infisicalTokenSet", JBool (negb (String.eqb (or_empty tokenRaw) "")));
         ("infisicalProjectId", JStr (get "infisical_project_id")); ("infisicalEnv", JStr (get "infisical_env"));
         ("infisicalUrl", JStr (get "infisical_url")); ("gitUserName", JStr (get "git_user_name"));
         ("gitUserEmail", JStr (get "git_user_email"));
         ("dashboardTokenSet", JBool (negb (String.eqb (or_empty dbDashToken) "")));
         ("defaultSyncInterval", JNum (shown_interval (get "default_sync_interval")))]))
  end)%prog.

(** The given settings, in the order they are written; [enc] is the encrypted
    token. *)
Definition given (key : string) (v : option string) : list (string * string) :=
  match v with Some v => [(key, v)] | None => [] end.
Definition nonempty (v : option string) : option string :=
  match v with Some "" => None | v => v end.
Definition updates (req : generalSettingsRequest) (enc : option string) : list (string * string) :=
  given "infisical_token" enc
  ++ given "infisical_project_id" (g_InfisicalProjectID req) ++ given "infisical_env" (g_InfisicalEnv req)
  ++ given "infisical_url" (g_InfisicalURL req) ++ given "git_user_name" (g_GitUserName req)
  ++ given "git_user_email" (g_GitUserEmail req) ++ given "dashboard_token" (nonempty (g_DashboardToken req))
  ++ match g_DefaultSyncInterval req with
     | Some n => if 0 <? n then [("default_sync_interval", Itoa n)] else []
     | None => []
     end.
(** The loop of statements: the key that failed, if one did. *)
Fixpoint write_all (l : list (string * string)) : prog (option string) :=
  match l with
  | [] => Ret None
  | (key, value) :: l => (
      now <- ask Now;;
      err <- db_exec (fun f d => SetSetting f now key value d);;
      match err with
      | Some err => log_error "update setting" [("key", LStr key); ("err", LErr err)];;; Ret (Some key)
      | None => write_all l
      end)%prog
  end.
Definition write_settings (req : generalSettingsRequest) (enc : option string) : prog Response := (
  failed <- write_all (updates req enc);;
  match failed with
  | Some key => Ret (jsonError ("failed to update setting: " +:+ key) 500)
  | None =>
      (match nonempty (g_DashboardToken req) with
       | Some pendingToken => SetToken pendingToken
       | None => Ret tt
       end);;;
      Ret ok_response
  end)%prog.
Definition handleUpdateGeneralSettings (body : result generalSettingsRequest) : prog Response := (
  match body with
  | Err _ => Ret (jsonError "invalid request body" 400)
  | Ok req =>
      match nonempty (g_InfisicalToken req) with
      | None => write_settings req None
      | Some token =>
          enc <- encrypt token;;
          match enc with
          | Err _ => Ret (jsonError "failed to encrypt token" 500)
          | Ok enc => write_settings req (Some enc)
          end
      end
  end)%prog.

(** ** The settings routes *)

Inductive SettingsRequest :=
| ListRepos_ | CreateRepo_ (body : result repoRequest) | GetRepo_ (id : string)
| UpdateRepo_ (id : string) (body : result repoRequest) | DeleteRepo_ (id : string)
| ListSSHKeys_ | CreateSSHKey_ (body : result sshKeyRequest) | DeleteSSHKey_ (id : string)
| GetGeneral_ | UpdateGeneral_ (body : result generalSettingsRequest).
(** [None]: the handler panicked. *)
Definition answer (p : prog Response) : prog (option Response) := (r <- p;; Ret (Some r))%prog.
Definition settings_handler (req : SettingsRequest) : prog (option Response) :=
  match req with
  | ListRepos_ => answer handleListRepos
  | CreateRepo_ body => handleCreateRepo body
  | GetRepo_ id => answer (handleGetRepo id)
  | UpdateRepo_ id body => answer (handleUpdateRepo id body)
  | DeleteRepo_ id => answer (handleDeleteRepo id)
  | ListSSHKeys_ => answer handleListSSHKeys
  | CreateSSHKey_ body => handleCreateSSHKey body
  | DeleteSSHKey_ id => answer (handleDeleteSSHKey id)
  | GetGeneral_ => answer handleGetGeneralSettings
  | UpdateGeneral_ body => answer (handleUpdateGeneralSettings body)
  end.
End settings.
