(* ===== verification/System.v ===== *)
(** * The running daemon: the main goroutine and the API requests together

    [serve] is one API request with the goroutines it starts; a [Job] is what a
    goroutine runs.  The theorems of this file quantify over every interleaving
    ([preachable]) of any number of goroutines, each with any job, and over every
    answer of the outside world. *)
From Stdlib Require Import Ascii.
From S2P Require Import Prelude GoStrings GoPath GitRef Crypto State Sched Metrics Db Effects Git Docker Stacks Sync Footprint Locking Outcome Http Server Settings.

Inductive ApiRequest :=
| GetStatus_ | GetReadyz_
| PostSync_ (repo : string)
| GetCompose_ (repo stack : string)
| PostContainer_ (action name : string)
| PostApply_ (repo stack : string)
| Settings_ (req : SettingsRequest).
Inductive Job := Main (fuel turns : nat) | Api (req : ApiRequest).

(** Programs whose atomic steps all satisfy [P], whatever calls they make. *)
Definition steps (P : Mem -> Mem -> Prop) : forall X, Step X -> Prop :=
  fun X f => forall m x m', f m = Some (x, m') -> P m m'.
Definition any_call X (q : Ask X) : Prop := True.
Definition within (P : Mem -> Mem -> Prop) {A} (p : prog A) : Prop := shaped any_call (steps P) p.

Lemma within_bind P {A B} (p : prog A) (f : A -> prog B) :
  within P p -> (forall a, within P (f a)) -> within P (bind p f).
Proof. apply shaped_bind. Qed.
Lemma within_mono (P P' : Mem -> Mem -> Prop) {A} (p : prog A) :
  (forall m m', P m m' -> P' m m') -> within P p -> within P' p.
Proof. intros H. apply shaped_mono; [done|]. intros X f Hf m x m' Hm. eauto. Qed.
Lemma within_moves C (P P' : Mem -> Mem -> Prop) {A} (p : prog A) :
  shaped C (moves P) p -> (forall m m', P m m' -> P' m m') -> within P' p.
Proof.
  intros Hp H. revert Hp. apply shaped_mono; [done|]. intros X f Hf m x m' Hm.
  specialize (Hf m). rewrite Hm in Hf. auto.
Qed.
Lemma within_step P {X} (f : Mem -> option (X * Mem)) :
  (forall m x m', f m = Some (x, m') -> P m m') -> within P (Atomic f Ret).
Proof. done. Qed.
Lemma within_modify (P : Mem -> Mem -> Prop) f : (forall m, P m (f m)) -> within P (modify f).
Proof. intros H. split; [|done]. intros m x m' [= <- <-]. apply H. Qed.
Lemma within_reads (P : Mem -> Mem -> Prop) {X} (f : Mem -> X) : (forall m, P m m) -> within P (reads f).
Proof. intros H. split; [|done]. intros m x m' [= <- <-]. apply H. Qed.
Lemma within_for_each (P : Mem -> Mem -> Prop) {X} (l : list X) body :
  (forall x, within P (body x)) -> within P (for_each l body).
Proof. apply shaped_for_each. Qed.
Lemma within_db_read (P : Mem -> Mem -> Prop) {X} (f : fault -> DB -> X) : (forall m, P m m) -> within P (db_read f).
Proof. intros H. split; [done|]. intros flt. by apply (within_reads P). Qed.

Create HintDb within.

(** ** What the main goroutine and the apply callback leave alone *)

Definition api_part (m : Mem) := (m_db m, m_token m, m_applying m, m_lastTime m).
Definition keeps_api (m m' : Mem) : Prop := api_part m' = api_part m.
Lemma stack_keeps_api m m' : stack_frame m m' -> keeps_api m m'.
Proof. unfold stack_frame, keeps_api, api_part. intros H. destruct_and! H. congruence. Qed.
Lemma same_keeps_api m m' : unchanged m m' -> keeps_api m m'.
Proof. by intros ->. Qed.

Ltac within_step := match goal with
  | |- within _ (Ret _) => exact I
  | |- within _ (bind _ _) => apply within_bind; [|intros ?]
  | |- within _ (ask _) => done
  | |- within _ (log_debug _ _) => done
  | |- within _ (log_info _ _) => done
  | |- within _ (log_warn _ _) => done
  | |- within _ (log_error _ _) => done
  | |- within _ (log_failure _ _ _) => done
  | |- within _ (reads _) => by apply within_reads
  | |- within _ (db_read _) => by apply within_db_read
  | |- within _ (modify _) => by apply within_modify
  | |- within _ (for_each _ _) => apply within_for_each; intros ?
  | |- within _ (let _ := _ in _) => cbv zeta
  | |- within _ (match ?x with _ => _ end) => destruct x
  | |- within _ _ => eauto with within
  end.

Section main.
Context `{A : AEAD} (cloneDir cryptoKey sshTempDir : string) (t : nat).
Abbreviation keeps := (within keeps_api).

Lemma atomic_keeps {X} (f : Mem -> X * Mem) : (forall m, keeps_api m (snd (f m))) -> keeps (atomic f).
Proof. intros H. split; [|done]. intros m x m' [= E]. specialize (H m). by rewrite E in H. Qed.
Lemma refresh_keeps : keeps refreshContainers.
Proof. exact (within_moves _ _ _ _ refreshContainers_shape stack_keeps_api). Qed.
Lemma apply_keeps dir name repo cfg : keeps (applyStack dir name repo cfg).
Proof. exact (within_moves _ _ _ _ (applyStack_shape _ _ _ _) stack_keeps_api). Qed.
Lemma stacks_keeps dir repo cfg : keeps (runStacksSync dir repo cfg).
Proof. exact (within_moves _ _ _ _ (runStacksSync_shape _ _ _) stack_keeps_api). Qed.
Lemma pull_keeps repo : keeps (gitSyncToDisk cloneDir cryptoKey sshTempDir repo).
Proof.
  destruct (safeRepoPath cloneDir (r_Name repo)) as [d|e] eqn:E.
  - refine (within_moves _ _ _ _ (gitSyncToDisk_shape _ _ _ _ d _) same_keeps_api). by left.
  - refine (within_moves _ _ _ _ (gitSyncToDisk_shape _ _ _ _ "" _) same_keeps_api). right. by rewrite E.
Qed.
Lemma sha_keeps d : keeps (HeadSHA d).
Proof. exact (within_moves _ _ _ _ (HeadSHA_shape _) same_keeps_api). Qed.
Lemma Lock_keeps n : keeps (Lock t n).
Proof. apply within_step. intros m x m'. destruct (_ !! _); [done|]. by intros [= <- <-]. Qed.
Lemma Unlock_keeps n : keeps (Unlock n).
Proof. by apply within_modify. Qed.
Lemma recordError_keeps n msg i s : keeps (recordError n msg i s).
Proof.
  unfold recordError. repeat within_step. apply atomic_keeps. intros m.
  by destruct (recordSyncFailure _ _ _ _).
Qed.
Lemma finishSync_keeps n sha i s : keeps (finishSync n sha i s).
Proof. unfold finishSync. repeat within_step. Qed.
Lemma mark_keeps n : keeps (mark_syncing n).
Proof. unfold mark_syncing. repeat within_step. Qed.
#[local] Hint Resolve refresh_keeps apply_keeps stacks_keeps pull_keeps sha_keeps Lock_keeps Unlock_keeps
  recordError_keeps finishSync_keeps mark_keeps : within.
Lemma sync_locked_keeps repo cfg i s : keeps (sync_locked cloneDir cryptoKey sshTempDir repo cfg i s).
Proof. unfold sync_locked. repeat within_step. Qed.
#[local] Hint Resolve sync_locked_keeps : within.
Lemma syncRepoFromDB_keeps repo cfg di : keeps (syncRepoFromDB cloneDir cryptoKey sshTempDir t repo cfg di).
Proof. unfold syncRepoFromDB. repeat within_step. Qed.
Lemma load_keeps : keeps (loadInfisicalFromDB cryptoKey).
Proof. unfold loadInfisicalFromDB. repeat within_step. Qed.
Lemma default_keeps : keeps load_default_interval.
Proof. unfold load_default_interval. repeat within_step. Qed.
#[local] Hint Resolve syncRepoFromDB_keeps load_keeps default_keeps : within.
Lemma applyCallback_keeps repo stack : keeps (applyCallback cloneDir cryptoKey sshTempDir t repo stack).
Proof. unfold applyCallback. repeat within_step. Qed.
Lemma round_one_keeps repo cfg di : keeps (round_one cloneDir cryptoKey sshTempDir t repo cfg di).
Proof.
  unfold round_one. repeat within_step. apply atomic_keeps. intros m. by destruct (shouldSkipSync _ _ _).
Qed.
#[local] Hint Resolve round_one_keeps : within.
Lemma doSyncRound_keeps repos cfg di : keeps (doSyncRound cloneDir cryptoKey sshTempDir t repos cfg di).
Proof. induction repos as [|repo repos IH]; cbn [doSyncRound]; repeat within_step. Qed.
Lemma receive_keeps : keeps receive_one.
Proof. apply within_step. intros m x m'. destruct (m_trigger m); [done|]. by intros [= <- <-]. Qed.
Lemma drain_keeps fuel names : keeps (drainLoop fuel names).
Proof.
  revert names. induction fuel as [|fuel IH]; intros names; cbn [drainLoop]; repeat within_step.
  apply atomic_keeps. intros m. by destruct (m_trigger m).
Qed.
#[local] Hint Resolve doSyncRound_keeps receive_keeps drain_keeps : within.
Lemma main_loop_keeps fuel n : keeps (main_loop cloneDir cryptoKey sshTempDir t fuel n).
Proof.
  induction n as [|n IH]; cbn [main_loop]; [done|]. apply within_bind; [|intros []; done].
  unfold main_turn, triggered_one. repeat within_step.
Qed.
Lemma startup_keeps : keeps (startup_scan cloneDir cryptoKey sshTempDir t).
Proof. unfold startup_scan, startup_one. repeat within_step. Qed.
#[local] Hint Resolve main_loop_keeps startup_keeps : within.
(** [main] from the scan at startup on. *)
Definition main_goroutine (fuel turns : nat) : prog unit :=
  bind (startup_scan cloneDir cryptoKey sshTempDir t) (fun _ => main_loop cloneDir cryptoKey sshTempDir t fuel turns).
Lemma main_goroutine_keeps fuel turns : keeps (main_goroutine fuel turns).
Proof. unfold main_goroutine. repeat within_step. Qed.
End main.

(** ** One API request *)

Section serve.
Context `{A : AEAD} (cloneDir cryptoKey sshTempDir : string).
Context (ip_literal : string -> option string) (ParsePrivateKey : string -> result string) (window : Z).

Definition drop_answer {X} (p : prog X) : prog unit := bind p (fun _ => Ret tt).
(** The handler, then the goroutine it started. *)
Definition container_request (action name : string) : prog unit := (
  res <- handleContainerAction action name;;
  if snd res : bool then refreshContainerState name else Ret tt)%prog.
Definition serve (t : nat) (req : ApiRequest) : prog unit :=
  match req with
  | GetStatus_ => drop_answer serve_status
  | GetReadyz_ => drop_answer serve_readyz
  | PostSync_ repo => drop_answer (handleSync window repo)
  | GetCompose_ repo stack => drop_answer (handleComposeFile repo stack)
  | PostContainer_ action name => container_request action name
  | PostApply_ repo stack =>
      apply_request t repo stack (applyCallback cloneDir cryptoKey sshTempDir t repo stack)
  | Settings_ req => drop_answer (settings_handler ip_literal ParsePrivateKey cryptoKey req)
  end.
Definition program (t : nat) (job : Job) : prog unit :=
  match job with
  | Main fuel turns => main_goroutine cloneDir cryptoKey sshTempDir t fuel turns
  | Api req => serve t req
  end.

(** The requests other than apply start no process and leave the mutexes and the
    claims alone. *)
Definition no_process X (q : Ask X) : Prop := match q with Exec _ => False | _ => True end.
Definition api_frame (m m' : Mem) : Prop :=
  m_locks m' = m_locks m /\ m_applying m' = m_applying m /\ (m_token m' = m_token m \/ m_token m' <> "").
Definition is_apply_request (req : ApiRequest) : bool := match req with PostApply_ _ _ => true | _ => false end.
Abbreviation harmless := (shaped no_process (moves api_frame)).

(** The requests that are no settings either leave the database and the token
    alone, too. *)
Definition read_frame (m m' : Mem) : Prop :=
  m_locks m' = m_locks m /\ m_applying m' = m_applying m /\ m_db m' = m_db m /\ m_token m' = m_token m.
Abbreviation reading := (shaped no_process (moves read_frame)).
Lemma reading_harmless {B} (p : prog B) : reading p -> harmless p.
Proof. apply shaped_mono; [done|]. intros X f. apply moves_mono. unfold read_frame, api_frame. tauto. Qed.
Lemma reading_docker {B} (p : prog B) : shaped docker_call (moves unchanged) p -> reading p.
Proof. apply shaped_mono; [by intros X []|]. intros X f. apply moves_mono. by intros m m' ->. Qed.
Lemma harmless_db_read {B} (f : fault -> DB -> B) : harmless (db_read f).
Proof. split; [done|]. intros flt. split; [intros m|done]. by split_and!; [..|left]. Qed.
Lemma harmless_db_exec {B} (f : fault -> DB -> B * DB) : harmless (db_exec f).
Proof.
  split; [done|]. intros flt. split; [intros m; destruct (f flt (m_db m))|done]. by split_and!; [..|left].
Qed.
Lemma harmless_encrypt pt : harmless (encrypt cryptoKey pt).
Proof. unfold encrypt. by destruct (negb _). Qed.
Lemma harmless_pat pt : harmless (encrypt_pat cryptoKey pt).
Proof. unfold encrypt_pat. destruct (negb _); [apply harmless_encrypt|done]. Qed.
Lemma harmless_uuid : harmless draw_uuid.
Proof. done. Qed.
Lemma harmless_write_all l : harmless (write_all l).
Proof.
  induction l as [|[key value] l IH]; [done|]. cbn [write_all]. apply shaped_bind; [done|]. intros now.
  apply shaped_bind; [apply harmless_db_exec|]. by intros [e|].
Qed.
Lemma harmless_write req enc : harmless (write_settings req enc).
Proof.
  unfold write_settings. apply shaped_bind; [apply harmless_write_all|]. intros [key|]; [done|].
  destruct (nonempty _) as [token|] eqn:E; (apply shaped_bind; [|done]); [|done]. apply shaped_atomic. intros m.
  split_and!; [done..|]. right. simpl. intros ->. unfold nonempty in E. by repeat case_match.
Qed.
Create HintDb harmless.
#[local] Hint Resolve reading_docker harmless_db_read harmless_db_exec harmless_encrypt harmless_pat harmless_uuid
  harmless_write_all harmless_write : harmless.
Ltac harmless_step := match goal with
  | |- harmless (Ret _) => exact I
  | |- harmless (bind _ _) => apply shaped_bind; [|intros ?]
  | |- harmless (ask _) => done
  | |- harmless (log_debug _ _) => done
  | |- harmless (log_info _ _) => done
  | |- harmless (log_warn _ _) => done
  | |- harmless (log_error _ _) => done
  | |- harmless (reads _) => apply shaped_atomic; intros m; by split_and!; [..|left]
  | |- harmless (for_each _ _) => apply shaped_for_each; intros ?
  | |- harmless (let _ := _ in _) => cbv zeta
  | |- harmless (match ?x with _ => _ end) => destruct x
  | |- harmless _ => eauto with harmless
  end.
Lemma settings_harmless req : harmless (settings_handler ip_literal ParsePrivateKey cryptoKey req).
Proof.
  destruct req; unfold settings_handler, answer, handleListRepos, handleCreateRepo, handleGetRepo, handleUpdateRepo,
    handleDeleteRepo, handleListSSHKeys, handleCreateSSHKey, handleDeleteSSHKey, handleGetGeneralSettings,
    handleUpdateGeneralSettings; repeat harmless_step.
Qed.
Ltac reading_step := match goal with
  | |- reading (Ret _) => exact I
  | |- reading (bind _ _) => apply shaped_bind; [|intros ?]
  | |- reading (ask _) => done
  | |- reading (log_debug _ _) => done
  | |- reading (log_info _ _) => done
  | |- reading (log_warn _ _) => done
  | |- reading (log_error _ _) => done
  | |- reading (reads _) => by apply shaped_atomic; intros m
  | |- reading (for_each _ _) => apply shaped_for_each; intros ?
  | |- reading (let _ := _ in _) => cbv zeta
  | |- reading (match ?x with _ => _ end) => destruct x
  | |- reading _ => eauto with harmless
  end.
Lemma full_state_reading : reading full_state.
Proof. unfold full_state. repeat reading_step. Qed.
Lemma all_stacks_reading : reading all_stacks.
Proof. unfold all_stacks. repeat reading_step. Qed.
Lemma read_first_reading dir names : reading (read_first dir names).
Proof. induction names as [|n names IH]; cbn [read_first]; repeat reading_step. Qed.
Lemma refresh_member_reading c name st : reading (refresh_if_member c name st).
Proof.
  unfold refresh_if_member. apply shaped_bind; [apply reading_docker, ListStackContainerDetails_shape|].
  intros res. destruct (snd res); [done|]. destruct (existsb _ _); [|done]. by apply shaped_atomic; intros m.
Qed.
#[local] Hint Resolve settings_harmless full_state_reading all_stacks_reading read_first_reading
  refresh_member_reading : harmless.
Lemma sync_reading repo : reading (handleSync window repo).
Proof.
  unfold handleSync. destruct (String.eqb _ _); [done|]. apply shaped_bind; [done|]. intros since.
  apply shaped_bind; [done|]. intros now.
  apply shaped_bind; [apply shaped_atomic; intros m; by destruct (Allow _ _ _ _ _)|]. intros [|]; [|done].
  apply shaped_bind; [apply shaped_atomic; intros m; by destruct (Nat.ltb _ _)|]. done.
Qed.
Lemma container_reading action name : reading (container_request action name).
Proof.
  unfold container_request. apply shaped_bind.
  - unfold handleContainerAction, Get. apply shaped_bind; [by apply shaped_atomic; intros m|].
    intros [c|]; [|done]. cbv zeta. repeat case_bool; try done; (split; [done|]); by intros [e|].
  - intros res. destruct (snd res); [|done]. unfold refreshContainerState, Get. repeat reading_step.
Qed.
Definition is_settings (req : ApiRequest) : bool := match req with Settings_ _ => true | _ => false end.
Lemma serve_reading t req : is_apply_request req = false -> is_settings req = false -> reading (serve t req).
Proof.
  assert (forall X (p : prog X), reading p -> reading (drop_answer p)) as Hd.
  { intros X p Hp. by apply shaped_bind. }
  intros Hr Hs. destruct req; cbn [serve].
  - apply Hd. unfold serve_status. repeat reading_step.
  - apply Hd. unfold serve_readyz, Get. repeat reading_step.
  - apply Hd, sync_reading.
  - apply Hd. unfold handleComposeFile. repeat reading_step.
  - apply container_reading.
  - done.
  - done.
Qed.
Lemma serve_harmless t req : is_apply_request req = false -> harmless (serve t req).
Proof.
  intros Hr. destruct (is_settings req) eqn:E; [|by apply reading_harmless, serve_reading].
  destruct req; try done. apply shaped_bind; [apply settings_harmless|done].
Qed.
End serve.

(** ** Git commands exclude each other *)

Section git.
Context `{A : AEAD} (cloneDir cryptoKey sshTempDir : string).
Context (ip_literal : string -> option string) (ParsePrivateKey : string -> result string) (window : Z).
Abbreviation program_of := (program cloneDir cryptoKey sshTempDir ip_literal ParsePrivateKey window).

Lemma harmless_calm {B} (p : prog B) : shaped no_process (moves api_frame) p -> shaped (git_within cloneDir None) keeps_locks p.
Proof. apply shaped_mono; [by intros X []|]. intros X f. apply moves_mono. by intros m m' []. Qed.
Lemma handleApply_calm t repo stack :
  shaped (git_within cloneDir None) keeps_locks (handleApplyStack t true repo stack).
Proof.
  unfold handleApplyStack. destruct (_ || _); [done|]. apply shaped_bind; [by apply shaped_atomic; intros m|].
  intros st. destruct (negb (snd st)); [done|]. cbn [negb]. apply shaped_bind; [|by intros []].
  apply shaped_atomic. intros m. by destruct (m_applying m !! _).
Qed.
Lemma wp_program t job m h :
  holds_none t m -> wp (lock_spec cloneDir t) (program_of t job) (fun _ m' _ => holds_none t m') m h.
Proof.
  intros Hm. destruct job as [fuel turns|req]; cbn [program].
  - unfold main_goroutine. apply wp_seq; [by apply wp_startup_scan|]. intros _ m1 h1 H1. by apply wp_main_loop.
  - destruct (is_apply_request req) eqn:E; [|apply wp_calm_none; [by apply harmless_calm, serve_harmless|done]].
    destruct req; try done. cbn [serve]. unfold apply_request.
    apply wp_seq; [apply wp_calm_none; [apply handleApply_calm|done]|]. intros res m1 h1 H1.
    destruct (snd res); [|by apply unlocked_Ret].
    apply wp_seq; [by apply wp_applyCallback|]. intros _ m2 h2 H2.
    apply wp_calm_none; [by apply shaped_atomic; intros m'|done].
Qed.

Lemma Join_clone_inj a b : plain a = true -> plain b = true -> Join [cloneDir; a] = Join [cloneDir; b] -> a = b.
Proof.
  intros Ha Hb H. pose proof (Rel_Join2 cloneDir a Ha) as E. rewrite H, Rel_Join2 in E by done.
  by injection E.
Qed.

Context (jobs : nat -> Job).
(** Goroutine [t] runs its job. *)
Definition Start (t : nat) (p : prog unit) : Prop := p = program_of t (jobs t).

Let Inv (m : Mem) : Prop := True.
Lemma lock_compat t u m m' : t <> u -> Inv m -> atom_ok (lock_spec cloneDir t) m m' -> rely (lock_spec cloneDir u) m m'.
Proof. intros Htu _ Ha. by apply Ha. Qed.
Lemma lock_start t p m : Inv m -> holds_none t m -> Start t p -> wp (lock_spec cloneDir t) p (fun _ m _ => holds_none t m) m [].
Proof. intros _ Hm ->. by apply wp_program. Qed.
Lemma lock_idle t m m' : rely (lock_spec cloneDir t) m m' -> holds_none t m -> holds_none t m'.
Proof. intros H Hm. simpl in H. by rewrite <- H. Qed.
Lemma none_held m : m_locks m = ∅ -> forall t, holds_none t m.
Proof. intros H t n. unfold held. by rewrite H, lookup_empty. Qed.
Ltac par lemma := eapply (lemma Start (lock_spec cloneDir) ltac:(done) Inv lock_compat ltac:(done)
  holds_none holds_none lock_idle lock_start); try eassumption; first [exact I|by apply none_held].

(** C3. Git commands on the same clone exclude each other, in every interleaving of
    the main goroutine, API requests and the goroutines they start, whatever the
    outside world answers: a goroutine about to run a git command holds the mutex
    of the repository whose clone, directly inside the directory of clones, the
    command works on, and no other goroutine is about to run git there. *)
Theorem git_mutual_exclusion m0 c t g k h :
  m_locks m0 = ∅ -> preachable Start m0 c ->
  c_threads c !! t = Some (Call (Exec g) k, h) -> is_git g = true ->
  exists n, m_locks (c_mem c) !! n = Some t /\ plain n = true /\ git_dir g = Some (Join [cloneDir; n])
  /\ forall t' g' k' h', t' <> t -> c_threads c !! t' = Some (Call (Exec g') k', h') -> is_git g' = true ->
       git_dir g' <> git_dir g.
Proof.
  intros Hm0 Hr Hc Hg.
  assert (forall t g k h, c_threads c !! t = Some (Call (Exec g) k, h) -> is_git g = true ->
    exists n, m_locks (c_mem c) !! n = Some t /\ plain n = true /\ git_dir g = Some (Join [cloneDir; n])) as H.
  { clear t g k h Hc Hg. intros t g k h Hc.
    assert (call_ok (lock_spec cloneDir t) (Exec g) (c_mem c) h) as H by par par_safe. exact H. }
  destruct (H _ _ _ _ Hc Hg) as (n & Hl & Hp & Hd). exists n. split_and!; [done..|].
  intros t' g' k' h' Ht Hc' Hg' Hdd. destruct (H _ _ _ _ Hc' Hg') as (n' & Hl' & Hp' & Hd').
  rewrite Hdd, Hd in Hd'. injection Hd' as Hj. apply Join_clone_inj in Hj; [|done..]. subst.
  rewrite Hl in Hl'. by injection Hl' as ->.
Qed.

(** C13. The repository mutexes never deadlock: in every interleaving, a goroutine
    that cannot take its next step either waits on the empty sync queue, or waits
    for mutexes while holding none, and some other goroutine that holds one can
    take its next step; goroutines that have ended, or not started, hold none. *)
Theorem no_deadlock m0 c t X (f : Mem -> option (X * Mem)) k h :
  m_locks m0 = ∅ -> preachable Start m0 c ->
  c_threads c !! t = Some (Atomic f k, h) -> f (c_mem c) = None ->
  holds_none t (c_mem c) /\
  (m_trigger (c_mem c) = [] \/
   exists n u p h', m_locks (c_mem c) !! n = Some u /\ u <> t /\ c_threads c !! u = Some (p, h')
     /\ match p with Ret _ => False | Call _ _ => True | Atomic f' _ => is_Some (f' (c_mem c)) end).
Proof.
  intros Hm0 Hr Hc Hf.
  assert (block_ok (lock_spec cloneDir t) (c_mem c)) as [Hn Hw] by par par_blocked.
  split; [done|]. destruct Hw as [(n & u & Hl & Hu)|]; [right|by left].
  destruct (c_threads c !! u) as [[p h']|] eqn:Ec.
  - exists n, u, p, h'. split_and!; [done..|]. destruct p as [[]|Y q k'|Y f' k']; [|done|].
    + assert (holds_none u (c_mem c)) as H by par par_over. by destruct (H n).
    + destruct (f' (c_mem c)) as [r|] eqn:Ef; [by exists r|].
      assert (block_ok (lock_spec cloneDir u) (c_mem c)) as [H _] by par par_blocked. by destruct (H n).
  - assert (holds_none u (c_mem c)) as H by par par_idle. by destruct (H n).
Qed.
End git.

(** Two goroutines on the same repository: the first has reached its first git
    command, the second waits for the mutex. *)
Definition demo_db : DB := snd (Db.CreateRepo NoFault "" 0 Outcome.demo_repo emptyDB).
Definition demo_mem : Mem := set_db demo_db emptyMem.
Definition demo_jobs (t : nat) : Job := Main 0 0.
Definition no_ip (s : string) : option string := None.
Definition no_key (s : string) : result string := Err (errorf "ssh: no key found").
Abbreviation demo_program := (program "/d" "k" "/d/.ssh" no_ip no_key 0).
Abbreviation demo_start := (Start "/d" "k" "/d/.ssh" no_ip no_key 0 demo_jobs).
Definition demo_init : Config :=
  start 2 (demo_program 2 (demo_jobs 2)) (start 1 (demo_program 1 (demo_jobs 1)) {| c_mem := demo_mem; c_threads := ∅ |}).
Lemma demo_init_reachable : preachable demo_start demo_mem demo_init.
Proof.
  unfold demo_init. eapply pr_step; [eapply pr_step; [apply pr_init|]|]; by apply p_start.
Qed.
Definition demo_two : Config := advance demo_answer 40 2 (advance demo_answer 17 1 demo_init).
Lemma demo_two_reachable : preachable demo_start demo_mem demo_two.
Proof. do 2 apply advance_reachable. exact demo_init_reachable. Qed.

(** What a goroutine is about to do. *)
Definition next_git (t : nat) (c : Config) : bool :=
  match c_threads c !! t with Some (Call (Exec g) _, _) => is_git g | _ => false end.
Definition waiting (t : nat) (c : Config) : bool :=
  match c_threads c !! t with
  | Some (Atomic f _, _) => match f (c_mem c) with None => true | Some _ => false end
  | _ => false
  end.
Lemma next_git_spec t c : next_git t c = true ->
  exists g k h, c_threads c !! t = Some (Call (Exec g) k, h) /\ is_git g = true.
Proof.
  unfold next_git. destruct (c_threads c !! t) as [[[|X q k|] h]|]; try done.
  destruct q; try done. intros H. by exists c0, k, h.
Qed.
Lemma waiting_spec t c : waiting t c = true -> exists X (f : Mem -> option (X * Mem)) k h,
  c_threads c !! t = Some (Atomic f k, h) /\ f (c_mem c) = None.
Proof.
  unfold waiting. destruct (c_threads c !! t) as [[[| |X f k] h]|]; try done.
  destruct (f (c_mem c)) eqn:E; [done|]. intros _. by exists X, f, k, h.
Qed.

Lemma git_mutual_exclusion_witness : exists g k h n,
  c_threads demo_two !! 1%nat = Some (Call (Exec g) k, h)
  /\ m_locks (c_mem demo_two) !! n = Some 1%nat /\ git_dir g = Some (Join ["/d"; n]).
Proof.
  destruct (next_git_spec 1 demo_two ltac:(vm_compute; reflexivity)) as (g & k & h & Hc & Hg).
  destruct (git_mutual_exclusion "/d" "k" "/d/.ssh" no_ip no_key 0 demo_jobs demo_mem demo_two 1 g k h
    eq_refl demo_two_reachable Hc Hg) as (n & Hl & Hp & Hd & _).
  exists g, k, h, n. split; [exact Hc|]. split; [exact Hl|exact Hd].
Defined.
Lemma no_deadlock_witness : exists X (f : Mem -> option (X * Mem)) k h,
  c_threads demo_two !! 2%nat = Some (Atomic f k, h) /\ f (c_mem demo_two) = None
  /\ holds_none 2 (c_mem demo_two).
Proof.
  destruct (waiting_spec 2 demo_two ltac:(vm_compute; reflexivity)) as (X & f & k & h & Hc & Hf).
  exists X, f, k, h. split; [exact Hc|]. split; [exact Hf|].
  exact (proj1 (no_deadlock "/d" "k" "/d/.ssh" no_ip no_key 0 demo_jobs demo_mem demo_two 2 X f k h
    eq_refl demo_two_reachable Hc Hf)).
Defined.
