(* ===== verification/Queue.v ===== *)
(** * The queue of sync requests, from the API to the main loop

    [handleSync] (server.go) puts names into the channel [syncTrigger], the main
    loop (main.go) is woken by one and drains the rest.  While either runs, other
    requests may append to the queue. *)
From Stdlib Require Import Ascii.
From S2P Require Import Prelude GoStrings State Sched Db Effects Stacks Sync Http Server System.

(** Other goroutines append to the queue. *)
Definition appended (m m' : Mem) : Prop := exists l, m_trigger m' = m_trigger m ++ l.
#[export] Instance appended_pre : PreOrder appended.
Proof.
  unfold appended. split; [intros m; exists []; by rewrite app_nil_r|].
  intros m1 m2 m3 [l1 E1] [l2 E2]. exists (l1 ++ l2). by rewrite E2, E1, app_assoc.
Qed.
Definition queue_spec : Spec :=
  {| rely := appended; call_ok := fun _ _ _ _ => True; ans_ok := fun _ _ _ => True;
     atom_ok := fun _ _ => True; block_ok := fun _ => False; rely_pre := appended_pre |}.

(** ** Taking *)

Lemma wp_drain fuel taken m h :
  wp queue_spec (drainLoop fuel taken)
    (fun names _ h' => (exists l, names = taken ++ firstn fuel (m_trigger m) ++ l) /\ h' = h) m h.
Proof.
  revert taken m. induction fuel as [|fuel IH]; intros taken m; cbn [drainLoop].
  - intros m1 _. split; [exists []; by rewrite !app_nil_r|done].
  - intros m1 [l E]. destruct (m_trigger m1) as [|name names]; (split; [done|]); cbn [fst snd].
    + intros m2 _. destruct (m_trigger m); [|done]. split; [exists []; by rewrite app_nil_r|done].
    + eapply wp_mono; [|apply IH]. intros r _ h' [[l' ->] ->]. split; [|done]. cbn [m_trigger set_trigger].
      destruct (m_trigger m) as [|a rest]; [rewrite <- app_assoc; by eexists|].
      injection E as -> ->. rewrite firstn_app. cbn [firstn app]. rewrite <- !app_assoc. by eexists.
Qed.
(** The select arm of the main loop, up to the names it will synchronise. *)
Definition wake (fuel : nat) : prog (list string) := (name <- receive_one;; drainLoop fuel [name])%prog.
Lemma wp_wake fuel m h :
  m_trigger m <> [] ->
  wp queue_spec (wake fuel)
    (fun names _ h' => (exists l, names = firstn (S fuel) (m_trigger m) ++ l) /\ h' = h) m h.
Proof.
  intros Hne m1 [l E]. rewrite E. destruct (m_trigger m) as [|a rest]; [done|]. cbn [app]. split; [done|].
  eapply wp_mono; [|apply wp_drain]. intros names _ h' [[l' ->] ->]. split; [|done]. cbn [m_trigger set_trigger].
  rewrite firstn_app. cbn [firstn app]. rewrite <- !app_assoc. by eexists.
Qed.

(** ** Putting *)

(** The answer to a sync request, given the steps the handler took itself (the
    memory before and after each) and the calls it made. *)
Definition sync_answer (window : Z) (repo : string) (resp : Response) (steps : list (Mem * Mem)) (h : list Act) : Prop :=
  if decide (repo = "") then code resp = 400 /\ steps = [] /\ h = []
  else exists since now m1, h = [act Now since; act Now now]
  /\ ((exists last, m_lastTime m1 !! repo = Some last /\ since - last < window
         /\ code resp = 429 /\ steps = [(m1, m1)])
     \/ ((forall last : Time, m_lastTime m1 !! repo = Some last -> window <= since - last)
         /\ exists m2, let entered := (m1, set_lastTime (<[repo := now]> (m_lastTime m1)) m1) in
           (code resp = 200 /\ (length (m_trigger m2) < 16)%nat
              /\ steps = [entered; (m2, set_trigger (m_trigger m2 ++ [repo]) m2)])
           \/ (code resp = 202 /\ (16 <= length (m_trigger m2))%nat /\ steps = [entered; (m2, m2)]))).
Lemma set_lastTime_same m : set_lastTime (m_lastTime m) m = m.
Proof. by destruct m. Qed.
Lemma handleSync_answer window repo o m : 0 < window <= int64_max ->
  exists resp m' h, run o (handleSync window repo) 0 m [] = Some (resp, m', h)
  /\ sync_answer window repo resp (own_steps o (handleSync window repo) 0 m []) h
  /\ (code resp = 200 -> (forall n m, appended m (o_other o n m)) -> In repo (m_trigger m')).
Proof.
  intros Hw. unfold handleSync, sync_answer. destruct (decide (repo = "")) as [->|Hr].
  { eexists _, _, _. split; [reflexivity|]. split; [by split_and!|discriminate]. }
  rewrite (proj2 (String.eqb_neq repo "") Hr). cbn [run own_steps bind ask atomic enqueue app]. set (m1 := o_other o 2 _).
  set (since := o_answer o _ Now []). set (now := o_answer o _ Now [_]).
  pose proof (Allow_spec window repo since now (m_lastTime m1) Hw) as Ha.
  destruct (Allow window repo since now (m_lastTime m1)) as [ok last'].
  assert ((ok = true /\ last' = <[repo := now]> (m_lastTime m1)
           /\ forall last : Time, m_lastTime m1 !! repo = Some last -> window <= since - last)
    \/ (ok = false /\ last' = m_lastTime m1 /\ exists last, m_lastTime m1 !! repo = Some last /\ since - last < window))
    as [(-> & -> & Hin)|(-> & -> & last & Hl & Hlt)].
  { destruct (m_lastTime m1 !! repo) as [last|]; [destruct Ha as [[Hle [= -> ->]]|[Hle [= -> ->]]]|injection Ha as -> ->].
    - left. split_and!; [done..|]. by intros ? [= <-].
    - right. split_and!; [done..|]. by exists last.
    - by left. }
  - cbn [negb]. cbn [run own_steps bind atomic]. set (m2 := o_other o 3 _).
    destruct (Nat.ltb_spec (length (m_trigger m2)) trigger_cap) as [Hc|Hc];
      (eexists _, _, _; split; [reflexivity|]); (split; [exists since, now, m1; split; [done|]; right; split; [done|]; exists m2|]).
    + left. by split_and!.
    + intros _ Ho. match goal with |- In repo (m_trigger (o_other o ?n ?x)) => destruct (Ho n x) as [l ->] end.
      cbn. rewrite !in_app_iff. left. right. by left.
    + right. by split_and!.
    + discriminate.
  - cbn [negb run own_steps bind]. eexists _, _, _. split; [reflexivity|]. split; [|discriminate].
    exists since, now, m1. split; [done|]. left. exists last. rewrite set_lastTime_same. by split_and!.
Qed.

(** C17. A sync request is answered by what became of it, and an accepted one is not
    lost.  The endpoint always answers: 400 without a name, having done nothing;
    429 when the last request it let through for this repository is less than a
    window ago, having changed nothing; otherwise the window starts anew, and the
    answer is 200 when the handler found a queue of less than 16 and appended the
    name, which is the only other thing it did, and 202 when it found the queue
    full and left it.  After a 200, when the main loop is woken by a queue that
    fits into its [fuel + 1] receives, the wake-up comes to an end with all of its
    names, this one included, in the order of the requests, whatever arrives
    meanwhile. *)
Theorem sync_queue window repo o m :
  0 < window <= int64_max ->
  exists resp m' h, run o (handleSync window repo) 0 m [] = Some (resp, m', h)
  /\ sync_answer window repo resp (own_steps o (handleSync window repo) 0 m []) h
  /\ (code resp = 200 -> (forall n m, appended m (o_other o n m)) ->
       forall o' fuel n h, (length (m_trigger m') <= S fuel)%nat -> (forall n m, appended m (o_other o' n m)) ->
       exists names m2, run o' (wake fuel) n m' h = Some (names, m2, h) /\ In repo names
       /\ exists l, names = m_trigger m' ++ l).
Proof.
  intros Hw. destruct (handleSync_answer window repo o m Hw) as (resp & m' & h1 & Hrun & Ha & Hq).
  exists resp, m', h1. split_and!; [done..|]. intros H200 Ho o' fuel n h Hf Ho'. specialize (Hq H200 Ho).
  assert (m_trigger m' <> []) as Hne by (by intros E; rewrite E in Hq).
  pose proof (wp_run queue_spec o' _ _ n m' h Ho' ltac:(done) (wp_wake fuel m' h Hne)) as Hk.
  destruct (run o' _ _ _ _) as [[[names m2] h2]|]; [|by destruct Hk]. destruct Hk as [[l ->] ->].
  rewrite firstn_all2 by done. exists (m_trigger m' ++ l), m2. split_and!; [done|by apply in_app_iff; left|by exists l].
Qed.
Lemma sync_queue_witness : exists resp m' h1,
  run demo_oracle (handleSync (5 * Second) "home") 0 emptyMem [] = Some (resp, m', h1)
  /\ code resp = 200
  /\ exists names m2, run demo_oracle (wake 15) 0 m' [] = Some (names, m2, []) /\ In "home" names.
Proof.
  destruct (sync_queue (5 * Second) "home" demo_oracle emptyMem) as (resp & m' & h1 & Hrun & _ & Hnext).
  - unfold Second, int64_max. lia.
  - exists resp, m', h1. split; [exact Hrun|]. vm_compute in Hrun. injection Hrun as <- <- _. split; [reflexivity|].
    destruct (Hnext eq_refl ltac:(intros n m; reflexivity) demo_oracle 15%nat 0%nat []) as (names & m2 & Hrun & Hin & _).
    + apply Nat.leb_le. reflexivity.
    + intros n m. reflexivity.
    + exists names, m2. split; [exact Hrun|exact Hin].
Defined.

(** A full queue answers 202 and drops the request: the name is not in it. *)
Definition full_queue : Mem := set_trigger (repeat "other" 16) emptyMem.
Example dropped_when_full :
  match run demo_oracle (handleSync (5 * Second) "home") 0 full_queue [] with
  | Some (resp, m', _) => code resp = 202 /\ m_trigger m' = repeat "other" 16 /\ is_Some (m_lastTime m' !! "home")
  | None => False
  end.
Proof. vm_compute. split_and!; [done..|]. by eexists. Qed.
