(* ===== verification/Dedup.v ===== *)
(** * At most one apply request works on a stack

    The ownership of an entry of [m_applying], as a rely/guarantee specification
    of every job. *)
From Stdlib Require Import Ascii.
From S2P Require Import Prelude GoStrings GoPath GitRef Crypto State Sched Db Effects Git Docker Stacks Sync Footprint Locking Outcome Http Server Settings System.

Definition owned (t : nat) (m : Mem) (k : string) : Prop := m_applying m !! k = Some t.
Definition same_owned (t : nat) (m m' : Mem) : Prop := forall k, owned t m k <-> owned t m' k.
Definition owns_none (t : nat) (m : Mem) : Prop := forall k, ~ owned t m k.
#[export] Instance same_owned_pre t : PreOrder (same_owned t).
Proof. split; [done|]. intros m1 m2 m3 H12 H23 k. by rewrite (H12 k). Qed.
#[export] Instance owns_none_proper t : Proper (same_owned t ==> iff) (owns_none t).
Proof. intros m m' H. split; intros Hn k; [rewrite <- (H k)|rewrite (H k)]; apply Hn. Qed.

(** The key of the claim a job needs for its calls. *)
Definition apply_key (job : Job) : option string :=
  match job with Api (PostApply_ repo stack) => Some (repo +:+ "/" +:+ stack)%string | _ => None end.
Definition apply_spec (t : nat) (job : Job) : Spec :=
  {| rely := same_owned t;
     call_ok := fun _ _ m _ => match apply_key job with Some k => owned t m k | None => True end;
     ans_ok := fun _ _ _ => True;
     atom_ok := fun m m' => forall u, u <> t -> same_owned u m m';
     block_ok := fun _ => True;
     rely_pre := same_owned_pre t |}.

Definition keeps_claims (m m' : Mem) : Prop := m_applying m' = m_applying m.
Lemma keeps_claims_owned t m m' : keeps_claims m m' -> same_owned t m m'.
Proof. unfold keeps_claims. intros H k. unfold owned. by rewrite H. Qed.
Lemma wp_keeps_claims t job {A} (p : prog A) m h :
  within keeps_claims p -> (forall k, apply_key job = Some k -> owned t m k) ->
  wp (apply_spec t job) p (fun _ m' _ => same_owned t m m') m h.
Proof.
  intros Hp Hk. assert (forall m0, same_owned t m0 m -> (forall k, apply_key job = Some k -> owned t m0 k) ->
    wp (apply_spec t job) p (fun _ m' _ => same_owned t m0 m') m h) as H; [|by apply H].
  clear Hk. revert m h. induction p as [a|X q k IH|X g k IH]; intros m h m0 Hm Hk m1 Hm1.
  - simpl in Hm1. by transitivity m.
  - destruct Hp as [_ Hp]. assert (same_owned t m0 m1) as Hm' by (by transitivity m). split.
    + simpl. destruct (apply_key job) as [key|]; [|done]. by apply Hm', Hk.
    + intros x _. by apply IH.
  - destruct Hp as [Hg Hp]. specialize (Hg m1). destruct (g m1) as [[x m2]|]; [|done].
    specialize (Hg x m2 eq_refl). split; [intros u _; by apply keeps_claims_owned|]. apply IH; [done| |done].
    transitivity m; [done|]. transitivity m1; [done|]. by apply keeps_claims_owned.
Qed.

Section dedup.
Context `{A : AEAD} (cloneDir cryptoKey sshTempDir : string).
Context (ip_literal : string -> option string) (ParsePrivateKey : string -> result string) (window : Z).
Abbreviation program_of := (program cloneDir cryptoKey sshTempDir ip_literal ParsePrivateKey window).

Lemma other_jobs_keep t job : apply_key job = None -> within keeps_claims (program_of t job).
Proof.
  intros Hj. destruct job as [fuel turns|req]; cbn [program].
  - eapply within_mono; [|apply main_goroutine_keeps]. unfold keeps_api, api_part, keeps_claims. by intros m m' [=].
  - eapply within_moves; [apply serve_harmless; by destruct req|]. unfold api_frame, keeps_claims. tauto.
Qed.
Lemma callback_keeps t repo stack :
  within keeps_claims (applyCallback cloneDir cryptoKey sshTempDir t repo stack).
Proof. eapply within_mono; [|apply applyCallback_keeps]. unfold keeps_api, api_part, keeps_claims. by intros m m' [=]. Qed.

(** Winning the claim: nobody had it. *)
Lemma wp_claim t job key (Q : bool -> Mem -> list Act -> Prop) m h :
  owns_none t m ->
  (forall m', (forall k, owned t m' k <-> k = key) -> Q true m' h) ->
  (forall m', owns_none t m' -> Q false m' h) ->
  wp (apply_spec t job) (claim t key) Q m h.
Proof.
  intros Hn HQ HQ' m1 Hm1. simpl in Hm1. rewrite Hm1 in Hn. destruct (m_applying m1 !! key) as [u|] eqn:E; simpl; rewrite ?E.
  - split; [done|]. intros m2 Hm2. simpl in Hm2. apply HQ'. by rewrite <- Hm2.
  - assert (forall v k, owned v (set_applying (<[key:=t]> (m_applying m1)) m1) k <-> (if decide (key = k) then v = t else owned v m1 k)) as Hh.
    { intros v k. unfold owned. simpl. rewrite lookup_insert. case_decide; [|done]. split; [by intros [= <-]|by intros ->]. }
    split.
    + intros u Hu k. rewrite Hh. case_decide as Hd; [|done]. subst. unfold owned. rewrite E. by split; [|intros ->].
    + intros m2 Hm2. apply HQ. intros k. rewrite <- (Hm2 k), Hh. case_decide; [by subst|].
      split; [intros H'; by destruct (Hn k)|intros ->; done].
Qed.
Lemma wp_unclaim t job key m h :
  (forall k, owned t m k <-> k = key) ->
  wp (apply_spec t job) (unclaim key) (fun _ m' _ => owns_none t m') m h.
Proof.
  intros Hn m1 Hm1. simpl in Hm1. assert (forall k, owned t m1 k <-> k = key) as Hn1.
  { intros k. by rewrite <- (Hm1 k). }
  pose proof (proj2 (Hn1 key) eq_refl) as Hh. split.
  - intros u Hu k. unfold owned in *. simpl. rewrite lookup_delete. case_decide; [|done]. subst.
    rewrite Hh. split; [|done]. intros [= ->]. done.
  - intros m2 Hm2. simpl in Hm2. rewrite <- Hm2. intros k. unfold owned. simpl. rewrite lookup_delete.
    case_decide; [done|]. intros Hx. by apply (Hn1 k) in Hx as ->.
Qed.

Lemma wp_handleApplyStack t job repo stack m h :
  owns_none t m ->
  wp (apply_spec t job) (handleApplyStack t true repo stack) (fun res m' _ =>
    if snd res : bool then forall k, owned t m' k <-> k = (repo +:+ "/" +:+ stack)%string
    else owns_none t m') m h.
Proof.
  intros Hm. assert (forall r (m : Mem) h, owns_none t m -> wp (apply_spec t job) (Ret (r, false))
    (fun res m' _ => if snd (res : Response * bool) : bool
       then forall k, owned t m' k <-> k = (repo +:+ "/" +:+ stack)%string else owns_none t m') m h) as Hret.
  { intros r m0 h0 H0 m1 H1. simpl in *. by rewrite <- H1. }
  unfold handleApplyStack. destruct (_ || _); [by apply Hret|]. apply wp_bind.
  intros m1 Hm1. split; [done|]. simpl in Hm1. rewrite Hm1 in Hm. clear m Hm1.
  intros m2 Hm2. simpl in Hm2. rewrite Hm2 in Hm.
  destruct (negb (snd (GetStack repo stack (m_store m1)))); [by apply Hret|]. cbn [negb].
  apply wp_bind, wp_claim; [done| |intros m3 H3; by apply Hret].
  intros m3 H3. cbn [negb]. intros m4 H4. simpl in H4. cbn [snd]. intros k. by rewrite <- (H4 k).
Qed.
Lemma wp_apply_program t job m h :
  owns_none t m -> wp (apply_spec t job) (program_of t job) (fun _ m' _ => owns_none t m') m h.
Proof.
  intros Hm. destruct (apply_key job) as [key|] eqn:Ek.
  2: { eapply wp_mono; [|apply wp_keeps_claims; [by apply other_jobs_keep|by rewrite Ek]].
       intros x m' h' Hs. simpl. by rewrite <- Hs. }
  destruct job as [|[]]; try done. injection Ek as Ek. cbn [program serve]. unfold apply_request.
  apply wp_bind. eapply wp_mono; [|by apply wp_handleApplyStack]. intros [r []] m2 h2 H2; cbn [snd] in *.
  - unfold apply_goroutine. apply wp_bind. eapply wp_mono; [|apply wp_keeps_claims; [apply callback_keeps|]].
    + intros [] m3 h3 H3. apply wp_unclaim. intros k. by rewrite <- (H3 k).
    + cbn [apply_key]. intros k [= <-]. by apply H2.
  - intros m3 H3. simpl in H3. by rewrite <- H3.
Qed.

Context (jobs : nat -> Job).
Let SP (t : nat) : Spec := apply_spec t (jobs t).
Let Inv (m : Mem) : Prop := True.
Abbreviation started := (Start cloneDir cryptoKey sshTempDir ip_literal ParsePrivateKey window jobs).
Lemma apply_compat t u m m' : t <> u -> Inv m -> atom_ok (SP t) m m' -> rely (SP u) m m'.
Proof. intros Htu _ Ha. by apply Ha. Qed.
Lemma apply_start t p m : Inv m -> owns_none t m -> started t p -> wp (SP t) p (fun _ m _ => owns_none t m) m [].
Proof. intros _ Hm ->. by apply wp_apply_program. Qed.
Lemma apply_idle t m m' : rely (SP t) m m' -> owns_none t m -> owns_none t m'.
Proof. intros H Hm. simpl in H. by rewrite <- H. Qed.
Lemma none_owned m : m_applying m = ∅ -> forall t, owns_none t m.
Proof. intros H t k. unfold owned. by rewrite H, lookup_empty. Qed.

(** C8. Concurrent applies of one stack are deduplicated.  In every interleaving, a
    goroutine serving an apply request makes a call to the outside world (it
    pulls, runs compose or looks at containers) only while it holds the claim on
    its stack; so of any number of requests for the same stack at most one is at
    work, and the others get through only after it has ended: a goroutine that
    has ended holds no claim. *)
Theorem apply_deduplicated m0 c t repo stack X (q : Ask X) k h :
  m_applying m0 = ∅ -> preachable started m0 c ->
  jobs t = Api (PostApply_ repo stack) -> c_threads c !! t = Some (Call q k, h) ->
  m_applying (c_mem c) !! (repo +:+ "/" +:+ stack)%string = Some t
  /\ (forall t' Y (q' : Ask Y) k' h', jobs t' = Api (PostApply_ repo stack) ->
       c_threads c !! t' = Some (Call q' k', h') -> t' = t)
  /\ (forall t' h', c_threads c !! t' = Some (Ret tt, h') -> owns_none t' (c_mem c)).
Proof.
  intros Hm0 Hr Hj Hc.
  assert (forall t X (q : Ask X) k h, jobs t = Api (PostApply_ repo stack) -> c_threads c !! t = Some (Call q k, h) ->
    m_applying (c_mem c) !! (repo +:+ "/" +:+ stack)%string = Some t) as H.
  { clear t X q k h Hj Hc. intros t X q k h Hj Hc.
    pose proof (par_safe started SP ltac:(done) Inv apply_compat ltac:(done) owns_none owns_none apply_idle
      apply_start m0 c t X q k h I (none_owned m0 Hm0) Hr Hc) as Hok.
    unfold SP in Hok. rewrite Hj in Hok. exact Hok. }
  pose proof (H _ _ _ _ _ Hj Hc) as Ho. split_and!; [done| |].
  - intros t' Y q' k' h' Hj' Hc'. pose proof (H _ _ _ _ _ Hj' Hc') as Ho'. rewrite Ho in Ho'. by injection Ho'.
  - intros t' h' Hc'. exact (par_over started SP ltac:(done) Inv apply_compat ltac:(done) owns_none owns_none apply_idle
      apply_start m0 c t' h' I (none_owned m0 Hm0) Hr Hc').
Qed.
End dedup.

(** ** Two requests for one stack *)

Definition two_requests (t : nat) : Job := Api (PostApply_ "home" "plex").
Definition plex_mem : Mem :=
  set_store (UpdateStack (applying_state "/d/home/plex" "plex" "home")) demo_mem.
Abbreviation requests := (Start "/d" "k" "/d/.ssh" no_ip no_key 0 two_requests).
Definition requests_init : Config :=
  start 2 (demo_program 2 (two_requests 2)) (start 1 (demo_program 1 (two_requests 1)) {| c_mem := plex_mem; c_threads := ∅ |}).
Definition requests_run : Config := advance demo_answer 40 2 (advance demo_answer 3 1 requests_init).
Lemma requests_reachable : preachable requests plex_mem requests_run.
Proof.
  do 2 apply advance_reachable. eapply pr_step; [eapply pr_step; [apply pr_init|]|]; by apply p_start.
Qed.
Definition at_call (t : nat) (c : Config) : bool :=
  match c_threads c !! t with Some (Call _ _, _) => true | _ => false end.
Lemma at_call_spec t c : at_call t c = true -> exists X (q : Ask X) k h, c_threads c !! t = Some (Call q k, h).
Proof. unfold at_call. destruct (c_threads c !! t) as [[[|X q k|] h]|]; try done. intros _. by exists X, q, k, h. Qed.
Lemma apply_deduplicated_witness :
  m_applying (c_mem requests_run) !! "home/plex"%string = Some 1%nat.
Proof.
  destruct (at_call_spec 1 requests_run ltac:(vm_compute; reflexivity)) as (X & q & k & h & Hc).
  exact (proj1 (apply_deduplicated "/d" "k" "/d/.ssh" no_ip no_key 0 two_requests plex_mem requests_run 1
    "home" "plex" X q k h eq_refl requests_reachable eq_refl Hc)).
Defined.
