(* ===== verification/Invariants.v ===== *)
(** * What stays true of the database and the token while the daemon runs

    Invariants over every interleaving: each job preserves them, whatever the
    others do in between. *)
From Stdlib Require Import Ascii.
From S2P Require Import Prelude GoStrings GoPath GitRef Crypto State Sched Db Effects Git Docker Stacks Sync Footprint Locking Outcome Http Server Settings System.

(** A goroutine relies on the invariant [I] and keeps it. *)
Lemma keeping_pre (I : Mem -> Prop) : PreOrder (fun m m' => I m -> I m').
Proof. split; [by intros m|]. intros m1 m2 m3. auto. Qed.
Definition inv_spec (I : Mem -> Prop) : Spec :=
  {| rely := fun m m' => I m -> I m'; call_ok := fun _ _ _ _ => True; ans_ok := fun _ _ _ => True;
     atom_ok := fun m m' => I m -> I m'; block_ok := fun _ => True; rely_pre := keeping_pre I |}.
Section inv.
Context (I : Mem -> Prop).
Definition keeps_inv {A} (p : prog A) : Prop := forall m h, I m -> wp (inv_spec I) p (fun _ m' _ => I m') m h.
Lemma keeps_inv_within {A} (p : prog A) : within (fun m m' => I m -> I m') p -> keeps_inv p.
Proof.
  intros Hp m h Hm. revert m h Hm. induction p as [a|X q k IH|X g k IH]; intros m h Hm m1 Hm1; simpl in Hm1.
  - by apply Hm1.
  - destruct Hp as [_ Hp]. split; [done|]. intros x _. apply IH; [done|]. by apply Hm1.
  - destruct Hp as [Hg Hp]. specialize (Hg m1). destruct (g m1) as [[x m2]|]; [|done].
    specialize (Hg x m2 eq_refl). split; [exact Hg|]. apply IH; [done|]. by apply Hg, Hm1.
Qed.
Lemma keeps_inv_bind {A B} (p : prog A) (f : A -> prog B) :
  keeps_inv p -> (forall a, keeps_inv (f a)) -> keeps_inv (bind p f).
Proof.
  intros Hp Hf m h Hm. apply wp_bind. eapply wp_mono; [|by apply Hp]. intros a m' h' H. by apply Hf.
Qed.
Lemma keeps_inv_Ret {A} (a : A) : keeps_inv (Ret a).
Proof. by apply keeps_inv_within. Qed.
Lemma keeps_inv_ask {X} (q : Ask X) : keeps_inv (ask q).
Proof. by apply keeps_inv_within. Qed.
End inv.

(** ** The rows of the database *)

Section invariants.
Context `{A : AEAD} (cloneDir cryptoKey sshTempDir : string).
Context (ip_literal : string -> option string) (ParsePrivateKey : string -> result string) (window : Z).
Context (jobs : nat -> Job).
Abbreviation started := (Start cloneDir cryptoKey sshTempDir ip_literal ParsePrivateKey window jobs).

Lemma invariant_reachable (I : Mem -> Prop) m0 c :
  (forall t, keeps_inv I (program cloneDir cryptoKey sshTempDir ip_literal ParsePrivateKey window t (jobs t))) ->
  I m0 -> preachable started m0 c -> I (c_mem c).
Proof.
  intros Hjob Hm0 Hr.
  refine (par_mem started (fun _ => inv_spec I) _ I _ _ (fun _ _ => True) (fun _ _ => True) _ _ m0 c Hm0 _ Hr); try done.
  - intros t m m' Hm Ha. by apply Ha.
  - intros t p m Hm _ ->. eapply wp_mono; [|by apply Hjob]. done.
Qed.

Definition repo_valid (r : RepoDB) : Prop :=
  ValidateRepoName (r_Name r) = Ok tt /\ ValidateRepoURL ip_literal (r_URL r) = Ok tt
  /\ ValidateRef (r_Remote r) = Ok tt /\ ValidateRef (r_Branch r) = Ok tt /\ 0 <= r_SyncInterval r.
Definition rows_valid (t : gmap string repo_row) : Prop :=
  forall id row, t !! id = Some row -> repo_valid (scanRepo id row).
Definition db_valid (d : DB) : Prop :=
  names_unique (t_repos d) /\ rows_valid (t_repos d) /\ secrets_flagged (t_settings d).
Definition mem_valid (m : Mem) : Prop := db_valid (m_db m).

Lemma repo_valid_row id r c u : repo_valid r -> repo_valid (scanRepo id (row_of r c u)).
Proof. done. Qed.
Lemma rows_valid_insert id r c u t :
  repo_valid r -> rows_valid t -> rows_valid (<[id := row_of r c u]> t).
Proof.
  intros Hr Ht id' row. rewrite lookup_insert. case_decide; [|apply Ht]. intros [= <-]. by apply repo_valid_row.
Qed.
Lemma CreateRepo_valid f uuid now r d :
  repo_valid r -> db_valid d -> db_valid (CreateRepo f uuid now r d).2.
Proof.
  intros Hr (Hu & Hv & Hs). split; [by apply (repo_exec_unique (OpCreate f uuid now r))|].
  unfold CreateRepo. destruct (stmt_error f); [done|].
  repeat case_match; try done; (split; [by apply rows_valid_insert|done]).
Qed.
Lemma UpdateRepo_valid f now r d : repo_valid r -> db_valid d -> db_valid (Db.UpdateRepo f now r d).2.
Proof.
  intros Hr (Hu & Hv & Hs). split; [by apply (repo_exec_unique (OpUpdate f now r))|].
  unfold Db.UpdateRepo. destruct (stmt_error f); [done|].
  repeat case_match; try done; (split; [by apply rows_valid_insert|done]).
Qed.
Lemma DeleteRepo_valid f id d : db_valid d -> db_valid (DeleteRepo f id d).2.
Proof.
  intros (Hu & Hv & Hs). split; [by apply (repo_exec_unique (OpDelete f id))|].
  unfold DeleteRepo. destruct (stmt_error f); [done|]. split; [|done].
  intros id' row H. simpl in H. apply lookup_delete_Some in H as [_ H]. by apply Hv.
Qed.
Lemma SetSetting_valid f now key value d : db_valid d -> db_valid (SetSetting f now key value d).2.
Proof.
  intros (Hu & Hv & Hs). pose proof (SetSetting_flagged f now key value d Hs) as Hf.
  unfold SetSetting in *. by destruct (stmt_error f).
Qed.
Lemma GetRepo_valid f id d r : db_valid d -> Db.GetRepo f id d = Ok r -> repo_valid r /\ r_ID r = id.
Proof.
  intros (_ & Hv & _). unfold Db.GetRepo. destruct (stmt_error f); [done|].
  destruct (t_repos d !! id) as [row|] eqn:E; [|done]. intros [= <-]. by split; [apply Hv|].
Qed.

(** ** The settings requests keep them *)

Abbreviation keep := (keeps_inv mem_valid).
Lemma keep_db_read {X B} (f : fault -> DB -> X) (k : X -> prog B) :
  (forall flt d, db_valid d -> keep (k (f flt d))) -> keep (bind (db_read f) k).
Proof.
  intros Hk m h Hm m1 Hr. split; [exact I|]. intros flt _ m2 Hr2. split; [intros Hx; exact Hx|].
  apply Hk; by apply Hr2, Hr.
Qed.
Lemma keep_db_exec {X} (f : fault -> DB -> X * DB) :
  (forall flt d, db_valid d -> db_valid (f flt d).2) -> keep (db_exec f).
Proof.
  intros Hf m h Hm m1 Hr. split; [done|]. intros flt _ m2 Hr2. simpl.
  pose proof (Hf flt (m_db m2)) as H. destruct (f flt (m_db m2)) as [x d].
  split; [intros H2; by apply H|]. intros m3 Hr3. by apply Hr3, H, Hr2, Hr.
Qed.
Lemma keep_pure {B} (p : prog B) : within keeps_api p -> keep p.
Proof.
  intros Hp. apply keeps_inv_within. eapply within_mono; [|exact Hp].
  unfold keeps_api, api_part, mem_valid. intros m m' [= H _ _ _] Hm. by rewrite H.
Qed.
Lemma keep_encrypt pt : keep (encrypt cryptoKey pt).
Proof. apply keep_pure. unfold encrypt. repeat within_step. Qed.
Lemma keep_pat pt : keep (encrypt_pat cryptoKey pt).
Proof. unfold encrypt_pat. destruct (negb _); [apply keep_encrypt|by apply keep_pure]. Qed.
Lemma keep_uuid : keep draw_uuid.
Proof. by apply keep_pure. Qed.
Lemma create_error_valid req enc : create_error ip_literal req = None -> repo_valid (new_repo req enc).
Proof.
  unfold create_error, repo_valid, new_repo. cbn [r_Name r_URL r_Remote r_Branch r_SyncInterval].
  destruct (_ || _); [done|]. destruct (ValidateRepoName _) as [[]|]; [|done].
  destruct (ValidateRepoURL _ _) as [[]|]; [|done]. destruct (ValidateRef _) as [[]|]; [|done].
  destruct (ValidateRef _) as [[]|]; [|done]. destruct (Z.ltb_spec (q_SyncInterval req) 0); [done|]. done.
Qed.
Lemma given_valid check s old : given_error check s = None -> check old = Ok tt -> check (orElse s old) = Ok tt.
Proof.
  unfold given_error, orElse. destruct (String.eqb s ""); [done|]. cbn [negb].
  by destruct (check s) as [[]|].
Qed.
Lemma update_error_valid id req enc r :
  update_error ip_literal req = None -> repo_valid r -> repo_valid (updated_repo id req enc r).
Proof.
  unfold update_error. cbn [first_error foldr]. intros H (H1 & H2 & H3 & H4 & H5).
  destruct (given_error ValidateRepoName _) eqn:E1; [done|].
  destruct (given_error (ValidateRepoURL _) _) eqn:E2; [done|].
  destruct (given_error ValidateRef (q_Branch req)) eqn:E3; [done|].
  destruct (given_error ValidateRef (q_Remote req)) eqn:E4; [done|].
  split_and!; [by apply given_valid..|]. cbn [r_SyncInterval updated_repo].
  destruct (Z.ltb_spec 0 (q_SyncInterval req)); lia.
Qed.
Ltac keep_step := match goal with
  | |- keep (Ret _) => apply keeps_inv_Ret
  | |- keep (bind (db_read _) _) => apply keep_db_read; intros ? ? ?
  | |- keep (bind _ _) => apply keeps_inv_bind; [|intros ?]
  | |- keep (ask _) => apply keeps_inv_ask
  | |- keep (log_error _ _) => apply keeps_inv_ask
  | |- keep (log_warn _ _) => apply keeps_inv_ask
  | |- keep (encrypt _ _) => apply keep_encrypt
  | |- keep (encrypt_pat _ _) => apply keep_pat
  | |- keep draw_uuid => apply keep_uuid
  | |- keep (db_exec _) => apply keep_db_exec; intros ? ? ?
  end.
Lemma create_keep body : keep (handleCreateRepo ip_literal cryptoKey body).
Proof.
  unfold handleCreateRepo. destruct body as [req|]; [|keep_step].
  destruct (create_error ip_literal req) eqn:E; [keep_step|].
  repeat (keep_step || case_match). apply CreateRepo_valid; [by apply create_error_valid|done].
Qed.
Lemma update_keep id body : keep (handleUpdateRepo ip_literal cryptoKey id body).
Proof.
  unfold handleUpdateRepo. keep_step. destruct (Db.GetRepo flt id d) as [r|] eqn:Er; [|keep_step].
  destruct body as [req|]; [|keep_step]. destruct (update_error ip_literal req) eqn:E; [keep_step|].
  repeat (keep_step || case_match). apply UpdateRepo_valid; [|done]. apply update_error_valid; [done|].
  by destruct (GetRepo_valid flt id d r).
Qed.
Lemma write_all_keep l : keep (write_all l).
Proof.
  induction l as [|[key value] l IH]; cbn [write_all]; repeat (keep_step || case_match); [|done].
  by apply SetSetting_valid.
Qed.
Lemma keys_valid d d' : t_repos d' = t_repos d -> t_settings d' = t_settings d -> db_valid d -> db_valid d'.
Proof. unfold db_valid. by intros -> ->. Qed.
Lemma CreateSSHKey_valid f uuid now k d : db_valid d -> db_valid (CreateSSHKey f uuid now k d).2.
Proof. apply keys_valid; unfold CreateSSHKey; by repeat case_match. Qed.
Lemma DeleteSSHKey_valid f id d : db_valid d -> db_valid (DeleteSSHKey f id d).2.
Proof. apply keys_valid; unfold DeleteSSHKey; by repeat case_match. Qed.
Lemma write_settings_keep req enc : keep (write_settings req enc).
Proof.
  unfold write_settings. apply keeps_inv_bind; [apply write_all_keep|]. intros [key|]; [keep_step|].
  apply keeps_inv_bind; [|intros; keep_step]. destruct (nonempty _); [|keep_step].
  apply keeps_inv_within. by apply within_modify.
Qed.
Lemma settings_keep req : keep (settings_handler ip_literal ParsePrivateKey cryptoKey req).
Proof.
  destruct req; cbn [settings_handler]; unfold answer; try (apply keeps_inv_bind; [|intros ?; apply keeps_inv_Ret]).
  - unfold handleListRepos. repeat (keep_step || case_match).
  - apply create_keep.
  - unfold handleGetRepo. repeat keep_step.
  - apply update_keep.
  - unfold handleDeleteRepo. repeat keep_step. by apply DeleteRepo_valid.
  - unfold handleListSSHKeys. repeat keep_step.
  - unfold handleCreateSSHKey. repeat (keep_step || case_match). by apply CreateSSHKey_valid.
  - unfold handleDeleteSSHKey. repeat keep_step. by apply DeleteSSHKey_valid.
  - unfold handleGetGeneralSettings. repeat (keep_step || case_match).
  - unfold handleUpdateGeneralSettings. repeat (keep_step || case_match || apply write_settings_keep).
Qed.

(** The other jobs do not write to the database, nor to the token. *)
Definition keeps_db (m m' : Mem) : Prop := m_db m' = m_db m /\ m_token m' = m_token m.
Lemma keep_keeps_db {B} (p : prog B) : within keeps_db p -> keep p.
Proof.
  intros Hp. apply keeps_inv_within. eapply within_mono; [|exact Hp].
  unfold keeps_db, mem_valid. intros m m' [H _] Hm. by rewrite H.
Qed.
Lemma apply_request_keep t repo stack :
  within keeps_db (apply_request t repo stack (applyCallback cloneDir cryptoKey sshTempDir t repo stack)).
Proof.
  apply within_bind.
  - unfold handleApplyStack. destruct (_ || _); [done|]. apply within_bind; [by apply within_reads|].
    intros st. destruct (negb (snd st)); [done|]. cbn [negb]. apply within_bind; [|by intros []].
    apply within_step. intros m x m'. destruct (m_applying m !! _); by intros [= <- <-].
  - intros [r []]; [|done]. apply within_bind; [|intros u; by apply within_modify].
    eapply within_mono; [|apply applyCallback_keeps]. unfold keeps_api, api_part, keeps_db. by intros m m' [=].
Qed.

Lemma program_keep t job : keep (program cloneDir cryptoKey sshTempDir ip_literal ParsePrivateKey window t job).
Proof.
  destruct job as [fuel turns|req]; cbn [program]; [apply keep_pure, main_goroutine_keeps|].
  destruct (is_apply_request req) eqn:Ea.
  { destruct req; try done. apply keep_keeps_db, apply_request_keep. }
  destruct (is_settings req) eqn:Es.
  - destruct req; try done. apply keeps_inv_bind; [apply settings_keep|]. intros r. apply keeps_inv_Ret.
  - apply keep_keeps_db. eapply within_moves; [by apply serve_reading|]. unfold read_frame, keeps_db. tauto.
Qed.

Lemma ref_no_option s : ValidateRef s = Ok tt -> has_prefix s "-" = false /\ s <> "".
Proof.
  unfold ValidateRef. destruct (String.eqb_spec s ""); [done|]. by destruct (has_prefix s "-").
Qed.

(** C9. However the settings API is used, concurrently and with any requests, every
    repository in the database stays fit for use: its clone directory is the
    directory of its name directly inside the directory of clones, its remote and
    branch are non-empty and cannot be taken for options by git, its URL passes
    the validation, its interval is not negative, no two repositories share a
    name, hence a clone, and every secret setting carries the flag that hides it. *)
Theorem repos_stay_valid m0 c :
  db_valid (m_db m0) -> preachable started m0 c ->
  let d := m_db (c_mem c) in
  (forall id row, t_repos d !! id = Some row ->
     safeRepoPath cloneDir (c_name row) = Ok (Join [cloneDir; c_name row])
     /\ has_prefix (c_remote row) "-" = false /\ c_remote row <> ""
     /\ has_prefix (c_branch row) "-" = false /\ c_branch row <> ""
     /\ ValidateRepoURL ip_literal (c_url row) = Ok tt /\ 0 <= c_sync_interval row)
  /\ (forall i j a b, t_repos d !! i = Some a -> t_repos d !! j = Some b ->
       Join [cloneDir; c_name a] = Join [cloneDir; c_name b] -> i = j)
  /\ secrets_flagged (t_settings d).
Proof.
  intros Hm0 Hr d. destruct (invariant_reachable mem_valid m0 c) as (Hu & Hv & Hs); [intros t; apply program_keep|done..|].
  split_and!; [|intros i j a b Hi Hj Hab|done].
  - intros id row Hrow. destruct (Hv id row Hrow) as (H1 & H2 & H3 & H4 & H5). cbn in *.
    apply ref_no_option in H3 as [? ?], H4 as [? ?]. by split_and!; [apply safeRepoPath_valid|..].
  - destruct (Hv i a Hi) as [Ha _], (Hv j b Hj) as [Hb _]. cbn in *.
    apply (Hu i j a b Hi Hj). by eapply Join_clone_inj; [apply ValidateRepoName_plain..|exact Hab].
Qed.
End invariants.

(** A request that creates a repository, run to its end. *)
Definition demo_request : repoRequest :=
  {| q_Name := "home"; q_URL := "https://github.com/me/home.git"; q_Branch := ""; q_Remote := ""; q_AuthType := "none";
     q_SSHKeyID := ""; q_PAT := ""; q_StacksDir := ""; q_SyncInterval := 0; q_Enabled := None |}.
Definition creating (t : nat) : Job := Api (Settings_ (CreateRepo_ (Ok demo_request))).
Definition created_run : Config :=
  advance demo_answer 20 1 (start 1 (demo_program 1 (creating 1)) {| c_mem := emptyMem; c_threads := ∅ |}).
Lemma repos_stay_valid_witness : exists row, t_repos (m_db (c_mem created_run)) !! "72727272-7272-4272-b272-727272727272"%string = Some row
  /\ safeRepoPath "/d" (c_name row) = Ok (Join ["/d"; c_name row]) /\ has_prefix (c_branch row) "-" = false.
Proof.
  assert (preachable (Start "/d" "k" "/d/.ssh" no_ip no_key 0 creating) emptyMem created_run) as Hr.
  { apply advance_reachable. eapply pr_step; [apply pr_init|]. by apply p_start. }
  assert (db_valid no_ip (m_db emptyMem)) as Hv.
  { split; [|split]; [intros i j a b H|intros i a H|intros i a _ H]; discriminate H. }
  destruct (repos_stay_valid "/d" "k" "/d/.ssh" no_ip no_key 0 creating emptyMem created_run Hv Hr) as [H _].
  destruct (t_repos (m_db (c_mem created_run)) !! "72727272-7272-4272-b272-727272727272"%string) as [row|] eqn:E.
  - exists row. destruct (H _ row E) as (H1 & _ & _ & H2 & _). split; [reflexivity|]. split; [exact H1|exact H2].
  - exfalso. apply (f_equal (fun x => match x with None => true | _ => false end)) in E. vm_compute in E. discriminate E.
Defined.
