(* ===== verification/Token.v ===== *)
(** * The dashboard token: how it is set at startup, and that it stays set *)
From Stdlib Require Import Ascii.
From S2P Require Import Prelude GoStrings GoPath GitRef Base64 Crypto State Sched Db Effects Git Docker Stacks Sync Footprint Locking Outcome Http Server Settings System Invariants.

(** What [crypto/rand] promises: as many bytes as were asked for. *)
Definition rand_ok X (q : Ask X) : X -> Prop :=
  match q in Ask X return X -> Prop with
  | RandRead n => fun r => match r with Ok s => String.length s = n | Err _ => True end
  | _ => fun _ => True
  end.
Definition act_written (a : Act) : option (string * string * Z) :=
  (match a_ask a in Ask X return X -> option (string * string * Z) with
   | WriteFile path data perm => fun r => match r with None => Some (path, data, perm) | Some _ => None end
   | _ => fun _ => None
   end) (a_ans a).
(** The files a trace wrote in full: path, content, permissions. *)
Definition written (h : list Act) : list (string * string * Z) := omap act_written h.

(** Nobody else runs yet, so nobody else writes to the database or sets the token. *)
Definition token_frame (m m' : Mem) : Prop := m_db m' = m_db m /\ m_token m' = m_token m.
#[export] Instance token_frame_pre : PreOrder token_frame.
Proof. unfold token_frame. split; [done|]. intros m1 m2 m3 [-> ->] [-> ->]. done. Qed.
Definition token_spec : Spec :=
  {| rely := token_frame; call_ok := fun _ _ _ _ => True; ans_ok := rand_ok;
     atom_ok := fun _ _ => True; block_ok := fun _ => False; rely_pre := token_frame_pre |}.

Lemma RawURLEncode_nonempty s : s <> "" -> RawURLEncode s <> "".
Proof. destruct s as [|a [|b [|c s]]]; done. Qed.

Lemma repeat_length_string n : String.length (String.concat "" (repeat "r"%string n)) = n.
Proof.
  induction n as [|[|n] IH]; [done|done|]. change (repeat "r"%string (S (S n))) with ("r"%string :: repeat "r"%string (S n)).
  cbn [repeat String.concat String.append]. cbn [repeat String.concat] in IH. simpl. f_equal. exact IH.
Qed.

(** The end of [generate_token], from memory [m]. *)
Definition generated (cloneDir : string) (m : Mem) (err : option GoError) (m' : Mem) (h1 : list Act) : Prop :=
  match err with
  | Some _ => token_frame m m'
  | None => m_token m' <> ""
      /\ written h1 = [(Join [cloneDir; "dashboard_token"], (m_token m' +:+ NL)%string, 384)]
      /\ exists sensitive, GetSetting NoFault "dashboard_token" (m_db m') = Ok (m_token m', sensitive)
  end.
Lemma wp_generate cloneDir m h :
  wp token_spec (generate_token cloneDir) (fun err m' h' => exists h1, h' = h ++ h1 /\ generated cloneDir m err m' h1) m h.
Proof.
  assert (forall e m0 x, token_frame m m0 -> wp token_spec (Ret (Some e))
    (fun err m' h' => exists h1, h' = h ++ h1 /\ generated cloneDir m err m' h1) m0 (h ++ x)) as Hfail.
  { intros e m0 x H0 m1 H1. exists x. split; [done|]. simpl in *. by transitivity m0. }
  unfold generate_token. intros m1 H1. split; [done|]. intros [buf|e] Hbuf; apply wp_Ret_bind; [|by apply Hfail].
  cbv zeta. intros m2 H2. split; [done|]. intros [e|] _; apply wp_Ret_bind; rewrite <- app_assoc.
  { apply Hfail. by transitivity m1. }
  intros m3 H3. split; [done|]. intros now _. apply wp_Ret_bind.
  apply wp_bind. intros m4 H4. split; [done|]. intros flt _. rewrite <- !app_assoc.
  set (token := RawURLEncode buf) in *.
  intros m5 H5. assert (token_frame m m5) as Hm5 by (simpl in *; do 4 (etransitivity; [eassumption|]); done).
  destruct (SetSetting flt now "dashboard_token" token (m_db m5)) as [err d] eqn:Es.
  pose proof (GetSetting_SetSetting flt now "dashboard_token" token "dashboard_token" (m_db m5)) as Hget.
  rewrite Es, decide_True in Hget by done. cbn [fst snd] in Hget. split; [done|]. destruct err as [e|]; intros m6 H6; simpl in H6.
  - apply Hfail. unfold SetSetting in Es. destruct (stmt_error flt); [|done]. injection Es as _ <-.
    transitivity m5; [exact Hm5|exact H6].
  - intros m7 H7. split; [done|]. intros m7' H7'. split; [done|]. intros [] _. intros m8 H8'. cbn in H8'.
    assert (token_frame (set_token token m7) m8) as H8 by (etransitivity; [exact H7'|exact H8']). clear H7' H8'.
    rewrite <- !app_assoc. simpl in *. eexists. split; [reflexivity|].
    destruct H7 as [H7d _], H8 as [H8d H8t], H6 as [H6d _]. simpl in *.
    rewrite H8t, H8d, H7d, H6d. split_and!; [|done|].
    + apply RawURLEncode_nonempty. intros ->. done.
    + eexists. exact (Hget eq_refl).
Qed.

(** What a start of the daemon leaves, given the environment's token. *)
Definition token_set (cloneDir envToken : string) (m : Mem) (err : option GoError) (m' : Mem) (h1 : list Act) : Prop :=
  (envToken <> "" /\ err = None /\ m_token m' = envToken /\ m_db m' = m_db m)
  \/ (envToken = "" /\ err = None /\ m_token m' <> "" /\ m_db m' = m_db m
      /\ exists sensitive, GetSetting NoFault "dashboard_token" (m_db m) = Ok (m_token m', sensitive))
  \/ (envToken = "" /\ generated cloneDir m err m' h1).
Lemma GetSetting_Ok f key d r : GetSetting f key d = Ok r -> GetSetting NoFault key d = Ok r.
Proof. unfold GetSetting. destruct (stmt_error f); [done|]. done. Qed.
Lemma wp_ensure cloneDir m h :
  wp token_spec (ensureDashboardToken cloneDir)
    (fun err m' h' => exists envToken h1, h' = h ++ act (Getenv "DASHBOARD_TOKEN") envToken :: h1
       /\ token_set cloneDir envToken m err m' h1) m h.
Proof.
  unfold ensureDashboardToken. intros m1 H1. split; [done|]. intros env _. apply wp_Ret_bind.
  destruct (String.eqb_spec env "") as [->|He]; cbn [negb].
  2: { intros m2 H2. split; [done|]. intros m3 H3. exists env, []. split; [done|]. left. simpl in *.
       destruct H1 as [H1 _], H2 as [H2 _], H3 as [H3 H3t]. simpl in *. split_and!; [done..|congruence]. }
  apply wp_bind. intros m2 H2. split; [done|]. intros flt _. intros m3 H3. split; [done|]. intros m4 H4.
  simpl in H1, H2, H3, H4.
  assert (wp token_spec (generate_token cloneDir) (fun err m' h' => exists envToken h1,
    h' = h ++ act (Getenv "DASHBOARD_TOKEN") envToken :: h1 /\ token_set cloneDir envToken m err m' h1) m4
    ((h ++ [act (Getenv "DASHBOARD_TOKEN") ""]) ++ [act DbFault flt])) as Hgen.
  { assert (token_frame m m4) as Hm4 by (do 3 (etransitivity; [eassumption|]); done).
    eapply wp_mono; [|apply wp_generate]. intros err m' h' (h1 & -> & Hg). exists "", (act DbFault flt :: h1).
    rewrite <- !app_assoc. split; [done|]. right. right. split; [done|].
    destruct err as [e|]; [cbn [generated] in *; by transitivity m4|exact Hg]. }
  destruct (GetSetting flt "dashboard_token" (m_db m3)) as [[token s]|e] eqn:Eg; [|exact Hgen].
  destruct (String.eqb_spec token "") as [|Ht]; cbn [negb]; [exact Hgen|]. clear Hgen.
  intros m5 H5. split; [done|]. intros m6 H6. exists "", [act DbFault flt]. rewrite <- app_assoc. split; [done|].
  right. left. simpl in H5, H6. destruct H1 as [H1 _], H2 as [H2 _], H3 as [H3 _], H4 as [H4 _], H5 as [H5 _], H6 as [H6 H6t].
  simpl in *. rewrite H6t, H6, H5, H4, H3, H2, H1. split_and!; try done. exists s.
  apply GetSetting_Ok in Eg. by rewrite H3, H2, H1 in Eg.
Qed.

Section always.
Context `{A : AEAD} (cloneDir cryptoKey sshTempDir : string).
Context (ip_literal : string -> option string) (ParsePrivateKey : string -> result string) (window : Z).
Context (jobs : nat -> Job).

Definition has_token (m : Mem) : Prop := m_token m <> "".
Lemma token_kept {B} (P : Mem -> Mem -> Prop) (p : prog B) :
  within P p -> (forall m m', P m m' -> m_token m' = m_token m \/ m_token m' <> "") -> keeps_inv has_token p.
Proof.
  intros Hp H. apply keeps_inv_within. eapply within_mono; [|exact Hp]. unfold has_token. intros m m' Hm Ht.
  by destruct (H m m' Hm) as [->|].
Qed.
Lemma program_token t job :
  keeps_inv has_token (program cloneDir cryptoKey sshTempDir ip_literal ParsePrivateKey window t job).
Proof.
  destruct job as [fuel turns|req]; cbn [program].
  { eapply token_kept; [apply main_goroutine_keeps|]. unfold keeps_api, api_part. intros m m' [=]. by left. }
  destruct (is_apply_request req) eqn:Ea.
  { destruct req; try done. eapply token_kept; [apply apply_request_keep|]. intros m m' []. by left. }
  eapply token_kept; [eapply within_moves; [by apply serve_harmless|intros m m' H; exact H]|].
  unfold api_frame. tauto.
Qed.

(** C7. Authentication cannot be off.  A start of the daemon always comes to an end;
    if it succeeds, the token is the one of the environment, or else the stored
    one, or else a fresh random one that was first written to the token file
    (mode 0600) and is what the next start reads back; if it fails, nothing is
    stored and the token has not changed, so no token is ever committed that the
    operator cannot read.  After a successful start the token is never empty, in
    any interleaving of requests (token changes included) and syncs. *)
Theorem token_fail_closed o n m h :
  (forall n m, token_frame m (o_other o n m)) ->
  (forall X (q : Ask X) h, rand_ok X q (o_answer o X q h)) ->
  exists err m' env h1, run o (ensureDashboardToken cloneDir) n m h
      = Some (err, m', h ++ act (Getenv "DASHBOARD_TOKEN") env :: h1)
  /\ token_set cloneDir env m err m' h1
  /\ (err = None -> forall c,
       preachable (Start cloneDir cryptoKey sshTempDir ip_literal ParsePrivateKey window jobs) m' c ->
       m_token (c_mem c) <> "").
Proof.
  intros Ho Hr. pose proof (wp_run token_spec o _ _ n m h Ho Hr (wp_ensure cloneDir m h)) as Hw.
  destruct (run _ _ _ _ _) as [[[err m'] h']|]; [|by destruct Hw].
  destruct Hw as (env & h1 & -> & Hset). exists err, m', env, h1. split_and!; [done..|].
  intros -> c Hc. eapply invariant_reachable; [|..|exact Hc]; [intros t; apply program_token|].
  destruct Hset as [(He & _ & Ht & _)|[(_ & _ & Ht & _)|(_ & Ht & _)]]; unfold has_token; congruence.
Qed.
End always.
Lemma token_fail_closed_witness : exists err m' env h1,
  run demo_oracle (ensureDashboardToken "/d") 0 emptyMem [] = Some (err, m', [] ++ act (Getenv "DASHBOARD_TOKEN") env :: h1)
  /\ token_set "/d" env emptyMem err m' h1.
Proof.
  destruct (token_fail_closed "/d" "k" "/d/.ssh" no_ip no_key 0 creating demo_oracle 0 emptyMem [])
    as (err & m' & env & h1 & Hrun & Hset & _).
  - intros n m. reflexivity.
  - intros X q h. destruct q; try exact I. apply repeat_length_string.
  - exists err, m', env, h1. split; [exact Hrun|exact Hset].
Defined.
