(* ===== verification/Boot.v ===== *)
(** * main.go: main up to its loop, and internal/db/db.go: Open

    The calls of database/sql and golang-migrate are [Ask]s; what the migrations
    do to the tables is [run_migrations]. *)
From Stdlib Require Import Ascii.
From S2P Require Import Prelude GoStrings GoPath Base64 Crypto State Sched Metrics Db Effects Git Docker Stacks Sync Http Server.

(** ** db.Open *)

Definition busy_timeout : string := "_pragma=busy_timeout(5000)".
Definition sqlite_dsn (dbURL : string) : string :=
  let dsn := trim_prefix dbURL "sqlite://" in
  if contains dsn "?" then (dsn +:+ "&" +:+ busy_timeout)%string else (dsn +:+ "?" +:+ busy_timeout)%string.
(** [db.Close(); return nil, fmt.Errorf(...)]. *)
Definition close_with {X} (pfx : string) (e : GoError) : prog (result X) := (
  ask SqlClose;;; Ret (Err (wrap pfx e)))%prog.
(** The switch on the scheme: the driver that was opened. *)
Definition connect (dbURL : string) : prog (result string) :=
  let '(scheme, _, found) := cut dbURL "://" in
  if negb found then Ret (Err (errorf ("db.Open: invalid DB_URL " +:+ quote dbURL +:+ " (expected scheme://...)")))
  else if String.eqb scheme "sqlite" then (
    opened <- ask (SqlOpen "sqlite" (sqlite_dsn dbURL));;
    match opened with
    | Some e => Ret (Err (wrap "db.Open sqlite: " e))
    | None =>
        wal <- ask (SqlExec "PRAGMA journal_mode=WAL");;
        match wal with
        | Some e => close_with "db.Open WAL pragma: " e
        | None => Ret (Ok "sqlite")
        end
    end)%prog
  else if String.eqb scheme "postgres" || String.eqb scheme "postgresql" then (
    opened <- ask (SqlOpen "pgx" dbURL);;
    Ret (match opened with
         | Some e => Err (wrap "db.Open postgres: " e)
         | None => Ok "postgres"
         end))%prog
  else Ret (Err (errorf ("db.Open: unsupported scheme " +:+ quote scheme))).

(** The migrations, oldest first; [count] of them from number [from] on. *)
Definition run_migrations (now : DateTime) (from count : nat) (d : DB) : DB :=
  foldl (fun d m => m d) d (firstn count (skipn from [up_001 now; up_002 now; up_003; up_004 now])).
(** [m.Up()], with what it does to the tables. *)
Definition Up : prog (option up_error) := (
  now <- ask Now;;
  r <- ask MigrateUp;;
  modify (fun m => set_db (run_migrations (format_datetime now) (up_from r) (up_count r) (m_db m)) m);;;
  Ret (up_err r))%prog.
(** An error other than [ErrNoChange]. *)
Definition up_failed (e : option up_error) : option GoError :=
  match e with
  | None | Some ErrNoChange => None
  | Some (ErrDirty v) => Some (errorf ("Dirty database version " +:+ Itoa v +:+ ". Fix and force version."))
  | Some (UpFailed e) => Some e
  end.
(** [m.Up()] with the retry after a dirty migration, [m] being closed at the end. *)
Definition migrate_all (driver : string) : prog (result string) := (
  err <- Up;;
  match err with
  | None | Some ErrNoChange => Ret (Ok driver)
  | Some (ErrDirty v) =>
      log_warn "dirty migration state detected, forcing reset" [("version", LInt v)];;;
      ferr <- ask (MigrateForce (-1));;
      match ferr with
      | Some e => close_with "db.Open migrate force: " e
      | None =>
          err <- Up;;
          match up_failed err with
          | Some e => close_with "db.Open migrate up (retry): " e
          | None => Ret (Ok driver)
          end
      end
  | Some (UpFailed e) => close_with "db.Open migrate up: " e
  end)%prog.
(** The driver, which [Rebind] reads. *)
Definition Open (dbURL : string) : prog (result string) := (
  db <- connect dbURL;;
  match db with
  | Err e => Ret (Err e)
  | Ok driver =>
      ping <- ask SqlPing;;
      match ping with
      | Some e => close_with "db.Open ping: " e
      | None =>
          src <- ask MigrationsFS;;
          match src with
          | Some e => close_with "db.Open iofs: " e
          | None =>
              m <- ask (MigrateNew dbURL);;
              match m with
              | Some e => close_with "db.Open migrate: failed to open database: " e
              | None =>
                  r <- migrate_all driver;;
                  (match r with
                   | Ok driver => log_info "database ready" [("driver", LStr driver); ("url", LStr dbURL)]
                   | Err _ => Ret tt
                   end);;;
                  ask MigrateClose;;;
                  Ret r
              end
          end
      end
  end)%prog.

(** ** The environment *)

Definition log_level (v : string) : Level :=
  let v := to_lower v in
  if String.eqb v "debug" then LevelDebug
  else if String.eqb v "warn" then LevelWarn
  else if String.eqb v "error" then LevelError
  else LevelInfo.
Definition or_default (v d : string) : string := if String.eqb v "" then d else v.
Definition port_ok (v : string) : bool := match Atoi v with Some n => 0 <? n | None => false end.
Definition parse_port (v : string) : Z :=
  if negb (String.eqb v "") then match Atoi v with Some n => if 0 <? n then n else 8080 | None => 8080 end
  else 8080.

(** ** DEV_SEED *)

Definition Minute : Z := 60 * Second.
Definition seed_stack (now : Time) (name repo : string) (ago : Z) (status err : string) : StackState :=
  {| ss_Name := name; ss_RepoName := repo; ss_StackDir := ""; ss_LastApply := now - ago * Minute; ss_Status := status;
     ss_LastOutput := ""; ss_LastError := err; ss_Containers := None; ss_InfisicalMode := "" |}.
Definition seedDevState (now : Time) (s : Store) : Store :=
  let s := State.UpdateRepo {| rs_Name := "dockers"; rs_LastSync := now - 3 * Minute; rs_LastSHA := "a3f9c12";
                               rs_Status := StatusOK; rs_LastError := "" |} s in
  let s := State.UpdateRepo {| rs_Name := "cluster"; rs_LastSync := now - 12 * Minute; rs_LastSHA := "b8e2d47";
                               rs_Status := StatusError; rs_LastError := "git pull: exit status 1" |} s in
  let s := UpdateStack (seed_stack now "monitorss" "dockers" 3 ApplyOK "") s in
  let s := UpdateStack (seed_stack now "plex" "dockers" 15 ApplyOK "") s in
  let s := UpdateStack (seed_stack now "litellm" "dockers" 1 ApplyApplying "") s in
  let s := UpdateStack (seed_stack now "redis" "dockers" 30 ApplyError "image pull failed: rate limit exceeded") s in
  SetInfisical {| inf_Enabled := true; inf_Env := "prod" |} s.

(** ** main *)

Record BootConfig := {
  cf_level : Level;
  cf_text : bool;             (* LOG_FORMAT=text *)
  cf_dbURL : string;
  cf_driver : string;
  cf_port : Z;
  cf_bindAddr : string;
  cf_cloneDir : string;
  cf_cryptoKey : string;
  cf_sshDir : string;         (* sshTempDir *)
}.
(** [net.JoinHostPort]. *)
Definition JoinHostPort (host : string) (port : Z) : string :=
  if contains host ":" || contains host "%" then ("[" +:+ host +:+ "]:" +:+ Itoa port)%string
  else (host +:+ ":" +:+ Itoa port)%string.

Section main.
Context `{A : AEAD} (hkdf : string -> string -> nat -> result string).

(** The private directory of keys and known hosts. *)
Definition ssh_dir (cloneDir : string) : prog (option string) := (
  env <- ask (Getenv "SSH_KNOWN_HOSTS_DIR");;
  let sshDir := or_default env (Join [cloneDir; ".ssh"]) in
  err <- (if String.eqb env "" then ask (Setenv "SSH_KNOWN_HOSTS_DIR" sshDir) else Ret None);;
  match err with
  | Some err => log_error "failed to set SSH_KNOWN_HOSTS_DIR" [("err", LErr err)];;; Ret None
  | None =>
      made <- ask (MkdirAll sshDir 448);;    (* 0700 *)
      match made with
      | Some err => log_error "failed to create ssh dir" [("dir", LStr sshDir); ("err", LErr err)];;; Ret None
      | None => Ret (Some sshDir)
      end
  end)%prog.
(** The store and the Docker client. *)
Definition initial_state (cryptoKey : string) : prog unit := (
  modify (set_store (fun _ => State.New));;;
  devSeed <- ask (Getenv "DEV_SEED");;
  (if String.eqb (to_lower devSeed) "true"
   then now <- ask Now;; modify (set_store (seedDevState now)) else Ret tt);;;
  infCfg <- loadInfisicalFromDB cryptoKey;;
  modify (set_store (SetInfisical {| inf_Enabled := negb (String.eqb (Token infCfg) ""); inf_Env := inf_env infCfg |}));;;
  client <- Docker.New;;
  (match client with
   | Ok _ => Ret tt
   | Err err => log_warn "docker client unavailable, container details and log streaming disabled" [("err", LErr err)]
   end);;;
  modify (set_holder (match client with Ok c => Some c | Err _ => None end)))%prog.

(** Everything before the scan; [None] is [os.Exit(1)]. *)
Definition boot : prog (option BootConfig) := (
  level <- ask (Getenv "LOG_LEVEL");;
  format <- ask (Getenv "LOG_FORMAT");;
  dbEnv <- ask (Getenv "DB_URL");;
  portStr <- ask (Getenv "PORT");;
  (if negb (String.eqb portStr "") && negb (port_ok portStr)
   then log_warn "invalid PORT value, using default 8080" [("value", LStr portStr)] else Ret tt);;;
  secretKey <- ask (Getenv "SECRET_KEY");;
  if String.eqb secretKey ""
  then
    log_error "SECRET_KEY environment variable is required for encrypting sensitive configuration" [];;;
    Ret None
  else
    (if Nat.ltb (String.length secretKey) 16
     then log_warn "SECRET_KEY is shorter than 16 characters; use a high-entropy random value of at least 16 characters"
            [("length", LInt (len secretKey))]
     else Ret tt);;;
    cloneEnv <- ask (Getenv "CLONE_DIR");;
    bindEnv <- ask (Getenv "BIND_ADDR");;
    let dbURL := or_default dbEnv "sqlite://stackd.db" in
    let cloneDir := or_default cloneEnv "/var/lib/stackd/repos" in
    db <- Open dbURL;;
    match db with
    | Err err => log_error "failed to open database" [("err", LErr err)];;; Ret None
    | Ok driver =>
        match DeriveKey hkdf secretKey with
        | Err err => log_error "failed to derive crypto key" [("err", LErr err)];;; Ret None
        | Ok cryptoKey =>
            made <- ask (MkdirAll cloneDir 493);;    (* 0755 *)
            match made with
            | Some err => log_error "failed to create clone dir" [("dir", LStr cloneDir); ("err", LErr err)];;; Ret None
            | None =>
                ssh <- ssh_dir cloneDir;;
                match ssh with
                | None => Ret None
                | Some sshDir =>
                    initial_state cryptoKey;;;
                    Ret (Some {| cf_level := log_level level; cf_text := String.eqb (to_lower format) "text";
                                 cf_dbURL := dbURL; cf_driver := driver; cf_port := parse_port portStr;
                                 cf_bindAddr := or_default bindEnv "0.0.0.0"; cf_cloneDir := cloneDir;
                                 cf_cryptoKey := cryptoKey; cf_sshDir := sshDir |})
                end
            end
        end
    end)%prog.

(** [server.New]: the address and the window of the rate limiter; its maps are
    empty and the token is not set yet. *)
Record ServerConf := { sc_addr : string; sc_window : Z; sc_startTime : Time }.
Definition server_New (bindAddr : string) (port : Z) : prog ServerConf := (
  modify (fun m => set_token "" (set_applying ∅ (set_lastTime ∅ m)));;;
  window <- ask (Getenv "SYNC_RATE_LIMIT_SECONDS");;
  start <- ask Now;;
  Ret {| sc_addr := JoinHostPort bindAddr port; sc_window := rate_window window; sc_startTime := start |})%prog.

(** The exit code.  [me] is the main goroutine, [turns] bounds its loop and [fuel]
    the draining of the queue. *)
Definition main (me fuel turns : nat) : prog Z := (
  cfg <- boot;;
  match cfg with
  | None => Ret 1
  | Some cfg =>
      startup_scan (cf_cloneDir cfg) (cf_cryptoKey cfg) (cf_sshDir cfg) me;;;
      srv <- server_New (cf_bindAddr cfg) (cf_port cfg);;
      err <- ensureDashboardToken (cf_cloneDir cfg);;
      match err with
      | Some err => log_error "failed to initialise dashboard token" [("err", LErr err)];;; Ret 1
      | None =>
          main_loop (cf_cloneDir cfg) (cf_cryptoKey cfg) (cf_sshDir cfg) me fuel turns;;;
          Ret 0
      end
  end)%prog.
End main.

(** ** GET /api/settings/system *)

(** [d.Round(time.Second)]: half away from zero, saturating. *)
Definition round_second (d : Z) : Z :=
  let r := Z.abs (Z.rem d Second) in
  if r + r <? Second then d - Z.rem d Second
  else if d <? 0
  then let d1 := wrap64 (d - Second + r) in if d1 <? d then d1 else int64_min
  else let d1 := wrap64 (d + Second - r) in if d <? d1 then d1 else int64_max.
(** [Duration.String] of zero and of durations of a second or more. *)
Fixpoint fraction (digits : nat) (v : Z) (acc : string) : string :=
  match digits with
  | O => acc
  | S n => fraction n (v / 10) (if (v mod 10 =? 0) && String.eqb acc "" then "" else String (digit_char (v mod 10)) acc)
  end.
Definition Duration_String (d : Z) : string :=
  if d =? 0 then "0s"
  else
    let u := Z.abs d in
    let frac := fraction 9 (u mod Second) "" in
    let secs := u / Second in
    let mins := secs / 60 in
    ((if (d <? 0)%Z then "-" else "")
     +:+ (if (60 <=? mins)%Z then Itoa (mins / 60)%Z +:+ "h" else "")
     +:+ (if (0 <? mins)%Z then Itoa (mins mod 60)%Z +:+ "m" else "")
     +:+ Itoa (secs mod 60)%Z +:+ (if String.eqb frac "" then "" else "." +:+ frac) +:+ "s")%string.
Example duration_examples :
  Duration_String (round_second (3723 * Second + 499999999)) = "1h2m3s"
  /\ Duration_String (round_second (59 * Second + 500000000)) = "1m0s"
  /\ Duration_String (round_second 499999999) = "0s".
Proof. vm_compute. done. Qed.
(** [dbPath] is the URL without the prefix of a file. *)
Definition db_path (dbURL : string) : string := trim_prefix dbURL "sqlite://".
Definition handleSystemInfo (version goVersion : string) (cfg : BootConfig) (srv : ServerConf) : prog Response := (
  now <- ask Now;;
  let uptime := round_second (Sub now (sc_startTime srv)) in
  Ret (jsonOK (JObj [("version", JStr version); ("uptime", JStr (Duration_String uptime));
    ("cloneDir", JStr (cf_cloneDir cfg)); ("dbPath", JStr (db_path (cf_dbURL cfg))); ("goVersion", JStr goVersion)])))%prog.
