(* ===== verification/Startup.v ===== *)
(** * What starting the daemon guarantees

    [main] of Boot.v: which directories exist before any child process runs, and
    what opening the database does, on every path. *)
From Stdlib Require Import Ascii.
From S2P Require Import Prelude GoStrings GoPath Base64 Crypto State Sched Metrics Db Effects Git Docker Stacks Sync Footprint Applying Http Server System Boot.

(** ** Programs that create key files in one directory only *)

Definition keyed_call (dir : string) X (q : Ask X) : Prop :=
  match q with CreateTemp d _ => d = dir | _ => True end.
Abbreviation keyed dir := (shaped (keyed_call dir) any_step).
(** No child process and no key file. *)
Definition quiet_call X (q : Ask X) : Prop :=
  match q with Exec _ | CreateTemp _ _ => False | _ => True end.
Abbreviation quiet := (shaped quiet_call any_step).
Lemma quiet_keyed dir {B} (p : prog B) : quiet p -> keyed dir p.
Proof. apply shaped_mono; [by intros X []|done]. Qed.
Lemma stack_keyed dir {B} (p : prog B) D : shaped stack_call D p -> keyed dir p.
Proof. apply shaped_mono; [by intros X []|done]. Qed.
Lemma docker_keyed dir {B} (p : prog B) D : shaped docker_call D p -> keyed dir p.
Proof. apply shaped_mono; [by intros X []|done]. Qed.
Lemma git_keyed dir d {B} (p : prog B) D : shaped (git_call d) D p -> keyed dir p.
Proof. apply shaped_mono; [by intros X []|done]. Qed.

Section keyed.
Context `{A : AEAD} (cloneDir cryptoKey sshTempDir : string) (me : nat).
Abbreviation inside := (keyed sshTempDir).
#[local] Hint Resolve stack_keyed docker_keyed git_keyed SyncRepo_shape HeadSHA_shape runStacksSync_shape
  refreshContainers_shape : shape.
Lemma pull_inside repo : inside (gitSyncToDisk cloneDir cryptoKey sshTempDir repo).
Proof. unfold gitSyncToDisk, setupGitAuth, cleanup. shape. Qed.
#[local] Hint Resolve pull_inside : shape.
Lemma sync_inside repo cfg i : inside (syncRepoFromDB cloneDir cryptoKey sshTempDir me repo cfg i).
Proof. unfold syncRepoFromDB, sync_locked, mark_syncing, recordError, finishSync, Lock, Unlock. shape. Qed.
Lemma load_quiet : quiet (loadInfisicalFromDB cryptoKey).
Proof. unfold loadInfisicalFromDB. shape. Qed.
Lemma interval_quiet : quiet load_default_interval.
Proof. done. Qed.
#[local] Hint Resolve sync_inside load_quiet interval_quiet quiet_keyed : shape.
Lemma scan_inside : inside (startup_scan cloneDir cryptoKey sshTempDir me).
Proof. unfold startup_scan, startup_one. shape. Qed.
Lemma round_inside repos cfg i : inside (doSyncRound cloneDir cryptoKey sshTempDir me repos cfg i).
Proof. induction repos as [|repo repos IH]; cbn [doSyncRound]; unfold round_one; shape. Qed.
Lemma drain_quiet fuel names : quiet (drainLoop fuel names).
Proof. revert names. induction fuel as [|fuel IH]; intros names; cbn [drainLoop]; shape. Qed.
#[local] Hint Resolve round_inside drain_quiet : shape.
Lemma loop_inside fuel turns : inside (main_loop cloneDir cryptoKey sshTempDir me fuel turns).
Proof.
  induction turns as [|turns IH]; cbn [main_loop]; [done|].
  unfold main_turn, receive_one, triggered_one. shape.
Qed.
Lemma token_quiet : quiet (ensureDashboardToken cloneDir).
Proof. unfold ensureDashboardToken, generate_token, SetToken. shape. Qed.
End keyed.

(** ** The directories are there first *)

(** What a trace has done for [sshDir]: both directories were made, the private one
    with mode 0700, and it is the one that git's known hosts file will be in: it
    was pinned by the operator, or the variable was set to it. *)
Definition prepared (cloneDir sshDir : string) (h : list Act) : Prop :=
  In (act (MkdirAll cloneDir 493) None) h /\ In (act (MkdirAll sshDir 448) None) h
  /\ (In (act (Getenv "SSH_KNOWN_HOSTS_DIR") sshDir) h /\ sshDir <> ""
      \/ In (act (Setenv "SSH_KNOWN_HOSTS_DIR" sshDir) None) h /\ sshDir = Join [cloneDir; ".ssh"]).
Lemma prepared_app c d h h' : prepared c d h -> prepared c d (h ++ h').
Proof. unfold prepared. rewrite !in_app_iff. tauto. Qed.

Definition may_call X (q : Ask X) (h : list Act) : Prop :=
  match q with
  | Exec _ => exists cloneDir sshDir, prepared cloneDir sshDir h
  | CreateTemp dir _ => exists cloneDir, prepared cloneDir dir h
  | _ => True
  end.
Definition start_spec : Spec :=
  {| rely := fun _ _ => True; call_ok := fun X q _ h => may_call X q h; ans_ok := fun _ _ _ => True;
     atom_ok := fun _ _ => True; block_ok := fun _ => True; rely_pre := any_pre |}.

Lemma wp_keyed cloneDir sshDir {B} (p : prog B) m h :
  keyed sshDir p -> prepared cloneDir sshDir h -> wp start_spec p (fun _ _ h' => prepared cloneDir sshDir h') m h.
Proof.
  revert m h. induction p as [b|X q k IH|X g k IH]; intros m h Hp Hh m1 _.
  - done.
  - destruct Hp as [Hq Hk]. split.
    + destruct q; try exact I; [cbn in Hq; subst; by exists cloneDir|by exists cloneDir, sshDir].
    + intros x _. apply IH; [done|]. by apply prepared_app.
  - destruct Hp as [_ Hk]. destruct (g m1) as [[x m2]|]; [|exact I]. split; [exact I|]. by apply IH.
Qed.
Lemma wp_unobtrusive {B} (p : prog B) m h :
  quiet p -> wp start_spec p (fun _ _ h' => exists h1, h' = h ++ h1) m h.
Proof.
  intros Hp.
  assert (forall h0 h2, h = h0 ++ h2 -> wp start_spec p (fun _ _ h' => exists h1, h' = h0 ++ h1) m h) as H.
  { revert m h Hp. induction p as [b|X q k IH|X g k IH]; intros m h Hp h0 h2 Hh m1 _.
    - by exists h2.
    - destruct Hp as [Hq Hk]. split; [by destruct q|]. intros x _. eapply IH; [done|]. by rewrite Hh, <- app_assoc.
    - destruct Hp as [_ Hk]. destruct (g m1) as [[x m2]|]; [|exact I]. split; [exact I|]. by eapply IH. }
  apply (H h []). by rewrite app_nil_r.
Qed.
Lemma wp_answer {X} (q : Ask X) m h :
  quiet_call X q -> wp start_spec (ask q) (fun x _ h' => h' = h ++ [act q x]) m h.
Proof. intros Hq m1 _. split; [by destruct q|]. by intros x _ m2 _. Qed.
(** A line in the log, and the end. *)
Lemma wp_stop {Y} msg attrs (Q : Y -> list Act -> Prop) m h :
  wp start_spec (log_error msg attrs;;; Ret None)%prog (fun r _ h' => match r with Some y => Q y h' | None => True end) m h.
Proof. intros m1 _. split; [exact I|]. by intros [] _ m2 _. Qed.
Lemma wp_may_log (b : bool) msg attrs m h :
  wp start_spec (if b then log_warn msg attrs else Ret tt) (fun _ _ h' => exists h1, h' = h ++ h1) m h.
Proof. apply wp_unobtrusive. by destruct b. Qed.
Lemma In_last {X} (x : X) l : In x (l ++ [x]).
Proof. apply in_app_iff. right. by left. Qed.

Lemma connect_quiet dbURL : quiet (connect dbURL).
Proof. unfold connect, close_with. destruct (cut _ _) as [[s r] f]. shape. Qed.
Lemma Open_quiet dbURL : quiet (Open dbURL).
Proof. unfold Open, migrate_all, Up, close_with. apply shaped_bind; [apply connect_quiet|]. shape. Qed.

Section boot.
Context `{A : AEAD} (hkdf : string -> string -> nat -> result string).

Lemma wp_ssh_dir cloneDir m h :
  In (act (MkdirAll cloneDir 493) None) h ->
  wp start_spec (ssh_dir cloneDir)
    (fun r _ h' => match r with Some sshDir => prepared cloneDir sshDir h' | None => True end) m h.
Proof.
  intros Hc. unfold ssh_dir. apply wp_bind. eapply wp_mono; [|by apply wp_answer]. intros env m1 h1 ->. cbv zeta.
  apply wp_bind. apply wp_mono with (Q := fun err _ h2 => (exists x, h2 = (h ++ [act (Getenv "SSH_KNOWN_HOSTS_DIR") env]) ++ x)
    /\ (String.eqb env "" = true -> err = None -> In (act (Setenv "SSH_KNOWN_HOSTS_DIR" (Join [cloneDir; ".ssh"])) None) h2)).
  - intros err m2 h2 [[x ->] Hs]. destruct err as [e|]; [apply wp_stop|].
    apply wp_bind. eapply wp_mono; [|by apply wp_answer]. intros [e|] m3 h3 ->; [apply wp_stop|]. intros m4 _. unfold or_default in *.
    split; [rewrite <- !app_assoc; by apply in_app_iff; left|]. split; [apply In_last|].
    destruct (String.eqb_spec env "") as [->|Hne].
    + right. split; [|done]. apply in_app_iff. left. by apply Hs.
    + left. split; [|done]. rewrite <- !app_assoc. apply in_app_iff. right. by left.
  - unfold or_default. destruct (String.eqb env "").
    + eapply wp_mono; [|by apply wp_answer]. intros err m2 h2 ->. split; [by eexists|]. intros _ ->. apply In_last.
    + intros m2 _. split; [exists []; by rewrite app_nil_r|done].
Qed.
Lemma state_quiet key : quiet (initial_state key).
Proof.
  unfold initial_state, Docker.New. pose proof (load_quiet key). shape.
Qed.
Lemma wp_boot m h :
  wp start_spec (boot hkdf) (fun r _ h' => match r with
    | Some cfg => prepared (cf_cloneDir cfg) (cf_sshDir cfg) h' | None => True end) m h.
Proof.
  unfold boot. do 4 (apply wp_bind; eapply wp_mono; [|by apply wp_answer]; intros ? ?mi ?hi ->).
  apply wp_bind; eapply wp_mono; [|apply wp_may_log]; intros [] ?mi ?hi [?xi ->].
  apply wp_bind; eapply wp_mono; [|by apply wp_answer]; intros ? ?mi ?hi ->.
  destruct (String.eqb _ ""); [apply wp_stop|].
  apply wp_bind; eapply wp_mono; [|apply wp_may_log]; intros [] ?mi ?hi [?xi ->].
  do 2 (apply wp_bind; eapply wp_mono; [|by apply wp_answer]; intros ? ?mi ?hi ->). cbv zeta.
  apply wp_bind. eapply wp_mono; [|apply wp_unobtrusive, Open_quiet]. intros [driver|e] m1 h1 [x ->]; [|apply wp_stop].
  destruct (DeriveKey hkdf _) as [key|e]; [|apply wp_stop].
  apply wp_bind. eapply wp_mono; [|by apply wp_answer]. intros [e|] m2 h2 ->; [apply wp_stop|].
  apply wp_bind. eapply wp_mono; [|apply wp_ssh_dir, In_last]. intros [sshDir|] m3 h3 Hp; [|done].
  apply wp_bind. eapply wp_mono; [|apply wp_unobtrusive, state_quiet]. intros [] m4 h4 [y ->].
  intros m5 _. cbn. by apply prepared_app.
Qed.
Lemma wp_main me fuel turns m h : wp start_spec (main hkdf me fuel turns) (fun _ _ _ => True) m h.
Proof.
  unfold main. apply wp_bind. eapply wp_mono; [|apply wp_boot]. intros [cfg|] m1 h1 Hp; [|done].
  apply wp_mono with (Q := fun _ _ h' => prepared (cf_cloneDir cfg) (cf_sshDir cfg) h'); [done|].
  apply wp_keyed; [|done]. apply shaped_bind; [apply scan_inside|]. intros _.
  apply shaped_bind; [done|]. intros srv. apply shaped_bind; [apply quiet_keyed, token_quiet|].
  intros [e|]; [done|]. apply shaped_bind; [apply loop_inside|]. done.
Qed.

(** C18. Nothing runs before the private directories exist.  At every point of every
    run of the daemon, from any state of the database and whatever the world
    answers: when it starts a child process (git, docker, infisical), the clone
    directory has been created, and so has, with mode 0700, the directory that
    git's known hosts file is looked up in; and a decrypted key is only ever
    written to a file in that directory. *)
Theorem main_prepared me fuel turns o m k :
  match pending k o (main hkdf me fuel turns) 0 m [] with
  | Some c => may_call (pd_type c) (pd_ask c) (pd_trace c)
  | None => True
  end.
Proof.
  destruct (pending _ _ _ _ _ _) as [c|] eqn:E; [|done].
  by eapply (wp_pending start_spec o _ _ 0 m []) in E as [m' H]; [| |done|apply wp_main].
Qed.
End boot.

(** ** Opening the database *)

(** The connections and the migration handles a trace leaves open. *)
Definition act_conn (a : Act) : Z :=
  (match a_ask a in Ask X return X -> Z with
   | SqlOpen _ _ => fun r => match r with None => 1 | Some _ => 0 end
   | SqlClose => fun _ => -1
   | _ => fun _ => 0
   end) (a_ans a).
Definition act_migrator (a : Act) : Z :=
  (match a_ask a in Ask X return X -> Z with
   | MigrateNew _ => fun r => match r with None => 1 | Some _ => 0 end
   | MigrateClose => fun _ => -1
   | _ => fun _ => 0
   end) (a_ans a).
Definition total (f : Act -> Z) (h : list Act) : Z := foldr (fun a s => f a + s) 0 h.
(** The runs of the migrations, and what they made of the tables. *)
Definition act_up (a : Act) : option UpResult :=
  (match a_ask a in Ask X return X -> option UpResult with MigrateUp => fun r => Some r | _ => fun _ => None end) (a_ans a).
Definition ups (h : list Act) : list UpResult := omap act_up h.
Definition act_time (a : Act) (t : Time) : Time :=
  (match a_ask a in Ask X return X -> Time with Now => fun now => now | _ => fun _ => t end) (a_ans a).
Fixpoint replay (t : Time) (h : list Act) (d : DB) : DB :=
  match h with
  | [] => d
  | a :: h =>
      let d := match act_up a with
               | Some r => run_migrations (format_datetime t) (up_from r) (up_count r) d
               | None => d
               end in
      replay (act_time a t) h d
  end.
Definition last_time (t : Time) (h : list Act) : Time := foldl (fun t a => act_time a t) t h.
Lemma replay_app t h h' d : replay t (h ++ h') d = replay (last_time t h) h' (replay t h d).
Proof. revert t d. induction h as [|a h IH]; intros t d; [done|]. cbn [app replay]. apply IH. Qed.

(** While the daemon starts, nobody else writes to the tables. *)
Definition same_db (m m' : Mem) : Prop := m_db m' = m_db m.
#[export] Instance same_db_pre : PreOrder same_db.
Proof. unfold same_db. split; [done|]. intros m1 m2 m3. congruence. Qed.
Definition db_spec : Spec :=
  {| rely := same_db; call_ok := fun _ _ _ _ => True; ans_ok := fun _ _ _ => True;
     atom_ok := fun _ _ => True; block_ok := fun _ => False; rely_pre := same_db_pre |}.
(** The program ends with a result and a trace in [R], and the tables are what the
    migrations of the trace make of them. *)
Definition migrates {B} (p : prog B) (R : B -> list Act -> Prop) : Prop := forall m h,
  wp db_spec p (fun b m' h' => exists h1, h' = h ++ h1 /\ R b h1 /\ forall t, m_db m' = replay t h1 (m_db m)) m h.
Lemma migrates_bind {B B'} (p : prog B) (f : B -> prog B') R (R' : B' -> list Act -> Prop) :
  migrates p R -> (forall b h1, R b h1 -> migrates (f b) (fun c h2 => R' c (h1 ++ h2))) -> migrates (bind p f) R'.
Proof.
  intros Hp Hf m h. apply wp_bind. eapply wp_mono; [|apply Hp]. intros b m1 h1 (x & -> & Hx & Hd).
  eapply wp_mono; [|by eapply Hf]. intros c m2 h2 (y & -> & Hy & Hd'). exists (x ++ y). rewrite app_assoc.
  split_and!; [done..|]. intros t. by rewrite replay_app, <- Hd.
Qed.
Lemma migrates_Ret {B} (b : B) (R : B -> list Act -> Prop) : R b [] -> migrates (Ret b) R.
Proof. intros H m h m' Hm. exists []. rewrite app_nil_r. by split_and!. Qed.
Lemma migrates_ask {X} (q : Ask X) : (forall x, act_up (act q x) = None) -> migrates (ask q) (fun x h => h = [act q x]).
Proof.
  intros Hq m h m1 H1. split; [done|]. intros x _ m2 H2. exists [act q x]. split_and!; [done..|].
  intros t. cbn [replay]. rewrite Hq. simpl in *. congruence.
Qed.
Lemma migrates_Up : migrates Up (fun e h => exists now r, h = [act Now now; act MigrateUp r] /\ e = up_err r).
Proof.
  intros m h m1 H1. split; [done|]. intros now _. apply wp_Ret_bind. intros m2 H2. split; [done|].
  intros r _. apply wp_Ret_bind. intros m3 H3. split; [done|]. intros m5 H5. exists [act Now now; act MigrateUp r]. rewrite <- app_assoc. split_and!; [done|by exists now, r|].
  intros t. unfold rely, db_spec, same_db in *. rewrite H5. unfold set_db. cbn [m_db].
  rewrite H3, H2, H1. reflexivity.
Qed.
(** One call, and what follows each answer. *)
Lemma migrates_step {X B} (q : Ask X) (f : X -> prog B) R :
  (forall x, act_up (act q x) = None) -> (forall x, migrates (f x) (fun b h => R b (act q x :: h))) ->
  migrates (bind (ask q) f) R.
Proof. intros Hq Hf. eapply migrates_bind; [by apply migrates_ask|]. intros x h1 ->. apply Hf. Qed.

(** The verdict of the last migration; one before it left the tables dirty and was
    forced back to the beginning. *)
Definition settled_ups (l : list UpResult) : Prop :=
  exists r, up_failed (up_err r) = None /\
    (l = [r] \/ exists r0 v, up_err r0 = Some (ErrDirty v) /\ l = [r0; r]).
Ltac conclude := cbn; repeat (rewrite ?app_nil_r; cbn); split_and!; try done; try lia.
Lemma migrates_close {B} pfx e (R : result B -> list Act -> Prop) :
  R (Err (wrap pfx e)) [act SqlClose tt] -> migrates (close_with pfx e) R.
Proof. intros H. apply migrates_step; [done|]. intros []. by apply migrates_Ret. Qed.

(** The end of [Open], from a connection. *)
Definition migrated_outcome (driver : string) (r : result string) (h : list Act) : Prop :=
  total act_migrator h = 0 /\
  match r with
  | Ok d => d = driver /\ total act_conn h = 0 /\ settled_ups (ups h)
  | Err e => total act_conn h = -1 /\ has_prefix (err_text e) "db.Open" = true
  end.
Lemma migrates_all driver : migrates (migrate_all driver) (migrated_outcome driver).
Proof.
  unfold migrate_all. eapply migrates_bind; [apply migrates_Up|]. intros err h1 (now & r & -> & ->).
  destruct (up_err r) as [[|v|e]|] eqn:Er.
  - apply migrates_Ret. conclude. exists r. rewrite Er. by split; [|left].
  - apply migrates_step; [done|]. intros []. apply migrates_step; [done|]. intros [e|].
    + apply migrates_close. by conclude.
    + eapply migrates_bind; [apply migrates_Up|]. intros err h2 (now2 & r2 & -> & ->).
      destruct (up_failed (up_err r2)) as [e|] eqn:Ef; [apply migrates_close; by conclude|].
      apply migrates_Ret. conclude. exists r2. split; [done|]. right. by exists r, v.
  - apply migrates_close. by conclude.
  - apply migrates_Ret. conclude. exists r. rewrite Er. by split; [|left].
Qed.
Lemma total_app f h h' : total f (h ++ h') = total f h + total f h'.
Proof. unfold total. induction h as [|a h IH]; [done|]. cbn [app foldr]. rewrite IH. lia. Qed.
Lemma total_cons f a h : total f (a :: h) = f a + total f h.
Proof. done. Qed.
Lemma ups_cons a h : ups (a :: h) = match act_up a with Some r => r :: ups h | None => ups h end.
Proof. done. Qed.
Lemma ups_app h h' : ups (h ++ h') = ups h ++ ups h'.
Proof. apply omap_app. Qed.

Definition of_scheme (dbURL driver : string) (h : list Act) : Prop :=
  has_prefix dbURL "sqlite://" = true /\ driver = "sqlite" /\ In (act (SqlOpen "sqlite" (sqlite_dsn dbURL)) None) h
  \/ (has_prefix dbURL "postgres://" || has_prefix dbURL "postgresql://") = true /\ driver = "postgres"
     /\ In (act (SqlOpen "pgx" dbURL) None) h.
Lemma cut_prefix dbURL scheme rest : cut dbURL "://" = (scheme, rest, true) -> has_prefix dbURL (scheme +:+ "://")%string = true.
Proof. intros [[] | [_ ->]]%cut_spec; [done|]. rewrite <- str_app_assoc. apply has_prefix_app. Qed.
Lemma migrates_connect dbURL : migrates (connect dbURL) (fun r h =>
  total act_migrator h = 0 /\ ups h = [] /\
  match r with
  | Ok driver => total act_conn h = 1 /\ of_scheme dbURL driver h
  | Err e => total act_conn h = 0 /\ has_prefix (err_text e) "db.Open" = true
  end).
Proof.
  unfold connect. destruct (cut dbURL "://") as [[scheme rest] found] eqn:Ec. destruct found; cbn [negb].
  2: { apply migrates_Ret. by conclude. }
  apply cut_prefix in Ec. destruct (String.eqb_spec scheme "sqlite") as [->|_].
  { apply migrates_step; [done|]. intros [e|]; [apply migrates_Ret; by conclude|].
    apply migrates_step; [done|]. intros [e|]; [apply migrates_close; by conclude|].
    apply migrates_Ret. conclude. left. split_and!; [done..|]. by left. }
  destruct (String.eqb scheme "postgres" || String.eqb scheme "postgresql") eqn:Ep.
  2: { apply migrates_Ret. by conclude. }
  apply migrates_step; [done|]. intros [e|]; apply migrates_Ret; [by conclude|]. conclude.
  right. split_and!; [|done|by left]. bool_prop. by destruct Ep as [-> | ->]; [left|right].
Qed.

Lemma migrates_Open dbURL : migrates (Open dbURL) (fun r h =>
  total act_migrator h = 0 /\
  match r with
  | Ok driver => total act_conn h = 1 /\ settled_ups (ups h) /\ of_scheme dbURL driver h
  | Err e => total act_conn h = 0 /\ has_prefix (err_text e) "db.Open" = true
  end).
Proof.
  unfold Open. eapply migrates_bind; [apply migrates_connect|]. intros [driver|e] h1 (Hm & Hu & Hr).
  2: { apply migrates_Ret. by rewrite app_nil_r. }
  destruct Hr as [Hc Hs].
  assert (forall h2, of_scheme dbURL driver (h1 ++ h2)) as Hs'.
  { intros h2. unfold of_scheme in *. rewrite !in_app_iff. tauto. }
  apply migrates_step; [done|]. intros [e|]; [apply migrates_close; cbn beta iota; rewrite !total_app; conclude|].
  apply migrates_step; [done|]. intros [e|]; [apply migrates_close; cbn beta iota; rewrite !total_app; conclude|].
  apply migrates_step; [done|]. intros [e|]; [apply migrates_close; cbn beta iota; rewrite !total_app; conclude|].
  eapply migrates_bind; [apply migrates_all|]. intros r h2 [Hm2 Hr2].
  eapply (migrates_bind _ _ (fun _ h => total act_migrator h = 0 /\ total act_conn h = 0 /\ ups h = [])).
  { destruct r; [|by apply migrates_Ret]. apply (migrates_step _ Ret); [done|]. intros []. by apply migrates_Ret. }
  intros [] h3 (Hm3 & Hc3 & Hu3). apply migrates_step; [done|]. intros []. apply migrates_Ret.
  assert (ups h2 = ups (h1 ++ act SqlPing None :: act MigrationsFS None :: act (MigrateNew dbURL) None :: h2 ++ h3 ++ [act MigrateClose tt])) as Hu2.
  { rewrite ups_app, Hu. cbn [app]. rewrite 3 ups_cons, !ups_app, Hu3. cbn. by rewrite app_nil_r. }
  rewrite <- Hu2, !total_app, !total_cons, !total_app, Hm3, Hc3. cbn. split; [lia|].
  destruct r as [d|e]; [destruct Hr2 as (-> & Hc2 & Hs2)|destruct Hr2 as [Hc2 Hp]]; (split; [lia|]); done.
Qed.
Lemma run_migrations_tables now from count d :
  t_repos (run_migrations now from count d) = t_repos d /\ t_keys (run_migrations now from count d) = t_keys d.
Proof. unfold run_migrations. do 5 (destruct from as [|from]; [by do 5 (destruct count as [|count]; [done|])|]). by destruct count. Qed.
Lemma replay_tables t h d : t_repos (replay t h d) = t_repos d /\ t_keys (replay t h d) = t_keys d.
Proof.
  revert t d. induction h as [|a h IH]; intros t d; [done|]. cbn [replay].
  destruct (IH (act_time a t) (match act_up a with
    | Some r => run_migrations (format_datetime t) (up_from r) (up_count r) d | None => d end)) as [-> ->].
  destruct (act_up a) as [r|]; [apply run_migrations_tables|done].
Qed.

(** C21. Opening the database comes to an end with a driver or with an error, for
    every URL and whatever fails.  With a driver, one connection is open, to the
    file or server that the URL names by its scheme, and the migrations ended well,
    a dirty state having been forced back and run again at most once.  With an
    error, which says where it is from, no connection is open.  No handle of the
    migrations is left open in any case, the tables are exactly what the
    migrations that ran make of them, and no repository or key is lost. *)
Theorem Open_outcome dbURL o n m h :
  (forall n m, same_db m (o_other o n m)) ->
  exists r m' h1, run o (Open dbURL) n m h = Some (r, m', h ++ h1)
  /\ m_db m' = replay 0 h1 (m_db m)
  /\ t_repos (m_db m') = t_repos (m_db m) /\ t_keys (m_db m') = t_keys (m_db m)
  /\ total act_migrator h1 = 0
  /\ match r with
     | Ok driver => total act_conn h1 = 1 /\ settled_ups (ups h1) /\ of_scheme dbURL driver h1
     | Err e => total act_conn h1 = 0 /\ has_prefix (err_text e) "db.Open" = true
     end.
Proof.
  intros Ho. pose proof (wp_run db_spec o _ _ n m h Ho ltac:(done) (migrates_Open dbURL m h)) as Hw.
  destruct (run _ _ _ _ _) as [[[r m'] h']|]; [|by destruct Hw].
  destruct Hw as (h1 & -> & [Hm Hr] & Hd). exists r, m', h1. destruct (replay_tables 0 h1 (m_db m)) as [H1 H2].
  rewrite (Hd 0). by split_and!.
Qed.
Definition ended (r : option (result string * Mem * list Act)) : bool :=
  match r with
  | Some (Ok driver, m, _) => String.eqb driver "sqlite" && bool_decide (is_Some (t_settings (m_db m) !! "dashboard_token"))
  | _ => false
  end.
Lemma Open_outcome_witness : exists r m' h1,
  run demo_oracle (Open "sqlite://stackd.db") 0 emptyMem [] = Some (r, m', [] ++ h1)
  /\ r = Ok "sqlite" /\ total act_conn h1 = 1
  /\ is_Some (t_settings (m_db m') !! "dashboard_token").
Proof.
  destruct (Open_outcome "sqlite://stackd.db" demo_oracle 0 emptyMem []) as (r & m' & h1 & Hrun & Hd & _ & _ & _ & Hr).
  - intros n m. reflexivity.
  - assert (ended (run demo_oracle (Open "sqlite://stackd.db") 0 emptyMem []) = true) as He by (vm_compute; reflexivity).
    rewrite Hrun in He. cbn [ended] in He. destruct r as [driver|e]; [|done]. bool_prop. destruct He as [-> He].
    exists (Ok "sqlite"), m', h1. split; [exact Hrun|]. split; [reflexivity|]. split; [apply Hr|].
    by apply bool_decide_eq_true in He.
Defined.

(** A migration that fails part of the way through is forced back and all of them
    are run again, over what the first attempt had done. *)
Definition ask_is_up X (q : Ask X) : bool := match q with MigrateUp => true | _ => false end.
Definition dirty_oracle : Oracle :=
  {| o_answer := fun X q h =>
       (match q in Ask X return X -> X with
        | MigrateUp => fun _ => if existsb (fun a => ask_is_up _ (a_ask a)) h
                                then {| up_from := 0; up_count := 4; up_err := None |}
                                else {| up_from := 0; up_count := 2; up_err := Some (ErrDirty 3) |}
        | _ => fun x => x
        end) (demo_answer X q);
     o_other := fun _ m => m |}.
Example dirty_database_recovers :
  match run dirty_oracle (Open "postgres://h/db") 0 emptyMem [] with
  | Some (r, m', h) => r = Ok "postgres" /\ length (ups h) = 2%nat
      /\ m_db m' = migrate_up (format_datetime (demo_answer _ Now)) 0 emptyDB
  | None => False
  end.
Proof. vm_compute. done. Qed.

(** A daemon with a secret key and one repository gets to run git. *)
Definition boot_oracle : Oracle :=
  {| o_answer := fun X q _ =>
       (match q in Ask X return X -> X with
        | Getenv name => fun x => if String.eqb name "SECRET_KEY" then "0123456789abcdef" else x
        | _ => fun x => x
        end) (demo_answer X q);
     o_other := fun _ m => m |}.
Definition demo_hkdf (secret info : string) (n : nat) : result string := Ok "0123456789abcdef0123456789abcdef".
Definition one_repo : Mem :=
  set_db (with_repos {["id1" := row_of {| r_ID := "id1"; r_Name := "home"; r_URL := "https://h/r"; r_Branch := "main";
    r_Remote := "origin"; r_AuthType := "none"; r_SSHKeyID := ""; r_PATEnc := ""; r_StacksDir := "."; r_SyncInterval := 0;
    r_Enabled := true; r_CreatedAt := 0; r_UpdatedAt := 0 |} 0 0]} emptyDB) emptyMem.
Definition is_git (c : option Pending) : bool :=
  match c with
  | Some c => match pd_ask c with Exec cmd => String.eqb (cmd_name cmd) "git" | _ => false end
  | None => false
  end.
Example main_runs_git : existsb (fun k => is_git (pending k boot_oracle (main demo_hkdf 0 4 1) 0 one_repo [])) (seq 0 60) = true.
Proof. vm_compute. done. Qed.
