(* ===== verification/Responses.v ===== *)
(** * What the settings API shows

    [concealed] is the database without its secrets: of a stored credential only
    whether there is one.  Two databases that agree on it are indistinguishable
    to any client of the settings API. *)
From stdpp Require Import sorting.
From Stdlib Require Import Ascii.
From S2P Require Import Prelude GoStrings GitRef Crypto State Sched Db Effects Outcome Http Server Settings System.

(** ** Programs run on two memories *)

(** [both I R p p']: from memories related by [I], step by step, the programs make
    the same calls, keep [I], and return results related by [R]. *)
Section both.
Context (I : Mem -> Mem -> Prop).
Inductive both {A B} (R : A -> B -> Prop) : prog A -> prog B -> Prop :=
| both_ret a b : R a b -> both R (Ret a) (Ret b)
| both_call X (q : Ask X) k k' : (forall x, both R (k x) (k' x)) -> both R (Call q k) (Call q k')
| both_atomic X Y (f : Mem -> option (X * Mem)) (f' : Mem -> option (Y * Mem)) (Rx : X -> Y -> Prop) k k' :
    (forall m m', I m m' -> match f m, f' m' with
                            | Some (x, m1), Some (y, m1') => Rx x y /\ I m1 m1'
                            | None, None => True
                            | _, _ => False
                            end) ->
    (forall x y, Rx x y -> both R (k x) (k' y)) -> both R (Atomic f k) (Atomic f' k').

Lemma both_bind {A A' B B'} (R : A -> A' -> Prop) (R' : B -> B' -> Prop) p p' f f' :
  both R p p' -> (forall a a', R a a' -> both R' (f a) (f' a')) -> both R' (bind p f) (bind p' f').
Proof.
  intros Hp Hf. induction Hp as [a b Hab|X q k k' _ IH|X Y g g' Rx k k' Hg _ IH]; simpl;
    [by apply Hf|by constructor|by eapply both_atomic].
Qed.
Lemma both_ask {X} (q : Ask X) : both eq (ask q) (ask q).
Proof. constructor. intros x. by constructor. Qed.
Lemma both_run {A B} (R : A -> B -> Prop) o o' p p' n m m' h :
  (forall X q h, o_answer o X q h = o_answer o' X q h) ->
  (forall n m m', I m m' -> I (o_other o n m) (o_other o' n m')) ->
  both R p p' -> I m m' ->
  match run o p n m h, run o' p' n m' h with
  | Some (a, m1, h1), Some (b, m1', h1') => R a b /\ I m1 m1' /\ h1 = h1'
  | None, None => True
  | _, _ => False
  end.
Proof.
  intros Ho Hi Hp. revert n m m' h. induction Hp as [a b Hab|X q k k' _ IH|X Y g g' Rx k k' Hg _ IH]; intros n m m' h Hm; simpl.
  - by split_and!; [|apply Hi|].
  - rewrite Ho. by apply IH, Hi.
  - specialize (Hg _ _ (Hi n _ _ Hm)). destruct (g _) as [[x m1]|], (g' _) as [[y m1']|]; try done.
    destruct Hg as [Hx Hm1]. by apply (IH _ _ Hx).
Qed.
End both.

(** ** The database without its secrets *)

Definition mark (s : string) : string := if String.eqb s "" then "" else "*".
Definition mask_repo_row (row : repo_row) : repo_row :=
  {| c_name := c_name row; c_url := c_url row; c_branch := c_branch row; c_remote := c_remote row;
     c_auth_type := c_auth_type row; c_ssh_key_id := c_ssh_key_id row; c_pat_enc := mark <$> c_pat_enc row;
     c_stacks_dir := c_stacks_dir row; c_sync_interval := c_sync_interval row; c_enabled := c_enabled row;
     c_created_at := c_created_at row; c_updated_at := c_updated_at row |}.
Definition mask_key_row (row : key_row) : key_row :=
  {| ck_name := ck_name row; ck_private_key_enc := ""; ck_public_key := ck_public_key row;
     ck_created_at := ck_created_at row |}.
Definition mask_setting_row (row : setting_row) : setting_row :=
  if cs_sensitive row =? 0 then row
  else {| cs_value := mark <$> cs_value row; cs_sensitive := cs_sensitive row; cs_updated_at := cs_updated_at row |}.
Definition concealed (d : DB) : DB :=
  {| t_repos := mask_repo_row <$> t_repos d; t_keys := mask_key_row <$> t_keys d;
     t_settings := mask_setting_row <$> t_settings d |}.
Definition mask_repo (r : RepoDB) : RepoDB :=
  {| r_ID := r_ID r; r_Name := r_Name r; r_URL := r_URL r; r_Branch := r_Branch r; r_Remote := r_Remote r;
     r_AuthType := r_AuthType r; r_SSHKeyID := r_SSHKeyID r; r_PATEnc := mark (r_PATEnc r);
     r_StacksDir := r_StacksDir r; r_SyncInterval := r_SyncInterval r; r_Enabled := r_Enabled r;
     r_CreatedAt := r_CreatedAt r; r_UpdatedAt := r_UpdatedAt r |}.
Definition mask_key (k : SSHKeyDB) : SSHKeyDB :=
  {| k_ID := k_ID k; k_Name := k_Name k; k_PrivateKeyEnc := ""; k_PublicKey := k_PublicKey k; k_CreatedAt := k_CreatedAt k |}.

Definition agree (d d' : DB) : Prop := concealed d = concealed d'.
Definition alike_repo (r r' : RepoDB) : Prop := mask_repo r = mask_repo r'.

Lemma mark_empty s : mark s = "" <-> s = "".
Proof. unfold mark. destruct (String.eqb_spec s ""); by split. Qed.
Lemma mark_eqb s : String.eqb (mark s) "" = String.eqb s "".
Proof. unfold mark. by destruct (String.eqb_spec s "") as [->|]. Qed.
Lemma mark_null s : null_string (mark <$> nullStr s) = mark (null_string (nullStr s)).
Proof. unfold nullStr, mark. by destruct (String.eqb_spec s ""). Qed.
Lemma mask_scan id row : scanRepo id (mask_repo_row row) = mask_repo (scanRepo id row).
Proof. unfold scanRepo, mask_repo. simpl. f_equal. by destruct (c_pat_enc row). Qed.
Lemma mask_row_of r c u : mask_repo_row (row_of r c u) = row_of (mask_repo r) c u.
Proof.
  unfold mask_repo_row, row_of. simpl. f_equal. unfold nullStr. rewrite mark_eqb.
  by destruct (String.eqb (r_PATEnc r) "").
Qed.

(** ** Statements see no secret *)

Lemma repo_by_name_masked name t :
  repo_by_name name (mask_repo_row <$> t) = prod_map id mask_repo_row <$> repo_by_name name t.
Proof.
  unfold repo_by_name. rewrite map_to_list_fmap. induction (map_to_list t) as [|[id row] l IH]; [done|].
  rewrite fmap_cons, !filter_cons. cbn [prod_map fst snd]. change (c_name (mask_repo_row row)) with (c_name row).
  case_decide; [done|exact IH].
Qed.
Section sorted.
Context {X} (R : X -> X -> Prop) `{!RelDecision R} (g : X -> X) (Hg : forall a b, R (g a) (g b) <-> R a b).
Lemma list_merge_fmap l1 l2 : list_merge R (g <$> l1) (g <$> l2) = g <$> list_merge R l1 l2.
Proof.
  revert l2. induction l1 as [|x l1 IH1]; intros l2; [by rewrite fmap_nil, !list_merge_nil_l|].
  induction l2 as [|y l2 IH2]; [by rewrite fmap_nil, !list_merge_nil_r|].
  rewrite !fmap_cons, !list_merge_cons. pose proof (Hg x y). do 2 case_decide; try tauto.
  - rewrite <- fmap_cons, IH1. done.
  - rewrite <- fmap_cons, IH2. done.
Qed.
Let up (o : option (list X)) : option (list X) := option_map (map g) o.
Lemma merge_sort_fmap l : merge_sort R (g <$> l) = g <$> merge_sort R l.
Proof.
  assert (forall (st : list (option (list X))) (l : list X), merge_sort_aux R (up <$> st) (g <$> l) = g <$> merge_sort_aux R st l) as H.
  2: { apply (H []). }
  assert (forall (st : list (option (list X))) (l : list X), merge_list_to_stack R (up <$> st) (g <$> l) = up <$> merge_list_to_stack R st l) as Hl.
  { induction st as [|[l1|] st IH]; intros l1'; [done| |done]. simpl. f_equal. rewrite list_merge_fmap. apply IH. }
  assert (forall st : list (option (list X)), merge_stack R (up <$> st) = g <$> merge_stack R st) as Hs.
  { induction st as [|[l1|] st IH]; [done| |done]. simpl. rewrite <- list_merge_fmap. f_equal. apply IH. }
  intros st l1. revert st. induction l1 as [|x l1 IH]; intros st; [apply Hs|].
  cbn [fmap list_fmap merge_sort_aux]. rewrite <- IH. f_equal. apply (Hl st [x]).
Qed.
End sorted.

Lemma select_repos_masked d : select_repos (concealed d) = mask_repo <$> select_repos d.
Proof.
  unfold select_repos. rewrite <- merge_sort_fmap by done. f_equal. unfold concealed. cbn [t_repos].
  rewrite map_to_list_fmap, <- !list_fmap_compose. apply list_fmap_ext. intros _ [id row] _. apply mask_scan.
Qed.
Lemma select_keys_masked d :
  merge_sort key_le ((fun '(id, row) => scan_key id row) <$> map_to_list (t_keys (concealed d)))
  = mask_key <$> merge_sort key_le ((fun '(id, row) => scan_key id row) <$> map_to_list (t_keys d)).
Proof.
  rewrite <- merge_sort_fmap by done. f_equal. unfold concealed. cbn [t_keys].
  rewrite map_to_list_fmap, <- !list_fmap_compose. by apply list_fmap_ext; intros _ [id row] _.
Qed.
Lemma iterate_fmap {X Y} (g : X -> Y) f pfx l : iterate f pfx (g <$> l) = prod_map (fmap g) id (iterate f pfx l).
Proof. destruct f; try done. simpl. by rewrite fmap_take. Qed.

Definition same_result {X} (R : X -> X -> Prop) (r r' : result X) : Prop :=
  match r, r' with Ok x, Ok y => R x y | Err e, Err e' => e = e' | _, _ => False end.
Lemma lookup_agree {X} (g : X -> X) (m m' : gmap string X) k :
  g <$> m = g <$> m' -> g <$> m !! k = g <$> m' !! k.
Proof. intros H. by rewrite <- !lookup_fmap, H. Qed.
Lemma agree_fields d d' : agree d d' ->
  mask_repo_row <$> t_repos d = mask_repo_row <$> t_repos d' /\ mask_key_row <$> t_keys d = mask_key_row <$> t_keys d'
  /\ mask_setting_row <$> t_settings d = mask_setting_row <$> t_settings d'.
Proof. unfold agree, concealed. by intros [= -> -> ->]. Qed.

Lemma ListRepos_agree f d d' : agree d d' ->
  mask_repo <$> fst (ListRepos f d) = mask_repo <$> fst (ListRepos f d') /\ snd (ListRepos f d) = snd (ListRepos f d').
Proof.
  intros H. pose proof (select_repos_masked d) as E. pose proof (select_repos_masked d') as E'.
  rewrite H in E. rewrite E in E'. pose proof (f_equal (iterate f "listRepos: ") E') as Hi.
  rewrite !iterate_fmap in Hi. unfold ListRepos. destruct (iterate _ _ _), (iterate _ _ _). by injection Hi.
Qed.
Lemma ListSSHKeys_agree f d d' : agree d d' ->
  mask_key <$> fst (ListSSHKeys f d) = mask_key <$> fst (ListSSHKeys f d') /\ snd (ListSSHKeys f d) = snd (ListSSHKeys f d').
Proof.
  intros H. pose proof (select_keys_masked d) as E. pose proof (select_keys_masked d') as E'.
  rewrite H in E. rewrite E in E'. pose proof (f_equal (iterate f "listSSHKeys: ") E') as Hi.
  rewrite !iterate_fmap in Hi. unfold ListSSHKeys. destruct (iterate _ _ _), (iterate _ _ _). by injection Hi.
Qed.
Lemma GetRepo_agree f id d d' : agree d d' -> same_result alike_repo (Db.GetRepo f id d) (Db.GetRepo f id d').
Proof.
  intros (H & _ & _)%agree_fields. apply (lookup_agree _ _ _ id) in H. unfold Db.GetRepo.
  destruct (stmt_error f); [done|]. destruct (t_repos d !! id) as [a|], (t_repos d' !! id) as [b|]; try done.
  simpl. unfold alike_repo. rewrite <- !mask_scan. by rewrite (Some_inj _ _ H).
Qed.
Lemma GetAllSettings_agree f d d' : agree d d' -> GetAllSettings f d = GetAllSettings f d'.
Proof.
  intros (_ & _ & H)%agree_fields. destruct f; try done. simpl. f_equal.
  assert (forall row, masked_value (mask_setting_row row) = masked_value row) as Hm.
  { intros row. unfold masked_value, mask_setting_row. by destruct (cs_sensitive row =? 0) eqn:E; simpl; rewrite ?E. }
  apply (f_equal (fmap masked_value)) in H. rewrite <- !map_fmap_compose in H.
  rewrite <- (map_fmap_ext _ _ (t_settings d) (fun k x _ => Hm x)), <- (map_fmap_ext _ _ (t_settings d') (fun k x _ => Hm x)).
  exact H.
Qed.

Lemma GetSetting_agree f key d d' : agree d d' ->
  String.eqb (or_empty (GetSetting f key d)) "" = String.eqb (or_empty (GetSetting f key d')) "".
Proof.
  intros (_ & _ & H)%agree_fields. apply (lookup_agree _ _ _ key) in H. unfold GetSetting.
  destruct (stmt_error f); [done|]. destruct (t_settings d !! key) as [a|], (t_settings d' !! key) as [b|]; try done.
  apply Some_inj in H. simpl.
  assert (forall row, String.eqb (null_string (cs_value (mask_setting_row row))) "" = String.eqb (null_string (cs_value row)) "") as He.
  { intros row. unfold mask_setting_row. destruct (cs_sensitive row =? 0); [done|].
    simpl. destruct (cs_value row) as [v|]; [|done]. apply mark_eqb. }
  by rewrite <- (He a), H, He.
Qed.

(** Statements that write, run on databases that agree. *)
Definition exec_agree {X} (f g : DB -> X * DB) : Prop :=
  forall d d', agree d d' -> fst (f d) = fst (g d') /\ agree (snd (f d)) (snd (g d')).
Lemma exec_agree_masked {X} (f f' g : DB -> X * DB) :
  (forall d, fst (f d) = fst (g (concealed d)) /\ concealed (snd (f d)) = snd (g (concealed d))) ->
  (forall d, fst (f' d) = fst (g (concealed d)) /\ concealed (snd (f' d)) = snd (g (concealed d))) ->
  exec_agree f f'.
Proof.
  intros H H' d d' Hd. destruct (H d) as [H1 H2], (H' d') as [H1' H2']. unfold agree in *.
  rewrite H1, H1', H2, H2', Hd. done.
Qed.
Lemma CreateRepo_masked f uuid now r d :
  fst (CreateRepo f uuid now r d) = fst (CreateRepo f uuid now (mask_repo r) (concealed d))
  /\ concealed (snd (CreateRepo f uuid now r d)) = snd (CreateRepo f uuid now (mask_repo r) (concealed d)).
Proof.
  unfold CreateRepo. destruct (stmt_error f); [done|]. cbn [r_ID r_Name mask_repo].
  change (t_repos (concealed d)) with (mask_repo_row <$> t_repos d). rewrite lookup_fmap, repo_by_name_masked. set (id := if String.eqb (r_ID r) "" then uuid else r_ID r).
  destruct (t_repos d !! id) as [a|]; [done|]. destruct (repo_by_name _ _) as [b|]; [done|]. split; [done|].
  unfold with_repos, concealed. cbn. by rewrite fmap_insert, mask_row_of.
Qed.
Lemma UpdateRepo_masked f now r d :
  fst (Db.UpdateRepo f now r d) = fst (Db.UpdateRepo f now (mask_repo r) (concealed d))
  /\ concealed (snd (Db.UpdateRepo f now r d)) = snd (Db.UpdateRepo f now (mask_repo r) (concealed d)).
Proof.
  unfold Db.UpdateRepo. destruct (stmt_error f); [done|]. cbn [r_ID r_Name mask_repo].
  change (t_repos (concealed d)) with (mask_repo_row <$> t_repos d).
  rewrite lookup_fmap, <- fmap_delete, repo_by_name_masked.
  destruct (t_repos d !! r_ID r) as [a|]; [|done]. cbn. destruct (repo_by_name _ _) as [b|]; [done|]. split; [done|].
  unfold with_repos, concealed. cbn. by rewrite fmap_insert, mask_row_of.
Qed.
Lemma DeleteRepo_agree f id : exec_agree (DeleteRepo f id) (DeleteRepo f id).
Proof.
  apply (exec_agree_masked _ _ (DeleteRepo f id)); intros d; unfold DeleteRepo; (destruct (stmt_error f); [done|]);
    (split; [done|]); unfold concealed, with_repos; cbn; by rewrite fmap_delete.
Qed.
Lemma DeleteSSHKey_agree f id : exec_agree (DeleteSSHKey f id) (DeleteSSHKey f id).
Proof.
  apply (exec_agree_masked _ _ (DeleteSSHKey f id)); intros d; unfold DeleteSSHKey; (destruct (stmt_error f); [done|]);
    (split; [done|]); unfold concealed, with_keys; cbn; by rewrite fmap_delete.
Qed.
Lemma CreateRepo_agree f uuid now r : exec_agree (CreateRepo f uuid now r) (CreateRepo f uuid now r).
Proof. apply (exec_agree_masked _ _ (CreateRepo f uuid now (mask_repo r))); apply CreateRepo_masked. Qed.
Lemma UpdateRepo_agree f now r r' : alike_repo r r' -> exec_agree (Db.UpdateRepo f now r) (Db.UpdateRepo f now r').
Proof.
  intros H. apply (exec_agree_masked _ _ (Db.UpdateRepo f now (mask_repo r))); [apply UpdateRepo_masked|].
  rewrite H. apply UpdateRepo_masked.
Qed.
Lemma keys_named_masked name t :
  head (filter (fun p : string * key_row => ck_name p.2 = name) (map_to_list (mask_key_row <$> t)))
  = prod_map id mask_key_row <$> head (filter (fun p => ck_name p.2 = name) (map_to_list t)).
Proof.
  rewrite map_to_list_fmap. induction (map_to_list t) as [|[id row] l IH]; [done|].
  rewrite fmap_cons, !filter_cons. cbn [prod_map fst snd]. change (ck_name (mask_key_row row)) with (ck_name row).
  case_decide; [done|exact IH].
Qed.
Lemma CreateSSHKey_masked f uuid now k d :
  fst (CreateSSHKey f uuid now k d) = fst (CreateSSHKey f uuid now (mask_key k) (concealed d))
  /\ concealed (snd (CreateSSHKey f uuid now k d)) = snd (CreateSSHKey f uuid now (mask_key k) (concealed d)).
Proof.
  unfold CreateSSHKey. destruct (stmt_error f); [done|]. cbn [k_ID k_Name mask_key].
  change (t_keys (concealed d)) with (mask_key_row <$> t_keys d). rewrite lookup_fmap, keys_named_masked.
  set (id := if String.eqb (k_ID k) "" then uuid else k_ID k).
  destruct (t_keys d !! id) as [a|]; [done|]. destruct (head _) as [b|]; [done|]. split; [done|].
  unfold with_keys, concealed. cbn. by rewrite fmap_insert.
Qed.
Lemma CreateSSHKey_agree f uuid now k : exec_agree (CreateSSHKey f uuid now k) (CreateSSHKey f uuid now k).
Proof. apply (exec_agree_masked _ _ (CreateSSHKey f uuid now (mask_key k))); apply CreateSSHKey_masked. Qed.
Lemma SetSetting_agree f now key value : exec_agree (SetSetting f now key value) (SetSetting f now key value).
Proof.
  intros d d' Hd. unfold SetSetting. destruct (stmt_error f); [done|]. split; [done|].
  apply agree_fields in Hd as (H1 & H2 & H3). unfold agree, concealed. cbn. f_equal; [done..|].
  apply map_eq. intros k. pose proof (lookup_agree _ _ _ k H3) as Hk. pose proof (lookup_agree _ _ _ key H3) as Hkey.
  assert (forall row, cs_sensitive (mask_setting_row row) = cs_sensitive row) as Hsen.
  { intros row. unfold mask_setting_row. by destruct (cs_sensitive row =? 0). }
  rewrite !lookup_fmap. unfold upsert.
  destruct (t_settings d !! key) as [a|], (t_settings d' !! key) as [b|]; try done;
    rewrite !lookup_insert; (case_decide; [|exact Hk]); [|done].
  apply Some_inj in Hkey. simpl. do 3 f_equal. by rewrite <- (Hsen a), Hkey, Hsen.
Qed.

(** ** The handlers *)

Definition same_public (m m' : Mem) : Prop := agree (m_db m) (m_db m').
Abbreviation twin := (both same_public).

Lemma twin_db_read {X} (Rx : X -> X -> Prop) (f : fault -> DB -> X) :
  (forall flt d d', agree d d' -> Rx (f flt d) (f flt d')) -> twin Rx (db_read f) (db_read f).
Proof.
  intros H. constructor. intros flt. apply (both_atomic _ _ _ _ _ _ Rx); [|by intros x y Hxy; constructor].
  intros m m' Hm. split; [by apply H|done].
Qed.
Lemma twin_db_exec {X} (f g : fault -> DB -> X * DB) :
  (forall flt, exec_agree (f flt) (g flt)) -> twin eq (db_exec f) (db_exec g).
Proof.
  intros H. constructor. intros flt. apply (both_atomic _ _ _ _ _ _ eq); [|by intros x y ->; constructor].
  intros m m' Hm. pose proof (H flt _ _ Hm) as [H1 H2].
  destruct (f flt (m_db m)) as [x d], (g flt (m_db m')) as [y d']. done.
Qed.
Lemma twin_ret {X} (x : X) : twin eq (Ret x) (Ret x).
Proof. by constructor. Qed.
Lemma twin_logged {X} msg attrs (x : X) : twin eq (log_error msg attrs;;; Ret x)%prog (log_error msg attrs;;; Ret x)%prog.
Proof. constructor. intros u. apply twin_ret. Qed.
Lemma twin_modify f : (forall m, m_db (f m) = m_db m) -> twin eq (modify f) (modify f).
Proof.
  intros H. apply (both_atomic _ _ _ _ _ _ eq); [|by intros x y ->; constructor].
  intros m m' Hm. split; [done|]. unfold same_public. by rewrite !H.
Qed.
Lemma twin_seq {X B} (p : prog X) (f f' : X -> prog B) :
  twin eq p p -> (forall x, twin eq (f x) (f' x)) -> twin eq (bind p f) (bind p f').
Proof. intros Hp Hf. eapply both_bind; [exact Hp|]. by intros x y ->. Qed.

Lemma repo_response_alike r r' : alike_repo r r' -> repoToResponse r = repoToResponse r'.
Proof.
  assert (forall x, repoToResponse (mask_repo x) = repoToResponse x) as H.
  { intros x. unfold repoToResponse, mask_repo. cbn. by rewrite mark_eqb. }
  intros Hr. by rewrite <- H, Hr, H.
Qed.
Lemma responses_alike (l l' : list RepoDB) : mask_repo <$> l = mask_repo <$> l' -> repoToResponse <$> l = repoToResponse <$> l'.
Proof.
  revert l'. induction l as [|r l IH]; intros [|r' l'] H; try done. injection H as H1 H2 H3 H4 H5 H6 H7 H8 H9 H10 H11 H12 H13 H14.
  rewrite !fmap_cons. f_equal; [|by apply IH]. apply repo_response_alike. unfold alike_repo, mask_repo. congruence.
Qed.
Lemma find_repo_masked name (l : list RepoDB) : find_repo name (mask_repo <$> l) = mask_repo <$> find_repo name l.
Proof.
  induction l as [|r l IH]; [done|]. rewrite fmap_cons. unfold find_repo in *. cbn [find mask_repo r_Name].
  by destruct (String.eqb (r_Name r) name).
Qed.
Lemma find_repo_alike name (l l' : list RepoDB) : mask_repo <$> l = mask_repo <$> l' ->
  repoToResponse <$> find_repo name l = repoToResponse <$> find_repo name l'.
Proof.
  intros H. pose proof (find_repo_masked name l) as E. rewrite H, find_repo_masked in E.
  destruct (find_repo name l), (find_repo name l'); try done. simpl. f_equal.
  apply repo_response_alike. symmetry. by apply Some_inj.
Qed.
Lemma key_json_masked k : key_json (mask_key k) = key_json k.
Proof. done. Qed.
Lemma keys_alike (l l' : list SSHKeyDB) : mask_key <$> l = mask_key <$> l' -> key_json <$> l = key_json <$> l'.
Proof.
  intros H. apply (f_equal (fmap key_json)) in H. rewrite <- !list_fmap_compose in H.
  by rewrite !(list_fmap_ext (key_json ∘ mask_key) key_json) in H.
Qed.
Lemma find_key_alike name (l l' : list SSHKeyDB) : mask_key <$> l = mask_key <$> l' ->
  key_json <$> find (fun k => String.eqb (k_Name k) name) l = key_json <$> find (fun k => String.eqb (k_Name k) name) l'.
Proof.
  revert l'. induction l as [|k l IH]; intros [|k' l'] H; try done. simpl in *. injection H as H1 H2 H3 H4 H5.
  rewrite H2. destruct (String.eqb (k_Name k') name); [|by apply IH]. simpl. unfold key_json. by rewrite H1, H2, H3, H4.
Qed.
Lemma updated_alike id req enc r r' : alike_repo r r' -> alike_repo (updated_repo id req enc r) (updated_repo id req enc r').
Proof.
  unfold alike_repo, mask_repo. intros [=]. unfold updated_repo. simpl. unfold orElse. f_equal; repeat case_match; congruence.
Qed.

Section handlers.
Context `{A : AEAD} (ip_literal : string -> option string) (ParsePrivateKey : string -> result string) (cryptoKey : string).

Lemma twin_encrypt pt : twin eq (encrypt cryptoKey pt) (encrypt cryptoKey pt).
Proof.
  unfold encrypt. destruct (negb _); [apply twin_ret|]. apply twin_seq; [apply both_ask|]. intros x. apply twin_ret.
Qed.
Lemma twin_pat pt : twin eq (encrypt_pat cryptoKey pt) (encrypt_pat cryptoKey pt).
Proof. unfold encrypt_pat. destruct (negb _); [apply twin_encrypt|apply twin_ret]. Qed.
Lemma twin_uuid : twin eq draw_uuid draw_uuid.
Proof. unfold draw_uuid. apply twin_seq; [apply both_ask|]. intros x. apply twin_ret. Qed.
Lemma twin_write_all l : twin eq (write_all l) (write_all l).
Proof.
  induction l as [|[key value] l IH]; cbn [write_all]; [apply twin_ret|]. apply twin_seq; [apply both_ask|]. intros now.
  apply twin_seq; [apply twin_db_exec; intros flt; apply SetSetting_agree|]. intros [e|]; [apply twin_logged|exact IH].
Qed.
Lemma twin_write req enc : twin eq (write_settings req enc) (write_settings req enc).
Proof.
  unfold write_settings. apply twin_seq; [apply twin_write_all|]. intros [key|]; [apply twin_ret|].
  apply twin_seq; [|intros u; apply twin_ret]. destruct (nonempty _); [by apply twin_modify|apply twin_ret].
Qed.

Abbreviation listed_alike := (fun l l' : list RepoDB * option GoError =>
  mask_repo <$> fst l = mask_repo <$> fst l' /\ snd l = snd l').
Lemma twin_create body :
  twin eq (handleCreateRepo ip_literal cryptoKey body) (handleCreateRepo ip_literal cryptoKey body).
Proof.
  unfold handleCreateRepo. destruct body as [req|]; [|apply twin_ret].
  destruct (create_error ip_literal req); [apply twin_ret|].
  apply twin_seq; [apply twin_pat|]. intros [enc|]; [|apply twin_ret].
  apply twin_seq; [apply twin_uuid|]. intros [uuid|]; [|apply twin_ret].
  apply twin_seq; [apply both_ask|]. intros now.
  apply twin_seq; [apply twin_db_exec; intros flt; apply CreateRepo_agree|]. intros [e|]; [apply twin_logged|].
  apply (both_bind _ listed_alike); [apply twin_db_read; intros flt d d'; apply ListRepos_agree|].
  intros l l' [Hl He]. constructor. rewrite He. destruct (snd l'); [done|]. by rewrite (find_repo_alike _ _ _ Hl).
Qed.
Lemma twin_update id body :
  twin eq (handleUpdateRepo ip_literal cryptoKey id body) (handleUpdateRepo ip_literal cryptoKey id body).
Proof.
  unfold handleUpdateRepo.
  apply (both_bind _ (same_result alike_repo)); [apply twin_db_read; intros flt d d'; apply GetRepo_agree|].
  intros [r|e] [r'|e'] Hr; try done; [|apply twin_ret]. destruct body as [req|]; [|apply twin_ret].
  destruct (update_error ip_literal req); [apply twin_ret|].
  apply twin_seq; [apply twin_pat|]. intros [enc|]; [|apply twin_ret].
  apply twin_seq; [apply both_ask|]. intros now.
  eapply both_bind; [apply twin_db_exec; intros flt; by apply UpdateRepo_agree, updated_alike|].
  intros err err' <-. destruct err; [apply twin_ret|].
  apply (both_bind _ (same_result alike_repo)); [apply twin_db_read; intros flt d d'; apply GetRepo_agree|].
  intros [x|] [x'|] Hx; try done; constructor; [|done]. by rewrite (repo_response_alike x x' Hx).
Qed.
Lemma twin_general : twin eq handleGetGeneralSettings handleGetGeneralSettings.
Proof.
  unfold handleGetGeneralSettings.
  apply (both_bind _ eq); [apply twin_db_read; intros flt d d'; apply GetAllSettings_agree|].
  intros s s' <-. destruct s as [s|]; [|apply twin_ret].
  pose (Rx := fun r r' : result (string * bool) => String.eqb (or_empty r) "" = String.eqb (or_empty r') "").
  apply (both_bind _ Rx); [apply twin_db_read; intros flt d d' H; by apply GetSetting_agree|]. intros a a' Ha.
  apply (both_bind _ Rx); [apply twin_db_read; intros flt d d' H; by apply GetSetting_agree|]. intros b b' Hb.
  constructor. cbv zeta. unfold Rx in *. by rewrite Ha, Hb.
Qed.
Lemma twin_settings req :
  twin eq (settings_handler ip_literal ParsePrivateKey cryptoKey req) (settings_handler ip_literal ParsePrivateKey cryptoKey req).
Proof.
  assert (forall p, twin eq p p -> twin eq (answer p) (answer p)) as Ha.
  { intros p Hp. apply twin_seq; [exact Hp|]. intros r. apply twin_ret. }
  destruct req; cbn [settings_handler]; try apply Ha.
  - unfold handleListRepos. apply (both_bind _ listed_alike); [apply twin_db_read; intros flt d d'; apply ListRepos_agree|].
    intros l l' [Hl He]. rewrite He. destruct (snd l'); [apply twin_logged|]. constructor. by rewrite (responses_alike _ _ Hl).
  - apply twin_create.
  - unfold handleGetRepo. apply (both_bind _ (same_result alike_repo)); [apply twin_db_read; intros flt d d'; apply GetRepo_agree|].
    intros [r|e] [r'|e'] Hr; try done; constructor; [by rewrite (repo_response_alike r r' Hr)|by rewrite Hr].
  - apply twin_update.
  - unfold handleDeleteRepo. apply twin_seq; [apply twin_db_exec; intros flt; apply DeleteRepo_agree|]. intros e. apply twin_ret.
  - unfold handleListSSHKeys. apply (both_bind _ (fun l l' => mask_key <$> fst l = mask_key <$> fst l' /\ snd l = snd l'));
      [apply twin_db_read; intros flt d d'; apply ListSSHKeys_agree|].
    intros l l' [Hl He]. constructor. rewrite He. destruct (snd l'); [done|]. by rewrite (keys_alike _ _ Hl).
  - unfold handleCreateSSHKey. destruct body as [k|]; [|apply twin_ret]. destruct (_ || _); [apply twin_ret|].
    destruct (ParsePrivateKey _); [|apply twin_ret]. apply twin_seq; [apply twin_encrypt|]. intros [enc|]; [|apply twin_ret].
    apply twin_seq; [apply twin_uuid|]. intros [uuid|]; [|apply twin_ret]. apply twin_seq; [apply both_ask|]. intros now.
    apply twin_seq; [apply twin_db_exec; intros flt; apply CreateSSHKey_agree|]. intros [e|]; [apply twin_ret|].
    apply (both_bind _ (fun l l' => mask_key <$> fst l = mask_key <$> fst l' /\ snd l = snd l'));
      [apply twin_db_read; intros flt d d'; apply ListSSHKeys_agree|].
    intros l l' [Hl He]. constructor. by rewrite (find_key_alike _ _ _ Hl).
  - unfold handleDeleteSSHKey. apply twin_seq; [apply twin_db_exec; intros flt; apply DeleteSSHKey_agree|]. intros e. apply twin_ret.
  - apply twin_general.
  - unfold handleUpdateGeneralSettings. destruct body as [req|]; [|apply twin_ret].
    destruct (nonempty (g_InfisicalToken req)); [|apply twin_write].
    apply twin_seq; [apply twin_encrypt|]. intros [enc|]; [apply twin_write|apply twin_ret].
Qed.

(** C10. The settings API is write-only for secrets.  Take two databases that differ
    only in the values of stored credentials (encrypted access tokens, private
    keys, secret settings), not in whether there is one: every settings request,
    also one that writes, gets the same response on both, makes the same calls,
    and leaves two databases that again differ only in this way, whatever other
    goroutines do in between to both alike.  So no response, of any sequence of
    requests, depends on a stored secret. *)
Theorem responses_hide_secrets o o' req n m m' h :
  same_public m m' ->
  (forall X (q : Ask X) h, o_answer o X q h = o_answer o' X q h) ->
  (forall n m m', same_public m m' -> same_public (o_other o n m) (o_other o' n m')) ->
  match run o (settings_handler ip_literal ParsePrivateKey cryptoKey req) n m h,
        run o' (settings_handler ip_literal ParsePrivateKey cryptoKey req) n m' h with
  | Some (resp, m1, h1), Some (resp', m1', h1') => resp = resp' /\ same_public m1 m1' /\ h1 = h1'
  | None, None => True
  | _, _ => False
  end.
Proof. intros Hm Ho Hi. apply (both_run same_public eq); [exact Ho|exact Hi|apply twin_settings|exact Hm]. Qed.
End handlers.

(** Two databases with different credentials. *)
Definition with_pat (pat : string) : Mem :=
  set_db (snd (CreateRepo NoFault "" 0
    {| r_ID := "id1"; r_Name := "home"; r_URL := "https://h/r"; r_Branch := "main"; r_Remote := "origin"; r_AuthType := "pat";
       r_SSHKeyID := ""; r_PATEnc := pat; r_StacksDir := "."; r_SyncInterval := 0; r_Enabled := true; r_CreatedAt := 0;
       r_UpdatedAt := 0 |} (migrate_up 0 0 emptyDB))) emptyMem.
Lemma responses_hide_secrets_witness :
  match run demo_oracle (settings_handler no_ip no_key "k" ListRepos_) 0 (with_pat "c2VjcmV0") [],
        run demo_oracle (settings_handler no_ip no_key "k" ListRepos_) 0 (with_pat "b3RoZXI=") [] with
  | Some (resp, m1, h1), Some (resp', m1', h1') => resp = resp' /\ same_public m1 m1' /\ h1 = h1'
  | None, None => True
  | _, _ => False
  end.
Proof.
  apply (responses_hide_secrets no_ip no_key "k").
  - reflexivity.
  - reflexivity.
  - intros n m m' H. exact H.
Defined.
