(* ===== verification/Registration.v ===== *)
(** * What the writing requests of the settings API do

    Each handler runs against [token_spec]: while it runs, nobody else writes to
    the database or sets the token; every statement may fail. *)
From Stdlib Require Import Ascii.
From S2P Require Import Prelude GoStrings GitRef Base64 Crypto State Sched Db Effects Outcome Http Server Settings System Invariants Token.

Section registration.
Context `{AL : AEADLaws} (ip_literal : string -> option string) (cryptoKey : string).

(** A credential is stored encrypted, an empty one as nothing. *)
Definition stored_pat (pat enc : string) : Prop :=
  if String.eqb pat "" then enc = "" else Decrypt cryptoKey enc = Ok pat.

(** A program that draws random bytes and touches nothing. *)
Lemma wp_encrypt pt m h :
  wp token_spec (encrypt cryptoKey pt) (fun r m' h' => token_frame m m' /\ (exists h1, h' = h ++ h1) /\
    match r with Ok enc => Decrypt cryptoKey enc = Ok pt | Err _ => True end) m h.
Proof.
  unfold encrypt. destruct (valid_key cryptoKey) eqn:Ek; cbn [negb].
  - intros m1 H1. split; [done|]. intros [nonce|e] Hn m2 H2.
    + split; [by transitivity m1|]. split; [by eexists|].
      destruct (Encrypt (Ok nonce) cryptoKey pt) as [enc|e] eqn:E; [|done]. exact (Decrypt_Encrypt _ _ _ _ Hn E).
    + split; [by transitivity m1|]. split; [by eexists|]. unfold Encrypt. by rewrite Ek.
  - intros m1 H1. split; [done|]. split; [by exists []; rewrite app_nil_r|]. unfold Encrypt. by rewrite Ek.
Qed.
Lemma wp_pat pat m h :
  wp token_spec (encrypt_pat cryptoKey pat) (fun r m' h' => token_frame m m' /\ (exists h1, h' = h ++ h1) /\
    match r with Ok enc => stored_pat pat enc | Err _ => True end) m h.
Proof.
  unfold encrypt_pat, stored_pat. destruct (String.eqb pat ""); cbn [negb].
  - intros m1 H1. split; [done|]. split; [by exists []; rewrite app_nil_r|done].
  - apply wp_encrypt.
Qed.
Lemma wp_uuid m h :
  wp token_spec draw_uuid (fun _ m' h' => token_frame m m' /\ exists h1, h' = h ++ h1) m h.
Proof. intros m1 H1. split; [done|]. intros b _ m2 H2. split; [by transitivity m1|by eexists]. Qed.
Lemma wp_token_read {X} (f : fault -> DB -> X) m h :
  wp token_spec (db_read f) (fun r m' h' => token_frame m m' /\ (exists h1, h' = h ++ h1) /\ exists flt, r = f flt (m_db m)) m h.
Proof.
  intros m1 H1. split; [done|]. intros flt _ m2 H2. split; [done|]. intros m3 H3. simpl in *.
  split; [do 2 (etransitivity; [eassumption|]); done|]. split; [by eexists|]. exists flt.
  destruct H1 as [H1 _], H2 as [H2 _]. by rewrite H2, H1.
Qed.
Lemma wp_token_exec {X} (f : fault -> DB -> X * DB) m h :
  wp token_spec (db_exec f) (fun r m' h' => (exists h1, h' = h ++ h1) /\ m_token m' = m_token m
    /\ exists flt, f flt (m_db m) = (r, m_db m')) m h.
Proof.
  intros m1 H1. split; [done|]. intros flt _ m2 H2. destruct (f flt (m_db m2)) as [x d] eqn:E.
  split; [done|]. intros m3 [H3d H3t]. destruct H1 as [H1 H1t], H2 as [H2 H2t]. simpl in *.
  split; [by eexists|]. split; [congruence|]. exists flt. by rewrite H3d, <- H1, <- H2.
Qed.
Lemma wp_token_Ret {X} (x : X) (Q : X -> Mem -> list Act -> Prop) m h :
  (forall m', token_frame m m' -> Q x m' h) -> wp token_spec (Ret x) Q m h.
Proof. intros H m' Hm. by apply H. Qed.
Lemma wp_token_ask {X} (q : Ask X) m h :
  wp token_spec (ask q) (fun x m' h' => token_frame m m' /\ (exists h1, h' = h ++ h1) /\ rand_ok X q x) m h.
Proof. intros m1 H1. split; [done|]. intros x Hx m2 H2. split; [by transitivity m1|]. split; [by eexists|done]. Qed.

(** ** Creating a repository *)

(** What must hold of a request to be accepted. *)
Definition acceptable (req : repoRequest) : Prop :=
  q_Name req <> "" /\ q_URL req <> "" /\ ValidateRepoName (q_Name req) = Ok tt
  /\ ValidateRepoURL ip_literal (q_URL req) = Ok tt
  /\ (q_Remote req <> "" -> ValidateRef (q_Remote req) = Ok tt) /\ (q_Branch req <> "" -> ValidateRef (q_Branch req) = Ok tt)
  /\ 0 <= q_SyncInterval req.
Definition given_or (s dflt stored : string) : Prop := stored = if decide (s = "") then dflt else s.
(** The row it becomes, field by field. *)
Definition registered (req : repoRequest) (now : Time) (row : repo_row) : Prop :=
  c_name row = q_Name req /\ c_url row = q_URL req
  /\ given_or (q_Branch req) "main" (c_branch row) /\ given_or (q_Remote req) "origin" (c_remote row)
  /\ c_auth_type row = q_AuthType req /\ null_string (c_ssh_key_id row) = q_SSHKeyID req
  /\ stored_pat (q_PAT req) (null_string (c_pat_enc row))
  /\ given_or (q_StacksDir req) "." (c_stacks_dir row)
  /\ c_sync_interval row = q_SyncInterval req
  /\ negb (c_enabled row =? 0) = default true (q_Enabled req)
  /\ c_created_at row = format_datetime now /\ c_updated_at row = format_datetime now.
Definition create_outcome (body : result repoRequest) (m : Mem) (resp : option Response) (m' : Mem) (h : list Act) : Prop :=
  m_token m' = m_token m /\
  match resp with
  | None => m_db m' = m_db m
  | Some r =>
      (code r = 201 /\ exists req uuid now row, body = Ok req /\ acceptable req
         /\ In now (clocks h) /\ registered req now row
         /\ t_repos (m_db m) !! uuid = None
         /\ (forall id old, t_repos (m_db m) !! id = Some old -> c_name old <> q_Name req)
         /\ m_db m' = with_repos (<[uuid := row]> (t_repos (m_db m))) (m_db m))
      \/ (code r = 400 /\ m_db m' = m_db m /\ forall req, body = Ok req -> ~ acceptable req)
      \/ (code r = 500 /\ m_db m' = m_db m /\ exists req, body = Ok req /\ acceptable req)
  end.
Lemma Ok_unit (r : result unit) : (exists e, r = Err e) \/ r = Ok tt.
Proof. destruct r as [[]|e]; [by right|left; by exists e]. Qed.
Lemma ref_or_default s dflt : ValidateRef dflt = Ok tt ->
  ValidateRef (orElse s dflt) = Ok tt <-> (s <> "" -> ValidateRef s = Ok tt).
Proof. intros Hd. unfold orElse. destruct (String.eqb_spec s ""); naive_solver. Qed.
Lemma create_error_acceptable req : create_error ip_literal req = None <-> acceptable req.
Proof.
  unfold create_error, acceptable.
  rewrite <- (ref_or_default (q_Remote req) "origin"), <- (ref_or_default (q_Branch req) "main") by reflexivity.
  destruct (String.eqb_spec (q_Name req) ""), (String.eqb_spec (q_URL req) ""); cbn [orb]; try by (split; [done|tauto]).
  destruct (Ok_unit (ValidateRepoName (q_Name req))) as [[e ->]| ->]; [by split; [|intros (? & ? & ? & _)]|].
  destruct (Ok_unit (ValidateRepoURL ip_literal (q_URL req))) as [[e ->]| ->]; [by split; [|intros (? & ? & ? & ? & _)]|].
  destruct (Ok_unit (ValidateRef (orElse (q_Remote req) "origin"))) as [[e ->]| ->]; [by split; [|intros (? & ? & ? & ? & ? & _)]|].
  destruct (Ok_unit (ValidateRef (orElse (q_Branch req) "main"))) as [[e ->]| ->]; [by split; [|intros (? & ? & ? & ? & ? & ? & _)]|].
  destruct (Z.ltb_spec (q_SyncInterval req) 0); [split; [done|]|split; [by intros _; split_and!|done]].
  intros (_ & _ & _ & _ & _ & _ & ?). lia.
Qed.
Lemma given_orElse s dflt : given_or s dflt (orElse s dflt).
Proof. unfold given_or, orElse. destruct (String.eqb_spec s ""); by case_decide. Qed.
Lemma null_string_nullStr s : null_string (nullStr s) = s.
Proof. unfold nullStr. by destruct (String.eqb_spec s ""). Qed.
Lemma registered_new req enc now :
  stored_pat (q_PAT req) enc -> registered req now (row_of (new_repo req enc) (format_datetime now) (format_datetime now)).
Proof.
  intros Henc. unfold registered. cbn. rewrite !null_string_nullStr.
  split_and!; try done; try apply given_orElse. by destruct (default true (q_Enabled req)).
Qed.
Lemma CreateRepo_spec f uuid now r d err d' :
  r_ID r = "" -> CreateRepo f uuid now r d = (err, d') ->
  match err with
  | Some _ => d' = d
  | None => t_repos d !! uuid = None /\ (forall id row, t_repos d !! id = Some row -> c_name row <> r_Name r)
      /\ d' = with_repos (<[uuid := row_of r (format_datetime now) (format_datetime now)]> (t_repos d)) d
  end.
Proof.
  intros Hid. unfold CreateRepo. rewrite Hid. destruct (stmt_error f); [by intros [= <- <-]|].
  change (String.eqb "" "") with true. cbn match. destruct (t_repos d !! uuid) eqn:E1; [by intros [= <- <-]|].
  destruct (repo_by_name _ _) eqn:E2; intros [= <- <-]; [done|]. by rewrite <- repo_by_name_None.
Qed.
Lemma wp_create body m h :
  wp token_spec (handleCreateRepo ip_literal cryptoKey body)
    (fun resp m' h' => exists h1, h' = h ++ h1 /\ create_outcome body m resp m' h1) m h.
Proof.
  assert (forall c j m0, token_frame m m0 ->
    (c = 400 /\ (forall req, body = Ok req -> create_error ip_literal req <> None)
     \/ c = 500 /\ exists req, body = Ok req /\ create_error ip_literal req = None) ->
    forall h1, wp token_spec (Ret (Some (jsonWith c j)))
      (fun resp m' h' => exists h1, h' = h ++ h1 /\ create_outcome body m resp m' h1) m0 (h ++ h1)) as Hret.
  { intros c j m0 H0 Hc h1. apply wp_token_Ret. intros m' Hm'. assert (token_frame m m') as [Hd Ht] by (by transitivity m0).
    exists h1. split; [done|]. split; [done|]. setoid_rewrite <- create_error_acceptable.
    simpl. destruct Hc as [[-> Hc]|[-> Hc]]; [right; left|right; right]; by split_and!. }
  unfold handleCreateRepo. rewrite <- (app_nil_r h) at 1.
  destruct body as [req|e]; [|apply Hret; [done|]; left; by split].
  destruct (create_error ip_literal req) as [msg|] eqn:Ec.
  { apply Hret; [done|]. left. split; [done|]. intros r [= <-]. by rewrite Ec. }
  assert (500 = 400 /\ (forall r, Ok req = Ok r -> create_error ip_literal r <> None)
    \/ 500 = 500 /\ exists r, Ok req = Ok r /\ create_error ip_literal r = None) as H500 by (right; split; [done|by exists req]).
  apply wp_bind. eapply wp_mono; [|apply wp_pat]. intros [enc|e] m1 h1 (H1 & [x1 ->] & Henc); [|rewrite <- app_assoc; by apply Hret].
  apply wp_bind. eapply wp_mono; [|apply wp_uuid]. intros [uuid|] m2 h2 (H2 & x2 & ->).
  2: { apply wp_token_Ret. intros m' Hm'. assert (token_frame m m') as [Hd Ht] by (transitivity m2; [by transitivity m1|done]).
       rewrite <- !app_assoc. eexists. split; [reflexivity|]. by split. }
  intros m3 H3. split; [done|]. intros now _. apply wp_Ret_bind.
  assert (token_frame m m3) as [Hd3 Ht3] by (transitivity m2; [by transitivity m1|done]).
  apply wp_bind. eapply wp_mono; [|apply wp_token_exec]. intros err m4 h4 ([x4 ->] & Ht4 & flt & Ef).
  apply CreateRepo_spec in Ef; [|done]. destruct err as [e|].
  { intros m5 [Hd5 Ht5]. split; [done|]. intros [] _. apply wp_Ret_bind.
    rewrite <- !app_assoc. apply Hret; [|done]. split; congruence. }
  apply wp_bind. eapply wp_mono; [|apply wp_token_read]. intros l m5 h5 ([Hd5 Ht5] & [x5 ->] & _).
  apply wp_token_Ret. intros m6 [Hd6 Ht6]. rewrite <- !app_assoc. eexists. split; [reflexivity|]. split; [congruence|]. left.
  split; [done|]. rewrite Hd3 in Ef. destruct Ef as (E1 & E2 & E3).
  exists req, uuid, now, (row_of (new_repo req enc) (format_datetime now) (format_datetime now)).
  split_and!; try done; [by apply create_error_acceptable| |by apply registered_new|congruence].
  autorewrite with trace. rewrite !in_app_iff. repeat first [by left; left|right].
Qed.

(** C15. Registering a repository, whatever the database and the random source do.
    A request is answered 400 exactly when its body does not parse or one of its
    checks fails: name and URL given, a valid name and URL, valid names of remote
    and branch where they are given, no negative interval.  It is answered 201 when
    one new row was added under a fresh identifier and a name nobody had: the
    fields of the request, with branch main, remote origin, stacks directory [.]
    and enabled where they are not given, the access token encrypted so that it
    decrypts to what was sent (and nothing stored for an empty one), and the time
    of the request.  It is answered 500 only when all checks pass, and then, as with
    400 and when the handler panics for want of randomness, nothing is stored.  The
    live token never changes and the handler always ends. *)
Theorem handleCreateRepo_outcome o body n m h :
  (forall n m, token_frame m (o_other o n m)) ->
  (forall X (q : Ask X) h, rand_ok X q (o_answer o X q h)) ->
  exists resp m' h1, run o (handleCreateRepo ip_literal cryptoKey body) n m h = Some (resp, m', h ++ h1)
  /\ create_outcome body m resp m' h1.
Proof.
  intros Ho Hr. pose proof (wp_run token_spec o _ _ n m h Ho Hr (wp_create body m h)) as Hw.
  destruct (run _ _ _ _ _) as [[[resp m'] h']|]; [|by destruct Hw].
  destruct Hw as (h1 & -> & Hc). by exists resp, m', h1.
Qed.

(** ** Changing a repository *)

(** What an update makes of a row: the fields that are given, and only those. *)
Definition kept_or (s old new : string) : Prop := if String.eqb s "" then new = old else new = s.
Definition patched (req : repoRequest) (old new : repo_row) : Prop :=
  kept_or (q_Name req) (c_name old) (c_name new) /\ kept_or (q_URL req) (c_url old) (c_url new)
  /\ kept_or (q_Branch req) (c_branch old) (c_branch new) /\ kept_or (q_Remote req) (c_remote old) (c_remote new)
  /\ kept_or (q_AuthType req) (c_auth_type old) (c_auth_type new)
  /\ kept_or (q_StacksDir req) (c_stacks_dir old) (c_stacks_dir new)
  /\ (q_SSHKeyID req = "" -> q_AuthType req <> "ssh" -> null_string (c_ssh_key_id new) = null_string (c_ssh_key_id old))
  /\ (q_SSHKeyID req <> "" \/ q_AuthType req = "ssh" -> null_string (c_ssh_key_id new) = q_SSHKeyID req)
  /\ (if String.eqb (q_PAT req) "" then null_string (c_pat_enc new) = null_string (c_pat_enc old)
      else Decrypt cryptoKey (null_string (c_pat_enc new)) = Ok (q_PAT req))
  /\ c_sync_interval new = (if 0 <? q_SyncInterval req then q_SyncInterval req else c_sync_interval old)
  /\ negb (c_enabled new =? 0) = default (negb (c_enabled old =? 0)) (q_Enabled req)
  /\ c_created_at new = c_created_at old.
Definition update_outcome (id : string) (body : result repoRequest) (m : Mem) (r : Response) (m' : Mem) : Prop :=
  m_token m' = m_token m /\
  ((code r = 200 /\ exists req old new, body = Ok req /\ update_error ip_literal req = None
      /\ t_repos (m_db m) !! id = Some old /\ patched req old new
      /\ (forall i row, i <> id -> t_repos (m_db m) !! i = Some row -> c_name row <> c_name new)
      /\ m_db m' = with_repos (<[id := new]> (t_repos (m_db m))) (m_db m))
   \/ (In (code r) [400; 404; 500] /\ m_db m' = m_db m)).
Lemma kept_orElse s old : kept_or s old (orElse s old).
Proof. unfold kept_or, orElse. by destruct (String.eqb s ""). Qed.
Lemma patched_updated id req enc old u :
  stored_pat (q_PAT req) enc ->
  patched req old (row_of (updated_repo id req enc (scanRepo id old)) (c_created_at old) u).
Proof.
  intros Henc. unfold patched. cbn. rewrite !null_string_nullStr.
  do 6 (split; [apply kept_orElse|]). split_and!; try done.
  - intros -> Hne. by apply String.eqb_neq in Hne as ->.
  - destruct (String.eqb_spec (q_SSHKeyID req) "") as [He|]; cbn; [|done].
    intros [?| ->]; [done|]. by rewrite String.eqb_refl.
  - unfold stored_pat in Henc. by destruct (String.eqb (q_PAT req) "").
  - destruct (q_Enabled req) as [[]|]; [done..|]. simpl. by destruct (c_enabled old =? 0).
Qed.
Lemma UpdateRepo_spec f now r d err d' :
  Db.UpdateRepo f now r d = (err, d') ->
  match err with
  | Some _ => d' = d
  | None => forall old, t_repos d !! r_ID r = Some old ->
      (forall i row, i <> r_ID r -> t_repos d !! i = Some row -> c_name row <> r_Name r)
      /\ d' = with_repos (<[r_ID r := row_of r (c_created_at old) (format_datetime now)]> (t_repos d)) d
  end.
Proof.
  unfold Db.UpdateRepo. destruct (stmt_error f); [by intros [= <- <-]|].
  destruct (t_repos d !! r_ID r) as [old|] eqn:E1; [|by intros [= <- <-]].
  destruct (repo_by_name _ _) eqn:E2; intros [= <- <-]; [done|]. intros old' [= <-]. split; [|done].
  intros i row Hi Hrow. rewrite repo_by_name_None in E2. apply (E2 i). by rewrite lookup_delete_ne.
Qed.
Lemma wp_update id body m h :
  wp token_spec (handleUpdateRepo ip_literal cryptoKey id body)
    (fun r m' h' => (exists h1, h' = h ++ h1) /\ update_outcome id body m r m') m h.
Proof.
  assert (forall c j m0 h1, token_frame m m0 -> In c [400; 404; 500] ->
    wp token_spec (Ret (jsonWith c j))
      (fun r m' h' => (exists h1, h' = h ++ h1) /\ update_outcome id body m r m') m0 (h ++ h1)) as Hret.
  { intros c j m0 h1 H0 Hc. apply wp_token_Ret. intros m' Hm'. assert (token_frame m m') as [Hd Ht] by (by transitivity m0).
    split; [by eexists|]. split; [done|]. by right. }
  unfold handleUpdateRepo.
  apply wp_bind. eapply wp_mono; [|apply wp_token_read]. intros got m1 h1 (H1 & [x1 ->] & flt1 & ->).
  destruct (Db.GetRepo flt1 id (m_db m)) as [existing|e] eqn:Eg; [|apply Hret; [done|cbn; tauto]].
  assert (exists old, t_repos (m_db m) !! id = Some old /\ existing = scanRepo id old) as (old & Hold & ->).
  { unfold Db.GetRepo in Eg. destruct (stmt_error flt1); [done|]. destruct (t_repos (m_db m) !! id) as [row|] eqn:E; [|done].
    injection Eg as <-. by exists row. }
  destruct body as [req|e]; [|apply Hret; [done|cbn; tauto]].
  destruct (update_error ip_literal req) as [msg|] eqn:Ec; [apply Hret; [done|cbn; tauto]|].
  apply wp_bind. eapply wp_mono; [|apply wp_pat]. intros [enc|e] m2 h2 (H2 & [x2 ->] & Henc); rewrite <- app_assoc.
  2: { apply Hret; [by transitivity m1|cbn; tauto]. }
  apply wp_bind. eapply wp_mono; [|apply wp_token_ask]. intros now m3 h3 (H3 & [x3 ->] & _).
  assert (token_frame m m3) as [Hd3 Ht3] by (transitivity m2; [by transitivity m1|done]).
  apply wp_bind. eapply wp_mono; [|apply wp_token_exec]. intros err m4 h4 ([x4 ->] & Ht4 & flt & Ef).
  apply UpdateRepo_spec in Ef. rewrite Hd3 in Ef. rewrite <- !app_assoc. destruct err as [e|].
  { apply Hret; [split; congruence|cbn; tauto]. }
  destruct (Ef old Hold) as [Hnames Hd4].
  apply wp_bind. eapply wp_mono; [|apply wp_token_read]. intros r m5 h5 ([Hd5 Ht5] & [x5 ->] & _).
  rewrite <- !app_assoc. set (resp := match r with Ok repo => _ | Err _ => _ end).
  assert (code resp = 200) as Hcode by (by subst resp; destruct r).
  apply wp_token_Ret. intros m6 [Hd6 Ht6]. split; [by eexists|]. split; [congruence|]. left. split; [done|].
  eexists req, old, _. split_and!; [done|done|done|by apply (patched_updated id)| |].
  - exact Hnames.
  - rewrite Hd6, Hd5, Hd4. reflexivity.
Qed.

(** C16. Changing a repository.  A request answered 200 rewrote exactly the row it
    names, and nobody else has the new name: every field that is given has the
    new value, every other field, the access token, the key and the creation time
    among them, is what it was, and a new access token is stored encrypted.  Any
    other answer (400, 404 or 500) leaves the database as it was. *)
Theorem handleUpdateRepo_outcome o id body n m h :
  (forall n m, token_frame m (o_other o n m)) ->
  (forall X (q : Ask X) h, rand_ok X q (o_answer o X q h)) ->
  exists resp m' h1, run o (handleUpdateRepo ip_literal cryptoKey id body) n m h = Some (resp, m', h ++ h1)
  /\ update_outcome id body m resp m'.
Proof.
  intros Ho Hr. pose proof (wp_run token_spec o _ _ n m h Ho Hr (wp_update id body m h)) as Hw.
  destruct (run _ _ _ _ _) as [[[resp m'] h']|]; [|by destruct Hw].
  destruct Hw as [[h1 ->] Hc]. by exists resp, m', h1.
Qed.

(** ** The general settings *)

Definition value_of (key : string) (d : DB) : option string :=
  match GetSetting NoFault key d with Ok (v, _) => Some v | Err _ => None end.
(** The value of a key once the statements of [l] have run. *)
Definition after (l : list (string * string)) (key : string) (v : option string) : option string :=
  foldl (fun v p => if decide (key = p.1) then Some p.2 else v) v l.
Lemma value_of_SetSetting f now key value k d d' :
  SetSetting f now key value d = (None, d') -> value_of k d' = if decide (k = key) then Some value else value_of k d.
Proof.
  intros E. unfold value_of. pose proof (GetSetting_SetSetting f now key value k d) as H. rewrite E in H.
  cbn [fst snd] in H. rewrite H by done. by case_decide.
Qed.
Lemma SetSetting_failed f now key value d e d' : SetSetting f now key value d = (Some e, d') -> d' = d.
Proof. unfold SetSetting. destruct (stmt_error f); by intros [= _ <-]. Qed.
Lemma wp_write_all l m h :
  wp token_spec (write_all l) (fun failed m' h' => (exists h1, h' = h ++ h1) /\ m_token m' = m_token m
    /\ exists done_ rest, l = done_ ++ rest /\ (forall k, value_of k (m_db m') = after done_ k (value_of k (m_db m)))
       /\ match failed with None => rest = [] | Some _ => rest <> [] end) m h.
Proof.
  revert m h. induction l as [|[key value] l IH]; intros m h; cbn [write_all].
  - apply wp_token_Ret. intros m' [Hd Ht]. split; [by exists []; rewrite app_nil_r|]. split; [done|].
    exists [], []. split_and!; [done| |done]. intros k. by rewrite Hd.
  - apply wp_bind. eapply wp_mono; [|apply wp_token_ask]. intros now m1 h1 ([Hd1 Ht1] & [x1 ->] & _).
    apply wp_bind. eapply wp_mono; [|apply wp_token_exec]. intros err m2 h2 ([x2 ->] & Ht2 & flt & Ef).
    rewrite <- app_assoc. destruct err as [e|].
    + apply SetSetting_failed in Ef. intros m2' [Hd2' Ht2']. split; [done|]. intros [] _. apply wp_Ret_bind.
      rewrite <- app_assoc. apply wp_token_Ret. intros m3 [Hd3 Ht3]. split; [by eexists|].
      split; [congruence|]. exists [], ((key, value) :: l). split_and!; [done| |done]. intros k. cbn. congruence.
    + eapply wp_mono; [|apply IH]. intros failed m3 h3 ([x3 ->] & Ht3 & done_ & rest & -> & Hv & Hf).
      rewrite <- !app_assoc. split; [by eexists|]. split; [congruence|]. exists ((key, value) :: done_), rest.
      split_and!; [done| |done]. intros k. rewrite Hv, (value_of_SetSetting _ _ _ _ _ _ _ Ef), Hd1. done.
Qed.
Lemma after_app l l' key v : after (l ++ l') key v = after l' key (after l key v).
Proof. apply foldl_app. Qed.
Lemma after_given key o k v :
  after (given key o) k v = if String.eqb k key then match o with Some x => Some x | None => v end else v.
Proof.
  destruct o as [x|]; unfold after, given; cbn [foldl fst snd]; destruct (String.eqb_spec k key);
    rewrite ?decide_True, ?decide_False by done; done.
Qed.
(** The value a request gives to a setting; [enc] is the encrypted Infisical token. *)
Definition positive (o : option Z) : option string :=
  match o with Some n => if 0 <? n then Some (Itoa n) else None | None => None end.
Definition requested (req : generalSettingsRequest) (enc : option string) (key : string) : option string :=
  if String.eqb key "infisical_token" then enc
  else if String.eqb key "infisical_project_id" then g_InfisicalProjectID req
  else if String.eqb key "infisical_env" then g_InfisicalEnv req
  else if String.eqb key "infisical_url" then g_InfisicalURL req
  else if String.eqb key "git_user_name" then g_GitUserName req
  else if String.eqb key "git_user_email" then g_GitUserEmail req
  else if String.eqb key "dashboard_token" then nonempty (g_DashboardToken req)
  else if String.eqb key "default_sync_interval" then positive (g_DefaultSyncInterval req)
  else None.
Ltac next_key key := match goal with
  | |- context [String.eqb ?k key] => destruct (String.eqb_spec k key) as [->|]; [reflexivity|]
  end.
Lemma after_updates req enc k v :
  after (updates req enc) k v = match requested req enc k with Some x => Some x | None => v end.
Proof.
  assert (match g_DefaultSyncInterval req with
          | Some n => if 0 <? n then [("default_sync_interval", Itoa n)] else []
          | None => [] end = given "default_sync_interval" (positive (g_DefaultSyncInterval req))) as Hi.
  { unfold positive. destruct (g_DefaultSyncInterval req) as [n|]; [|done]. by destruct (0 <? n). }
  unfold updates. rewrite Hi, !after_app, !after_given. unfold requested.
  next_key "infisical_token"%string. next_key "infisical_project_id"%string. next_key "infisical_env"%string.
  next_key "infisical_url"%string. next_key "git_user_name"%string. next_key "git_user_email"%string.
  next_key "dashboard_token"%string. by destruct (String.eqb k "default_sync_interval").
Qed.
Definition token_stored (tok enc : option string) : Prop :=
  match tok, enc with
  | Some t, Some e => Decrypt cryptoKey e = Ok t
  | None, None => True
  | _, _ => False
  end.
Definition general_outcome (body : result generalSettingsRequest) (m : Mem) (r : Response) (m' : Mem) : Prop :=
  match body with
  | Err _ => code r = 400 /\ token_frame m m'
  | Ok req =>
      (code r = 200 /\ exists enc, token_stored (nonempty (g_InfisicalToken req)) enc
        /\ (forall k, value_of k (m_db m') = match requested req enc k with Some v => Some v | None => value_of k (m_db m) end)
        /\ m_token m' = default (m_token m) (nonempty (g_DashboardToken req))
        /\ (forall t, nonempty (g_DashboardToken req) = Some t -> value_of "dashboard_token" (m_db m') = Some (m_token m'))
        /\ forall n, g_DefaultSyncInterval req = Some n -> 0 < n -> in_int64 n = true ->
             loadDefaultInterval (GetSetting NoFault "default_sync_interval" (m_db m')) = wrap64 (n * Second))
      \/ (code r = 500 /\ m_token m' = m_token m /\ exists enc written rest,
            updates req enc = written ++ rest
            /\ (forall k, value_of k (m_db m') = after written k (value_of k (m_db m))))
  end.
Lemma value_of_Some key d v : value_of key d = Some v -> exists s, GetSetting NoFault key d = Ok (v, s).
Proof. unfold value_of. destruct (GetSetting _ _ _) as [[v' s]|]; [|done]. intros [= ->]. by exists s. Qed.
Lemma interval_stored n d :
  0 < n -> in_int64 n = true -> value_of "default_sync_interval" d = Some (Itoa n) ->
  loadDefaultInterval (GetSetting NoFault "default_sync_interval" d) = wrap64 (n * Second).
Proof.
  intros Hn Hi [s ->]%value_of_Some. unfold loadDefaultInterval. rewrite Atoi_Itoa by done.
  assert (Itoa n <> "") as Hne. { intros E. pose proof (Atoi_Itoa n Hi) as Ha. rewrite E in Ha. done. }
  apply String.eqb_neq in Hne as ->. cbn [negb]. by replace (0 <? n) with true by lia.
Qed.
Lemma wp_write_settings req enc m h :
  token_stored (nonempty (g_InfisicalToken req)) enc ->
  wp token_spec (write_settings req enc)
    (fun r m' h' => (exists h1, h' = h ++ h1) /\ general_outcome (Ok req) m r m') m h.
Proof.
  intros Henc. unfold write_settings. apply wp_bind. eapply wp_mono; [|apply wp_write_all].
  intros failed m1 h1 ([x1 ->] & Ht1 & written & rest & Hu & Hv & Hf). destruct failed as [key|].
  { apply wp_token_Ret. intros m2 [Hd2 Ht2]. split; [by eexists|]. right. split; [done|]. split; [congruence|].
    exists enc, written, rest. split; [done|]. intros k. by rewrite Hd2. }
  subst rest. rewrite app_nil_r in Hu. subst written.
  assert (forall m2, m_db m2 = m_db m1 -> m_token m2 = default (m_token m) (nonempty (g_DashboardToken req)) ->
    general_outcome (Ok req) m ok_response m2) as Hok.
  { intros m2 Hd2 Ht2. left. split; [done|]. exists enc.
    assert (forall k, value_of k (m_db m2) = match requested req enc k with Some v => Some v | None => value_of k (m_db m) end)
      as Hval by (intros k; by rewrite Hd2, Hv, after_updates).
    split_and!; [done..| |].
    - intros t Et. rewrite Hval. change (requested req enc "dashboard_token") with (nonempty (g_DashboardToken req)).
      by rewrite Ht2, Et.
    - intros n En Hn Hi. apply interval_stored; [done..|]. rewrite Hval.
      change (requested req enc "default_sync_interval") with (positive (g_DefaultSyncInterval req)).
      rewrite En. unfold positive. by replace (0 <? n) with true by lia. }
  destruct (nonempty (g_DashboardToken req)) as [t|] eqn:Et.
  - intros m2 [Hd2 Ht2]. split; [done|]. intros m3 [Hd3 Ht3]. split; [by eexists|].
    apply Hok; [by rewrite Hd3; cbn; rewrite Hd2|by rewrite Ht3].
  - intros m2 [Hd2 Ht2]. split; [by eexists|]. apply Hok; [done|]. cbn. congruence.
Qed.
Lemma wp_general body m h :
  wp token_spec (handleUpdateGeneralSettings cryptoKey body)
    (fun r m' h' => (exists h1, h' = h ++ h1) /\ general_outcome body m r m') m h.
Proof.
  unfold handleUpdateGeneralSettings. destruct body as [req|e].
  2: { apply wp_token_Ret. intros m' Hm'. split; [by exists []; rewrite app_nil_r|]. by split. }
  destruct (nonempty (g_InfisicalToken req)) as [t|] eqn:Et; [|by apply wp_write_settings; rewrite Et].
  apply wp_bind. eapply wp_mono; [|apply wp_encrypt]. intros [enc|e] m1 h1 ([Hd1 Ht1] & [x1 ->] & Henc).
  - eapply wp_mono; [|apply (wp_write_settings req (Some enc)); by rewrite Et].
    intros r m' h' [[x ->] Ho]. split; [rewrite <- app_assoc; by eexists|].
    unfold general_outcome in *. by rewrite Ht1, Hd1 in Ho.
  - apply wp_token_Ret. intros m' [Hd Ht]. split; [by eexists|]. right. split; [done|]. split; [congruence|].
    exists None, [], (updates req None). split; [done|]. intros k. cbn. congruence.
Qed.

(** C14. Changing the general settings.  The request always comes to an end.  A
    response of 200 means that every setting given was stored with its value (the
    Infisical token encrypted, so that it decrypts to what was sent), that every
    other setting is what it was, that the live dashboard token is the one stored
    if one was given and unchanged otherwise, and that the next tick reads the
    interval that was given.  A body that does not parse is answered 400 and
    changes nothing; on a failure (500) the live token has not changed, and the
    settings stored are a prefix of those given. *)
Theorem handleUpdateGeneralSettings_outcome o body n m h :
  (forall n m, token_frame m (o_other o n m)) ->
  (forall X (q : Ask X) h, rand_ok X q (o_answer o X q h)) ->
  exists resp m' h1, run o (handleUpdateGeneralSettings cryptoKey body) n m h = Some (resp, m', h ++ h1)
  /\ general_outcome body m resp m'.
Proof.
  intros Ho Hr. pose proof (wp_run token_spec o _ _ n m h Ho Hr (wp_general body m h)) as Hw.
  destruct (run _ _ _ _ _) as [[[resp m'] h']|]; [|by destruct Hw].
  destruct Hw as [[h1 ->] Hc]. by exists resp, m', h1.
Qed.
End registration.

(** ** Concrete requests *)

Definition demo_secret_key : string := "0123456789abcdef".
Definition demo_request : repoRequest :=
  {| q_Name := "home"; q_URL := "https://github.com/a/b"; q_Branch := ""; q_Remote := ""; q_AuthType := "pat";
     q_SSHKeyID := ""; q_PAT := "hunter2"; q_StacksDir := ""; q_SyncInterval := 0; q_Enabled := None |}.
Definition demo_settings : generalSettingsRequest :=
  {| g_InfisicalToken := Some "s3cret"; g_InfisicalProjectID := None; g_InfisicalEnv := Some "prod"; g_InfisicalURL := None;
     g_GitUserName := None; g_GitUserEmail := None; g_DashboardToken := Some "t0ken"; g_DefaultSyncInterval := Some 300 |}.
Definition migrated : Mem := set_db (migrate_up 0 0 emptyDB) emptyMem.
Definition with_one (id : string) : Mem :=
  set_db (with_repos {[id := row_of (new_repo demo_request "") (format_datetime 0) (format_datetime 0)]} emptyDB) emptyMem.
Lemma demo_rand X (q : Ask X) h : rand_ok X q (o_answer demo_oracle X q h).
Proof. destruct q; try exact I. apply repeat_length_string. Qed.

(** The result of a run, from what a computation says of it. *)
Definition result_of {B} (r : option (B * Mem * list Act)) : option B := fst <$> (fst <$> r).
Lemma answered_code {B C} (f : B -> C) c r {m h} :
  r = Some (c, m, h) -> forall x, f <$> result_of r = Some x -> f c = x.
Proof. intros -> x [=]. done. Qed.

(** A request with an access token is accepted and stored. *)
Lemma handleCreateRepo_outcome_witness : exists resp m' h1,
  run demo_oracle (handleCreateRepo no_ip demo_secret_key (Ok demo_request)) 0 migrated [] = Some (resp, m', [] ++ h1)
  /\ code <$> resp = Some 201
  /\ create_outcome no_ip demo_secret_key (Ok demo_request) migrated resp m' h1.
Proof.
  destruct (handleCreateRepo_outcome no_ip demo_secret_key demo_oracle (Ok demo_request) 0 migrated [])
    as (resp & m' & h1 & Hrun & Hout); [intros n m; reflexivity|exact demo_rand|].
  exists resp, m', h1. split; [exact Hrun|]. split; [|exact Hout].
  by apply (answered_code _ _ _ Hrun); vm_compute.
Defined.
Lemma handleUpdateRepo_outcome_witness : exists resp m' h1,
  run demo_oracle (handleUpdateRepo no_ip demo_secret_key "id1" (Ok demo_request)) 0 (with_one "id1") [] = Some (resp, m', [] ++ h1)
  /\ code resp = 200
  /\ update_outcome no_ip demo_secret_key "id1" (Ok demo_request) (with_one "id1") resp m'.
Proof.
  destruct (handleUpdateRepo_outcome no_ip demo_secret_key demo_oracle "id1" (Ok demo_request) 0 (with_one "id1") [])
    as (resp & m' & h1 & Hrun & Hout); [intros n m; reflexivity|exact demo_rand|].
  exists resp, m', h1. split; [exact Hrun|]. split; [|exact Hout].
  by apply (answered_code _ _ _ Hrun); vm_compute.
Defined.
Lemma handleUpdateGeneralSettings_outcome_witness : exists resp m' h1,
  run demo_oracle (handleUpdateGeneralSettings demo_secret_key (Ok demo_settings)) 0 migrated [] = Some (resp, m', [] ++ h1)
  /\ code resp = 200
  /\ general_outcome demo_secret_key (Ok demo_settings) migrated resp m'.
Proof.
  destruct (handleUpdateGeneralSettings_outcome demo_secret_key demo_oracle (Ok demo_settings) 0 migrated [])
    as (resp & m' & h1 & Hrun & Hout); [intros n m; reflexivity|exact demo_rand|].
  exists resp, m', h1. split; [exact Hrun|]. split; [|exact Hout].
  by apply (answered_code _ _ _ Hrun); vm_compute.
Defined.

(** The loop of statements is not a transaction: when the interval cannot be
    written, the new token is already stored, and the live one is the old one. *)
Definition faults (h : list Act) : nat :=
  length (filter (fun a => match a_ask a with DbFault => true | _ => false end = true) h).
Definition failing_at (k : nat) : Oracle :=
  {| o_answer := fun X q h =>
       (match q in Ask X return X -> X with
        | DbFault => fun x => if Nat.eqb (faults h) k then StmtFault "database is locked" else x
        | _ => fun x => x
        end) (demo_answer X q);
     o_other := fun _ m => m |}.
Example token_out_of_sync :
  match run (failing_at 3) (handleUpdateGeneralSettings demo_secret_key (Ok demo_settings)) 0 (set_token "old" migrated) [] with
  | Some (resp, m', _) =>
      code resp = 500 /\ m_token m' = "old" /\ value_of "dashboard_token" (m_db m') = Some "t0ken"
  | None => False
  end.
Proof. vm_compute. done. Qed.
