(* ===== verification/Round.v ===== *)
(** * Which repositories a round synchronises

    [doSyncRound] walks over the repositories of the database and decides for each
    of them whether it is synchronised; the select arm of the main loop walks over
    them again for the names it was woken with.  What a walk does to a repository
    is a matter of its own entries in the store, the backoffs and the schedule. *)
From Stdlib Require Import Ascii.
From S2P Require Import Prelude GoStrings GitRef Crypto State Sched Metrics Db Effects Git Docker Stacks Sync Footprint Applying Pull Locking Outcome.

(** ** What the main goroutine knows of one repository *)

Definition Entry : Type := option RepoState * syncBackoff * option Time.
Definition entry (name : string) (m : Mem) : Entry :=
  (repos (m_store m) !! name, getBackoff name (m_backoffs m), m_nextDue m !! name).
Definition en_repo (e : Entry) : RepoState := default zeroRepo (fst (fst e)).



(** Nothing that the main goroutine reads has changed. *)
Definition same_entries (m m' : Mem) : Prop :=
  infisical (m_store m') = infisical (m_store m) /\ forall n, entry n m' = entry n m.
#[export] Instance same_entries_pre : PreOrder same_entries.
Proof. split; [done|]. intros m1 m2 m3 [I12 E12] [I23 E23]. split; [congruence|]. intros n. by rewrite E23. Qed.

(** ** One synchronisation, seen from the entry *)


Section round.
Context `{A : AEAD} (cloneDir cryptoKey sshTempDir : string) (t : nat).




(** ** Walks over the repositories *)



(** *** A round *)


(** *** The repositories the loop was woken for *)


End round.

(** ** One turn of the main loop *)

Section loop.
Context `{A : AEAD} (cloneDir cryptoKey sshTempDir : string) (t : nat) (fuel : nat).
(** The databases there may be during the turn. *)
Context (database : DB -> Prop).






End loop.

(** ** Running it *)

(** A database with an enabled and a disabled repository. *)
Definition demo_row (name url : string) (enabled : bool) : repo_row :=
  row_of {| r_ID := ""; r_Name := name; r_URL := url; r_Branch := "main"; r_Remote := "origin";
            r_AuthType := "none"; r_SSHKeyID := ""; r_PATEnc := ""; r_StacksDir := "."; r_SyncInterval := 0;
            r_Enabled := enabled; r_CreatedAt := 0; r_UpdatedAt := 0 |} (format_datetime 0) (format_datetime 0).
Definition demo_db : DB :=
  {| t_repos := <["1" := demo_row "home" "https://github.com/me/home" true]>
                (<["2" := demo_row "work" "https://github.com/me/work" false]> ∅); t_keys := ∅; t_settings := ∅ |}.
Definition demo_mem : Mem := set_db demo_db emptyMem.
Definition demo_turn : prog bool := main_turn "/d" "k" "/d/.ssh" 7 15.
Example demo_turn_runs :
  match run demo_oracle (bind demo_turn (fun _ => demo_turn)) 0 demo_mem [] with
  | Some (go_on, m, h) =>
      go_on = true /\ rs_LastSHA (en_repo (entry "home" m)) = "c0ffee" /\ fst (fst (entry "work" m)) = None
      /\ filter (fun e => fst (fst e) = "pulling") (events h) = [("pulling", "home", "")]
  | None => False
  end.
Proof. vm_compute. done. Qed.

(** The loop was woken after it had listed the repositories, and the address of one
    was changed in between: the pull still uses the old one. *)
Definition moved_db : DB :=
  {| t_repos := {["1" := demo_row "home" "https://example.org/moved" true]}; t_keys := ∅; t_settings := ∅ |}.
Definition woken_answer X (q : Ask X) : X :=
  match q in Ask X return X -> X with Select => fun _ => Trigger | Stat _ => fun _ => false | _ => fun x => x end (demo_answer X q).
Definition moving : Oracle :=
  {| o_answer := fun X q _ => woken_answer X q; o_other := fun n m => if Nat.ltb 2 n then set_db moved_db m else m |}.
Definition scheduled_mem : Mem := set_nextDue (fun _ => {["home" := 10 ^ 30]}) (set_trigger ["home"] demo_mem).
Example woken_with_old_row :
  match run moving demo_turn 0 scheduled_mem [] with
  | Some (_, m, h) =>
      m_db m = moved_db
      /\ filter (fun c => "https://github.com/me/home" ∈ cmd_args c) (cmds h) <> []
      /\ filter (fun c => "https://example.org/moved" ∈ cmd_args c) (cmds h) = []
  | None => False
  end.
Proof. vm_compute. done. Qed.
